(** * Virtual Network Embedding simulator: resource model, embedding
      strategies and the discrete-event loop

    A shallow embedding of the Python sources
      - [src/simulation/simulation.py]   (allocate / deallocate / event loop)
      - [src/algorithms/greedy.py]       (greedy embedding)
      - [src/algorithms/noderank.py]     (NodeRank fixed point)
      - [src/algorithms/rw_maxmatch.py]  (rank-ordered matching)
      - [src/algorithms/rw_bfs.py]       (rank-guided BFS with backtracking)
      - [src/algorithms/yu_baseline.py]  (chunked baseline)

    Conventions.  Python [int]s are [Z]; node labels are [nat]; a [dict] is an
    association list in insertion order; an uncaught exception ([KeyError] on
    a missing node, edge or attribute) is [None] in the [option] monad; the
    Python [float]s of NodeRank are the kernel's binary64 floats. *)

From Stdlib Require Import ZArith List Bool Lia PeanoNat Sorted Permutation Floats.
From Stdlib Require Uint63.
Import ListNotations.

Set Implicit Arguments.

(* ===================================================================== *)
(** * Part I: the program                                                 *)
(* ===================================================================== *)

(** ** Python preliminaries *)

Declare Scope py_scope.
Delimit Scope py_scope with py.
Open Scope py_scope.

(** Sequencing of computations that may raise. *)
Notation "x <- e ;; k" :=
  (match e with Some x => k | None => None end)
    (at level 61, e at next level, right associativity) : py_scope.

(** Keys of dictionaries: types with a boolean equality, as Python's
    [__eq__] on ints and tuples of ints. *)
Class Key (K : Type) := {
  keyb : K -> K -> bool;
  keyb_eq : forall a b, keyb a b = true <-> a = b
}.

#[export] Program Instance Key_nat : Key nat := {| keyb := Nat.eqb |}.
Next Obligation. apply Nat.eqb_eq. Qed.

#[export] Program Instance Key_pair {A B} `{Key A} `{Key B} : Key (A * B) :=
  {| keyb := fun p q => keyb (fst p) (fst q) && keyb (snd p) (snd q) |}.
Next Obligation.
  rewrite andb_true_iff, !keyb_eq. simpl. split.
  - intros [-> ->]. reflexivity.
  - intros E. inversion E. auto.
Qed.

Section Dict.
Context {K V : Type} `{Key K}.

(** A [dict]: keys are unique, iteration is in insertion order. *)
Definition dict := list (K * V).

Fixpoint dict_get (d : dict) (k : K) : option V :=
  match d with
  | [] => None
  | (k', v) :: d' => if keyb k' k then Some v else dict_get d' k
  end.

(** [d[k] = v]: overwrite in place, or append a new key. *)
Fixpoint dict_set (d : dict) (k : K) (v : V) : dict :=
  match d with
  | [] => [(k, v)]
  | (k', v') :: d' =>
      if keyb k' k then (k', v) :: d' else (k', v') :: dict_set d' k v
  end.

(** [del d[k]] / [d.pop(k)] on a key that is present. *)
Definition dict_del (d : dict) (k : K) : dict :=
  filter (fun e => negb (keyb (fst e) k)) d.

Definition dict_keys (d : dict) : list K := map fst d.
Definition dict_values (d : dict) : list V := map snd d.
Definition dict_mem (d : dict) (k : K) : bool :=
  existsb (fun e => keyb (fst e) k) d.

(** Apply [f] to the value stored under [k] (no effect on other keys). *)
Definition dict_alter (f : V -> V) (k : K) (d : dict) : dict :=
  map (fun e => if keyb (fst e) k then (fst e, f (snd e)) else e) d.
End Dict.

Arguments dict : clear implicits.

(** [x in l] for a list or a [dict.values()] view. *)
Definition mem {K} `{Key K} (x : K) (l : list K) : bool :=
  existsb (fun y => keyb y x) l.

(** [sorted(l, key=key)] and [sorted(l, key=key, reverse=True)].  Python's sort
    is stable in both directions, and insertion from the right is the stable
    sort; [ltb] is the [<] of the keys. *)
Section Sorting.
Context {A Kt : Type} (ltb : Kt -> Kt -> bool) (key : A -> Kt).

Fixpoint insert_asc (x : A) (l : list A) : list A :=
  match l with
  | [] => [x]
  | y :: l' => if ltb (key y) (key x) then y :: insert_asc x l' else x :: l
  end.

Fixpoint insert_desc (x : A) (l : list A) : list A :=
  match l with
  | [] => [x]
  | y :: l' => if ltb (key x) (key y) then y :: insert_desc x l' else x :: l
  end.

Definition sorted_asc (l : list A) : list A := fold_right insert_asc [] l.
Definition sorted_desc (l : list A) : list A := fold_right insert_desc [] l.
End Sorting.

(** ** networkx graphs with the attributes this program reads and writes *)

Definition node := nat.

Record NodeAttrs := {
  cpu : option Z;
  cpu_available : option Z;
  cpu_req : option Z
}.

Record EdgeAttrs := {
  bandwidth : option Z;
  bandwidth_available : option Z;
  bandwidth_req : option Z
}.

(** An undirected [nx.Graph]: the node table in insertion order, and every
    edge once, in the order of [add_edge]. *)
Record Graph := {
  nodes : dict node NodeAttrs;
  edges : list ((node * node) * EdgeAttrs)
}.

Definition same_edge (e f : node * node) : bool :=
  (Nat.eqb (fst e) (fst f) && Nat.eqb (snd e) (snd f))
  || (Nat.eqb (fst e) (snd f) && Nat.eqb (snd e) (fst f)).

(** [G.nodes()]. *)
Definition node_list (g : Graph) : list node := dict_keys (nodes g).

(** [G.nodes[n]] and [G.edges[u, v]] (either orientation). *)
Definition node_attrs (g : Graph) (n : node) : option NodeAttrs :=
  dict_get (nodes g) n.

Definition edge_attrs (g : Graph) (e : node * node) : option EdgeAttrs :=
  option_map snd (find (fun x => same_edge (fst x) e) (edges g)).

(** [G.neighbors(n)]: adjacency in the order the incident edges were added. *)
Definition neighbors (g : Graph) (n : node) : list node :=
  flat_map (fun x =>
              let '(u, v) := fst x in
              if Nat.eqb u n then [v] else if Nat.eqb v n then [u] else [])
           (edges g).

(** [G.edges()]: for each node in node order, its not-yet-seen neighbours. *)
Fixpoint edges_from (g : Graph) (ns seen : list node) : list (node * node) :=
  match ns with
  | [] => []
  | n :: ns' =>
      map (pair n) (filter (fun nbr => negb (mem nbr seen)) (neighbors g n))
          ++ edges_from g ns' (n :: seen)
  end.

Definition edge_list (g : Graph) : list (node * node) :=
  edges_from g (node_list g) [].

(** [(u, v) in G.edges()]. *)
Definition has_edge (g : Graph) (e : node * node) : bool :=
  existsb (fun x => same_edge (fst x) e) (edges g).

(** Attribute reads with [[...]] (raise when absent). *)
Definition get_cpu_available (g : Graph) (n : node) : option Z :=
  a <- node_attrs g n ;; cpu_available a.

Definition get_cpu_req (g : Graph) (n : node) : option Z :=
  a <- node_attrs g n ;; cpu_req a.

Definition get_bandwidth_available (g : Graph) (e : node * node) : option Z :=
  a <- edge_attrs g e ;; bandwidth_available a.

Definition get_bandwidth_req (g : Graph) (e : node * node) : option Z :=
  a <- edge_attrs g e ;; bandwidth_req a.

(** Attribute writes. *)
Definition with_cpu_available (f : Z -> Z) (a : NodeAttrs) : NodeAttrs :=
  {| cpu := cpu a;
     cpu_available := option_map f (cpu_available a);
     cpu_req := cpu_req a |}.

Definition with_bandwidth_available (f : Z -> Z) (a : EdgeAttrs) : EdgeAttrs :=
  {| bandwidth := bandwidth a;
     bandwidth_available := option_map f (bandwidth_available a);
     bandwidth_req := bandwidth_req a |}.

Definition alter_cpu_available (f : Z -> Z) (n : node) (g : Graph) : Graph :=
  {| nodes := dict_alter (with_cpu_available f) n (nodes g);
     edges := edges g |}.

Definition alter_bandwidth_available (f : Z -> Z) (e : node * node) (g : Graph)
  : Graph :=
  {| nodes := nodes g;
     edges := map (fun x => if same_edge (fst x) e
                            then (fst x, with_bandwidth_available f (snd x))
                            else x) (edges g) |}.

(** [G.nodes[n]['cpu_available'] -= r] and [+= r]. *)
Definition cpu_available_sub (g : Graph) (n : node) (r : Z) : option Graph :=
  _ <- get_cpu_available g n ;;
  Some (alter_cpu_available (fun c => c - r)%Z n g).

Definition cpu_available_add (g : Graph) (n : node) (r : Z) : option Graph :=
  _ <- get_cpu_available g n ;;
  Some (alter_cpu_available (fun c => c + r)%Z n g).

(** [G.edges[e]['bandwidth_available'] -= r] and [+= r].  In simulation.py the
    edge is looked up as [(a, b)] when [(a, b) in G.edges()] and as [(b, a)]
    otherwise; on an undirected graph both name the same entry, and the
    second raises when the edge is absent. *)
Definition bandwidth_available_sub (g : Graph) (e : node * node) (r : Z)
  : option Graph :=
  _ <- get_bandwidth_available g e ;;
  Some (alter_bandwidth_available (fun b => b - r)%Z e g).

Definition bandwidth_available_add (g : Graph) (e : node * node) (r : Z)
  : option Graph :=
  _ <- get_bandwidth_available g e ;;
  Some (alter_bandwidth_available (fun b => b + r)%Z e g).

(** ** simulation.py: allocation and deallocation *)

Definition NodeMapping := dict node node.
Definition LinkMapping := dict (node * node) (list node).

Fixpoint allocate_cpu (substrate vnr : Graph) (items : list (node * node))
  : option Graph :=
  match items with
  | [] => Some substrate
  | (v_node, s_node) :: rest =>
      r <- get_cpu_req vnr v_node ;;
      s' <- cpu_available_sub substrate s_node r ;;
      allocate_cpu s' vnr rest
  end.

(** [for i in range(len(s_path) - 1)]: one debit per consecutive pair. *)
Fixpoint allocate_path (substrate : Graph) (bw_req : Z) (s_path : list node)
  : option Graph :=
  match s_path with
  | a :: ((b :: _) as tl) =>
      s' <- bandwidth_available_sub substrate (a, b) bw_req ;;
      allocate_path s' bw_req tl
  | _ => Some substrate
  end.

Fixpoint allocate_bw (substrate vnr : Graph)
         (items : list ((node * node) * list node)) : option Graph :=
  match items with
  | [] => Some substrate
  | (v_edge, s_path) :: rest =>
      bw <- get_bandwidth_req vnr v_edge ;;
      s' <- allocate_path substrate bw s_path ;;
      allocate_bw s' vnr rest
  end.

Definition allocate_resources (substrate : Graph) (node_mapping : NodeMapping)
           (link_mapping : LinkMapping) (vnr : Graph) : option Graph :=
  s1 <- allocate_cpu substrate vnr node_mapping ;;
  allocate_bw s1 vnr link_mapping.

Fixpoint deallocate_cpu (substrate vnr : Graph) (items : list (node * node))
  : option Graph :=
  match items with
  | [] => Some substrate
  | (v_node, s_node) :: rest =>
      r <- get_cpu_req vnr v_node ;;
      s' <- cpu_available_add substrate s_node r ;;
      deallocate_cpu s' vnr rest
  end.

Fixpoint deallocate_path (substrate : Graph) (bw_req : Z) (s_path : list node)
  : option Graph :=
  match s_path with
  | a :: ((b :: _) as tl) =>
      s' <- bandwidth_available_add substrate (a, b) bw_req ;;
      deallocate_path s' bw_req tl
  | _ => Some substrate
  end.

Fixpoint deallocate_bw (substrate vnr : Graph)
         (items : list ((node * node) * list node)) : option Graph :=
  match items with
  | [] => Some substrate
  | (v_edge, s_path) :: rest =>
      bw <- get_bandwidth_req vnr v_edge ;;
      s' <- deallocate_path substrate bw s_path ;;
      deallocate_bw s' vnr rest
  end.

Definition deallocate_resources (substrate : Graph) (node_mapping : NodeMapping)
           (link_mapping : LinkMapping) (vnr : Graph) : option Graph :=
  s1 <- deallocate_cpu substrate vnr node_mapping ;;
  deallocate_bw s1 vnr link_mapping.

(** ** The networkx path queries the strategies call

    networkx is an external library: its three path queries are an interface
    here.  [None] (or the empty enumeration) stands for [nx.NetworkXNoPath]. *)
Class Networkx := {
  (** [nx.shortest_path(G, s, t)] *)
  shortest_path : Graph -> node -> node -> option (list node);
  (** [nx.shortest_path_length(G, s, t)] *)
  shortest_path_length : Graph -> node -> node -> option nat;
  (** [nx.shortest_simple_paths(G, s, t)], in order of increasing length *)
  shortest_simple_paths : Graph -> node -> node -> list (list node)
}.

(** A strategy returns [(node_mapping, link_mapping, success)]; either mapping
    may be Python's [None]. *)
Definition Embedding : Type :=
  option NodeMapping * option LinkMapping * bool.

Definition embedding_failed : Embedding := (None, None, false).

Fixpoint mapM {A B} (f : A -> option B) (l : list A) : option (list B) :=
  match l with
  | [] => Some []
  | x :: l' => y <- f x ;; ys <- mapM f l' ;; Some (y :: ys)
  end.

(** [sorted(l, key=f, reverse=True)] for an integer key that may raise: the
    keys are computed once, up front. *)
Definition sorted_desc_by {A} (f : A -> option Z) (l : list A)
  : option (list A) :=
  keyed <- mapM (fun x => k <- f x ;; Some (k, x)) l ;;
  Some (map snd (sorted_desc Z.ltb fst keyed)).

(** The bandwidth pre-check along a path ([greedy.py] lines 40-50): stops at
    the first edge that is too small. *)
Fixpoint path_can_allocate (substrate : Graph) (bw_req : Z) (path : list node)
  : option bool :=
  match path with
  | a :: ((b :: _) as tl) =>
      bw <- get_bandwidth_available substrate (a, b) ;;
      if (bw <? bw_req)%Z then Some false
      else path_can_allocate substrate bw_req tl
  | _ => Some true
  end.

(** ** greedy.py *)

Section Greedy.
Context `{Networkx}.

(** The scan over the sorted substrate nodes for one virtual node. *)
Fixpoint greedy_pick (substrate : Graph) (node_mapping : NodeMapping)
         (cpu_req : Z) (substrate_nodes : list node) : option (option node) :=
  match substrate_nodes with
  | [] => Some None
  | s_node :: rest =>
      if mem s_node (dict_values node_mapping)
      then greedy_pick substrate node_mapping cpu_req rest
      else
        c <- get_cpu_available substrate s_node ;;
        if (c >=? cpu_req)%Z then Some (Some s_node)
        else greedy_pick substrate node_mapping cpu_req rest
  end.

(** Phase 1.  The inner [None] is the early [return None, None, False]. *)
Fixpoint greedy_node_mapping (substrate vnr : Graph)
         (substrate_nodes v_nodes : list node) (node_mapping : NodeMapping)
  : option (option NodeMapping) :=
  match v_nodes with
  | [] => Some (Some node_mapping)
  | v_node :: rest =>
      cpu_req <- get_cpu_req vnr v_node ;;
      pick <- greedy_pick substrate node_mapping cpu_req substrate_nodes ;;
      match pick with
      | Some s_node =>
          greedy_node_mapping substrate vnr substrate_nodes rest
                              (dict_set node_mapping v_node s_node)
      | None => Some None
      end
  end.

(** Phase 2. *)
Fixpoint greedy_link_mapping (substrate vnr : Graph)
         (node_mapping : NodeMapping) (v_edges : list (node * node))
         (link_mapping : LinkMapping) : option (option LinkMapping) :=
  match v_edges with
  | [] => Some (Some link_mapping)
  | v_edge :: rest =>
      s_src <- dict_get node_mapping (fst v_edge) ;;
      s_dst <- dict_get node_mapping (snd v_edge) ;;
      bw_req <- get_bandwidth_req vnr v_edge ;;
      match shortest_path substrate s_src s_dst with
      | None => Some None
      | Some path =>
          can_allocate <- path_can_allocate substrate bw_req path ;;
          if can_allocate
          then greedy_link_mapping substrate vnr node_mapping rest
                                   (dict_set link_mapping v_edge path)
          else Some None
      end
  end.

Definition simple_greedy_algorithm (substrate vnr : Graph)
  : option Embedding :=
  substrate_nodes <-
    sorted_desc_by (get_cpu_available substrate) (node_list substrate) ;;
  nm <- greedy_node_mapping substrate vnr substrate_nodes (node_list vnr) [] ;;
  match nm with
  | None => Some embedding_failed
  | Some node_mapping =>
      lm <- greedy_link_mapping substrate vnr node_mapping (edge_list vnr) [] ;;
      match lm with
      | None => Some embedding_failed
      | Some link_mapping => Some (Some node_mapping, Some link_mapping, true)
      end
  end.
End Greedy.

(** ** simulation.py: the discrete-event loop *)

(** A request: the VNR graph with its [graph] attributes.  [obj_id] is the
    identity of the Python object (two requests may carry equal data). *)
Record VNR := {
  obj_id : nat;
  vnr_graph : Graph;
  vnr_id : nat;
  arrival_time : Z;
  lifetime : Z
}.

Inductive Event :=
| ARRIVAL (time : Z) (vnr : VNR)
| DEPARTURE (time : Z) (id : nat).

Definition event_time (e : Event) : Z :=
  match e with ARRIVAL t _ => t | DEPARTURE t _ => t end.

Record Result := {
  res_vnr_id : nat;
  res_arrival_time : Z;
  res_success : bool;
  res_node_mapping : option NodeMapping;
  res_link_mapping : option LinkMapping;
  res_currently_active : nat
}.

Record SimState := {
  substrate_working : Graph;
  events : list Event;
  (** index of the [for event in events] iterator *)
  position : nat;
  active_embeddings : dict nat (NodeMapping * LinkMapping * VNR);
  results : list Result
}.

(** [cpu_available := cpu] on every node, [bandwidth_available := bandwidth]
    on every edge. *)
Definition reset_available (substrate : Graph) : option Graph :=
  ns <- mapM (fun e : node * NodeAttrs =>
                c <- cpu (snd e) ;;
                Some (fst e, {| cpu := cpu (snd e);
                                cpu_available := Some c;
                                cpu_req := cpu_req (snd e) |})) (nodes substrate) ;;
  es <- mapM (fun e : (node * node) * EdgeAttrs =>
                b <- bandwidth (snd e) ;;
                Some (fst e, {| bandwidth := bandwidth (snd e);
                                bandwidth_available := Some b;
                                bandwidth_req := bandwidth_req (snd e) |}))
             (edges substrate) ;;
  Some {| nodes := ns; edges := es |}.

Definition sort_events (evs : list Event) : list Event :=
  sorted_asc Z.ltb event_time evs.

Definition sim_init (substrate : Graph) (vnr_queue : list VNR)
  : option SimState :=
  g <- reset_available substrate ;;
  Some {| substrate_working := g;
          events := sort_events
                      (map (fun v => ARRIVAL (arrival_time v) v) vnr_queue);
          position := 0;
          active_embeddings := [];
          results := [] |}.

Section Simulation.
Variable algorithm_func : Graph -> Graph -> option Embedding.

Definition on_arrival (current_time : Z) (vnr : VNR) (st : SimState)
  : option SimState :=
  emb <- algorithm_func (substrate_working st) (vnr_graph vnr) ;;
  let '(node_mapping, link_mapping, success) := emb in
  st1 <-
    (if success then
       nm <- node_mapping ;;
       lm <- link_mapping ;;
       g <- allocate_resources (substrate_working st) nm lm (vnr_graph vnr) ;;
       let departure_time := (current_time + lifetime vnr)%Z in
       Some {| substrate_working := g;
               events := sort_events
                           (events st ++ [DEPARTURE departure_time (vnr_id vnr)]);
               position := position st;
               active_embeddings :=
                 dict_set (active_embeddings st) (vnr_id vnr) (nm, lm, vnr);
               results := results st |}
     else Some st) ;;
  Some {| substrate_working := substrate_working st1;
          events := events st1;
          position := position st1;
          active_embeddings := active_embeddings st1;
          results :=
            results st1 ++
            [{| res_vnr_id := vnr_id vnr;
                res_arrival_time := current_time;
                res_success := success;
                res_node_mapping := node_mapping;
                res_link_mapping := link_mapping;
                res_currently_active := length (active_embeddings st1) |}] |}.

Definition on_departure (id : nat) (st : SimState) : option SimState :=
  match dict_get (active_embeddings st) id with
  | None => Some st
  | Some (node_mapping, link_mapping, vnr) =>
      g <- deallocate_resources (substrate_working st)
                                node_mapping link_mapping (vnr_graph vnr) ;;
      Some {| substrate_working := g;
              events := events st;
              position := position st;
              active_embeddings := dict_del (active_embeddings st) id;
              results := results st |}
  end.

(** One turn of [for event in events]: the iterator yields the element at
    its index in the list as it is now, and moves on. *)
Inductive Turn :=
| Exhausted
| Raised
| Processed (e : Event) (st' : SimState).

Definition sim_turn (st : SimState) : Turn :=
  match nth_error (events st) (position st) with
  | None => Exhausted
  | Some e =>
      let st0 := {| substrate_working := substrate_working st;
                    events := events st;
                    position := S (position st);
                    active_embeddings := active_embeddings st;
                    results := results st |} in
      match (match e with
             | ARRIVAL t vnr => on_arrival t vnr st0
             | DEPARTURE _ id => on_departure id st0
             end) with
      | Some st' => Processed e st'
      | None => Raised
      end
  end.

(** The first [n] turns: the events processed, in order, and the state
    reached (the run stops early when the iterator is exhausted or an
    exception escapes). *)
Fixpoint sim_run (n : nat) (st : SimState) : list Event * SimState :=
  match n with
  | 0 => ([], st)
  | S n' =>
      match sim_turn st with
      | Processed e st' =>
          let '(tr, fin) := sim_run n' st' in (e :: tr, fin)
      | _ => ([], st)
      end
  end.

(** [vne_simulation]: runs until the event list is exhausted.  [None] when an
    exception escapes or [fuel] turns do not suffice. *)
Fixpoint sim_loop (fuel : nat) (st : SimState) : option (list Result) :=
  match sim_turn st with
  | Exhausted => Some (results st)
  | Raised => None
  | Processed _ st' =>
      match fuel with
      | 0 => None
      | S fuel' => sim_loop fuel' st'
      end
  end.

Definition vne_simulation (fuel : nat) (substrate : Graph)
           (vnr_queue : list VNR) : option (list Result) :=
  st <- sim_init substrate vnr_queue ;;
  sim_loop fuel st.

(** The states a run passes through. *)
Definition reachable (substrate : Graph) (vnr_queue : list VNR)
           (st : SimState) : Prop :=
  exists st0 n, sim_init substrate vnr_queue = Some st0
                /\ snd (sim_run n st0) = st.
End Simulation.

(** ** A reference implementation of the path queries

    Simple paths are enumerated depth-first and ordered by length; the order
    among paths of equal length is networkx's own business, so the examples
    below use substrates on which it cannot matter. *)

Fixpoint simple_paths_from (g : Graph) (fuel : nat) (visited : list node)
         (cur target : node) : list (list node) :=
  if Nat.eqb cur target then [[cur]]
  else
    match fuel with
    | 0 => []
    | S fuel' =>
        flat_map
          (fun nb =>
             if mem nb (cur :: visited) then []
             else map (cons cur)
                      (simple_paths_from g fuel' (cur :: visited) nb target))
          (neighbors g cur)
    end.

Definition all_simple_paths (g : Graph) (s t : node) : list (list node) :=
  if mem s (node_list g) && mem t (node_list g)
  then simple_paths_from g (length (nodes g)) [] s t
  else [].

Definition by_length (g : Graph) (s t : node) : list (list node) :=
  sorted_asc Nat.ltb (@length node) (all_simple_paths g s t).

Definition reference_paths : Networkx := {|
  shortest_path := fun g s t => hd_error (by_length g s t);
  shortest_path_length :=
    fun g s t => option_map (fun p => pred (length p)) (hd_error (by_length g s t));
  shortest_simple_paths := by_length
|}.

(** ** Example data *)

Definition substrate_node (c : Z) : NodeAttrs :=
  {| cpu := Some c; cpu_available := None; cpu_req := None |}.
Definition substrate_edge (b : Z) : EdgeAttrs :=
  {| bandwidth := Some b; bandwidth_available := None; bandwidth_req := None |}.
Definition virtual_node (c : Z) : NodeAttrs :=
  {| cpu := None; cpu_available := None; cpu_req := Some c |}.
Definition virtual_edge (b : Z) : EdgeAttrs :=
  {| bandwidth := None; bandwidth_available := None; bandwidth_req := Some b |}.

(** A three-node line 0 - 1 - 2, capacities in the generator's range. *)
Definition line3 : Graph :=
  {| nodes := [(0, substrate_node 100); (1, substrate_node 50);
               (2, substrate_node 99)];
     edges := [((0, 1), substrate_edge 50); ((1, 2), substrate_edge 50)] |}.

(** A three-node linear request, demands in the generator's range. *)
Definition request3 : VNR :=
  {| obj_id := 0;
     vnr_graph :=
       {| nodes := [(0, virtual_node 10); (1, virtual_node 10);
                    (2, virtual_node 10)];
          edges := [((0, 1), virtual_edge 30); ((1, 2), virtual_edge 30)] |};
     vnr_id := 1; arrival_time := 0; lifetime := 20 |}.

(** Two nodes joined by one link. *)
Definition pair2 : Graph :=
  {| nodes := [(0, substrate_node 100); (1, substrate_node 100)];
     edges := [((0, 1), substrate_edge 100)] |}.

Definition request2 (o id : nat) (arrival life cpu_demand bw_demand : Z) : VNR :=
  {| obj_id := o;
     vnr_graph :=
       {| nodes := [(0, virtual_node cpu_demand); (1, virtual_node cpu_demand)];
          edges := [((0, 1), virtual_edge bw_demand)] |};
     vnr_id := id; arrival_time := arrival; lifetime := life |}.

(** The greedy strategy over the reference path queries. *)
Definition greedy_reference : Graph -> Graph -> option Embedding :=
  @simple_greedy_algorithm reference_paths.

(** ** The properties the simulator is meant to keep *)

(** [0 <= available <= total], for one attribute pair. *)
Definition within (available total : option Z) : bool :=
  match available, total with
  | Some a, Some t => (0 <=? a)%Z && (a <=? t)%Z
  | _, _ => false
  end.

Definition capacity_ok (g : Graph) : bool :=
  forallb (fun e : node * NodeAttrs =>
             within (cpu_available (snd e)) (cpu (snd e))) (nodes g)
  && forallb (fun e : (node * node) * EdgeAttrs =>
                within (bandwidth_available (snd e)) (bandwidth (snd e)))
             (edges g).

(** Tie-break policies on a sequence of processed events: at equal
    timestamps, departures come first / arrivals come first. *)
Definition departures_first (tr : list Event) : Prop :=
  forall i j t v id,
    nth_error tr i = Some (ARRIVAL t v) ->
    nth_error tr j = Some (DEPARTURE t id) ->
    j < i.

Definition arrivals_first (tr : list Event) : Prop :=
  forall i j t v id,
    nth_error tr i = Some (ARRIVAL t v) ->
    nth_error tr j = Some (DEPARTURE t id) ->
    i < j.

Definition is_arrival (e : Event) : bool :=
  match e with ARRIVAL _ _ => true | DEPARTURE _ _ => false end.

Definition is_departure (e : Event) : bool :=
  match e with ARRIVAL _ _ => false | DEPARTURE _ _ => true end.

(** ** noderank.py *)

(** [a.get(k1, 0) or a.get(k2, 0) or a.get(k3, 0)]: the first non-zero of the
    three, an absent attribute counting as 0. *)
Definition or0 (o : option Z) : Z :=
  match o with Some z => z | None => 0%Z end.

Definition first_nonzero (a b c : option Z) : Z :=
  if negb (or0 a =? 0)%Z then or0 a
  else if negb (or0 b =? 0)%Z then or0 b
  else or0 c.

Definition cpu_weight (a : NodeAttrs) : Z :=
  first_nonzero (cpu_available a) (cpu_req a) (cpu a).

Definition bandwidth_weight (a : EdgeAttrs) : Z :=
  first_nonzero (bandwidth_available a) (bandwidth_req a) (bandwidth a).

Definition zsum (l : list Z) : Z := fold_left Z.add l 0%Z.

(** [sum(... for neighbor in graph.neighbors(node))].  The edge lookup cannot
    fail, a neighbour being the other end of a stored edge. *)
Definition total_bandwidth (g : Graph) (n : node) : Z :=
  zsum (map (fun nb => match edge_attrs g (n, nb) with
                       | Some a => bandwidth_weight a
                       | None => 0%Z
                       end) (neighbors g n)).

(** The table [H]. *)
Definition resource_H (g : Graph) : dict node Z :=
  map (fun e : node * NodeAttrs =>
         (fst e, (cpu_weight (snd e) * total_bandwidth g (fst e))%Z))
      (nodes g).

Definition total_H (g : Graph) : Z := zsum (dict_values (resource_H g)).

(** [H[v]] for a node of the graph. *)
Definition H_at (H : dict node Z) (v : node) : Z := or0 (dict_get H v).

(** Python floats.  [int / int] is the correctly rounded quotient, which is
    the quotient of the two conversions as long as both are below 2^53 in
    absolute value. *)
Definition float_of_Z (z : Z) : float :=
  match z with
  | Z0 => 0%float
  | Zpos _ => PrimFloat.of_uint63 (Uint63.of_Z z)
  | Zneg _ => PrimFloat.opp (PrimFloat.of_uint63 (Uint63.of_Z (- z)))
  end.

Definition true_div (a b : Z) : float :=
  PrimFloat.div (float_of_Z a) (float_of_Z b).

(** [sum(xs)] over floats, as a left-to-right accumulation from 0. *)
Definition fsum (l : list float) : float := fold_left PrimFloat.add l 0%float.

Definition NodeRank := dict node float.

Definition rank_at (r : NodeRank) (n : node) : float :=
  match dict_get r n with Some x => x | None => 0%float end.

Section NodeRankIteration.
Variables (graph : Graph) (p_jump p_forward : float).

Let H := resource_H graph.

Definition initial_rank : NodeRank :=
  map (fun n => (n, true_div (H_at H n) (total_H graph))) (node_list graph).

(** The body of [for v in graph.nodes()] (Equation 10). *)
Definition updated_rank (node_rank : NodeRank) (v : node) : float :=
  let jump_prob_to_v := true_div (H_at H v) (total_H graph) in
  let global_influence :=
    (jump_prob_to_v * p_jump * fsum (dict_values node_rank))%float in
  let local_influence :=
    fold_left
      (fun acc u =>
         let total_neighbor_H := zsum (map (H_at H) (neighbors graph u)) in
         if (0 <? total_neighbor_H)%Z
         then (acc + true_div (H_at H v) total_neighbor_H
                     * p_forward * rank_at node_rank u)%float
         else acc)
      (neighbors graph v) 0%float in
  (global_influence + local_influence)%float.

(** One round: the [new_rank] table computed from [node_rank]. *)
Definition next_rank (node_rank : NodeRank) : NodeRank :=
  map (fun v => (v, updated_rank node_rank v)) (node_list graph).

Definition total_diff (new_rank node_rank : NodeRank) : float :=
  fsum (map (fun n => PrimFloat.abs (rank_at new_rank n - rank_at node_rank n))
            (node_list graph)).

(** [for iteration in range(max_iterations)] with its [break]. *)
Fixpoint noderank_loop (epsilon : float) (iterations : nat)
         (node_rank : NodeRank) : NodeRank :=
  match iterations with
  | 0 => node_rank
  | S k =>
      let new_rank := next_rank node_rank in
      if (total_diff new_rank node_rank <? epsilon)%float
      then node_rank
      else noderank_loop epsilon k new_rank
  end.
End NodeRankIteration.

Definition compute_noderank (graph : Graph) (max_iterations : nat)
           (epsilon p_jump p_forward : float) : option NodeRank :=
  if (total_H graph =? 0)%Z then None
  else Some (noderank_loop graph p_jump p_forward epsilon max_iterations
                           (initial_rank graph)).

(** The default arguments (the literals denote the nearest binary64 values,
    as in Python). *)
#[local] Set Warnings "-inexact-float".
Definition default_max_iterations : nat := 100.
Definition default_epsilon : float := 0.0001%float.
Definition default_p_jump : float := 0.15%float.
Definition default_p_forward : float := 0.85%float.
#[local] Set Warnings "+inexact-float".

(** [compute_noderank(graph)]. *)
Definition compute_noderank_default (graph : Graph) : option NodeRank :=
  compute_noderank graph default_max_iterations default_epsilon
                   default_p_jump default_p_forward.

(** [.get('cpu_req', 0)] and friends. *)
Definition cpu_req_or0 (g : Graph) (n : node) : Z :=
  match node_attrs g n with Some a => or0 (cpu_req a) | None => 0%Z end.

Definition cpu_available_or0 (g : Graph) (n : node) : Z :=
  match node_attrs g n with Some a => or0 (cpu_available a) | None => 0%Z end.

(** The bandwidth check of the ranked strategies:
    [substrate.edges[a, b].get('bandwidth_available', 0) < bw_req]. *)
Fixpoint path_feasible (substrate : Graph) (bw_req : Z) (path : list node)
  : option bool :=
  match path with
  | a :: ((b :: _) as tl) =>
      attrs <- edge_attrs substrate (a, b) ;;
      if (or0 (bandwidth_available attrs) <? bw_req)%Z then Some false
      else path_feasible substrate bw_req tl
  | _ => Some true
  end.

Definition by_rank_desc (r : NodeRank) (l : list node) : list node :=
  sorted_desc PrimFloat.ltb (rank_at r) l.

(** ** rw_maxmatch.py *)

Section RwMaxMatch.
Context `{Networkx}.

Fixpoint maxmatch_pick (substrate : Graph) (node_mapping : NodeMapping)
         (cpu_req : Z) (sorted_substrate_nodes : list node) : option node :=
  match sorted_substrate_nodes with
  | [] => None
  | substrate_node :: rest =>
      if mem substrate_node (dict_values node_mapping)
      then maxmatch_pick substrate node_mapping cpu_req rest
      else if (cpu_available_or0 substrate substrate_node >=? cpu_req)%Z
           then Some substrate_node
           else maxmatch_pick substrate node_mapping cpu_req rest
  end.

Fixpoint maxmatch_nodes (substrate vnr : Graph)
         (sorted_substrate_nodes sorted_vnr_nodes : list node)
         (node_mapping : NodeMapping) : option NodeMapping :=
  match sorted_vnr_nodes with
  | [] => Some node_mapping
  | vnr_node :: rest =>
      match maxmatch_pick substrate node_mapping (cpu_req_or0 vnr vnr_node)
                          sorted_substrate_nodes with
      | Some substrate_node =>
          maxmatch_nodes substrate vnr sorted_substrate_nodes rest
                         (dict_set node_mapping vnr_node substrate_node)
      | None => None
      end
  end.

(** [(node_mapping, True)] or [(None, False)]. *)
Definition rw_maxmatch_node_mapping (substrate vnr : Graph)
           (substrate_noderank vnr_noderank : NodeRank)
  : option NodeMapping * bool :=
  match maxmatch_nodes substrate vnr
                       (by_rank_desc substrate_noderank (node_list substrate))
                       (by_rank_desc vnr_noderank (node_list vnr)) [] with
  | Some node_mapping => (Some node_mapping, true)
  | None => (None, false)
  end.

(** [for k in range(1, 4)]: the k-th shortest simple path, if there is one. *)
Fixpoint maxmatch_try (substrate : Graph) (bw_req : Z) (s_src s_dst : node)
         (ks : list nat) : option (option (list node)) :=
  match ks with
  | [] => Some None
  | k :: ks' =>
      let paths := firstn k (shortest_simple_paths substrate s_src s_dst) in
      if length paths <? k then Some None
      else
        match nth_error paths (k - 1) with
        | None => Some None
        | Some path =>
            can_allocate <- path_feasible substrate bw_req path ;;
            if can_allocate then Some (Some path)
            else maxmatch_try substrate bw_req s_src s_dst ks'
        end
  end.

Definition bandwidth_req_or0 (g : Graph) (e : node * node) : option Z :=
  a <- edge_attrs g e ;; Some (or0 (bandwidth_req a)).

Fixpoint maxmatch_links (substrate vnr : Graph) (node_mapping : NodeMapping)
         (v_edges : list (node * node)) (link_mapping : LinkMapping)
  : option (option LinkMapping) :=
  match v_edges with
  | [] => Some (Some link_mapping)
  | v_edge :: rest =>
      s_src <- dict_get node_mapping (fst v_edge) ;;
      s_dst <- dict_get node_mapping (snd v_edge) ;;
      bw_req <- bandwidth_req_or0 vnr v_edge ;;
      found <- maxmatch_try substrate bw_req s_src s_dst [1; 2; 3] ;;
      match found with
      | Some path =>
          maxmatch_links substrate vnr node_mapping rest
                         (dict_set link_mapping v_edge path)
      | None => Some None
      end
  end.

(** [(link_mapping, True)] or [(None, False)]. *)
Definition rw_maxmatch_link_mapping (substrate vnr : Graph)
           (node_mapping : NodeMapping) : option (option LinkMapping * bool) :=
  lm <- maxmatch_links substrate vnr node_mapping (edge_list vnr) [] ;;
  match lm with
  | Some link_mapping => Some (Some link_mapping, true)
  | None => Some (None, false)
  end.

Definition rw_maxmatch_algorithm (substrate vnr : Graph) : option Embedding :=
  match compute_noderank_default substrate, compute_noderank_default vnr with
  | Some substrate_noderank, Some vnr_noderank =>
      let '(node_mapping, success) :=
        rw_maxmatch_node_mapping substrate vnr
                                 substrate_noderank vnr_noderank in
      if negb success then Some embedding_failed
      else
        nm <- node_mapping ;;
        r <- rw_maxmatch_link_mapping substrate vnr nm ;;
        let '(link_mapping, success) := r in
        Some (node_mapping, link_mapping, success)
  | _, _ => Some embedding_failed
  end.
End RwMaxMatch.

Definition rw_maxmatch_reference : Graph -> Graph -> option Embedding :=
  @rw_maxmatch_algorithm reference_paths.

(** ** rw_bfs.py *)

Section RwBfs.
Context `{Networkx}.

(** [max(l, key=rank)]: the first element of greatest rank. *)
Fixpoint max_by_rank (r : NodeRank) (best : node) (l : list node) : node :=
  match l with
  | [] => best
  | n :: l' =>
      if PrimFloat.ltb (rank_at r best) (rank_at r n)
      then max_by_rank r n l'
      else max_by_rank r best l'
  end.

(** The inner loops that build [next_level]; the state is
    [(next_level, visited, bfs_parents)]. *)
Fixpoint bfs_scan (parent : node) (nbrs : list node)
         (st : list node * list node * dict node (option node))
  : list node * list node * dict node (option node) :=
  match nbrs with
  | [] => st
  | neighbor :: rest =>
      let '(next_level, visited, bfs_parents) := st in
      if mem neighbor visited then bfs_scan parent rest st
      else bfs_scan parent rest
                    (next_level ++ [neighbor], neighbor :: visited,
                     dict_set bfs_parents neighbor (Some parent))
  end.

Definition bfs_next_level (vnr : Graph) (current_level visited : list node)
           (bfs_parents : dict node (option node)) :=
  fold_left (fun st n => bfs_scan n (neighbors vnr n) st)
            current_level ([], visited, bfs_parents).

(** [while current_level:] -- one unit of fuel per level. *)
Fixpoint bfs_levels (vnr : Graph) (vnr_noderank : NodeRank) (fuel : nat)
         (current_level visited bfs_order : list node)
         (bfs_parents : dict node (option node))
  : list node * dict node (option node) :=
  match current_level, fuel with
  | [], _ | _, 0 => (bfs_order, bfs_parents)
  | _, S fuel' =>
      let level := by_rank_desc vnr_noderank current_level in
      let '(next_level, visited', bfs_parents') :=
        bfs_next_level vnr level visited bfs_parents in
      bfs_levels vnr vnr_noderank fuel' next_level visited'
                 (bfs_order ++ level) bfs_parents'
  end.

(** [None] is the [ValueError] of [max] on a graph without nodes. *)
Definition construct_bfs_tree_order (vnr : Graph) (vnr_noderank : NodeRank)
  : option (list node * dict node (option node)) :=
  match node_list vnr with
  | [] => None
  | n0 :: rest =>
      let root_node := max_by_rank vnr_noderank n0 rest in
      Some (bfs_levels vnr vnr_noderank
                       (S (length (nodes vnr) + 2 * length (edges vnr)))
                       [root_node] [root_node] [] [(root_node, None)])
  end.

Definition total_bw_req (vnr : Graph) (n : node) : Z :=
  zsum (map (fun nb => match edge_attrs vnr (n, nb) with
                       | Some a => or0 (bandwidth_req a)
                       | None => 0%Z
                       end) (neighbors vnr n)).

Definition total_bw_available (substrate : Graph) (n : node) : Z :=
  zsum (map (fun nb => match edge_attrs substrate (n, nb) with
                       | Some a => or0 (bandwidth_available a)
                       | None => 0%Z
                       end) (neighbors substrate n)).

Definition build_candidate_lists (substrate vnr : Graph)
           (substrate_noderank : NodeRank) : dict node (list node) :=
  map (fun vnr_node =>
         (vnr_node,
          by_rank_desc substrate_noderank
            (filter (fun sub_node =>
                       (cpu_available_or0 substrate sub_node
                        >=? cpu_req_or0 vnr vnr_node)%Z
                       && (total_bw_available substrate sub_node
                           >=? total_bw_req vnr vnr_node)%Z)
                    (node_list substrate))))
      (node_list vnr).

Definition check_hop_constraint (substrate : Graph) (vnr_node sub_node : node)
           (current_node_mapping : NodeMapping)
           (bfs_parents : dict node (option node)) (max_k : nat)
  : option bool :=
  match dict_get bfs_parents vnr_node with
  | None | Some None => Some true
  | Some (Some parent_node) =>
      parent_sub_node <- dict_get current_node_mapping parent_node ;;
      match shortest_path_length substrate sub_node parent_sub_node with
      | Some distance => Some (distance <=? max_k)
      | None => Some false
      end
  end.

(** The loop over [vnr.neighbors(vnr_node)] for one candidate; the inner
    [None] is [all_links_mappable = False]. *)
Fixpoint match_links (substrate vnr : Graph) (vnr_node sub_node : node)
         (current_node_mapping : NodeMapping) (nbrs : list node)
         (link_mappings : LinkMapping) : option (option LinkMapping) :=
  match nbrs with
  | [] => Some (Some link_mappings)
  | neighbor :: rest =>
      match dict_get current_node_mapping neighbor with
      | None =>
          match_links substrate vnr vnr_node sub_node current_node_mapping
                      rest link_mappings
      | Some neighbor_sub_node =>
          bw_req <- bandwidth_req_or0 vnr (vnr_node, neighbor) ;;
          match shortest_path substrate sub_node neighbor_sub_node with
          | None => Some None
          | Some path =>
              path_ok <- path_feasible substrate bw_req path ;;
              if path_ok
              then match_links substrate vnr vnr_node sub_node
                               current_node_mapping rest
                               (dict_set link_mappings (vnr_node, neighbor) path)
              else Some None
          end
      end
  end.

(** [for sub_node in candidates] at hop bound [k]. *)
Fixpoint match_at_hop (substrate vnr : Graph) (vnr_node : node)
         (current_node_mapping : NodeMapping)
         (bfs_parents : dict node (option node)) (k : nat)
         (candidates : list node) : option (option (node * LinkMapping)) :=
  match candidates with
  | [] => Some None
  | sub_node :: rest =>
      let continue :=
        match_at_hop substrate vnr vnr_node current_node_mapping
                     bfs_parents k rest in
      if mem sub_node (dict_values current_node_mapping) then continue
      else if (cpu_available_or0 substrate sub_node
               <? cpu_req_or0 vnr vnr_node)%Z then continue
      else
        hop_ok <- check_hop_constraint substrate vnr_node sub_node
                                       current_node_mapping bfs_parents k ;;
        if hop_ok then
          lm <- match_links substrate vnr vnr_node sub_node
                            current_node_mapping (neighbors vnr vnr_node) [] ;;
          match lm with
          | Some link_mappings => Some (Some (sub_node, link_mappings))
          | None => continue
          end
        else continue
  end.

(** [for k in range(1, max_hop + 1)]. *)
Fixpoint match_hops (substrate vnr : Graph) (vnr_node : node)
         (candidates : list node) (current_node_mapping : NodeMapping)
         (bfs_parents : dict node (option node)) (ks : list nat)
  : option (option (node * LinkMapping)) :=
  match ks with
  | [] => Some None
  | k :: ks' =>
      r <- match_at_hop substrate vnr vnr_node current_node_mapping
                        bfs_parents k candidates ;;
      match r with
      | Some found => Some (Some found)
      | None => match_hops substrate vnr vnr_node candidates
                           current_node_mapping bfs_parents ks'
      end
  end.

(** The result is [Some (substrate_node, link_mappings)] for
    [{'success': True, ...}] and [None] for [{'success': False}]. *)
Definition match_vnr_node (substrate vnr : Graph) (vnr_node : node)
           (candidates : list node) (current_node_mapping : NodeMapping)
           (bfs_parents : dict node (option node)) (max_hop : nat)
  : option (option (node * LinkMapping)) :=
  match current_node_mapping with
  | [] =>
      Some (option_map
              (fun sub_node => (sub_node, []))
              (find (fun sub_node =>
                       (cpu_available_or0 substrate sub_node
                        >=? cpu_req_or0 vnr vnr_node)%Z) candidates))
  | _ =>
      match_hops substrate vnr vnr_node candidates current_node_mapping
                 bfs_parents (seq 1 max_hop)
  end.

Record BfsState := {
  bt_node_mapping : NodeMapping;
  bt_link_mapping : LinkMapping;
  backtrack_count : nat;
  current_index : nat;
  tried_candidates : dict node (list node)
}.

(** [link_mapping.update(link_mappings)]. *)
Definition dict_update {K V} `{Key K} (d extra : dict K V) : dict K V :=
  fold_left (fun acc e => dict_set acc (fst e) (snd e)) extra d.

(** One turn of the [while] loop: the next state, or the value returned. *)
Definition bfs_turn (substrate vnr : Graph) (bfs_order : list node)
           (bfs_parents : dict node (option node))
           (candidate_lists : dict node (list node))
           (max_hop max_backtrack : nat) (st : BfsState)
  : option (BfsState + Embedding) :=
  match nth_error bfs_order (current_index st) with
  | None =>
      Some (inr (Some (bt_node_mapping st), Some (bt_link_mapping st), true))
  | Some vnr_node =>
      cands <- dict_get candidate_lists vnr_node ;;
      tried <- dict_get (tried_candidates st) vnr_node ;;
      let available_candidates :=
        filter (fun cand => negb (mem cand tried)) cands in
      match_result <- match_vnr_node substrate vnr vnr_node
                                     available_candidates
                                     (bt_node_mapping st) bfs_parents max_hop ;;
      match match_result with
      | Some (substrate_node, link_mappings) =>
          Some (inl {| bt_node_mapping :=
                         dict_set (bt_node_mapping st) vnr_node substrate_node;
                       bt_link_mapping :=
                         dict_update (bt_link_mapping st) link_mappings;
                       backtrack_count := backtrack_count st;
                       current_index := S (current_index st);
                       tried_candidates := tried_candidates st |})
      | None =>
          if (backtrack_count st <? max_backtrack) && (0 <? current_index st)
          then
            let cleared :=
              fold_left (fun t n => dict_set t n [])
                        (skipn (current_index st) bfs_order)
                        (tried_candidates st) in
            let index' := current_index st - 1 in
            prev_vnr_node <- nth_error bfs_order index' ;;
            tried_nm <-
              match dict_get (bt_node_mapping st) prev_vnr_node with
              | Some chosen =>
                  old <- dict_get cleared prev_vnr_node ;;
                  Some (dict_set cleared prev_vnr_node (chosen :: old),
                        dict_del (bt_node_mapping st) prev_vnr_node)
              | None => Some (cleared, bt_node_mapping st)
              end ;;
            Some (inl {| bt_node_mapping := snd tried_nm;
                         bt_link_mapping :=
                           filter (fun e : (node * node) * list node =>
                                     negb (Nat.eqb prev_vnr_node (fst (fst e))
                                           || Nat.eqb prev_vnr_node
                                                      (snd (fst e))))
                                  (bt_link_mapping st);
                         backtrack_count := S (backtrack_count st);
                         current_index := index';
                         tried_candidates := fst tried_nm |})
          else Some (inr embedding_failed)
      end
  end.

(** The [while] loop.  The outer [None] means the fuel ran out, the inner
    one that an exception escaped. *)
Fixpoint bfs_loop (substrate vnr : Graph) (bfs_order : list node)
         (bfs_parents : dict node (option node))
         (candidate_lists : dict node (list node))
         (max_hop max_backtrack : nat) (fuel : nat) (st : BfsState)
  : option (option Embedding) :=
  match bfs_turn substrate vnr bfs_order bfs_parents candidate_lists
                 max_hop max_backtrack st with
  | None => Some None
  | Some (inr result) => Some (Some result)
  | Some (inl st') =>
      match fuel with
      | 0 => None
      | S fuel' =>
          bfs_loop substrate vnr bfs_order bfs_parents candidate_lists
                   max_hop max_backtrack fuel' st'
      end
  end.

(** Every turn either advances the index or spends a backtrack, so this
    many turns always suffice. *)
Definition bfs_fuel (bfs_order : list node) (max_backtrack : nat) : nat :=
  S max_backtrack * S (length bfs_order).

Definition bfs_embedding_with_backtracking (substrate vnr : Graph)
           (bfs_order : list node) (bfs_parents : dict node (option node))
           (candidate_lists : dict node (list node))
           (max_hop max_backtrack : nat) : option (option Embedding) :=
  bfs_loop substrate vnr bfs_order bfs_parents candidate_lists
           max_hop max_backtrack (bfs_fuel bfs_order max_backtrack)
           {| bt_node_mapping := [];
              bt_link_mapping := [];
              backtrack_count := 0;
              current_index := 0;
              tried_candidates := map (fun n => (n, [])) bfs_order |}.

Definition rw_bfs_algorithm (substrate vnr : Graph)
           (max_hop max_backtrack : nat) : option Embedding :=
  match compute_noderank_default substrate, compute_noderank_default vnr with
  | Some substrate_noderank, Some vnr_noderank =>
      tree <- construct_bfs_tree_order vnr vnr_noderank ;;
      let '(bfs_order, bfs_parents) := tree in
      let candidate_lists :=
        build_candidate_lists substrate vnr substrate_noderank in
      r <- bfs_embedding_with_backtracking substrate vnr bfs_order bfs_parents
                                           candidate_lists max_hop
                                           max_backtrack ;;
      r
  | _, _ => Some embedding_failed
  end.
End RwBfs.

(** [rw_bfs_algorithm(substrate, vnr)] with [max_hop=3, max_backtrack=3]. *)
Definition rw_bfs_reference (substrate vnr : Graph) : option Embedding :=
  @rw_bfs_algorithm reference_paths substrate vnr 3 3.

(** The ranks after [k] full rounds, and the stopping test of round [k]
    (rounds counted from 0). *)
Definition rank_after (graph : Graph) (p_jump p_forward : float) (k : nat)
  : NodeRank :=
  Nat.iter k (next_rank graph p_jump p_forward) (initial_rank graph).

Definition converged_at (graph : Graph) (p_jump p_forward epsilon : float)
           (k : nat) : bool :=
  (total_diff graph (rank_after graph p_jump p_forward (S k))
              (rank_after graph p_jump p_forward k) <? epsilon)%float.

(** A two-node substrate with unequal CPU, reset to full capacity; a substrate
    whose nodes have no CPU at all; and isolated nodes with CPU but no link. *)
Definition uneven_pair : Graph :=
  {| nodes := [(0, {| cpu := Some 100%Z; cpu_available := Some 100%Z;
                      cpu_req := None |});
               (1, {| cpu := Some 50%Z; cpu_available := Some 50%Z;
                      cpu_req := None |})];
     edges := [((0, 1), {| bandwidth := Some 100%Z;
                           bandwidth_available := Some 100%Z;
                           bandwidth_req := None |})] |}.

Definition zero_cpu_pair : Graph :=
  {| nodes := [(0, {| cpu := Some 0%Z; cpu_available := Some 0%Z;
                      cpu_req := None |});
               (1, {| cpu := Some 0%Z; cpu_available := Some 0%Z;
                      cpu_req := None |})];
     edges := [((0, 1), {| bandwidth := Some 100%Z;
                           bandwidth_available := Some 100%Z;
                           bandwidth_req := None |})] |}.

Definition isolated_nodes : Graph :=
  {| nodes := [(0, {| cpu := Some 100%Z; cpu_available := Some 100%Z;
                      cpu_req := None |});
               (1, {| cpu := Some 50%Z; cpu_available := Some 50%Z;
                      cpu_req := None |})];
     edges := [] |}.

(** Two nodes joined by one link of bandwidth 50, and two requests that are
    alive at the same time, each asking 30 on its single link. *)
Definition narrow_pair : Graph :=
  {| nodes := [(0, substrate_node 100); (1, substrate_node 100)];
     edges := [((0, 1), substrate_edge 50)] |}.

(** [narrow_pair] as the reset at the start of a run leaves it. *)
Definition narrow_pair_reset : Graph :=
  {| nodes := [(0, {| cpu := Some 100%Z; cpu_available := Some 100%Z;
                      cpu_req := None |});
               (1, {| cpu := Some 100%Z; cpu_available := Some 100%Z;
                      cpu_req := None |})];
     edges := [((0, 1), {| bandwidth := Some 50%Z;
                           bandwidth_available := Some 50%Z;
                           bandwidth_req := None |})] |}.

Definition overlapping_queue : list VNR :=
  [request2 0 1 0 20 10 30; request2 1 2 5 20 10 30].

(** ** yu_baseline.py *)

(** [calculate_revenue]: twice the CPU demand plus the bandwidth demand. *)
Definition calculate_revenue (vnr : Graph) : option Z :=
  cpus <- mapM (get_cpu_req vnr) (node_list vnr) ;;
  bws <- mapM (get_bandwidth_req vnr) (edge_list vnr) ;;
  Some (zsum cpus * 2 + zsum bws)%Z.

(** The value of [vnr.graph['retried']] lives with the Python object: a table
    from object identity to the flag (absent until [create_chunks] sets it). *)
Definition Retried := dict nat bool.

(** The [for vnr in sorted_vnrs] loop of [create_chunks]; the chunk being
    filled and the closed chunks are the accumulators. *)
Fixpoint chunk_loop (time_window : Z) (sorted_vnrs : list VNR) (start_time : Z)
         (chunk : list VNR) (chunks : list (list VNR)) : list (list VNR) :=
  match sorted_vnrs with
  | [] => match chunk with [] => chunks | _ => chunks ++ [chunk] end
  | vnr :: rest =>
      if (arrival_time vnr <=? start_time + time_window)%Z
      then chunk_loop time_window rest start_time (chunk ++ [vnr]) chunks
      else chunk_loop time_window rest (start_time + time_window)%Z [vnr]
                      (chunks ++ [chunk])
  end.

(** [create_chunks(vnr_queue, time_window)]: the chunks, and the flags it
    sets on the requests. *)
Definition create_chunks (vnr_queue : list VNR) (time_window : Z)
           (flags : Retried) : list (list VNR) * Retried :=
  let sorted_vnrs := sorted_asc Z.ltb arrival_time vnr_queue in
  (chunk_loop time_window sorted_vnrs 0 [] [],
   fold_left (fun r vnr => dict_set r (obj_id vnr) false) sorted_vnrs flags).

Definition default_time_window : Z := 25.

(** [d.pop(k)]: raises when the key is absent. *)
Definition dict_pop {K V} `{Key K} (d : dict K V) (k : K) : option (dict K V) :=
  if dict_mem d k then Some (dict_del d k) else None.

Record YuState := {
  yu_substrate : Graph;
  yu_node_mapping : dict (nat * node) node;
  yu_link_mapping : dict (nat * (node * node)) (list node);
  (** [active_embeddings]: vnr_id -> (vnr, departure_time) *)
  yu_active : dict nat (VNR * Z);
  yu_embedded : list nat;
  yu_retried : Retried;
  (** [vnr_metadata[id]['embedding_time']] *)
  yu_embedding_time : dict nat Z;
  yu_historical_nodes : dict (nat * node) node;
  yu_historical_links : dict (nat * (node * node)) (list node)
}.

Definition with_resources (st : YuState) (g : Graph)
           (nm : dict (nat * node) node)
           (lm : dict (nat * (node * node)) (list node)) : YuState :=
  {| yu_substrate := g;
     yu_node_mapping := nm;
     yu_link_mapping := lm;
     yu_active := yu_active st;
     yu_embedded := yu_embedded st;
     yu_retried := yu_retried st;
     yu_embedding_time := yu_embedding_time st;
     yu_historical_nodes := yu_historical_nodes st;
     yu_historical_links := yu_historical_links st |}.

Definition with_retried (st : YuState) (r : Retried) : YuState :=
  {| yu_substrate := yu_substrate st;
     yu_node_mapping := yu_node_mapping st;
     yu_link_mapping := yu_link_mapping st;
     yu_active := yu_active st;
     yu_embedded := yu_embedded st;
     yu_retried := r;
     yu_embedding_time := yu_embedding_time st;
     yu_historical_nodes := yu_historical_nodes st;
     yu_historical_links := yu_historical_links st |}.

Definition with_active (st : YuState) (a : dict nat (VNR * Z)) : YuState :=
  {| yu_substrate := yu_substrate st;
     yu_node_mapping := yu_node_mapping st;
     yu_link_mapping := yu_link_mapping st;
     yu_active := a;
     yu_embedded := yu_embedded st;
     yu_retried := yu_retried st;
     yu_embedding_time := yu_embedding_time st;
     yu_historical_nodes := yu_historical_nodes st;
     yu_historical_links := yu_historical_links st |}.

(** "Deallocate already allocated CPU for this VNR" (departure, and link
    failure): credit and forget every virtual node. *)
Fixpoint yu_release_nodes (id : nat) (vnr : Graph) (v_nodes : list node)
         (g : Graph) (nm : dict (nat * node) node)
  : option (Graph * dict (nat * node) node) :=
  match v_nodes with
  | [] => Some (g, nm)
  | v_node :: rest =>
      s_node <- dict_get nm (id, v_node) ;;
      r <- get_cpu_req vnr v_node ;;
      g' <- cpu_available_add g s_node r ;;
      nm' <- dict_pop nm (id, v_node) ;;
      yu_release_nodes id vnr rest g' nm'
  end.

(** The credit along a stored path; the requirement is read at each step. *)
Fixpoint yu_credit_path (g vnr : Graph) (v_mapped_edge : node * node)
         (mapped_path : list node) : option Graph :=
  match mapped_path with
  | a :: ((b :: _) as tl) =>
      bw <- get_bandwidth_req vnr v_mapped_edge ;;
      g' <- bandwidth_available_add g (a, b) bw ;;
      yu_credit_path g' vnr v_mapped_edge tl
  | _ => Some g
  end.

(** "Deallocate already allocated Bandwidth for this VNR". *)
Fixpoint yu_release_links (id : nat) (vnr : Graph) (v_edges : list (node * node))
         (g : Graph) (lm : dict (nat * (node * node)) (list node))
  : option (Graph * dict (nat * (node * node)) (list node)) :=
  match v_edges with
  | [] => Some (g, lm)
  | v_edge :: rest =>
      match dict_get lm (id, v_edge) with
      | None => yu_release_links id vnr rest g lm
      | Some mapped_path =>
          lm' <- dict_pop lm (id, v_edge) ;;
          g' <- yu_credit_path g vnr v_edge mapped_path ;;
          yu_release_links id vnr rest g' lm'
      end
  end.

Definition yu_release (vnr : VNR) (st : YuState) : option YuState :=
  let id := vnr_id vnr in
  let gv := vnr_graph vnr in
  n <- yu_release_nodes id gv (node_list gv) (yu_substrate st)
                        (yu_node_mapping st) ;;
  l <- yu_release_links id gv (edge_list gv) (fst n) (yu_link_mapping st) ;;
  Some (with_resources st (fst l) (snd n) (snd l)).

(** "Process departures": over a snapshot of the active table. *)
Fixpoint yu_departures (current_time : Z) (snapshot : list (nat * (VNR * Z)))
         (st : YuState) : option YuState :=
  match snapshot with
  | [] => Some st
  | (id, (vnr, departure_time)) :: rest =>
      if (departure_time <=? current_time)%Z
      then
        st1 <- yu_release vnr st ;;
        yu_departures current_time rest
                      (with_active st1 (dict_del (yu_active st1) id))
      else yu_departures current_time rest st
  end.

(** [get_node_rank]: available bandwidth around the node times its available
    CPU. *)
Definition get_node_rank (g : Graph) (n : node) : option Z :=
  bws <- mapM (fun nb => get_bandwidth_available g (n, nb)) (neighbors g n) ;;
  c <- get_cpu_available g n ;;
  Some (zsum bws * c)%Z.

Fixpoint filterM {A} (f : A -> option bool) (l : list A) : option (list A) :=
  match l with
  | [] => Some []
  | x :: l' =>
      b <- f x ;; r <- filterM f l' ;; Some (if b then x :: r else r)
  end.

(** [min(xs)]: raises on the empty list. *)
Definition list_min (l : list Z) : option Z :=
  match l with
  | [] => None
  | x :: l' => Some (fold_left Z.min l' x)
  end.

(** The rollback of phase 1: credit and forget what [vnr_node_mapping]
    records. *)
Fixpoint yu_rollback_nodes (id : nat) (vnr : Graph)
         (allocated : list (node * node)) (g : Graph)
         (nm : dict (nat * node) node)
  : option (Graph * dict (nat * node) node) :=
  match allocated with
  | [] => Some (g, nm)
  | (allocated_v_node, allocated_s_node) :: rest =>
      r <- get_cpu_req vnr allocated_v_node ;;
      g' <- cpu_available_add g allocated_s_node r ;;
      nm' <- dict_pop nm (id, allocated_v_node) ;;
      yu_rollback_nodes id vnr rest g' nm'
  end.

(** The scan for one virtual node. *)
Fixpoint yu_pick (substrate : Graph) (vnr_node_mapping : NodeMapping)
         (cpu_req : Z) (substrate_nodes : list node) : option (option node) :=
  match substrate_nodes with
  | [] => Some None
  | s_node :: rest =>
      if mem s_node (dict_values vnr_node_mapping)
      then yu_pick substrate vnr_node_mapping cpu_req rest
      else
        c <- get_cpu_available substrate s_node ;;
        if (c >=? cpu_req)%Z then Some (Some s_node)
        else yu_pick substrate vnr_node_mapping cpu_req rest
  end.

(** [for v_node in vnr.nodes()] of phase 1, debiting as it goes; the flag is
    [node_mapping_successful]. *)
Fixpoint yu_map_nodes (id : nat) (vnr : Graph) (substrate_nodes : list node)
         (v_nodes : list node) (g : Graph) (nm : dict (nat * node) node)
         (vnr_node_mapping : NodeMapping)
  : option (Graph * dict (nat * node) node * NodeMapping * bool) :=
  match v_nodes with
  | [] => Some (g, nm, vnr_node_mapping, true)
  | v_node :: rest =>
      cpu_req <- get_cpu_req vnr v_node ;;
      pick <- yu_pick g vnr_node_mapping cpu_req substrate_nodes ;;
      match pick with
      | Some s_node =>
          g' <- cpu_available_sub g s_node cpu_req ;;
          yu_map_nodes id vnr substrate_nodes rest g'
                       (dict_set nm (id, v_node) s_node)
                       (dict_set vnr_node_mapping v_node s_node)
      | None =>
          r <- yu_rollback_nodes id vnr vnr_node_mapping g nm ;;
          Some (fst r, snd r, vnr_node_mapping, false)
      end
  end.

(** [if not vnr.graph['retried']: failed_vnrs.append(vnr); ... = True]. *)
Definition yu_mark_failed (vnr : VNR) (st : YuState) (failed_vnrs : list VNR)
  : option (YuState * list VNR) :=
  r <- dict_get (yu_retried st) (obj_id vnr) ;;
  if r then Some (st, failed_vnrs)
  else Some (with_retried st (dict_set (yu_retried st) (obj_id vnr) true),
             failed_vnrs ++ [vnr]).

(** Phase 1 for one request; the accumulators are the state,
    [failed_vnrs] and [successfully_mapped_vnrs]. *)
Definition yu_phase1 (vnr : VNR) (acc : YuState * list VNR * list VNR)
  : option (YuState * list VNR * list VNR) :=
  let '(st, failed_vnrs, mapped) := acc in
  let gv := vnr_graph vnr in
  reqs <- mapM (get_cpu_req gv) (node_list gv) ;;
  min_cpu_req <- list_min reqs ;;
  S_nodes <- filterM (fun n => c <- get_cpu_available (yu_substrate st) n ;;
                               Some (c >=? min_cpu_req)%Z)
                     (node_list (yu_substrate st)) ;;
  match S_nodes with
  | [] =>
      f <- yu_mark_failed vnr st failed_vnrs ;;
      Some (fst f, snd f, mapped)
  | _ =>
      substrate_nodes <-
        sorted_desc_by (get_node_rank (yu_substrate st)) S_nodes ;;
      r <- yu_map_nodes (vnr_id vnr) gv substrate_nodes (node_list gv)
                        (yu_substrate st) (yu_node_mapping st) [] ;;
      let '(g, nm, _, ok) := r in
      let st' := with_resources st g nm (yu_link_mapping st) in
      if ok then Some (st', failed_vnrs, mapped ++ [vnr])
      else
        f <- yu_mark_failed vnr st' failed_vnrs ;;
        Some (fst f, snd f, mapped)
  end.

Section YuBaseline.
Context `{Networkx}.

(** [for path in paths]: the first path that passes the bandwidth check. *)
Fixpoint yu_try_paths (g : Graph) (bandwidth_req : Z) (paths : list (list node))
  : option (option (list node)) :=
  match paths with
  | [] => Some None
  | path :: rest =>
      can_allocate <- path_can_allocate g bandwidth_req path ;;
      if can_allocate then Some (Some path)
      else yu_try_paths g bandwidth_req rest
  end.

(** [for k in range(1, 4)]: the first [k] shortest simple paths each time;
    no path at all ends the search. *)
Fixpoint yu_try_k (g : Graph) (bandwidth_req : Z) (s_src s_dst : node)
         (ks : list nat) : option (option (list node)) :=
  match ks with
  | [] => Some None
  | k :: ks' =>
      match firstn k (shortest_simple_paths g s_src s_dst) with
      | [] => Some None
      | paths =>
          found <- yu_try_paths g bandwidth_req paths ;;
          match found with
          | Some path => Some (Some path)
          | None => yu_try_k g bandwidth_req s_src s_dst ks'
          end
      end
  end.

(** [for v_edge in vnr.edges()] of phase 2, debiting each path as soon as it
    is chosen; the flag is [path_found] of the last edge tried. *)
Fixpoint yu_map_links (id : nat) (vnr : Graph) (v_edges : list (node * node))
         (g : Graph) (nm : dict (nat * node) node)
         (lm : dict (nat * (node * node)) (list node))
  : option (Graph * dict (nat * (node * node)) (list node) * bool) :=
  match v_edges with
  | [] => Some (g, lm, true)
  | v_edge :: rest =>
      s_src <- dict_get nm (id, fst v_edge) ;;
      s_dst <- dict_get nm (id, snd v_edge) ;;
      bandwidth_req <- get_bandwidth_req vnr v_edge ;;
      found <- yu_try_k g bandwidth_req s_src s_dst [1; 2; 3] ;;
      match found with
      | Some path =>
          g' <- allocate_path g bandwidth_req path ;;
          yu_map_links id vnr rest g' nm (dict_set lm (id, v_edge) path)
      | None => Some (g, lm, false)
      end
  end.

(** "Save to historical mappings": copy the entries of this request. *)
Definition yu_save {K V} `{Key K} (id : nat) (owner : K -> nat)
           (current historical : dict K V) : dict K V :=
  fold_left (fun h e => if Nat.eqb (owner (fst e)) id
                        then dict_set h (fst e) (snd e) else h)
            current historical.

(** Phase 2 for one request. *)
Definition yu_phase2 (current_time : Z) (vnr : VNR) (acc : YuState * list VNR)
  : option (YuState * list VNR) :=
  let '(st, failed_vnrs) := acc in
  let gv := vnr_graph vnr in
  let id := vnr_id vnr in
  r <- yu_map_links id gv (edge_list gv) (yu_substrate st)
                    (yu_node_mapping st) (yu_link_mapping st) ;;
  let '(g, lm, vnr_fully_embedded) := r in
  let st1 := with_resources st g (yu_node_mapping st) lm in
  if vnr_fully_embedded then
    let departure_time := (current_time + lifetime vnr)%Z in
    Some ({| yu_substrate := g;
             yu_node_mapping := yu_node_mapping st;
             yu_link_mapping := lm;
             yu_active := dict_set (yu_active st) id (vnr, departure_time);
             yu_embedded :=
               if mem id (yu_embedded st) then yu_embedded st
               else yu_embedded st ++ [id];
             yu_retried := yu_retried st;
             yu_embedding_time :=
               dict_set (yu_embedding_time st) id current_time;
             yu_historical_nodes :=
               yu_save id fst (yu_node_mapping st) (yu_historical_nodes st);
             yu_historical_links :=
               yu_save id fst lm (yu_historical_links st) |},
          failed_vnrs)
  else
    st2 <- yu_release vnr st1 ;;
    yu_mark_failed vnr st2 failed_vnrs.

(** A loop over requests with an accumulator that may raise. *)
Fixpoint foldM {A B} (f : A -> B -> option B) (l : list A) (b : B) : option B :=
  match l with
  | [] => Some b
  | x :: l' => b' <- f x b ;; foldM f l' b'
  end.

Definition by_revenue_desc (l : list VNR) : option (list VNR) :=
  sorted_desc_by (fun v => calculate_revenue (vnr_graph v)) l.

(** [l[i] = x] and [l[i].extend(xs)]. *)
Fixpoint list_set {A} (l : list A) (i : nat) (x : A) : list A :=
  match l, i with
  | [], _ => []
  | _ :: l', 0 => x :: l'
  | y :: l', S i' => y :: list_set l' i' x
  end.

Fixpoint list_extend {A} (l : list (list A)) (i : nat) (xs : list A)
  : list (list A) :=
  match l, i with
  | [], _ => []
  | y :: l', 0 => (y ++ xs) :: l'
  | y :: l', S i' => y :: list_extend l' i' xs
  end.

(** "Add failed VNRs to next chunk (if there is one)". *)
Definition yu_requeue (i : nat) (failed_vnrs : list VNR)
           (vnr_chunks : list (list VNR)) : list (list VNR) :=
  match failed_vnrs with
  | [] => vnr_chunks
  | _ =>
      if (Z.of_nat i <? Z.of_nat (length vnr_chunks) - 1)%Z
      then list_extend vnr_chunks (S i) failed_vnrs
      else vnr_chunks ++ [failed_vnrs]
  end.

(** The body of [for i, chunk in enumerate(vnr_chunks)]. *)
Definition yu_chunk (time_window : Z) (i : nat) (chunk : list VNR)
           (st : YuState) (vnr_chunks : list (list VNR))
  : option (YuState * list (list VNR)) :=
  let current_time := ((Z.of_nat i + 1) * time_window)%Z in
  st1 <- yu_departures current_time (yu_active st) st ;;
  sorted_chunk <- by_revenue_desc chunk ;;
  let vnr_chunks1 := list_set vnr_chunks i sorted_chunk in
  p1 <- foldM yu_phase1 sorted_chunk (st1, [], []) ;;
  let '(st2, failed1, successfully_mapped_vnrs) := p1 in
  mapped <- by_revenue_desc successfully_mapped_vnrs ;;
  p2 <- foldM (yu_phase2 current_time) mapped (st2, failed1) ;;
  let '(st3, failed_vnrs) := p2 in
  Some (st3, yu_requeue i failed_vnrs vnr_chunks1).

(** The [for] loop over a list that grows while it is walked.  The outer
    [None] means the fuel ran out, the inner one that an exception escaped. *)
Fixpoint yu_loop (time_window : Z) (fuel i : nat) (st : YuState)
         (vnr_chunks : list (list VNR))
  : option (option (YuState * list (list VNR))) :=
  match nth_error vnr_chunks i with
  | None => Some (Some (st, vnr_chunks))
  | Some chunk =>
      match fuel with
      | 0 => None
      | S fuel' =>
          match yu_chunk time_window i chunk st vnr_chunks with
          | None => Some None
          | Some (st', vnr_chunks') =>
              yu_loop time_window fuel' (S i) st' vnr_chunks'
          end
      end
  end.

Record YuResult := {
  yr_vnr_id : nat;
  yr_arrival_time : Z;
  yr_embedding_time : option Z;
  yr_success : bool;
  yr_node_mapping : option NodeMapping;
  yr_link_mapping : option LinkMapping
}.

(** [{k[1]: v for k, v in historical.items() if k[0] == vnr_id}]. *)
Definition yu_extract {K V} `{Key K} (id : nat) (historical : dict (nat * K) V)
  : dict K V :=
  fold_left (fun d e => if Nat.eqb (fst (fst e)) id
                        then dict_set d (snd (fst e)) (snd e) else d)
            historical [].

(** The identifiers seen, each once (the order of a Python set is not
    specified; first occurrence is used here). *)
Fixpoint distinct (l : list nat) : list nat :=
  match l with
  | [] => []
  | x :: l' => x :: filter (fun y => negb (Nat.eqb y x)) (distinct l')
  end.

Definition yu_result (metadata : dict nat Z) (st : YuState) (id : nat)
  : option YuResult :=
  arrival <- dict_get metadata id ;;
  if mem id (yu_embedded st) then
    Some {| yr_vnr_id := id;
            yr_arrival_time := arrival;
            yr_embedding_time :=
              Some (match dict_get (yu_embedding_time st) id with
                    | Some t => t
                    | None => arrival
                    end);
            yr_success := true;
            yr_node_mapping := Some (yu_extract id (yu_historical_nodes st));
            yr_link_mapping := Some (yu_extract id (yu_historical_links st)) |}
  else
    Some {| yr_vnr_id := id;
            yr_arrival_time := arrival;
            yr_embedding_time := None;
            yr_success := false;
            yr_node_mapping := None;
            yr_link_mapping := None |}.

Definition yu_initial (substrate : Graph) (flags : Retried) : YuState :=
  {| yu_substrate := substrate;
     yu_node_mapping := [];
     yu_link_mapping := [];
     yu_active := [];
     yu_embedded := [];
     yu_retried := flags;
     yu_embedding_time := [];
     yu_historical_nodes := [];
     yu_historical_links := [] |}.

(** One more turn than there are chunks at the start always suffices: only
    the last chunk can add one, and the added chunk adds none. *)
Definition yu_fuel (vnr_chunks : list (list VNR)) : nat :=
  S (length vnr_chunks).

(** [yu2008_algorithm(substrate, vnr_chunks, time_window)].  Besides the
    result list it leaves its marks on the arguments: the substrate, the
    chunk list and the [retried] flags as they are at the end are returned
    with it. *)
Definition yu2008_algorithm (substrate : Graph) (vnr_chunks : list (list VNR))
           (flags : Retried) (time_window : Z)
  : option (list YuResult * YuState * list (list VNR)) :=
  let all_vnrs := concat vnr_chunks in
  let metadata :=
    fold_left (fun m v => dict_set m (vnr_id v) (arrival_time v)) all_vnrs [] in
  let all_processed_vnrs := distinct (map vnr_id all_vnrs) in
  r <- yu_loop time_window (yu_fuel vnr_chunks) 0
               (yu_initial substrate flags) vnr_chunks ;;
  fin <- r ;;
  results <- mapM (yu_result metadata (fst fin)) all_processed_vnrs ;;
  Some (results, fst fin, snd fin).
End YuBaseline.

Definition yu2008_reference := @yu2008_algorithm reference_paths.

(** Two requests whose arrivals are four windows apart. *)
Definition sparse_queue : list VNR :=
  [request2 0 1 0 20 10 30; request2 1 2 100 20 10 30].

(** The time slot of chunk [i]: it closes at [(i + 1) * time_window], the
    [current_time] of [yu2008_algorithm], and opens one window earlier (the
    first one has no lower end). *)
Definition in_slot (time_window : Z) (i : nat) (t : Z) : bool :=
  ((Z.of_nat i =? 0) || (Z.of_nat i * time_window <? t))%Z
  && (t <=? (Z.of_nat i + 1) * time_window)%Z.

(** No two virtual nodes on one substrate node. *)
Definition injective (m : NodeMapping) : Prop :=
  forall v1 v2 s, dict_get m v1 = Some s -> dict_get m v2 = Some s -> v1 = v2.

(** How often the request object [o] stands in a list of requests. *)
Definition occurrences (o : nat) (l : list VNR) : nat :=
  count_occ Nat.eq_dec (map obj_id l) o.

(** The effect of one failure on the [retried] flags and on [failed_vnrs]:
    nothing, or -- for a request not yet retried -- flag set and request
    appended. *)
Inductive marked (vnr : VNR) (flags : Retried) (failed : list VNR)
  : Retried -> list VNR -> Prop :=
| marked_no : marked vnr flags failed flags failed
| marked_yes :
    dict_get flags (obj_id vnr) = Some false ->
    marked vnr flags failed
           (dict_set flags (obj_id vnr) true) (failed ++ [vnr]).

(** The same along a list of requests handled one after the other. *)
Inductive marks : list VNR -> Retried -> list VNR -> Retried -> list VNR -> Prop :=
| marks_nil flags failed : marks [] flags failed flags failed
| marks_cons v l flags failed flags1 failed1 flags2 failed2 :
    marked v flags failed flags1 failed1 ->
    marks l flags1 failed1 flags2 failed2 ->
    marks (v :: l) flags failed flags2 failed2.

(** 1 when the flag is set, 0 otherwise. *)
Definition flag (flags : Retried) (o : nat) : nat :=
  match dict_get flags o with Some true => 1 | _ => 0 end.

(** What a failure does to a request, by its flag: not yet retried -- flag
    set, request appended to [failed_vnrs]; already retried -- nothing. *)
Definition on_failure (vnr : VNR) (flags : Retried) (failed : list VNR)
           (flags' : Retried) (failed' : list VNR) : Prop :=
  (dict_get flags (obj_id vnr) = Some false
   /\ flags' = dict_set flags (obj_id vnr) true
   /\ dict_get flags' (obj_id vnr) = Some true
   /\ failed' = failed ++ [vnr])
  \/ (dict_get flags (obj_id vnr) = Some true
      /\ flags' = flags /\ failed' = failed).

(** How often the identifier [id] is carried by a list of requests, and
    whether it is among the embedded ones. *)
Definition id_occurrences (id : nat) (l : list VNR) : nat :=
  count_occ Nat.eq_dec (map vnr_id l) id.

Definition embedded_flag (embedded : list nat) (id : nat) : nat :=
  if mem id embedded then 1 else 0.

(** A table keyed by (request, item) is injective within each request. *)
Definition injective_per_request {K V} `{Key K} (d : dict (nat * K) V) : Prop :=
  forall id x1 x2 s,
    dict_get d (id, x1) = Some s -> dict_get d (id, x2) = Some s -> x1 = x2.

(** The working node table: well formed, injective within each request, and
    holding entries only for requests that are embedded or that wait for
    their links ([holding]), on virtual nodes of theirs. *)
Record nm_ok (embedded : list nat) (holding : list VNR)
       (nm : dict (nat * node) node) : Prop := {
  nm_keys : NoDup (dict_keys nm);
  nm_injective : injective_per_request nm;
  nm_owner : forall id x s,
      dict_get nm (id, x) = Some s ->
      In id embedded
      \/ exists vnr, In vnr holding /\ vnr_id vnr = id
                     /\ In x (node_list (vnr_graph vnr))
}.

(** The historical node table: well formed, injective within each request,
    with entries only for embedded requests. *)
Record hist_ok (embedded : list nat) (hist : dict (nat * node) node) : Prop := {
  hist_keys : NoDup (dict_keys hist);
  hist_injective : injective_per_request hist;
  hist_owner : forall id x s, dict_get hist (id, x) = Some s -> In id embedded
}.

(** ** What a pair of mappings asks of the substrate *)

(** The CPU a node mapping places on substrate node [n]: the requirements
    of the virtual nodes mapped to it. *)
Definition cpu_demand (vnr : Graph) (node_mapping : NodeMapping) (n : node)
  : Z :=
  zsum (map (fun it : node * node =>
               if Nat.eqb (snd it) n then or0 (get_cpu_req vnr (fst it))
               else 0%Z)
            node_mapping).

(** How many hops of a path run over the link [e], in either direction. *)
Fixpoint hops_on (e : node * node) (s_path : list node) : Z :=
  match s_path with
  | a :: ((b :: _) as tl) =>
      ((if same_edge e (a, b) then 1 else 0) + hops_on e tl)%Z
  | _ => 0%Z
  end.

(** The bandwidth a link mapping places on substrate link [e]: for every
    virtual link, its requirement once per hop of its path over [e]. *)
Definition bw_demand (vnr : Graph) (link_mapping : LinkMapping)
           (e : node * node) : Z :=
  zsum (map (fun it : (node * node) * list node =>
               (or0 (get_bandwidth_req vnr (fst it)) * hops_on e (snd it))%Z)
            link_mapping).

(** [line3] as the reset at the start of a run leaves it. *)
Definition line3_reset : Graph :=
  {| nodes := [(0, {| cpu := Some 100%Z; cpu_available := Some 100%Z;
                      cpu_req := None |});
               (1, {| cpu := Some 50%Z; cpu_available := Some 50%Z;
                      cpu_req := None |});
               (2, {| cpu := Some 99%Z; cpu_available := Some 99%Z;
                      cpu_req := None |})];
     edges := [((0, 1), {| bandwidth := Some 50%Z;
                           bandwidth_available := Some 50%Z;
                           bandwidth_req := None |});
               ((1, 2), {| bandwidth := Some 50%Z;
                           bandwidth_available := Some 50%Z;
                           bandwidth_req := None |})] |}.

(** The requests whose arrival stands in a list of events, in order. *)
Definition arrivals_of (evs : list Event) : list VNR :=
  flat_map (fun e => match e with
                     | ARRIVAL _ vnr => [vnr]
                     | DEPARTURE _ _ => []
                     end) evs.

(** What is left for the event loop to do: the events behind the iterator,
    the arrivals among them counted twice (each may add a departure). *)
Definition sim_measure (st : SimState) : nat :=
  length (skipn (position st) (events st))
  + length (arrivals_of (skipn (position st) (events st))).

(** ** metrics.py *)

Module metrics.

(** [calculate_revenue(vnr)]: the CPU demand plus the bandwidth demand (the
    function of the same name in yu_baseline.py doubles the CPU part). *)
Definition calculate_revenue (vnr : Graph) : option Z :=
  cpu_revenue <- mapM (get_cpu_req vnr) (node_list vnr) ;;
  bw_revenue <- mapM (get_bandwidth_req vnr) (edge_list vnr) ;;
  Some (zsum cpu_revenue + zsum bw_revenue)%Z.



End metrics.

(** ** Properties of substrates, requests and path queries *)

(** No available capacity is negative. *)
Definition never_negative (g : Graph) : Prop :=
  (forall n c, get_cpu_available g n = Some c -> (0 <= c)%Z)
  /\ (forall e b, get_bandwidth_available g e = Some b -> (0 <= b)%Z).

(** No requirement of a request is negative. *)
Definition demands_nonneg (vnr : Graph) : Prop :=
  (forall n r, get_cpu_req vnr n = Some r -> (0 <= r)%Z)
  /\ (forall e b, get_bandwidth_req vnr e = Some b -> (0 <= b)%Z).

(** What [nx.shortest_simple_paths] promises: no path visits a node
    twice. *)
Definition simple_paths_only (paths : Networkx) : Prop :=
  forall g s t p, In p (@shortest_simple_paths paths g s t) -> NoDup p.

(** Every request of a list, and every active request, is well formed. *)
Definition all_good (l : list VNR) : Prop :=
  forall v, In v l -> demands_nonneg (vnr_graph v).

Definition active_good (st : YuState) : Prop :=
  forall x, In x (dict_values (yu_active st)) ->
            demands_nonneg (vnr_graph (fst x)).

(** ** What a BFS embedding is made of *)

(** A link entry made while placing [vnr_node] on [sub_node]: the shortest
    path to the image of an already placed neighbour, feasible for the
    bandwidth the virtual link asks for. *)
Definition bfs_new_link `{Networkx} (substrate vnr : Graph)
           (vnr_node sub_node : node) (current_node_mapping : NodeMapping)
           (e : node * node) (p : list node) : Prop :=
  exists s2 bw,
    fst e = vnr_node
    /\ dict_get current_node_mapping (snd e) = Some s2
    /\ shortest_path substrate sub_node s2 = Some p
    /\ bandwidth_req_or0 vnr e = Some bw
    /\ path_feasible substrate bw p = Some true.

(** A link entry that agrees with the node mapping. *)
Definition bfs_link_ok `{Networkx} (substrate vnr : Graph)
           (nm : NodeMapping) (e : node * node) (p : list node) : Prop :=
  exists s1 s2 bw,
    dict_get nm (fst e) = Some s1
    /\ dict_get nm (snd e) = Some s2
    /\ shortest_path substrate s1 s2 = Some p
    /\ bandwidth_req_or0 vnr e = Some bw
    /\ path_feasible substrate bw p = Some true.

(** The loop invariant of [bfs_embedding_with_backtracking]: the nodes placed
    are those before [current_index], each on one of its candidates with
    enough CPU, and every link entry agrees with the node mapping. *)
Definition bfs_inv `{Networkx} (substrate vnr : Graph) (bfs_order : list node)
           (candidate_lists : dict node (list node)) (st : BfsState) : Prop :=
  dict_keys (bt_node_mapping st) = firstn (current_index st) bfs_order
  /\ (forall v s, In (v, s) (bt_node_mapping st) ->
        exists cands, dict_get candidate_lists v = Some cands /\ In s cands
                      /\ (cpu_req_or0 vnr v <= cpu_available_or0 substrate s)%Z)
  /\ (forall e p, In (e, p) (bt_link_mapping st) ->
        bfs_link_ok substrate vnr (bt_node_mapping st) e p).

(** The nodes the edges of a graph mention, and how many of them a BFS has
    not visited yet. *)
Definition endpoints (g : Graph) : list node :=
  flat_map (fun x => [fst (fst x); snd (fst x)]) (edges g).

Definition unvisited (g : Graph) (visited : list node) : nat :=
  length (filter (fun x => negb (mem x visited)) (endpoints g)).

(** What the active embeddings hold of substrate node [n] and of substrate
    link [e]. *)
Definition held_cpu (active : dict nat (NodeMapping * LinkMapping * VNR))
           (n : node) : Z :=
  zsum (map (fun x => (fun a : NodeMapping * LinkMapping * VNR =>
                         cpu_demand (vnr_graph (snd a)) (fst (fst a)) n)
                        (snd x))
            active).

Definition held_bw (active : dict nat (NodeMapping * LinkMapping * VNR))
           (e : node * node) : Z :=
  zsum (map (fun x => (fun a : NodeMapping * LinkMapping * VNR =>
                         bw_demand (vnr_graph (snd a)) (snd (fst a)) e)
                        (snd x))
            active).

(** Available capacity is what [initial] had less what is held. *)
Definition conserved (initial : Graph) (st : SimState) : Prop :=
  (forall n, get_cpu_available (substrate_working st) n
             = option_map (fun c => c - held_cpu (active_embeddings st) n)%Z
                          (get_cpu_available initial n))
  /\ (forall e, get_bandwidth_available (substrate_working st) e
                = option_map (fun b => b - held_bw (active_embeddings st) e)%Z
                             (get_bandwidth_available initial e)).

(** The active table has one entry per identifier, each of a request that
    has a result already. *)
Definition active_known (st : SimState) : Prop :=
  NoDup (dict_keys (active_embeddings st))
  /\ forall id, In id (dict_keys (active_embeddings st)) ->
                In id (map res_vnr_id (results st)).

(** Three requests on the narrow pair: the second cannot get its link while
    the first is alive, and the third arrives one window later. *)
Definition requeue_queue : list VNR :=
  [request2 0 1 0 100 10 30; request2 1 2 5 20 10 30;
   request2 2 3 30 20 10 10].

(* ===================================================================== *)
(** * Part II: properties                                                 *)
(* ===================================================================== *)

(** ** Allocation and deallocation are inverse *)

Lemma keyb_refl {K} `{Key K} (k : K) : keyb k k = true.
Proof. apply keyb_eq. reflexivity. Qed.

Lemma keyb_neq {K} `{Key K} (a b : K) : keyb a b = false <-> a <> b.
Proof.
  split.
  - intros E ->. rewrite keyb_refl in E. discriminate.
  - intros N. destruct (keyb a b) eqn:E; [|reflexivity].
    apply keyb_eq in E. contradiction.
Qed.

(** A transformation of the substrate that only moves available capacities:
    it leaves the presence of every attribute alone and commutes with every
    credit and debit. *)
Record shift (T : Graph -> Graph) : Prop := {
  shift_cpu_defined : forall g n,
      get_cpu_available (T g) n = None <-> get_cpu_available g n = None;
  shift_bw_defined : forall g e,
      get_bandwidth_available (T g) e = None
      <-> get_bandwidth_available g e = None;
  shift_cpu_comm : forall g n d,
      T (alter_cpu_available (fun c => c + d)%Z n g)
      = alter_cpu_available (fun c => c + d)%Z n (T g);
  shift_bw_comm : forall g e d,
      T (alter_bandwidth_available (fun b => b + d)%Z e g)
      = alter_bandwidth_available (fun b => b + d)%Z e (T g)
}.

Lemma dict_get_alter {V} (f : V -> V) (n k : node) (d : dict node V) :
  dict_get (dict_alter f n d) k
  = if Nat.eqb k n then option_map f (dict_get d k) else dict_get d k.
Proof.
  induction d as [|[k' v] d IH]; simpl.
  - destruct (Nat.eqb k n); reflexivity.
  - destruct (Nat.eqb k' n) eqn:E1; simpl; destruct (Nat.eqb k' k) eqn:E2.
    + apply Nat.eqb_eq in E1, E2. subst. rewrite Nat.eqb_refl. reflexivity.
    + exact IH.
    + apply Nat.eqb_eq in E2. subst. rewrite E1. reflexivity.
    + exact IH.
Qed.

Lemma get_cpu_available_alter f n g k :
  get_cpu_available (alter_cpu_available f n g) k
  = if Nat.eqb k n then option_map f (get_cpu_available g k)
    else get_cpu_available g k.
Proof.
  unfold get_cpu_available, node_attrs, alter_cpu_available. simpl.
  rewrite dict_get_alter.
  destruct (Nat.eqb k n); [|reflexivity].
  destruct (dict_get (nodes g) k) as [a|]; [|reflexivity].
  simpl. reflexivity.
Qed.

Lemma same_edge_sym_r e u v : same_edge e (u, v) = same_edge e (v, u).
Proof.
  unfold same_edge. simpl. apply orb_comm.
Qed.

Lemma same_edge_trans e f h :
  same_edge e f = true -> same_edge e h = same_edge f h.
Proof.
  unfold same_edge. destruct e as [a b], f as [c d], h as [x y]. simpl.
  rewrite orb_true_iff, !andb_true_iff, !Nat.eqb_eq.
  intros [[-> ->]|[-> ->]]; [reflexivity|].
  rewrite (andb_comm (Nat.eqb d x)), (andb_comm (Nat.eqb d y)).
  apply orb_comm.
Qed.

Lemma find_alter_edge f e (es : list ((node * node) * EdgeAttrs)) h :
  find (fun x => same_edge (fst x) h)
       (map (fun x => if same_edge (fst x) e
                      then (fst x, with_bandwidth_available f (snd x))
                      else x) es)
  = option_map (fun x => if same_edge (fst x) e
                         then (fst x, with_bandwidth_available f (snd x))
                         else x)
               (find (fun x => same_edge (fst x) h) es).
Proof.
  induction es as [|x es IH]; simpl; [reflexivity|].
  destruct (same_edge (fst x) e) eqn:E; simpl;
    destruct (same_edge (fst x) h) eqn:E'; simpl; try rewrite E; auto.
Qed.

Lemma get_bandwidth_available_alter f e g h :
  get_bandwidth_available (alter_bandwidth_available f e g) h
  = if same_edge h e then option_map f (get_bandwidth_available g h)
    else get_bandwidth_available g h.
Proof.
  unfold get_bandwidth_available, edge_attrs, alter_bandwidth_available.
  simpl. rewrite find_alter_edge.
  destruct (find (fun x => same_edge (fst x) h) (edges g)) as [[k a]|] eqn:F;
    simpl.
  - apply find_some in F. destruct F as [_ F]. simpl in F.
    rewrite (same_edge_trans _ _ e F).
    destruct (same_edge h e); reflexivity.
  - destruct (same_edge h e); reflexivity.
Qed.

Lemma option_map_None {A B} (f : A -> B) (o : option A) :
  option_map f o = None <-> o = None.
Proof. destruct o; simpl; split; congruence. Qed.

Lemma alter_cpu_cpu f1 f2 n1 n2 g :
  (forall c, f1 (f2 c) = f2 (f1 c)) ->
  alter_cpu_available f1 n1 (alter_cpu_available f2 n2 g)
  = alter_cpu_available f2 n2 (alter_cpu_available f1 n1 g).
Proof.
  intros C. unfold alter_cpu_available, dict_alter. simpl. f_equal.
  rewrite !map_map. apply map_ext. intros [k a]. simpl.
  destruct (Nat.eqb k n2) eqn:E2; simpl;
    destruct (Nat.eqb k n1) eqn:E1; simpl; rewrite ?E2; try reflexivity.
  f_equal. unfold with_cpu_available. simpl. f_equal.
  destruct (cpu_available a); simpl; [|reflexivity]. f_equal. apply C.
Qed.

Lemma alter_bw_bw f1 f2 e1 e2 g :
  (forall c, f1 (f2 c) = f2 (f1 c)) ->
  alter_bandwidth_available f1 e1 (alter_bandwidth_available f2 e2 g)
  = alter_bandwidth_available f2 e2 (alter_bandwidth_available f1 e1 g).
Proof.
  intros C. unfold alter_bandwidth_available. simpl. f_equal.
  rewrite !map_map. apply map_ext. intros [k a]. simpl.
  destruct (same_edge k e2) eqn:E2; simpl;
    destruct (same_edge k e1) eqn:E1; simpl; rewrite ?E2; try reflexivity.
  f_equal. unfold with_bandwidth_available. simpl. f_equal.
  destruct (bandwidth_available a); simpl; [|reflexivity]. f_equal. apply C.
Qed.

Lemma alter_cpu_inverse f1 f2 n g :
  (forall c, f1 (f2 c) = c) ->
  alter_cpu_available f1 n (alter_cpu_available f2 n g) = g.
Proof.
  intros C. destruct g as [ns es].
  unfold alter_cpu_available, dict_alter. simpl. f_equal.
  rewrite map_map. rewrite <- (map_id ns) at 2. apply map_ext.
  intros [k a]. simpl. destruct (Nat.eqb k n) eqn:E; simpl; rewrite ?E; auto.
  f_equal. destruct a as [c ca cr]. unfold with_cpu_available. simpl.
  f_equal. destruct ca; simpl; [|reflexivity]. f_equal. apply C.
Qed.

Lemma alter_bw_inverse f1 f2 e g :
  (forall c, f1 (f2 c) = c) ->
  alter_bandwidth_available f1 e (alter_bandwidth_available f2 e g) = g.
Proof.
  intros C. destruct g as [ns es].
  unfold alter_bandwidth_available. simpl. f_equal.
  rewrite map_map. rewrite <- (map_id es) at 2. apply map_ext.
  intros [k a]. simpl. destruct (same_edge k e) eqn:E; simpl; rewrite ?E; auto.
  f_equal. destruct a as [c ca cr]. unfold with_bandwidth_available. simpl.
  f_equal. destruct ca; simpl; [|reflexivity]. f_equal. apply C.
Qed.

Lemma shift_id : shift (fun g => g).
Proof. constructor; intros; reflexivity. Qed.

Lemma shift_compose T1 T2 : shift T1 -> shift T2 -> shift (fun g => T1 (T2 g)).
Proof.
  intros [a1 b1 c1 d1] [a2 b2 c2 d2]. constructor; intros.
  - rewrite a1. apply a2.
  - rewrite b1. apply b2.
  - rewrite c2. apply c1.
  - rewrite d2. apply d1.
Qed.

Lemma shift_alter_cpu n d : shift (alter_cpu_available (fun c => c + d)%Z n).
Proof.
  constructor; intros.
  - rewrite get_cpu_available_alter.
    destruct (Nat.eqb n0 n); [apply option_map_None | reflexivity].
  - reflexivity.
  - apply alter_cpu_cpu. intros. lia.
  - reflexivity.
Qed.

Lemma shift_alter_bw e d :
  shift (alter_bandwidth_available (fun c => c + d)%Z e).
Proof.
  constructor; intros.
  - reflexivity.
  - rewrite get_bandwidth_available_alter.
    destruct (same_edge e0 e); [apply option_map_None | reflexivity].
  - reflexivity.
  - apply alter_bw_bw. intros. lia.
Qed.

Lemma sub_as_add g n r :
  alter_cpu_available (fun c => c - r)%Z n g
  = alter_cpu_available (fun c => c + (- r))%Z n g.
Proof.
  unfold alter_cpu_available, dict_alter.
  apply (f_equal (fun ns => {| nodes := ns; edges := edges g |})).
  apply map_ext. intros [k a]. simpl. destruct (Nat.eqb k n); [|reflexivity].
  apply f_equal. unfold with_cpu_available.
  destruct (cpu_available a); simpl; [|reflexivity].
  replace (z + - r)%Z with (z - r)%Z by lia. reflexivity.
Qed.

Lemma bw_sub_as_add g e r :
  alter_bandwidth_available (fun c => c - r)%Z e g
  = alter_bandwidth_available (fun c => c + (- r))%Z e g.
Proof.
  unfold alter_bandwidth_available.
  apply (f_equal (fun es => {| nodes := nodes g; edges := es |})).
  apply map_ext. intros [k a]. simpl. destruct (same_edge k e); [|reflexivity].
  apply f_equal. unfold with_bandwidth_available.
  destruct (bandwidth_available a); simpl; [|reflexivity].
  replace (z + - r)%Z with (z - r)%Z by lia. reflexivity.
Qed.

(** The elementary debits of an allocation, in program order. *)
Inductive Op :=
| OpCpu (n : node) (r : Z)
| OpBw (e : node * node) (r : Z).

Definition debit (g : Graph) (o : Op) : option Graph :=
  match o with
  | OpCpu n r => cpu_available_sub g n r
  | OpBw e r => bandwidth_available_sub g e r
  end.

Definition credit (g : Graph) (o : Op) : option Graph :=
  match o with
  | OpCpu n r => cpu_available_add g n r
  | OpBw e r => bandwidth_available_add g e r
  end.

Fixpoint run (step : Graph -> Op -> option Graph) (ops : list Op) (g : Graph)
  : option Graph :=
  match ops with
  | [] => Some g
  | o :: ops' => g' <- step g o ;; run step ops' g'
  end.

Fixpoint path_edges (p : list node) : list (node * node) :=
  match p with
  | a :: ((b :: _) as tl) => (a, b) :: path_edges tl
  | _ => []
  end.

Definition cpu_ops (vnr : Graph) (items : list (node * node))
  : option (list Op) :=
  mapM (fun it : node * node =>
          r <- get_cpu_req vnr (fst it) ;; Some (OpCpu (snd it) r)) items.

Fixpoint bw_ops (vnr : Graph) (items : list ((node * node) * list node))
  : option (list Op) :=
  match items with
  | [] => Some []
  | (v_edge, s_path) :: rest =>
      bw <- get_bandwidth_req vnr v_edge ;;
      ops <- bw_ops vnr rest ;;
      Some (map (fun e => OpBw e bw) (path_edges s_path) ++ ops)
  end.

Lemma run_app step a b g :
  run step (a ++ b) g = (g' <- run step a g ;; run step b g').
Proof.
  revert g. induction a as [|o a IH]; intros g; simpl; [reflexivity|].
  destruct (step g o); [apply IH | reflexivity].
Qed.

Lemma bind_None_r {A B} (o : option A) :
  (x <- o ;; (None : option B)) = None.
Proof. destruct o; reflexivity. Qed.

Lemma allocate_cpu_run vnr items g :
  allocate_cpu g vnr items = (ops <- cpu_ops vnr items ;; run debit ops g).
Proof.
  revert g. induction items as [|[v s] items IH]; intros g; simpl;
    [reflexivity|].
  unfold cpu_ops in *. simpl.
  destruct (get_cpu_req vnr v) as [r|]; [|reflexivity].
  destruct (mapM _ items) as [ops|] eqn:E; simpl.
  - destruct (cpu_available_sub g s r); [apply IH | reflexivity].
  - destruct (cpu_available_sub g s r); [apply IH | reflexivity].
Qed.

Lemma deallocate_cpu_run vnr items g :
  deallocate_cpu g vnr items = (ops <- cpu_ops vnr items ;; run credit ops g).
Proof.
  revert g. induction items as [|[v s] items IH]; intros g; simpl;
    [reflexivity|].
  unfold cpu_ops in *. simpl.
  destruct (get_cpu_req vnr v) as [r|]; [|reflexivity].
  destruct (mapM _ items) as [ops|] eqn:E; simpl.
  - destruct (cpu_available_add g s r); [apply IH | reflexivity].
  - destruct (cpu_available_add g s r); [apply IH | reflexivity].
Qed.

Lemma allocate_path_run bw p g :
  allocate_path g bw p = run debit (map (fun e => OpBw e bw) (path_edges p)) g.
Proof.
  revert g. induction p as [|a p IH]; intros g; [reflexivity|].
  destruct p as [|b p]; [reflexivity|].
  change (allocate_path g bw (a :: b :: p))
    with (s' <- bandwidth_available_sub g (a, b) bw ;;
          allocate_path s' bw (b :: p)).
  change (path_edges (a :: b :: p)) with ((a, b) :: path_edges (b :: p)).
  simpl map. simpl run.
  destruct (bandwidth_available_sub g (a, b) bw); [apply IH | reflexivity].
Qed.

Lemma deallocate_path_run bw p g :
  deallocate_path g bw p = run credit (map (fun e => OpBw e bw) (path_edges p)) g.
Proof.
  revert g. induction p as [|a p IH]; intros g; [reflexivity|].
  destruct p as [|b p]; [reflexivity|].
  change (deallocate_path g bw (a :: b :: p))
    with (s' <- bandwidth_available_add g (a, b) bw ;;
          deallocate_path s' bw (b :: p)).
  change (path_edges (a :: b :: p)) with ((a, b) :: path_edges (b :: p)).
  simpl map. simpl run.
  destruct (bandwidth_available_add g (a, b) bw); [apply IH | reflexivity].
Qed.

Lemma allocate_bw_run vnr items g :
  allocate_bw g vnr items = (ops <- bw_ops vnr items ;; run debit ops g).
Proof.
  revert g. induction items as [|[e p] items IH]; intros g; simpl;
    [reflexivity|].
  destruct (get_bandwidth_req vnr e) as [bw|]; [|reflexivity].
  rewrite allocate_path_run.
  destruct (bw_ops vnr items) as [ops|] eqn:E.
  - rewrite run_app.
    destruct (run debit _ g); [apply IH | reflexivity].
  - destruct (run debit _ g); [apply IH | reflexivity].
Qed.

Lemma deallocate_bw_run vnr items g :
  deallocate_bw g vnr items = (ops <- bw_ops vnr items ;; run credit ops g).
Proof.
  revert g. induction items as [|[e p] items IH]; intros g; simpl;
    [reflexivity|].
  destruct (get_bandwidth_req vnr e) as [bw|]; [|reflexivity].
  rewrite deallocate_path_run.
  destruct (bw_ops vnr items) as [ops|] eqn:E.
  - rewrite run_app.
    destruct (run credit _ g); [apply IH | reflexivity].
  - destruct (run credit _ g); [apply IH | reflexivity].
Qed.

Definition resource_ops (vnr : Graph) (nm : NodeMapping) (lm : LinkMapping)
  : option (list Op) :=
  a <- cpu_ops vnr nm ;; b <- bw_ops vnr lm ;; Some (a ++ b).

Lemma allocate_resources_run g nm lm vnr g' :
  allocate_resources g nm lm vnr = Some g' ->
  exists ops, resource_ops vnr nm lm = Some ops /\ run debit ops g = Some g'.
Proof.
  unfold allocate_resources, resource_ops.
  rewrite allocate_cpu_run.
  destruct (cpu_ops vnr nm) as [a|]; [|discriminate].
  destruct (run debit a g) as [g1|] eqn:E1; [|discriminate].
  rewrite allocate_bw_run.
  destruct (bw_ops vnr lm) as [b|]; [|discriminate].
  intros E2. exists (a ++ b). split; [reflexivity|].
  rewrite run_app, E1. exact E2.
Qed.

Lemma deallocate_resources_run g nm lm vnr ops :
  resource_ops vnr nm lm = Some ops ->
  deallocate_resources g nm lm vnr = run credit ops g.
Proof.
  unfold deallocate_resources, resource_ops.
  rewrite deallocate_cpu_run.
  destruct (cpu_ops vnr nm) as [a|]; [|discriminate].
  destruct (bw_ops vnr lm) as [b|] eqn:Eb; [|discriminate].
  intros E. inversion E; subst. rewrite run_app.
  destruct (run credit a g) as [g1|]; [|reflexivity].
  rewrite deallocate_bw_run, Eb. reflexivity.
Qed.

Lemma debit_shift g o g' :
  debit g o = Some g' -> exists S, shift S /\ g' = S g.
Proof.
  destruct o as [n r|e r]; simpl;
    [unfold cpu_available_sub | unfold bandwidth_available_sub].
  - destruct (get_cpu_available g n); [|discriminate].
    intros E. inversion E. rewrite sub_as_add.
    eexists. split; [apply shift_alter_cpu | reflexivity].
  - destruct (get_bandwidth_available g e); [|discriminate].
    intros E. inversion E. rewrite bw_sub_as_add.
    eexists. split; [apply shift_alter_bw | reflexivity].
Qed.

Lemma run_debit_shift ops g g' :
  run debit ops g = Some g' -> exists S, shift S /\ g' = S g.
Proof.
  revert g. induction ops as [|o ops IH]; intros g; simpl.
  - intros E. inversion E. exists (fun x => x). split; [apply shift_id | auto].
  - destruct (debit g o) as [g1|] eqn:E1; [|discriminate].
    intros E. destruct (IH _ E) as [S [HS ->]].
    destruct (debit_shift _ _ E1) as [S1 [HS1 ->]].
    exists (fun x => S (S1 x)). split; [apply shift_compose; assumption | auto].
Qed.

(** Crediting back what was debited, under any further shift of capacities. *)
Lemma run_credit_debit ops g g' :
  run debit ops g = Some g' ->
  forall T, shift T -> run credit ops (T g') = Some (T g).
Proof.
  revert g. induction ops as [|o ops IH]; intros g; simpl.
  - intros E T HT. inversion E. reflexivity.
  - destruct (debit g o) as [g1|] eqn:E1; [|discriminate].
    intros E T HT.
    destruct (run_debit_shift _ _ E) as [S [HS ES]].
    destruct o as [n r|e r]; simpl in *.
    + unfold cpu_available_sub in E1. unfold cpu_available_add.
      destruct (get_cpu_available g n) as [c|] eqn:D; [|discriminate].
      inversion E1 as [E1']. rewrite sub_as_add in E1'.
      destruct (get_cpu_available (T g') n) as [c'|] eqn:D'.
      * rewrite (IH _ E (fun x => alter_cpu_available (fun c => c + r)%Z n (T x))).
        -- subst g1. rewrite (shift_cpu_comm HT).
           rewrite alter_cpu_inverse; [reflexivity | intros; lia].
        -- apply (shift_compose (shift_alter_cpu n r) HT).
      * exfalso. subst g' g1.
        apply (proj1 (shift_cpu_defined HT _ _)) in D'.
        apply (proj1 (shift_cpu_defined HS _ _)) in D'.
        apply (proj1 (shift_cpu_defined (shift_alter_cpu n (- r)) _ _)) in D'.
        congruence.
    + unfold bandwidth_available_sub in E1. unfold bandwidth_available_add.
      destruct (get_bandwidth_available g e) as [c|] eqn:D; [|discriminate].
      inversion E1 as [E1']. rewrite bw_sub_as_add in E1'.
      destruct (get_bandwidth_available (T g') e) as [c'|] eqn:D'.
      * rewrite (IH _ E (fun x =>
                   alter_bandwidth_available (fun c => c + r)%Z e (T x))).
        -- subst g1. rewrite (shift_bw_comm HT).
           rewrite alter_bw_inverse; [reflexivity | intros; lia].
        -- apply (shift_compose (shift_alter_bw e r) HT).
      * exfalso. subst g' g1.
        apply (proj1 (shift_bw_defined HT _ _)) in D'.
        apply (proj1 (shift_bw_defined HS _ _)) in D'.
        apply (proj1 (shift_bw_defined (shift_alter_bw e (- r)) _ _)) in D'.
        congruence.
Qed.

Lemma path_edges_length (p : list node) :
  length (path_edges p) = length p - 1.
Proof.
  induction p as [|a p IH]; [reflexivity|].
  destruct p as [|b p]; [reflexivity|].
  change (path_edges (a :: b :: p)) with ((a, b) :: path_edges (b :: p)).
  simpl length in *. lia.
Qed.

(** C3.  Whenever [allocate_resources] returns, [deallocate_resources] with the
    same arguments returns too and gives back the substrate as it was before
    the allocation: every [cpu_available] and every [bandwidth_available]
    has its former value (the graphs are equal).  A path of [L] nodes is
    debited the full requirement once per consecutive pair, [L - 1] times. *)
Theorem deallocate_allocate_roundtrip :
  forall (substrate : Graph) (node_mapping : NodeMapping)
         (link_mapping : LinkMapping) (vnr : Graph) (allocated : Graph),
    allocate_resources substrate node_mapping link_mapping vnr = Some allocated ->
    (exists restored,
        deallocate_resources allocated node_mapping link_mapping vnr
        = Some restored
        /\ restored = substrate
        /\ (forall n, get_cpu_available restored n
                      = get_cpu_available substrate n)
        /\ (forall e, get_bandwidth_available restored e
                      = get_bandwidth_available substrate e))
    /\ (forall g bw_req s_path,
           allocate_path g bw_req s_path
           = run debit (map (fun e => OpBw e bw_req) (path_edges s_path)) g
           /\ deallocate_path g bw_req s_path
              = run credit (map (fun e => OpBw e bw_req) (path_edges s_path)) g
           /\ length (path_edges s_path) = length s_path - 1).
Proof.
  intros g nm lm vnr g' A.
  destruct (allocate_resources_run _ _ _ _ A) as [ops [Hops Hrun]].
  split.
  - exists g. split.
    + rewrite (deallocate_resources_run _ _ _ _ Hops).
      apply (run_credit_debit _ _ Hrun shift_id).
    + auto.
  - intros g0 bw p. split; [apply allocate_path_run|].
    split; [apply deallocate_path_run | apply path_edges_length].
Qed.

Lemma deallocate_allocate_roundtrip_witness :
  exists allocated,
    allocate_resources uneven_pair [(0, 1); (1, 0)] [((0, 1), [1; 0])]
                       (vnr_graph (request2 0 1 0 10 20 30))
    = Some allocated
    /\ get_cpu_available allocated 0 = Some 80%Z
    /\ get_bandwidth_available allocated (0, 1) = Some 70%Z
    /\ deallocate_resources allocated [(0, 1); (1, 0)] [((0, 1), [1; 0])]
                            (vnr_graph (request2 0 1 0 10 20 30))
       = Some uneven_pair.
Proof.
  destruct (allocate_resources uneven_pair [(0, 1); (1, 0)] [((0, 1), [1; 0])]
                               (vnr_graph (request2 0 1 0 10 20 30)))
    as [allocated|] eqn:A; [|vm_compute in A; discriminate].
  exists allocated. split; [reflexivity|].
  destruct (deallocate_allocate_roundtrip _ _ _ _ A)
    as [[restored [D [E _]]] _].
  subst restored.
  vm_compute in A. inversion A; subst allocated.
  split; [reflexivity|]. split; [reflexivity | exact D].
Defined.

(** ** The capacity invariant under the greedy strategy *)

(** C1.  On the three-node line with every capacity and demand in the
    generator's range, the first arrival of a greedy run leaves link (1,2)
    with [bandwidth_available = -10]: both virtual links are routed over it
    and each is only checked against the untouched capacity of 50. *)
Theorem greedy_run_overdraws_link :
  exists st,
    reachable greedy_reference line3 [request3] st
    /\ get_bandwidth_available (substrate_working st) (1, 2) = Some (-10)%Z
    /\ capacity_ok (substrate_working st) = false.
Proof.
  destruct (sim_init line3 [request3]) as [st0|] eqn:E0;
    [|vm_compute in E0; discriminate].
  exists (snd (sim_run greedy_reference 1 st0)).
  split; [exists st0, 1; auto|].
  vm_compute in E0. inversion E0; subst st0. clear E0.
  split; vm_compute; reflexivity.
Qed.

(** ** Order of simultaneous events *)

Definition same_time_queue : list VNR :=
  [request2 0 1 0 10 60 10; request2 1 2 10 10 60 10].

(** C5, as stated, fails: request 1 (arrival 0, lifetime 10) departs at time
    10, request 2 arrives at time 10, and the arrival is processed first, so
    request 2 is refused although the departure frees enough CPU for it. *)
Lemma same_time_arrival_precedes_departure :
  exists st0 tr fin,
    sim_init pair2 same_time_queue = Some st0
    /\ sim_run greedy_reference 3 st0 = (tr, fin)
    /\ map event_time tr = [0; 10; 10]%Z
    /\ nth_error tr 1 = Some (ARRIVAL 10 (request2 1 2 10 10 60 10))
    /\ nth_error tr 2 = Some (DEPARTURE 10 1)
    /\ map res_success (results fin) = [true; false]
    /\ ~ departures_first tr.
Proof.
  destruct (sim_init pair2 same_time_queue) as [st0|] eqn:E0;
    [|vm_compute in E0; discriminate].
  destruct (sim_run greedy_reference 3 st0) as [tr fin] eqn:E.
  exists st0, tr, fin.
  vm_compute in E0. inversion E0; subst st0. clear E0.
  vm_compute in E. inversion E; subst tr fin. clear E.
  repeat (split; [reflexivity|]).
  intros D.
  specialize (D 1 2 10%Z (request2 1 2 10 10 60 10) 1 eq_refl eq_refl).
  lia.
Qed.

(** *** The event list under the time-only sort *)

Section StableInsertion.
Context {A : Type} (key : A -> Z).

Let le (x y : A) : Prop := (key x <= key y)%Z.

Lemma insert_asc_In x y (l : list A) :
  In y (insert_asc Z.ltb key x l) <-> y = x \/ In y l.
Proof.
  induction l as [|z l IH]; simpl.
  - intuition.
  - destruct (Z.ltb (key z) (key x)); simpl; rewrite ?IH; intuition.
Qed.

Lemma sorted_asc_In y (l : list A) :
  In y (sorted_asc Z.ltb key l) <-> In y l.
Proof.
  induction l as [|z l IH]; simpl; [reflexivity|].
  rewrite insert_asc_In, IH. intuition.
Qed.

Lemma insert_asc_sorted x (l : list A) :
  StronglySorted le l -> StronglySorted le (insert_asc Z.ltb key x l).
Proof.
  induction 1 as [|z l S IH F]; simpl.
  - repeat constructor.
  - destruct (Z.ltb (key z) (key x)) eqn:E.
    + constructor; [exact IH|].
      apply Forall_forall. intros y Hy. apply insert_asc_In in Hy.
      destruct Hy as [->|Hy].
      * apply Z.ltb_lt in E. unfold le. lia.
      * rewrite Forall_forall in F. auto.
    + apply Z.ltb_ge in E. constructor; [constructor; assumption|].
      constructor; [exact E|].
      eapply Forall_impl; [|exact F]. unfold le. intros; lia.
Qed.

Lemma sorted_asc_sorted (l : list A) :
  StronglySorted le (sorted_asc Z.ltb key l).
Proof.
  induction l; simpl; [constructor | apply insert_asc_sorted; assumption].
Qed.

Lemma insert_asc_least x (l : list A) :
  Forall (le x) l -> insert_asc Z.ltb key x l = x :: l.
Proof.
  destruct l as [|y l]; [reflexivity|]. simpl. intros F.
  inversion F as [|? ? Hxy _]; subst. unfold le in Hxy.
  destruct (Z.ltb (key y) (key x)) eqn:E; [|reflexivity].
  apply Z.ltb_lt in E. lia.
Qed.

(** Appending one element to a sorted list and sorting again puts it
    behind everything that is not later than it. *)
Lemma sorted_asc_append (l : list A) (d : A) :
  StronglySorted le l ->
  exists l1 l2,
    l = l1 ++ l2
    /\ sorted_asc Z.ltb key (l ++ [d]) = l1 ++ d :: l2
    /\ Forall (fun x => key x <= key d)%Z l1
    /\ Forall (fun y => key d < key y)%Z l2.
Proof.
  unfold sorted_asc. rewrite fold_right_app. simpl.
  induction 1 as [|x l S IH F].
  - exists [], []. simpl. auto.
  - destruct IH as [l1 [l2 [El [Es [F1 F2]]]]]. simpl. rewrite Es.
    destruct l1 as [|y l1].
    + simpl in *. subst l2. destruct (Z.ltb (key d) (key x)) eqn:E.
      * apply Z.ltb_lt in E. exists [], (x :: l). simpl.
        rewrite (insert_asc_least F). auto.
      * apply Z.ltb_ge in E. exists [x], l. simpl. auto.
    + exists (x :: y :: l1), l2.
      assert (Hxy : (key x <= key y)%Z).
      { subst l. inversion F; assumption. }
      simpl. destruct (Z.ltb (key y) (key x)) eqn:E.
      * apply Z.ltb_lt in E. lia.
      * subst l. repeat split; auto.
        constructor; [|exact F1]. inversion F1; subst. lia.
Qed.
End StableInsertion.

Lemma StronglySorted_nth {A} (R : A -> A -> Prop) (l : list A) :
  StronglySorted R l ->
  forall i j x y, i < j -> nth_error l i = Some x -> nth_error l j = Some y ->
                  R x y.
Proof.
  induction 1 as [|a l S IH F]; intros i j x y Hij Hi Hj.
  - destruct i; discriminate.
  - destruct j as [|j]; [lia|]. simpl in Hj. destruct i as [|i]; simpl in Hi.
    + inversion Hi; subst. rewrite Forall_forall in F. apply F.
      eapply nth_error_In; eauto.
    + apply (IH i j); auto. lia.
Qed.

Lemma StronglySorted_app {A} (R : A -> A -> Prop) (l1 l2 : list A) :
  StronglySorted R (l1 ++ l2)
  <-> StronglySorted R l1 /\ StronglySorted R l2
      /\ (forall x y, In x l1 -> In y l2 -> R x y).
Proof.
  induction l1 as [|a l1 IH]; simpl.
  - split; [intros S; repeat split; auto; try constructor; contradiction|].
    intros [_ [S _]]. exact S.
  - split.
    + intros S. apply StronglySorted_inv in S. destruct S as [S F].
      apply IH in S. destruct S as [S1 [S2 C]].
      rewrite Forall_app in F. destruct F as [Fa Fb].
      repeat split; auto.
      * constructor; assumption.
      * intros x y [->|Hx] Hy; [|auto]. rewrite Forall_forall in Fb. auto.
    + intros [S1 [S2 C]]. apply StronglySorted_inv in S1.
      destruct S1 as [S1 F]. constructor.
      * apply IH. repeat split; auto.
      * apply Forall_app. split; [assumption|].
        apply Forall_forall. intros y Hy. apply C; auto.
Qed.

(** The order the event list is kept in: by time, and an arrival standing
    behind a departure is strictly later than it. *)
Definition event_order (x y : Event) : Prop :=
  (event_time x <= event_time y)%Z
  /\ (is_departure x = true -> is_arrival y = true ->
      (event_time x < event_time y)%Z).

Lemma event_order_time l :
  StronglySorted event_order l ->
  StronglySorted (fun x y => (event_time x <= event_time y)%Z) l.
Proof.
  induction 1; constructor; auto.
  eapply Forall_impl; [|eassumption]. intros ? [? _]. assumption.
Qed.

Lemma sort_events_arrivals (vnr_queue : list VNR) :
  StronglySorted event_order
    (sort_events (map (fun v => ARRIVAL (arrival_time v) v) vnr_queue)).
Proof.
  unfold sort_events.
  set (l := map _ vnr_queue).
  assert (Arr : Forall (fun e => is_departure e = false)
                       (sorted_asc Z.ltb event_time l)).
  { apply Forall_forall. intros e He. apply sorted_asc_In in He.
    unfold l in He. apply in_map_iff in He. destruct He as [v [<- _]].
    reflexivity. }
  pose proof (sorted_asc_sorted event_time l) as S.
  induction S as [|a l' S IH F]; [constructor|].
  inversion Arr; subst. constructor; [auto|].
  eapply Forall_impl; [|exact F]. simpl. intros b Hb. split; [exact Hb|].
  congruence.
Qed.

(** Re-sorting after a departure was appended keeps the order. *)
Lemma sort_events_departure l t id :
  StronglySorted event_order l ->
  exists l1 l2,
    l = l1 ++ l2
    /\ sort_events (l ++ [DEPARTURE t id]) = l1 ++ DEPARTURE t id :: l2
    /\ StronglySorted event_order (l1 ++ DEPARTURE t id :: l2).
Proof.
  intros S.
  destruct (sorted_asc_append event_time (DEPARTURE t id) (event_order_time S))
    as [l1 [l2 [El [Es [F1 F2]]]]].
  exists l1, l2. split; [assumption|]. split; [assumption|].
  subst l. apply StronglySorted_app in S. destruct S as [S1 [S2 C]].
  apply StronglySorted_app. split; [assumption|]. split.
  - constructor; [assumption|].
    eapply Forall_impl; [|exact F2]. unfold event_order. simpl.
    intros y Hy. split; intros; lia.
  - intros x y Hx [<-|Hy]; [|auto].
    rewrite Forall_forall in F1. split; [apply F1; assumption|].
    simpl. discriminate.
Qed.

Lemma nth_error_insert_middle {A} (l1 l2 : list A) (d x : A) i :
  nth_error (l1 ++ l2) i = Some x ->
  exists i', i' <= S i /\ nth_error (l1 ++ d :: l2) i' = Some x.
Proof.
  intros E. destruct (Nat.lt_ge_cases i (length l1)) as [L|L].
  - exists i. split; [lia|].
    rewrite nth_error_app1 in * by assumption. assumption.
  - exists (S i). split; [lia|].
    rewrite nth_error_app2 in * by lia.
    replace (S i - length l1) with (S (i - length l1)) by lia.
    exact E.
Qed.

Section EventOrder.
Variable algorithm_func : Graph -> Graph -> option Embedding.

(** What the loop keeps true: the list is in [event_order], and every
    departure time processed so far ([past]) still stands in front of the
    iterator. *)
Definition sim_inv (st : SimState) (past : list Z) : Prop :=
  StronglySorted event_order (events st)
  /\ forall t, In t past ->
               exists i e, i < position st
                           /\ nth_error (events st) i = Some e
                           /\ is_departure e = true
                           /\ event_time e = t.

Lemma on_arrival_events t vnr st st' :
  on_arrival algorithm_func t vnr st = Some st' ->
  position st' = position st
  /\ (events st' = events st
      \/ exists t' id,
           events st' = sort_events (events st ++ [DEPARTURE t' id])).
Proof.
  unfold on_arrival.
  destruct (algorithm_func _ _) as [[[nm lm] success]|]; [|discriminate].
  destruct success.
  - destruct nm as [nm|]; [|discriminate].
    destruct lm as [lm|]; [|discriminate].
    destruct (allocate_resources _ _ _ _); [|discriminate].
    intros E. inversion E. simpl. split; [reflexivity|].
    right. eauto.
  - intros E. inversion E. simpl. auto.
Qed.

Lemma on_departure_events id st st' :
  on_departure id st = Some st' ->
  position st' = position st /\ events st' = events st.
Proof.
  unfold on_departure.
  destruct (dict_get _ _) as [[[nm lm] vnr]|].
  - destruct (deallocate_resources _ _ _ _); [|discriminate].
    intros E. inversion E. auto.
  - intros E. inversion E. auto.
Qed.

Lemma sim_turn_inv st e st' past :
  sim_turn algorithm_func st = Processed e st' ->
  sim_inv st past ->
  (is_arrival e = true -> forall t, In t past -> (t < event_time e)%Z)
  /\ sim_inv st' (if is_departure e then event_time e :: past else past).
Proof.
  unfold sim_turn. intros T [S P].
  destruct (nth_error (events st) (position st)) as [e0|] eqn:N;
    [|discriminate].
  split.
  - assert (e0 = e) as ->.
    { destruct e0; [destruct (on_arrival _ _ _ _) | destruct (on_departure _ _)];
        inversion T; reflexivity. }
    intros A t Ht. destruct (P t Ht) as [i [x [Hi [Hx [Dx <-]]]]].
    destruct (StronglySorted_nth S Hi Hx N) as [_ L]. auto.
  - destruct e0 as [t vnr|t id].
    + destruct (on_arrival _ _ _ _) as [st1|] eqn:E; [|discriminate].
      inversion T; subst e st1. clear T. simpl.
      apply on_arrival_events in E. simpl in E. destruct E as [Ep Ee].
      unfold sim_inv. rewrite Ep.
      destruct Ee as [->|[t' [id ->]]].
      * split; [assumption|].
        intros t0 Ht0. destruct (P t0 Ht0) as [i [x [Hi Hx]]].
        exists i, x. split; [lia | assumption].
      * destruct (sort_events_departure t' id S) as [l1 [l2 [El [-> S']]]].
        split; [assumption|].
        intros t0 Ht0. destruct (P t0 Ht0) as [i [x [Hi [Hx Hd]]]].
        rewrite El in Hx.
        destruct (nth_error_insert_middle l1 l2 (DEPARTURE t' id) i Hx)
          as [i' [Hi' Hx']].
        exists i', x. split; [lia|]. split; assumption.
    + destruct (on_departure _ _) as [st1|] eqn:E; [|discriminate].
      inversion T; subst e st1. clear T. simpl.
      apply on_departure_events in E. simpl in E. destruct E as [Ep Ee].
      unfold sim_inv. rewrite Ep, Ee. split; [assumption|].
      intros t0 [<-|Ht0].
      * exists (position st), (DEPARTURE t id). auto.
      * destruct (P t0 Ht0) as [i [x [Hi Hx]]].
        exists i, x. split; [lia | assumption].
Qed.

(** In what a run processes from a state satisfying the invariant, every
    arrival is strictly later than the departures processed before it. *)
Definition strictly_after (x y : Event) : Prop :=
  is_departure x = true -> is_arrival y = true ->
  (event_time x < event_time y)%Z.

Lemma sim_run_order n :
  forall st past,
    sim_inv st past ->
    (forall t e, In t past -> In e (fst (sim_run algorithm_func n st)) ->
                 is_arrival e = true -> (t < event_time e)%Z)
    /\ StronglySorted strictly_after (fst (sim_run algorithm_func n st)).
Proof.
  induction n as [|n IH]; intros st past I; simpl.
  - split; [contradiction | constructor].
  - destruct (sim_turn algorithm_func st) as [| |e st'] eqn:T;
      simpl; try (split; [contradiction | constructor]).
    destruct (sim_turn_inv T I) as [Now I'].
    destruct (IH _ _ I') as [Later S].
    destruct (sim_run algorithm_func n st') as [tr fin]. simpl in *.
    split.
    + intros t x Ht [<-|Hx] A; [auto|].
      apply (Later t x); auto.
      destruct (is_departure e); simpl; auto.
    + constructor; [assumption|].
      apply Forall_forall. intros y Hy Dx Ay.
      apply (Later (event_time e) y); auto.
      rewrite Dx. simpl. auto.
Qed.

(** C5, amended.  Whatever the strategy, the substrate and the queue, and
    however long the run is followed: when an arrival and a departure with
    the same timestamp are both processed, the arrival is processed first
    (so it is embedded before the departure frees anything). *)
Theorem simultaneous_arrival_is_processed_first :
  forall (substrate : Graph) (vnr_queue : list VNR) (st0 : SimState) (n : nat),
    sim_init substrate vnr_queue = Some st0 ->
    arrivals_first (fst (sim_run algorithm_func n st0)).
Proof.
  intros substrate vnr_queue st0 n I0.
  assert (I : sim_inv st0 []).
  { unfold sim_init in I0.
    destruct (reset_available substrate); [|discriminate].
    inversion I0. split; [apply sort_events_arrivals | contradiction]. }
  destruct (sim_run_order n I) as [_ S].
  intros i j t v id Hi Hj.
  destruct (Nat.lt_trichotomy i j) as [L|[->|L]]; [assumption | congruence |].
  pose proof (StronglySorted_nth S L Hj Hi eq_refl eq_refl) as C.
  simpl in C. lia.
Qed.
End EventOrder.

Lemma simultaneous_arrival_is_processed_first_witness :
  exists st0,
    sim_init pair2 same_time_queue = Some st0
    /\ arrivals_first (fst (sim_run greedy_reference 3 st0)).
Proof.
  destruct (sim_init pair2 same_time_queue) as [st0|] eqn:E0;
    [|vm_compute in E0; discriminate].
  exists st0. split; [reflexivity|].
  exact (@simultaneous_arrival_is_processed_first
           greedy_reference pair2 same_time_queue st0 3 E0).
Defined.

(** ** NodeRank *)

Lemma zsum_zero (l : list Z) : Forall (fun z => z = 0%Z) l -> zsum l = 0%Z.
Proof.
  unfold zsum. induction 1 as [|z l -> _ IH]; simpl; [reflexivity | exact IH].
Qed.

Lemma compute_noderank_zero graph max_iterations epsilon p_jump p_forward :
  total_H graph = 0%Z ->
  compute_noderank graph max_iterations epsilon p_jump p_forward = None.
Proof. unfold compute_noderank. intros ->. reflexivity. Qed.

(** A graph whose every node has no CPU in any of the three attributes has
    total weight 0. *)
Lemma zero_cpu_total_H graph :
  Forall (fun e : node * NodeAttrs => cpu_weight (snd e) = 0%Z) (nodes graph) ->
  total_H graph = 0%Z.
Proof.
  intros F. unfold total_H, resource_H, dict_values. rewrite map_map. simpl.
  apply zsum_zero. apply Forall_map.
  eapply Forall_impl; [|exact F]. simpl. intros e ->. reflexivity.
Qed.

(** C7.  A graph of total weight 0 has no rank ([None], not a table of
    zeros), and both ranked strategies fail outright -- no node mapping, no
    link mapping, [success = false] -- whether that graph is the substrate
    or the request, for every other graph and every path oracle. *)
Theorem zero_weight_is_undefined_and_fatal :
  forall (paths : Networkx) (graph : Graph),
    total_H graph = 0%Z ->
    (forall max_iterations epsilon p_jump p_forward,
        compute_noderank graph max_iterations epsilon p_jump p_forward = None)
    /\ (forall other max_hop max_backtrack,
           rw_bfs_algorithm graph other max_hop max_backtrack
           = Some (None, None, false)
           /\ rw_bfs_algorithm other graph max_hop max_backtrack
              = Some (None, None, false)
           /\ rw_maxmatch_algorithm graph other = Some (None, None, false)
           /\ rw_maxmatch_algorithm other graph = Some (None, None, false)).
Proof.
  intros paths graph Z. split.
  - intros. apply compute_noderank_zero. exact Z.
  - intros other max_hop max_backtrack.
    unfold rw_bfs_algorithm, rw_maxmatch_algorithm, compute_noderank_default.
    rewrite (compute_noderank_zero _ _ _ _ _ Z).
    repeat split; try reflexivity;
      destruct (compute_noderank other _ _ _ _); reflexivity.
Qed.

Lemma zero_weight_is_undefined_and_fatal_witness :
  total_H zero_cpu_pair = 0%Z
  /\ compute_noderank_default zero_cpu_pair = None
  /\ rw_bfs_reference zero_cpu_pair (vnr_graph request3) = Some (None, None, false)
  /\ rw_maxmatch_reference zero_cpu_pair (vnr_graph request3)
     = Some (None, None, false).
Proof.
  destruct (@zero_weight_is_undefined_and_fatal
              reference_paths zero_cpu_pair eq_refl) as [R S].
  destruct (S (vnr_graph request3) 3 3) as [B [_ [M _]]].
  split; [reflexivity|]. split; [apply R|]. split; [exact B | exact M].
Defined.

(** C10.  The weight of a node is its CPU times its incident bandwidth, so a
    graph whose every node has no incident bandwidth has no rank, whatever
    the CPU values are. *)
Theorem no_incident_bandwidth_is_undefined :
  forall (graph : Graph),
    (forall n, In n (node_list graph) -> total_bandwidth graph n = 0%Z) ->
    total_H graph = 0%Z
    /\ forall max_iterations epsilon p_jump p_forward,
        compute_noderank graph max_iterations epsilon p_jump p_forward = None.
Proof.
  intros graph Hbw.
  assert (Z : total_H graph = 0%Z).
  { unfold total_H, resource_H, dict_values. rewrite map_map. simpl.
    apply zsum_zero. apply Forall_map. apply Forall_forall.
    intros e He. rewrite Hbw; [lia|].
    unfold node_list, dict_keys. apply in_map. exact He. }
  split; [exact Z|]. intros. apply compute_noderank_zero. exact Z.
Qed.

(** The two instances named in the claim. *)
Lemma no_edges_no_bandwidth graph n :
  edges graph = [] -> total_bandwidth graph n = 0%Z.
Proof.
  unfold total_bandwidth, neighbors. intros ->. reflexivity.
Qed.

Lemma find_weight_zero graph e a :
  Forall (fun x : (node * node) * EdgeAttrs => bandwidth_weight (snd x) = 0%Z)
         (edges graph) ->
  edge_attrs graph e = Some a -> bandwidth_weight a = 0%Z.
Proof.
  unfold edge_attrs. intros F E.
  destruct (find _ (edges graph)) as [x|] eqn:Fx; [|discriminate].
  inversion E; subst. apply find_some in Fx. destruct Fx as [I _].
  rewrite Forall_forall in F. apply F. exact I.
Qed.

Lemma zero_edges_no_bandwidth graph n :
  Forall (fun x : (node * node) * EdgeAttrs => bandwidth_weight (snd x) = 0%Z)
         (edges graph) ->
  total_bandwidth graph n = 0%Z.
Proof.
  intros F. unfold total_bandwidth. apply zsum_zero. apply Forall_map.
  apply Forall_forall. intros nb _.
  destruct (edge_attrs graph (n, nb)) as [a|] eqn:E; [|reflexivity].
  eapply find_weight_zero; eauto.
Qed.

Lemma no_incident_bandwidth_is_undefined_witness :
  Forall (fun e : node * NodeAttrs => (0 < cpu_weight (snd e))%Z)
         (nodes isolated_nodes)
  /\ compute_noderank_default isolated_nodes = None.
Proof.
  split.
  - repeat constructor.
  - apply (no_incident_bandwidth_is_undefined isolated_nodes).
    intros n _. apply no_edges_no_bandwidth. reflexivity.
Defined.

(** *** Which table the loop returns *)

Section NodeRankLoop.
Variables (graph : Graph) (p_jump p_forward epsilon : float).

Let step := next_rank graph p_jump p_forward.
Let small (r : NodeRank) : bool :=
  (total_diff graph (step r) r <? epsilon)%float.

Lemma noderank_loop_breaks n : forall r k,
    k < n ->
    (forall j, j < k -> small (Nat.iter j step r) = false) ->
    small (Nat.iter k step r) = true ->
    noderank_loop graph p_jump p_forward epsilon n r = Nat.iter k step r.
Proof.
  induction n as [|n IH]; intros r k Hk Before At; [lia|].
  simpl. destruct k as [|k].
  - simpl in At. unfold small, step in At. rewrite At. reflexivity.
  - pose proof (Before 0 ltac:(lia)) as B0. simpl in B0.
    unfold small, step in B0. rewrite B0.
    fold step. rewrite (IH (step r) k).
    + rewrite Nat.iter_succ_r. reflexivity.
    + lia.
    + intros j Hj. specialize (Before (S j) ltac:(lia)).
      rewrite Nat.iter_succ_r in Before. exact Before.
    + rewrite Nat.iter_succ_r in At. exact At.
Qed.

Lemma noderank_loop_exhausts n : forall r,
    (forall j, j < n -> small (Nat.iter j step r) = false) ->
    noderank_loop graph p_jump p_forward epsilon n r = Nat.iter n step r.
Proof.
  induction n as [|n IH]; intros r Before; [reflexivity|].
  simpl noderank_loop.
  pose proof (Before 0 ltac:(lia)) as B0. simpl in B0.
  unfold small, step in B0. rewrite B0.
  fold step. rewrite (IH (step r)).
  - rewrite Nat.iter_succ_r. reflexivity.
  - intros j Hj. specialize (Before (S j) ltac:(lia)).
    rewrite Nat.iter_succ_r in Before. exact Before.
Qed.
End NodeRankLoop.

(** C6, amended.  On a graph of non-zero weight: if round [k] is the first
    whose total change is below [epsilon], the function returns the table
    that round started from -- [rank_after k], the result of the round
    before, or the initial ranks when [k = 0] -- and not the table
    [rank_after (S k)] that round computed; if no round within
    [max_iterations] is below [epsilon], it returns the table computed by
    the last one.  Neither case raises. *)
Theorem noderank_returns_table_before_converging_round :
  forall (graph : Graph) (max_iterations : nat) (epsilon p_jump p_forward : float),
    total_H graph <> 0%Z ->
    (forall k,
        k < max_iterations ->
        (forall j, j < k -> converged_at graph p_jump p_forward epsilon j = false) ->
        converged_at graph p_jump p_forward epsilon k = true ->
        compute_noderank graph max_iterations epsilon p_jump p_forward
        = Some (rank_after graph p_jump p_forward k))
    /\ ((forall j, j < max_iterations ->
                   converged_at graph p_jump p_forward epsilon j = false) ->
        compute_noderank graph max_iterations epsilon p_jump p_forward
        = Some (rank_after graph p_jump p_forward max_iterations)).
Proof.
  intros graph mi eps pj pf NZ.
  unfold compute_noderank. apply Z.eqb_neq in NZ. rewrite NZ.
  split.
  - intros k Hk Before At. f_equal.
    apply noderank_loop_breaks; assumption.
  - intros Never. f_equal. apply noderank_loop_exhausts. assumption.
Qed.

Lemma forallb_seq_lt (f : nat -> bool) (k : nat) :
  forallb f (seq 0 k) = true -> forall j, j < k -> f j = true.
Proof.
  intros F j Hj. rewrite forallb_forall in F. apply F.
  apply in_seq. lia.
Qed.

Lemma uneven_pair_first_converging_round :
  (forall j, j < 54 ->
             converged_at uneven_pair default_p_jump default_p_forward
                          default_epsilon j = false)
  /\ converged_at uneven_pair default_p_jump default_p_forward
                  default_epsilon 54 = true.
Proof.
  split; [|vm_compute; reflexivity].
  intros j Hj.
  apply negb_true_iff.
  apply (@forallb_seq_lt
           (fun j => negb (converged_at uneven_pair default_p_jump
                                        default_p_forward default_epsilon j))
           54); [vm_compute; reflexivity | exact Hj].
Qed.

Lemma noderank_returns_table_before_converging_round_witness :
  total_H uneven_pair <> 0%Z
  /\ compute_noderank_default uneven_pair
     = Some (rank_after uneven_pair default_p_jump default_p_forward 54)
  /\ compute_noderank uneven_pair 3 0%float default_p_jump default_p_forward
     = Some (rank_after uneven_pair default_p_jump default_p_forward 3).
Proof.
  assert (NZ : total_H uneven_pair <> 0%Z) by (vm_compute; discriminate).
  split; [exact NZ|]. split.
  - apply (proj1 (@noderank_returns_table_before_converging_round
                    uneven_pair default_max_iterations default_epsilon
                    default_p_jump default_p_forward NZ) 54).
    + unfold default_max_iterations. lia.
    + apply uneven_pair_first_converging_round.
    + apply uneven_pair_first_converging_round.
  - apply (proj2 (@noderank_returns_table_before_converging_round
                    uneven_pair 3 0%float default_p_jump default_p_forward NZ)).
    intros j Hj.
    apply negb_true_iff.
    apply (@forallb_seq_lt
             (fun j => negb (converged_at uneven_pair default_p_jump
                                          default_p_forward 0%float j))
             3); [vm_compute; reflexivity | exact Hj].
Defined.

Lemma ranks_differ (n : node) (r1 r2 : NodeRank) :
  PrimFloat.ltb (rank_at r1 n) (rank_at r2 n) = true ->
  PrimFloat.ltb (rank_at r2 n) (rank_at r2 n) = false ->
  Some r2 <> Some r1.
Proof.
  intros L I E. injection E as E'. subst r2. congruence.
Qed.

(** C6, as stated, fails: on the two-node substrate with CPU 100 and 50,
    round 54 is the first whose change is below the default [epsilon]; the
    value returned is the table that round started from, and the table it
    computed (in which node 0 ranks strictly lower) is dropped. *)
Lemma noderank_drops_converging_round :
  (forall j, j < 54 ->
             converged_at uneven_pair default_p_jump default_p_forward
                          default_epsilon j = false)
  /\ converged_at uneven_pair default_p_jump default_p_forward
                  default_epsilon 54 = true
  /\ compute_noderank_default uneven_pair
     = Some (rank_after uneven_pair default_p_jump default_p_forward 54)
  /\ PrimFloat.ltb
       (rank_at (rank_after uneven_pair default_p_jump default_p_forward 55) 0)
       (rank_at (rank_after uneven_pair default_p_jump default_p_forward 54) 0)
     = true
  /\ compute_noderank_default uneven_pair
     <> Some (rank_after uneven_pair default_p_jump default_p_forward 55).
Proof.
  assert (R : compute_noderank_default uneven_pair
              = Some (rank_after uneven_pair default_p_jump default_p_forward 54))
    by (vm_compute; reflexivity).
  assert (L : PrimFloat.ltb
                 (rank_at (rank_after uneven_pair default_p_jump
                                      default_p_forward 55) 0)
                 (rank_at (rank_after uneven_pair default_p_jump
                                      default_p_forward 54) 0) = true)
    by (vm_compute; reflexivity).
  split; [apply uneven_pair_first_converging_round|].
  split; [apply uneven_pair_first_converging_round|].
  split; [exact R|]. split; [exact L|].
  rewrite R.
  apply (@ranks_differ
           0 (rank_after uneven_pair default_p_jump default_p_forward 55)
           (rank_after uneven_pair default_p_jump default_p_forward 54) L).
  vm_compute. reflexivity.
Qed.

(** ** What a strategy hands back when it fails *)

(** The three per-request strategies are functions of the substrate: they
    return an embedding and nothing else, so the substrate the simulator
    holds is the one it passed in.  What remains of the failure contract is
    the shape of the returned triple. *)
Lemma greedy_failure_is_empty `{Networkx} substrate vnr nm lm :
  simple_greedy_algorithm substrate vnr = Some (nm, lm, false) ->
  nm = None /\ lm = None.
Proof.
  unfold simple_greedy_algorithm.
  destruct (sorted_desc_by _ _) as [sn|]; [|discriminate].
  destruct (greedy_node_mapping _ _ _ _ _) as [[m|]|]; try discriminate.
  - destruct (greedy_link_mapping _ _ _ _ _) as [[l|]|]; try discriminate;
      intros E; inversion E; auto.
  - intros E; inversion E; auto.
Qed.

Lemma bfs_loop_failure_is_empty `{Networkx} substrate vnr order parents cands
      max_hop max_backtrack fuel :
  forall st nm lm,
    bfs_loop substrate vnr order parents cands max_hop max_backtrack fuel st
    = Some (Some (nm, lm, false)) ->
    nm = None /\ lm = None.
Proof.
  induction fuel as [|fuel IH]; intros st nm lm; simpl;
    destruct (bfs_turn _ _ _ _ _ _ _ st) as [[st'|r]|] eqn:T;
    try discriminate; try (apply IH).
  all: intros E; inversion E; subst r; clear E.
  all: unfold bfs_turn in T.
  all: destruct (nth_error order (current_index st)); [|discriminate].
  all: destruct (dict_get cands n); [|discriminate].
  all: destruct (dict_get (tried_candidates st) n); [|discriminate].
  all: destruct (match_vnr_node _ _ _ _ _ _ _) as [[[s found]|]|];
    try discriminate.
  all: destruct ((backtrack_count st <? max_backtrack)
                 && (0 <? current_index st)).
  all: try (destruct (nth_error order (current_index st - 1));
            [|discriminate];
            destruct (match dict_get (bt_node_mapping st) _ with
                      | Some _ => _ | None => _ end); discriminate).
  all: inversion T; auto.
Qed.

Lemma rw_bfs_failure_is_empty `{Networkx} substrate vnr max_hop max_backtrack
      nm lm :
  rw_bfs_algorithm substrate vnr max_hop max_backtrack = Some (nm, lm, false) ->
  nm = None /\ lm = None.
Proof.
  unfold rw_bfs_algorithm.
  destruct (compute_noderank_default substrate);
    [destruct (compute_noderank_default vnr)|];
    try (intros E; inversion E; auto; fail).
  destruct (construct_bfs_tree_order vnr _) as [[order parents]|];
    [|discriminate].
  unfold bfs_embedding_with_backtracking.
  destruct (bfs_loop _ _ _ _ _ _ _ _ _) as [[r|]|] eqn:L; try discriminate.
  intros E. inversion E; subst r.
  eapply bfs_loop_failure_is_empty. exact L.
Qed.

(** C2.  With RankedMaxMatch the failure contract breaks: on a two-node
    substrate with a link of bandwidth 50, the second of two overlapping
    requests that each ask 30 finds both its nodes but no path, and the
    strategy returns its node mapping together with [success = false];
    the simulator records that mapping in the result of the refused
    request. *)
Theorem maxmatch_failure_keeps_node_mapping :
  exists st,
    reachable rw_maxmatch_reference narrow_pair overlapping_queue st
    /\ get_bandwidth_available (substrate_working st) (0, 1) = Some 20%Z
    /\ rw_maxmatch_reference (substrate_working st)
                             (vnr_graph (request2 1 2 5 20 10 30))
       = Some (Some [(0, 0); (1, 1)], None, false)
    /\ option_map
         (map (fun r => (res_vnr_id r, res_success r, res_node_mapping r,
                         res_link_mapping r)))
         (vne_simulation rw_maxmatch_reference 4 narrow_pair overlapping_queue)
       = Some [(1, true, Some [(0, 0); (1, 1)], Some [((0, 1), [0; 1])]);
               (2, false, Some [(0, 0); (1, 1)], None)].
Proof.
  destruct (sim_init narrow_pair overlapping_queue) as [st0|] eqn:E0;
    [|vm_compute in E0; discriminate].
  exists (snd (sim_run rw_maxmatch_reference 1 st0)).
  split; [exists st0, 1; auto|].
  vm_compute in E0. inversion E0; subst st0. clear E0.
  repeat split; vm_compute; reflexivity.
Qed.

(** ** Chunking *)

(** C9.  With arrivals at 0 and 100 and the default window of 25,
    [create_chunks] closes one chunk and opens the next without asking
    whether the request fits the window it has just opened: the request
    arriving at 100 lands in chunk 1, whose slot is (25, 50], and the
    baseline embeds it at time 50, before it arrives. *)
Theorem create_chunks_skips_empty_windows :
  let late := request2 1 2 100 20 10 30 in
  let chunked := create_chunks sparse_queue default_time_window [] in
  fst chunked = [[request2 0 1 0 20 10 30]; [late]]
  /\ nth_error (fst chunked) 1 = Some [late]
  /\ in_slot default_time_window 1 (arrival_time late) = false
  /\ in_slot default_time_window 3 (arrival_time late) = true
  /\ option_map
       (fun r => map (fun x => (yr_vnr_id x, yr_arrival_time x,
                                yr_embedding_time x, yr_success x))
                     (fst (fst r)))
       (g <- reset_available narrow_pair ;;
        yu2008_reference g (fst chunked) (snd chunked) default_time_window)
     = Some [(1, 0%Z, Some 25%Z, true); (2, 100%Z, Some 50%Z, true)].
Proof.
  repeat split; vm_compute; reflexivity.
Qed.

(** ** Node-disjointness *)

Lemma mem_In (x : node) (l : list node) : mem x l = true <-> In x l.
Proof.
  unfold mem. rewrite existsb_exists. split.
  - intros [y [Hy E]]. apply keyb_eq in E. subst. exact Hy.
  - intros Hx. exists x. split; [exact Hx | apply keyb_refl].
Qed.

Lemma mem_not_In (x : node) (l : list node) : mem x l = false <-> ~ In x l.
Proof.
  rewrite <- mem_In. destruct (mem x l); split; congruence.
Qed.

Section DictValues.
Context {K V : Type} `{Key K}.

Lemma dict_get_In (m : dict K V) k v :
  dict_get m k = Some v -> In (k, v) m.
Proof.
  induction m as [|[k' v'] m IH]; simpl; [discriminate|].
  destruct (keyb k' k) eqn:E.
  - apply keyb_eq in E. subst. intros E. inversion E. auto.
  - auto.
Qed.

Lemma dict_get_In_values (m : dict K V) k v :
  dict_get m k = Some v -> In v (dict_values m).
Proof.
  intros G. apply dict_get_In in G.
  unfold dict_values. change v with (snd (k, v)). apply in_map. exact G.
Qed.

Lemma dict_set_In_values (m : dict K V) k v x :
  In x (dict_values (dict_set m k v)) -> x = v \/ In x (dict_values m).
Proof.
  induction m as [|[k' v'] m IH]; simpl.
  - intuition.
  - destruct (keyb k' k); simpl; intuition.
Qed.

Lemma dict_set_values_NoDup (m : dict K V) k v :
  NoDup (dict_values m) -> ~ In v (dict_values m) ->
  NoDup (dict_values (dict_set m k v)).
Proof.
  induction m as [|[k' v'] m IH]; simpl; intros N F.
  - repeat constructor. auto.
  - inversion N as [|? ? N1 N2]; subst.
    destruct (keyb k' k); simpl.
    + constructor; [intuition | assumption].
    + constructor.
      * intros I. apply dict_set_In_values in I. intuition.
      * apply IH; intuition.
Qed.

Lemma dict_del_values_NoDup (m : dict K V) k :
  NoDup (dict_values m) -> NoDup (dict_values (dict_del m k)).
Proof.
  induction m as [|[k' v'] m IH]; simpl; intros N; [constructor|].
  inversion N as [|? ? N1 N2]; subst.
  destruct (keyb k' k); simpl; [auto|].
  constructor; [|auto].
  intros I. apply N1. unfold dict_values, dict_del in *.
  apply in_map_iff in I. destruct I as [e [E I]].
  apply filter_In in I. apply in_map_iff. exists e. intuition.
Qed.

Lemma NoDup_values_get (m : dict K V) k1 k2 v :
  NoDup (dict_values m) ->
  dict_get m k1 = Some v -> dict_get m k2 = Some v -> k1 = k2.
Proof.
  induction m as [|[k' v'] m IH]; simpl; intros N G1 G2; [discriminate|].
  inversion N as [|? ? N1 N2]; subst.
  destruct (keyb k' k1) eqn:E1, (keyb k' k2) eqn:E2.
  - apply keyb_eq in E1, E2. congruence.
  - inversion G1; subst. apply dict_get_In_values in G2. contradiction.
  - inversion G2; subst. apply dict_get_In_values in G1. contradiction.
  - auto.
Qed.
End DictValues.

Lemma NoDup_values_injective (m : NodeMapping) :
  NoDup (dict_values m) -> injective m.
Proof.
  intros N v1 v2 s. apply NoDup_values_get. exact N.
Qed.

Lemma greedy_pick_fresh substrate nm cpu_req cands s :
  greedy_pick substrate nm cpu_req cands = Some (Some s) ->
  ~ In s (dict_values nm).
Proof.
  induction cands as [|c cands IH]; simpl; [discriminate|].
  destruct (mem c (dict_values nm)) eqn:M; [exact IH|].
  destruct (get_cpu_available substrate c) as [a|]; [|discriminate].
  destruct (a >=? cpu_req)%Z; [|exact IH].
  intros E. inversion E; subst. apply mem_not_In. exact M.
Qed.

Lemma greedy_node_mapping_NoDup substrate vnr cands v_nodes :
  forall nm nm',
    NoDup (dict_values nm) ->
    greedy_node_mapping substrate vnr cands v_nodes nm = Some (Some nm') ->
    NoDup (dict_values nm').
Proof.
  induction v_nodes as [|v v_nodes IH]; simpl; intros nm nm' N E.
  - inversion E; subst. exact N.
  - destruct (get_cpu_req vnr v) as [r|]; [|discriminate].
    destruct (greedy_pick substrate nm r cands) as [[s|]|] eqn:P;
      try discriminate.
    eapply IH; [|exact E]. apply dict_set_values_NoDup; [exact N|].
    eapply greedy_pick_fresh. exact P.
Qed.

Lemma greedy_injective `{Networkx} substrate vnr nm lm :
  simple_greedy_algorithm substrate vnr = Some (Some nm, lm, true) ->
  injective nm.
Proof.
  unfold simple_greedy_algorithm.
  destruct (sorted_desc_by _ _) as [sn|]; [|discriminate].
  destruct (greedy_node_mapping _ _ _ _ _) as [[m|]|] eqn:G; try discriminate.
  destruct (greedy_link_mapping _ _ _ _ _) as [[l|]|]; try discriminate.
  intros E. inversion E; subst.
  apply NoDup_values_injective.
  eapply greedy_node_mapping_NoDup; [|exact G]. constructor.
Qed.

Lemma maxmatch_pick_fresh substrate nm cpu_req cands s :
  maxmatch_pick substrate nm cpu_req cands = Some s ->
  ~ In s (dict_values nm).
Proof.
  induction cands as [|c cands IH]; simpl; [discriminate|].
  destruct (mem c (dict_values nm)) eqn:M; [exact IH|].
  destruct (cpu_available_or0 substrate c >=? cpu_req)%Z; [|exact IH].
  intros E. inversion E; subst. apply mem_not_In. exact M.
Qed.

Lemma maxmatch_nodes_NoDup substrate vnr cands v_nodes :
  forall nm nm',
    NoDup (dict_values nm) ->
    maxmatch_nodes substrate vnr cands v_nodes nm = Some nm' ->
    NoDup (dict_values nm').
Proof.
  induction v_nodes as [|v v_nodes IH]; simpl; intros nm nm' N E.
  - inversion E; subst. exact N.
  - destruct (maxmatch_pick substrate nm _ cands) as [s|] eqn:P;
      [|discriminate].
    eapply IH; [|exact E]. apply dict_set_values_NoDup; [exact N|].
    eapply maxmatch_pick_fresh. exact P.
Qed.

Lemma maxmatch_injective `{Networkx} substrate vnr nm lm success :
  rw_maxmatch_algorithm substrate vnr = Some (Some nm, lm, success) ->
  injective nm.
Proof.
  unfold rw_maxmatch_algorithm.
  destruct (compute_noderank_default substrate) as [sr|]; [|discriminate].
  destruct (compute_noderank_default vnr) as [vr|]; [|discriminate].
  unfold rw_maxmatch_node_mapping.
  destruct (maxmatch_nodes _ _ _ _ _) as [m|] eqn:G; simpl; [|discriminate].
  destruct (rw_maxmatch_link_mapping substrate vnr m) as [[l ok]|];
    [|discriminate].
  intros E. inversion E; subst.
  apply NoDup_values_injective.
  eapply maxmatch_nodes_NoDup; [|exact G]. constructor.
Qed.

Section BfsProperties.
Context `{Networkx}.
Variables (substrate vnr : Graph) (bfs_order : list node)
          (bfs_parents : dict node (option node))
          (candidate_lists : dict node (list node))
          (max_hop max_backtrack : nat).

Lemma match_at_hop_fresh vnr_node nm k cands s found :
  match_at_hop substrate vnr vnr_node nm bfs_parents k cands
  = Some (Some (s, found)) ->
  ~ In s (dict_values nm).
Proof.
  induction cands as [|c cands IH]; simpl; [discriminate|].
  destruct (mem c (dict_values nm)) eqn:M; [exact IH|].
  destruct (cpu_available_or0 substrate c <? cpu_req_or0 vnr vnr_node)%Z;
    [exact IH|].
  destruct (check_hop_constraint _ _ _ _ _ _) as [[|]|]; try discriminate;
    [|exact IH].
  destruct (match_links _ _ _ _ _ _ _) as [[l|]|]; try discriminate;
    [|exact IH].
  intros E. inversion E; subst. apply mem_not_In. exact M.
Qed.

Lemma match_hops_fresh vnr_node cands nm ks s found :
  match_hops substrate vnr vnr_node cands nm bfs_parents ks
  = Some (Some (s, found)) ->
  ~ In s (dict_values nm).
Proof.
  induction ks as [|k ks IH]; simpl; [discriminate|].
  destruct (match_at_hop _ _ _ _ _ _ _) as [[[s' f']|]|] eqn:M;
    try discriminate; [|exact IH].
  intros E. inversion E; subst. eapply match_at_hop_fresh. exact M.
Qed.

Lemma match_vnr_node_fresh vnr_node cands nm s found :
  match_vnr_node substrate vnr vnr_node cands nm bfs_parents max_hop
  = Some (Some (s, found)) ->
  ~ In s (dict_values nm).
Proof.
  unfold match_vnr_node. destruct nm as [|e nm].
  - intros _ [].
  - apply match_hops_fresh.
Qed.

Definition bfs_step :=
  bfs_turn substrate vnr bfs_order bfs_parents candidate_lists
           max_hop max_backtrack.

Lemma bfs_turn_NoDup st st' :
  bfs_step st = Some (inl st') ->
  NoDup (dict_values (bt_node_mapping st)) ->
  NoDup (dict_values (bt_node_mapping st')).
Proof.
  unfold bfs_step, bfs_turn. intros T N.
  destruct (nth_error bfs_order (current_index st)) as [v|]; [|discriminate].
  destruct (dict_get candidate_lists v); [|discriminate].
  destruct (dict_get (tried_candidates st) v); [|discriminate].
  destruct (match_vnr_node _ _ _ _ _ _ _) as [[[s found]|]|] eqn:M;
    try discriminate.
  - inversion T; subst. simpl.
    apply dict_set_values_NoDup; [exact N|].
    eapply match_vnr_node_fresh. exact M.
  - destruct ((backtrack_count st <? max_backtrack) && (0 <? current_index st));
      [|discriminate].
    destruct (nth_error bfs_order (current_index st - 1)) as [p|];
      [|discriminate].
    destruct (dict_get (bt_node_mapping st) p) as [chosen|].
    + destruct (dict_get _ p); [|discriminate].
      inversion T; subst. simpl. apply dict_del_values_NoDup. exact N.
    + inversion T; subst. simpl. exact N.
Qed.

Lemma bfs_turn_result st nm lm :
  bfs_step st = Some (inr (Some nm, lm, true)) ->
  nm = bt_node_mapping st.
Proof.
  unfold bfs_step, bfs_turn.
  destruct (nth_error bfs_order (current_index st)) as [v|].
  - destruct (dict_get candidate_lists v); [|discriminate].
    destruct (dict_get (tried_candidates st) v); [|discriminate].
    destruct (match_vnr_node _ _ _ _ _ _ _) as [[[s found]|]|];
      try discriminate.
    destruct ((backtrack_count st <? max_backtrack) && (0 <? current_index st));
      [|discriminate].
    destruct (nth_error bfs_order (current_index st - 1)); [|discriminate].
    destruct (match dict_get (bt_node_mapping st) _ with
              | Some _ => _ | None => _ end); discriminate.
  - intros E. inversion E. reflexivity.
Qed.

Lemma bfs_loop_NoDup fuel : forall st nm lm,
    NoDup (dict_values (bt_node_mapping st)) ->
    bfs_loop substrate vnr bfs_order bfs_parents candidate_lists
             max_hop max_backtrack fuel st = Some (Some (Some nm, lm, true)) ->
    NoDup (dict_values nm).
Proof.
  induction fuel as [|fuel IH]; intros st nm lm N; simpl;
    fold (bfs_step st);
    destruct (bfs_step st) as [[st'|r]|] eqn:T; try discriminate.
  - intros E. inversion E; subst. apply bfs_turn_result in T. subst. exact N.
  - apply IH. eapply bfs_turn_NoDup; eauto.
  - intros E. inversion E; subst. apply bfs_turn_result in T. subst. exact N.
Qed.

(** What is left of the search: backtracks not yet spent, and nodes not yet
    placed. *)
Definition bfs_measure (st : BfsState) : nat :=
  (max_backtrack - backtrack_count st) * S (length bfs_order)
  + (length bfs_order - current_index st).

Lemma bfs_turn_decreases st st' :
  bfs_step st = Some (inl st') -> bfs_measure st' < bfs_measure st.
Proof.
  unfold bfs_step, bfs_turn, bfs_measure. intros T.
  destruct (nth_error bfs_order (current_index st)) as [v|] eqn:Nth;
    [|discriminate].
  assert (L : current_index st < length bfs_order).
  { apply nth_error_Some. congruence. }
  destruct (dict_get candidate_lists v); [|discriminate].
  destruct (dict_get (tried_candidates st) v); [|discriminate].
  destruct (match_vnr_node _ _ _ _ _ _ _) as [[[s found]|]|];
    try discriminate.
  - inversion T; subst. simpl. lia.
  - destruct ((backtrack_count st <? max_backtrack) && (0 <? current_index st))
             eqn:B; [|discriminate].
    apply andb_true_iff in B. destruct B as [B1 B2].
    apply Nat.ltb_lt in B1, B2.
    destruct (nth_error bfs_order (current_index st - 1)); [|discriminate].
    destruct (match dict_get (bt_node_mapping st) _ with
              | Some _ => _ | None => _ end); [|discriminate].
    inversion T; subst. simpl.
    replace (max_backtrack - backtrack_count st)
      with (S (max_backtrack - S (backtrack_count st))) by lia.
    simpl. lia.
Qed.

(** The loop never runs out of fuel. *)
Lemma bfs_loop_terminates fuel : forall st,
    bfs_measure st <= fuel ->
    bfs_loop substrate vnr bfs_order bfs_parents candidate_lists
             max_hop max_backtrack fuel st <> None.
Proof.
  induction fuel as [|fuel IH]; intros st M; simpl; fold (bfs_step st);
    destruct (bfs_step st) as [[st'|r]|] eqn:T; try discriminate.
  - apply bfs_turn_decreases in T. lia.
  - apply IH. apply bfs_turn_decreases in T. lia.
Qed.

Lemma bfs_embedding_returns :
  bfs_embedding_with_backtracking substrate vnr bfs_order bfs_parents
                                  candidate_lists max_hop max_backtrack
  <> None.
Proof.
  unfold bfs_embedding_with_backtracking. apply bfs_loop_terminates.
  unfold bfs_measure, bfs_fuel. simpl. lia.
Qed.
End BfsProperties.

Lemma rw_bfs_injective `{Networkx} substrate vnr max_hop max_backtrack nm lm :
  rw_bfs_algorithm substrate vnr max_hop max_backtrack
  = Some (Some nm, lm, true) ->
  injective nm.
Proof.
  unfold rw_bfs_algorithm.
  destruct (compute_noderank_default substrate); [|discriminate].
  destruct (compute_noderank_default vnr); [|discriminate].
  destruct (construct_bfs_tree_order vnr _) as [[order parents]|];
    [|discriminate].
  unfold bfs_embedding_with_backtracking.
  destruct (bfs_loop _ _ _ _ _ _ _ _ _) as [[r|]|] eqn:L; try discriminate.
  intros E. inversion E; subst r.
  apply NoDup_values_injective.
  eapply bfs_loop_NoDup; [|exact L]. constructor.
Qed.

(** ** The chunked baseline: requeueing *)

Lemma insert_desc_Permutation {A Kt} (ltb : Kt -> Kt -> bool) (key : A -> Kt)
      x (l : list A) :
  Permutation (insert_desc ltb key x l) (x :: l).
Proof.
  induction l as [|y l IH]; simpl; [reflexivity|].
  destruct (ltb (key x) (key y)); [|reflexivity].
  rewrite IH. apply perm_swap.
Qed.

Lemma sorted_desc_Permutation {A Kt} (ltb : Kt -> Kt -> bool) (key : A -> Kt)
      (l : list A) :
  Permutation (sorted_desc ltb key l) l.
Proof.
  induction l as [|x l IH]; simpl; [reflexivity|].
  rewrite insert_desc_Permutation. constructor. exact IH.
Qed.

Lemma mapM_keyed {A} (f : A -> option Z) (l : list A) keyed :
  mapM (fun x => k <- f x ;; Some (k, x)) l = Some keyed ->
  map snd keyed = l.
Proof.
  revert keyed. induction l as [|x l IH]; simpl; intros keyed E.
  - inversion E. reflexivity.
  - destruct (f x); [|discriminate].
    destruct (mapM _ l) as [r|]; [|discriminate].
    inversion E; subst. simpl. f_equal. apply IH. reflexivity.
Qed.

Lemma sorted_desc_by_Permutation {A} (f : A -> option Z) (l l' : list A) :
  sorted_desc_by f l = Some l' -> Permutation l' l.
Proof.
  unfold sorted_desc_by.
  destruct (mapM _ l) as [keyed|] eqn:E; [|discriminate].
  intros E'. inversion E'; subst.
  apply mapM_keyed in E. rewrite <- E.
  apply Permutation_map. apply sorted_desc_Permutation.
Qed.

Lemma occurrences_Permutation o (l l' : list VNR) :
  Permutation l l' -> occurrences o l = occurrences o l'.
Proof.
  intros P. unfold occurrences.
  apply Permutation_count_occ. apply Permutation_map. exact P.
Qed.

Lemma occurrences_app o (l l' : list VNR) :
  occurrences o (l ++ l') = occurrences o l + occurrences o l'.
Proof.
  unfold occurrences. rewrite map_app. apply count_occ_app.
Qed.

Section Requeue.
Context `{Networkx}.

Lemma yu_release_retried vnr st st' :
  yu_release vnr st = Some st' -> yu_retried st' = yu_retried st.
Proof.
  unfold yu_release.
  destruct (yu_release_nodes _ _ _ _ _) as [n|]; [|discriminate].
  destruct (yu_release_links _ _ _ _ _) as [l|]; [|discriminate].
  intros E. inversion E. reflexivity.
Qed.

Lemma yu_departures_retried t snapshot : forall st st',
    yu_departures t snapshot st = Some st' -> yu_retried st' = yu_retried st.
Proof.
  induction snapshot as [|[id [vnr d]] rest IH]; simpl; intros st st' E.
  - inversion E. reflexivity.
  - destruct (d <=? t)%Z; [|eauto].
    destruct (yu_release vnr st) as [st1|] eqn:R; [|discriminate].
    apply IH in E. simpl in E. rewrite E.
    eapply yu_release_retried. exact R.
Qed.

Lemma yu_mark_failed_marked vnr st failed st' failed' :
  yu_mark_failed vnr st failed = Some (st', failed') ->
  marked vnr (yu_retried st) failed (yu_retried st') failed'.
Proof.
  unfold yu_mark_failed.
  destruct (dict_get (yu_retried st) (obj_id vnr)) as [[|]|] eqn:G;
    try discriminate; intros E; inversion E; subst; simpl.
  - constructor.
  - constructor. exact G.
Qed.

Lemma yu_phase1_marked vnr st failed mapped st' failed' mapped' :
  yu_phase1 vnr (st, failed, mapped) = Some (st', failed', mapped') ->
  marked vnr (yu_retried st) failed (yu_retried st') failed'
  /\ (mapped' = mapped \/ mapped' = mapped ++ [vnr]).
Proof.
  unfold yu_phase1.
  destruct (mapM _ _) as [reqs|]; [|discriminate].
  destruct (list_min reqs) as [m|]; [|discriminate].
  destruct (filterM _ _) as [[|s0 S_nodes]|]; try discriminate.
  - destruct (yu_mark_failed vnr st failed) as [[st1 f1]|] eqn:M;
      [|discriminate].
    intros E. inversion E; subst.
    split; [eapply yu_mark_failed_marked; exact M | auto].
  - destruct (sorted_desc_by _ _) as [sn|]; [|discriminate].
    destruct (yu_map_nodes _ _ _ _ _ _ _) as [[[[g nm] vnm] ok]|];
      [|discriminate].
    destruct ok.
    + intros E. inversion E; subst. simpl. split; [constructor | auto].
    + destruct (yu_mark_failed vnr _ failed) as [[st1 f1]|] eqn:M;
        [|discriminate].
      intros E. inversion E; subst.
      apply yu_mark_failed_marked in M. simpl in M. auto.
Qed.

Lemma yu_phase2_marked t vnr st failed st' failed' :
  yu_phase2 t vnr (st, failed) = Some (st', failed') ->
  marked vnr (yu_retried st) failed (yu_retried st') failed'.
Proof.
  unfold yu_phase2.
  destruct (yu_map_links _ _ _ _ _ _) as [[[g lm] ok]|]; [|discriminate].
  destruct ok.
  - intros E. inversion E; subst. simpl. constructor.
  - destruct (yu_release vnr _) as [st2|] eqn:R; [|discriminate].
    intros M. apply yu_mark_failed_marked in M.
    apply yu_release_retried in R. simpl in R. rewrite R in M. exact M.
Qed.

Lemma foldM_phase1_marks l : forall st failed mapped st' failed' mapped',
    foldM yu_phase1 l (st, failed, mapped) = Some (st', failed', mapped') ->
    marks l (yu_retried st) failed (yu_retried st') failed'
    /\ incl mapped' (mapped ++ l).
Proof.
  induction l as [|v l IH]; cbn [foldM];
    intros st failed mapped st' failed' mapped' E.
  - inversion E; subst. split; [constructor|].
    rewrite app_nil_r. apply incl_refl.
  - destruct (yu_phase1 v (st, failed, mapped)) as [[[st1 f1] m1]|] eqn:P;
      [|discriminate].
    apply yu_phase1_marked in P. destruct P as [M Hm].
    apply IH in E. destruct E as [Ms I].
    split; [econstructor; eauto|].
    intros x Hx. apply I in Hx. apply in_app_iff in Hx.
    apply in_app_iff. simpl.
    destruct Hx as [Hx|Hx]; [|auto].
    destruct Hm as [->| ->]; [auto|].
    apply in_app_iff in Hx. simpl in Hx. intuition.
Qed.

Lemma foldM_phase2_marks t l : forall st failed st' failed',
    foldM (yu_phase2 t) l (st, failed) = Some (st', failed') ->
    marks l (yu_retried st) failed (yu_retried st') failed'.
Proof.
  induction l as [|v l IH]; cbn [foldM]; intros st failed st' failed' E.
  - inversion E; subst. constructor.
  - destruct (yu_phase2 t v (st, failed)) as [[st1 f1]|] eqn:P;
      [|discriminate].
    apply yu_phase2_marked in P. apply IH in E. econstructor; eauto.
Qed.

Lemma marks_app l1 l2 r0 f0 r1 f1 r2 f2 :
  marks l1 r0 f0 r1 f1 -> marks l2 r1 f1 r2 f2 -> marks (l1 ++ l2) r0 f0 r2 f2.
Proof.
  induction 1; simpl; [auto|]. intros M. econstructor; eauto.
Qed.

(** What one chunk does to the chunk list and the flags. *)
Lemma yu_chunk_marks time_window i chunk st vnr_chunks st' vnr_chunks' :
  yu_chunk time_window i chunk st vnr_chunks = Some (st', vnr_chunks') ->
  exists sorted_chunk handled failed,
    Permutation sorted_chunk chunk
    /\ incl handled chunk
    /\ marks handled (yu_retried st) [] (yu_retried st') failed
    /\ vnr_chunks' = yu_requeue i failed (list_set vnr_chunks i sorted_chunk).
Proof.
  unfold yu_chunk.
  destruct (yu_departures _ _ st) as [st1|] eqn:D; [|discriminate].
  destruct (by_revenue_desc chunk) as [sorted_chunk|] eqn:S1; [|discriminate].
  destruct (foldM yu_phase1 _ _) as [[[st2 failed1] mapped]|] eqn:P1;
    [|discriminate].
  destruct (by_revenue_desc mapped) as [mapped_sorted|] eqn:S2;
    [|discriminate].
  destruct (foldM (yu_phase2 _) _ _) as [[st3 failed]|] eqn:P2;
    [|discriminate].
  intros E. inversion E; subst.
  apply sorted_desc_by_Permutation in S1, S2.
  apply foldM_phase1_marks in P1. destruct P1 as [M1 I1].
  apply foldM_phase2_marks in P2.
  apply yu_departures_retried in D. rewrite D in M1.
  exists sorted_chunk, (sorted_chunk ++ mapped_sorted), failed.
  split; [exact S1|]. split; [|split; [|reflexivity]].
  - intros x Hx. apply in_app_iff in Hx. destruct Hx as [Hx|Hx].
    + eapply Permutation_in; eauto.
    + eapply Permutation_in; [exact S1|]. apply (I1 x).
      eapply Permutation_in; eauto.
  - eapply marks_app; eauto.
Qed.
End Requeue.

Lemma dict_get_set {K V} `{Key K} (d : dict K V) k v k' :
  dict_get (dict_set d k v) k' = if keyb k k' then Some v else dict_get d k'.
Proof.
  induction d as [|[k0 v0] d IH]; simpl.
  - reflexivity.
  - destruct (keyb k0 k) eqn:E0; simpl.
    + apply keyb_eq in E0. rewrite E0.
      destruct (keyb k k'); reflexivity.
    + destruct (keyb k0 k') eqn:E1; [|exact IH].
      apply keyb_eq in E1. apply keyb_neq in E0.
      assert (N : keyb k k' = false) by (apply keyb_neq; congruence).
      rewrite N. reflexivity.
Qed.

Lemma marked_count v flags failed flags' failed' o :
  marked v flags failed flags' failed' ->
  occurrences o failed' + flag flags o = occurrences o failed + flag flags' o.
Proof.
  intros [|G]; [reflexivity|].
  rewrite occurrences_app. unfold flag. rewrite dict_get_set.
  unfold occurrences at 2. simpl.
  change (keyb (obj_id v) o) with (Nat.eqb (obj_id v) o).
  destruct (Nat.eq_dec (obj_id v) o) as [E|N].
  - rewrite <- E, G, Nat.eqb_refl. lia.
  - apply Nat.eqb_neq in N. rewrite N. lia.
Qed.

Lemma marks_count l flags failed flags' failed' o :
  marks l flags failed flags' failed' ->
  occurrences o failed' + flag flags o = occurrences o failed + flag flags' o.
Proof.
  induction 1 as [|v l r0 f0 r1 f1 r2 f2 M _ IH]; [reflexivity|].
  pose proof (marked_count o M). lia.
Qed.

Lemma marked_kept v flags failed flags' failed' o :
  marked v flags failed flags' failed' ->
  dict_get flags o = Some true -> dict_get flags' o = Some true.
Proof.
  intros [|G] T; [exact T|].
  rewrite dict_get_set. destruct (keyb (obj_id v) o); auto.
Qed.

Lemma marks_flagged l flags failed flags' failed' :
  marks l flags failed flags' failed' ->
  (forall v, In v failed -> dict_get flags (obj_id v) = Some true) ->
  forall v, In v failed' -> dict_get flags' (obj_id v) = Some true.
Proof.
  induction 1 as [|v l r0 f0 r1 f1 r2 f2 M _ IH]; intros F; [exact F|].
  apply IH. intros x Hx. destruct M as [|G]; [auto|].
  rewrite dict_get_set. apply in_app_iff in Hx.
  destruct (keyb (obj_id v) (obj_id x)) eqn:E; [reflexivity|].
  destruct Hx as [Hx|[->|[]]]; [auto|].
  rewrite keyb_refl in E. discriminate.
Qed.

Lemma marks_none l flags failed flags' failed' :
  marks l flags failed flags' failed' ->
  (forall v, In v l -> dict_get flags (obj_id v) = Some true) ->
  flags' = flags /\ failed' = failed.
Proof.
  induction 1 as [|v l r0 f0 r1 f1 r2 f2 M _ IH]; intros F; [auto|].
  destruct M as [|G].
  - apply IH. intros x Hx. apply F. right. exact Hx.
  - rewrite (F v) in G by (left; reflexivity). discriminate.
Qed.

Lemma length_list_set {A} (l : list A) i x : length (list_set l i x) = length l.
Proof.
  revert i. induction l as [|y l IH]; intros [|i]; simpl; auto.
Qed.

Lemma length_list_extend {A} (l : list (list A)) i xs :
  length (list_extend l i xs) = length l.
Proof.
  revert i. induction l as [|y l IH]; intros [|i]; simpl; auto.
Qed.

Lemma nth_error_list_set_other {A} (l : list A) i x j :
  i <> j -> nth_error (list_set l i x) j = nth_error l j.
Proof.
  revert i j. induction l as [|y l IH]; intros [|i] [|j] N; simpl; auto;
    try lia.
Qed.

Lemma occurrences_list_set o (chunks : list (list VNR)) i chunk sorted_chunk :
  nth_error chunks i = Some chunk ->
  Permutation sorted_chunk chunk ->
  occurrences o (concat (list_set chunks i sorted_chunk))
  = occurrences o (concat chunks).
Proof.
  revert i. induction chunks as [|c chunks IH]; intros [|i] N P; simpl in *;
    try discriminate; rewrite !occurrences_app.
  - inversion N; subst. rewrite (occurrences_Permutation o P). reflexivity.
  - rewrite (IH i N P). reflexivity.
Qed.

Lemma occurrences_list_extend o (chunks : list (list VNR)) i xs :
  i < length chunks ->
  occurrences o (concat (list_extend chunks i xs))
  = occurrences o (concat chunks) + occurrences o xs.
Proof.
  revert i. induction chunks as [|c chunks IH]; intros [|i] L; simpl in *;
    try lia; rewrite !occurrences_app.
  - lia.
  - rewrite IH by lia. lia.
Qed.

Lemma occurrences_requeue o i failed (chunks : list (list VNR)) :
  occurrences o (concat (yu_requeue i failed chunks))
  = occurrences o (concat chunks) + occurrences o failed.
Proof.
  unfold yu_requeue. destruct failed as [|v failed].
  - unfold occurrences at 3. simpl. lia.
  - destruct (Z.of_nat i <? Z.of_nat (length chunks) - 1)%Z eqn:E.
    + apply Z.ltb_lt in E. apply occurrences_list_extend. lia.
    + rewrite concat_app, occurrences_app. simpl. rewrite app_nil_r.
      reflexivity.
Qed.

Lemma yu_requeue_cases i failed (chunks : list (list VNR)) :
  failed <> [] ->
  (S i < length chunks ->
   yu_requeue i failed chunks = list_extend chunks (S i) failed)
  /\ (length chunks <= S i ->
      yu_requeue i failed chunks = chunks ++ [failed]).
Proof.
  unfold yu_requeue. destruct failed as [|v failed]; [congruence|].
  intros _. destruct (Z.of_nat i <? Z.of_nat (length chunks) - 1)%Z eqn:E.
  - apply Z.ltb_lt in E. split; [reflexivity | lia].
  - apply Z.ltb_ge in E. split; [lia | reflexivity].
Qed.

Section RequeueLoop.
Context `{Networkx}.
Variable time_window : Z.

Lemma yu_loop_count fuel : forall i st chunks st' chunks' o,
    yu_loop time_window fuel i st chunks = Some (Some (st', chunks')) ->
    occurrences o (concat chunks') + flag (yu_retried st) o
    = occurrences o (concat chunks) + flag (yu_retried st') o.
Proof.
  induction fuel as [|fuel IH]; intros i st chunks st' chunks' o; simpl;
    destruct (nth_error chunks i) as [chunk|] eqn:N;
    try discriminate;
    try (intros E; inversion E; subst; reflexivity).
  destruct (yu_chunk time_window i chunk st chunks) as [[st1 chunks1]|] eqn:C;
    [|discriminate].
  intros E. apply (IH _ _ _ _ _ o) in E.
  destruct (yu_chunk_marks _ _ _ _ _ C)
    as [sorted_chunk [handled [failed [P [_ [M ->]]]]]].
  rewrite occurrences_requeue, (occurrences_list_set o _ _ N P) in E.
  pose proof (marks_count o M) as Q.
  unfold occurrences at 2 in Q. simpl in Q. lia.
Qed.

(** Once every request still to come has been retried, nothing is requeued
    any more. *)
Lemma yu_loop_settled fuel : forall i st chunks,
    length chunks - i <= fuel ->
    (forall j chunk v, i <= j -> nth_error chunks j = Some chunk -> In v chunk ->
                       dict_get (yu_retried st) (obj_id v) = Some true) ->
    yu_loop time_window fuel i st chunks <> None
    /\ forall st' chunks',
        yu_loop time_window fuel i st chunks = Some (Some (st', chunks')) ->
        length chunks' = length chunks.
Proof.
  induction fuel as [|fuel IH]; intros i st chunks L All; simpl;
    destruct (nth_error chunks i) as [chunk|] eqn:N.
  - assert (i < length chunks) by (apply nth_error_Some; congruence). lia.
  - split; [discriminate|]. intros ? ? E. inversion E. reflexivity.
  - destruct (yu_chunk time_window i chunk st chunks) as [[st1 chunks1]|] eqn:C;
      [|split; discriminate].
    destruct (yu_chunk_marks _ _ _ _ _ C)
      as [sorted_chunk [handled [failed [P [I [M ->]]]]]].
    destruct (marks_none M) as [Er Ef].
    { intros v Hv. apply (All i chunk v); auto. }
    subst failed. simpl.
    assert (i < length chunks) by (apply nth_error_Some; congruence).
    destruct (IH (S i) st1 (list_set chunks i sorted_chunk)) as [T Len].
    + rewrite length_list_set. lia.
    + intros j c v Hj Hc Hv. rewrite Er.
      rewrite nth_error_list_set_other in Hc by lia.
      apply (All j c v); auto. lia.
    + split; [exact T|]. intros st' chunks' E.
      rewrite (Len _ _ E). apply length_list_set.
  - split; [discriminate|]. intros ? ? E. inversion E. reflexivity.
Qed.

(** The loop never runs out of fuel, and adds at most one chunk. *)
Lemma yu_loop_terminates fuel : forall i st chunks,
    length chunks - i < fuel ->
    yu_loop time_window fuel i st chunks <> None
    /\ forall st' chunks',
        yu_loop time_window fuel i st chunks = Some (Some (st', chunks')) ->
        length chunks' <= S (length chunks).
Proof.
  induction fuel as [|fuel IH]; intros i st chunks L; [lia|]. simpl.
  destruct (nth_error chunks i) as [chunk|] eqn:N.
  2:{ split; [discriminate|]. intros ? ? E. inversion E. lia. }
  assert (Hi : i < length chunks) by (apply nth_error_Some; congruence).
  destruct (yu_chunk time_window i chunk st chunks) as [[st1 chunks1]|] eqn:C;
    [|split; discriminate].
  destruct (yu_chunk_marks _ _ _ _ _ C)
    as [sorted_chunk [handled [failed [P [I [M ->]]]]]].
  pose proof (length_list_set chunks i sorted_chunk) as Ls.
  destruct failed as [|v failed].
  - simpl. destruct (IH (S i) st1 (list_set chunks i sorted_chunk)) as [T Len];
      [lia|].
    split; [exact T|]. intros st' chunks' E. apply Len in E. lia.
  - destruct (yu_requeue_cases i (list_set chunks i sorted_chunk)
                               (failed := v :: failed)) as [Mid Last];
      [discriminate|].
    destruct (Nat.lt_ge_cases (S i) (length chunks)) as [Lt|Ge].
    + rewrite Mid by lia.
      destruct (IH (S i) st1
                   (list_extend (list_set chunks i sorted_chunk) (S i)
                                (v :: failed))) as [T Len].
      * rewrite length_list_extend. lia.
      * split; [exact T|]. intros st' chunks' E. apply Len in E.
        rewrite length_list_extend in E. lia.
    + rewrite Last by lia.
      edestruct yu_loop_settled
        with (fuel := fuel) (i := S i) (st := st1)
             (chunks := list_set chunks i sorted_chunk ++ [v :: failed])
        as [T Len].
      * rewrite length_app. simpl. lia.
      * intros j c x Hj Hc Hx.
        assert (j = length (list_set chunks i sorted_chunk)) as ->.
        { assert (j < length (list_set chunks i sorted_chunk ++ [v :: failed]))
            by (apply nth_error_Some; congruence).
          rewrite length_app in *. simpl in *. lia. }
        rewrite nth_error_app2, Nat.sub_diag in Hc by lia.
        simpl in Hc. inversion Hc; subst c.
        apply (marks_flagged M); [intros ? []|exact Hx].
      * split; [exact T|]. intros st' chunks' E. apply Len in E.
        rewrite length_app in E. simpl in E. lia.
Qed.
End RequeueLoop.

Lemma insert_asc_Permutation {A Kt} (ltb : Kt -> Kt -> bool) (key : A -> Kt)
      x (l : list A) :
  Permutation (insert_asc ltb key x l) (x :: l).
Proof.
  induction l as [|y l IH]; simpl; [reflexivity|].
  destruct (ltb (key y) (key x)); [|reflexivity].
  rewrite IH. apply perm_swap.
Qed.

Lemma sorted_asc_Permutation {A Kt} (ltb : Kt -> Kt -> bool) (key : A -> Kt)
      (l : list A) :
  Permutation (sorted_asc ltb key l) l.
Proof.
  induction l as [|x l IH]; simpl; [reflexivity|].
  rewrite insert_asc_Permutation. constructor. exact IH.
Qed.

Lemma concat_chunk_loop time_window l : forall start chunk chunks,
    concat (chunk_loop time_window l start chunk chunks)
    = concat chunks ++ chunk ++ l.
Proof.
  induction l as [|v l IH]; intros start chunk chunks; simpl.
  - destruct chunk; [rewrite app_nil_r; reflexivity|].
    rewrite concat_app. simpl. rewrite !app_nil_r. reflexivity.
  - destruct (arrival_time v <=? start + time_window)%Z; rewrite IH.
    + rewrite <- app_assoc. reflexivity.
    + rewrite concat_app. simpl. rewrite app_nil_r, <- app_assoc. reflexivity.
Qed.

(** [create_chunks] neither drops nor duplicates a request. *)
Lemma create_chunks_occurrences vnr_queue time_window flags o :
  occurrences o (concat (fst (create_chunks vnr_queue time_window flags)))
  = occurrences o vnr_queue.
Proof.
  unfold create_chunks. simpl. rewrite concat_chunk_loop. simpl.
  apply occurrences_Permutation. apply sorted_asc_Permutation.
Qed.

Lemma occurrences_NoDup vnr_queue o :
  NoDup (map obj_id vnr_queue) -> occurrences o vnr_queue <= 1.
Proof.
  intros N. unfold occurrences.
  apply (proj1 (NoDup_count_occ Nat.eq_dec (map obj_id vnr_queue)) N).
Qed.

Lemma flags_cleared (l : list VNR) : forall (flags : Retried) v,
    In v l ->
    dict_get (fold_left (fun r vnr => dict_set r (obj_id vnr) false) l flags)
             (obj_id v) = Some false.
Proof.
  assert (Keep : forall (l : list VNR) (flags : Retried) o,
             dict_get flags o = Some false ->
             dict_get (fold_left (fun r vnr => dict_set r (obj_id vnr) false)
                                 l flags) o = Some false).
  { induction l0 as [|w l0 IH]; intros flags o G; simpl; [exact G|].
    apply IH. rewrite dict_get_set.
    destruct (keyb (obj_id w) o); [reflexivity | exact G]. }
  induction l as [|w l IH]; intros flags v I; simpl; [contradiction|].
  destruct I as [->|I]; [|apply IH; exact I].
  apply Keep. rewrite dict_get_set, keyb_refl. reflexivity.
Qed.

Lemma occurrences_In_NoDup vnr_queue v :
  In v vnr_queue -> NoDup (map obj_id vnr_queue) ->
  occurrences (obj_id v) vnr_queue = 1.
Proof.
  intros I N. pose proof (@occurrences_NoDup vnr_queue (obj_id v) N) as Le.
  assert (Ge : occurrences (obj_id v) vnr_queue > 0).
  { unfold occurrences. apply count_occ_In. apply in_map. exact I. }
  lia.
Qed.

(** What the requeued requests are: requests handled in this chunk whose
    flag was not set before. *)
Lemma marks_new l flags failed flags' failed' :
  marks l flags failed flags' failed' ->
  forall x, In x failed' ->
            In x failed
            \/ (In x l /\ dict_get flags (obj_id x) = Some false).
Proof.
  induction 1 as [|v l r0 f0 r1 f1 r2 f2 M _ IH]; intros x I; [auto|].
  destruct (IH x I) as [I1|[Il G]].
  - destruct M as [|G]; [auto|].
    apply in_app_iff in I1. destruct I1 as [I1|[<-|[]]]; [auto|].
    right. split; [left; reflexivity | exact G].
  - right. split; [right; exact Il|].
    destruct M as [|G0]; [exact G|].
    rewrite dict_get_set in G.
    destruct (keyb (obj_id v) (obj_id x)); [discriminate | exact G].
Qed.

Lemma marks_kept l flags failed flags' failed' o :
  marks l flags failed flags' failed' ->
  dict_get flags o = Some true -> dict_get flags' o = Some true.
Proof.
  induction 1 as [|v l r0 f0 r1 f1 r2 f2 M _ IH]; intros T; [exact T|].
  apply IH. eapply marked_kept; eauto.
Qed.

Lemma nth_error_list_set_same {A} (l : list A) i x :
  i < length l -> nth_error (list_set l i x) i = Some x.
Proof.
  revert i. induction l as [|y l IH]; intros [|i] L; simpl in *; try lia.
  - reflexivity.
  - apply IH. lia.
Qed.

Lemma nth_error_list_extend_same {A} (l : list (list A)) i c xs :
  nth_error l i = Some c ->
  nth_error (list_extend l i xs) i = Some (c ++ xs).
Proof.
  revert i. induction l as [|y l IH]; intros [|i] N; simpl in *;
    try discriminate.
  - inversion N. reflexivity.
  - apply IH. exact N.
Qed.

Lemma nth_error_list_extend_other {A} (l : list (list A)) i xs j :
  i <> j -> nth_error (list_extend l i xs) j = nth_error l j.
Proof.
  revert i j. induction l as [|y l IH]; intros [|i] [|j] N; simpl; auto;
    try lia.
Qed.

Section RetryOnce.
Context `{Networkx}.

Lemma yu_mark_failed_effect vnr st failed st' failed' :
  yu_mark_failed vnr st failed = Some (st', failed') ->
  on_failure vnr (yu_retried st) failed (yu_retried st') failed'.
Proof.
  unfold yu_mark_failed, on_failure.
  destruct (dict_get (yu_retried st) (obj_id vnr)) as [[|]|] eqn:G;
    try discriminate; intros E; inversion E; subst; simpl.
  - right. auto.
  - left. repeat split; auto.
    rewrite dict_get_set, keyb_refl. reflexivity.
Qed.

Lemma yu_phase1_cases vnr st failed mapped st' failed' mapped' :
  yu_phase1 vnr (st, failed, mapped) = Some (st', failed', mapped') ->
  (mapped' = mapped ++ [vnr] /\ failed' = failed
   /\ yu_retried st' = yu_retried st)
  \/ (mapped' = mapped
      /\ on_failure vnr (yu_retried st) failed (yu_retried st') failed').
Proof.
  unfold yu_phase1.
  destruct (mapM _ _) as [reqs|]; [|discriminate].
  destruct (list_min reqs) as [m|]; [|discriminate].
  destruct (filterM _ _) as [[|s0 S_nodes]|]; try discriminate.
  - destruct (yu_mark_failed vnr st failed) as [[st1 f1]|] eqn:M;
      [|discriminate].
    intros E. inversion E; subst. right.
    split; [reflexivity | eapply yu_mark_failed_effect; exact M].
  - destruct (sorted_desc_by _ _) as [sn|]; [|discriminate].
    destruct (yu_map_nodes _ _ _ _ _ _ _) as [[[[g nm] vnm] ok]|];
      [|discriminate].
    destruct ok.
    + intros E. inversion E; subst. simpl. left. auto.
    + destruct (yu_mark_failed vnr _ failed) as [[st1 f1]|] eqn:M;
        [|discriminate].
      intros E. inversion E; subst.
      apply yu_mark_failed_effect in M. simpl in M. right. auto.
Qed.

Lemma yu_phase2_cases t vnr st failed st' failed' :
  yu_phase2 t vnr (st, failed) = Some (st', failed') ->
  (In (vnr_id vnr) (yu_embedded st') /\ failed' = failed
   /\ yu_retried st' = yu_retried st)
  \/ on_failure vnr (yu_retried st) failed (yu_retried st') failed'.
Proof.
  unfold yu_phase2.
  destruct (yu_map_links _ _ _ _ _ _) as [[[g lm] ok]|]; [|discriminate].
  destruct ok.
  - intros E. inversion E; subst. simpl. left. split; [|auto].
    destruct (mem (vnr_id vnr) (yu_embedded st)) eqn:M.
    + apply mem_In. exact M.
    + apply in_app_iff. right. left. reflexivity.
  - destruct (yu_release vnr _) as [st2|] eqn:R; [|discriminate].
    intros M. apply yu_mark_failed_effect in M.
    apply yu_release_retried in R. simpl in R. rewrite R in M. right. exact M.
Qed.

Lemma yu_phase1_settles v st failed mapped st' failed' mapped' :
  yu_phase1 v (st, failed, mapped) = Some (st', failed', mapped') ->
  incl mapped mapped'
  /\ (In v mapped' \/ dict_get (yu_retried st') (obj_id v) = Some true).
Proof.
  intros P. apply yu_phase1_cases in P.
  destruct P as [[-> _]|[-> F]].
  - split; [apply incl_appl, incl_refl|].
    left. apply in_app_iff. right. left. reflexivity.
  - split; [apply incl_refl|]. right.
    destruct F as [[_ [_ [G _]]]|[G [-> _]]]; exact G.
Qed.

Lemma foldM_phase1_settles l : forall st failed mapped st' failed' mapped',
    foldM yu_phase1 l (st, failed, mapped) = Some (st', failed', mapped') ->
    incl mapped mapped'
    /\ forall v, In v l ->
                 In v mapped'
                 \/ dict_get (yu_retried st') (obj_id v) = Some true.
Proof.
  induction l as [|v l IH]; cbn [foldM];
    intros st failed mapped st' failed' mapped' E.
  - inversion E; subst. split; [apply incl_refl | intros v []].
  - destruct (yu_phase1 v (st, failed, mapped)) as [[[st1 f1] m1]|] eqn:P;
      [|discriminate].
    destruct (yu_phase1_settles _ _ _ _ P) as [I1 S1].
    destruct (IH _ _ _ _ _ _ E) as [I2 S2].
    split; [intros x Hx; apply I2, I1; exact Hx|].
    intros w [<-|Hw]; [|apply S2; exact Hw].
    destruct S1 as [Hm|G]; [left; apply I2; exact Hm|].
    right. apply foldM_phase1_marks in E. destruct E as [M _].
    eapply marks_kept; eauto.
Qed.

Lemma yu_phase2_settles t v st failed st' failed' :
  yu_phase2 t v (st, failed) = Some (st', failed') ->
  incl (yu_embedded st) (yu_embedded st')
  /\ (In (vnr_id v) (yu_embedded st')
      \/ dict_get (yu_retried st') (obj_id v) = Some true).
Proof.
  intros P. split.
  - revert P. unfold yu_phase2.
    destruct (yu_map_links _ _ _ _ _ _) as [[[g lm] ok]|]; [|discriminate].
    destruct ok.
    + intros E. inversion E; subst. simpl.
      destruct (mem (vnr_id v) (yu_embedded st));
        [apply incl_refl | apply incl_appl, incl_refl].
    + destruct (yu_release v _) as [st2|] eqn:R; [|discriminate].
      unfold yu_release in R.
      destruct (yu_release_nodes _ _ _ _ _) as [n|]; [|discriminate].
      destruct (yu_release_links _ _ _ _ _) as [l|]; [|discriminate].
      inversion R; subst st2. clear R. unfold yu_mark_failed.
      destruct (dict_get _ (obj_id v)) as [[|]|]; try discriminate;
        intros E; inversion E; subst; simpl; apply incl_refl.
  - apply yu_phase2_cases in P. destruct P as [[E _]|F]; [left; exact E|].
    right. destruct F as [[_ [_ [G _]]]|[G [-> _]]]; exact G.
Qed.

Lemma foldM_phase2_settles t l : forall st failed st' failed',
    foldM (yu_phase2 t) l (st, failed) = Some (st', failed') ->
    incl (yu_embedded st) (yu_embedded st')
    /\ forall v, In v l ->
                 In (vnr_id v) (yu_embedded st')
                 \/ dict_get (yu_retried st') (obj_id v) = Some true.
Proof.
  induction l as [|v l IH]; cbn [foldM]; intros st failed st' failed' E.
  - inversion E; subst. split; [apply incl_refl | intros v []].
  - destruct (yu_phase2 t v (st, failed)) as [[st1 f1]|] eqn:P;
      [|discriminate].
    destruct (yu_phase2_settles _ _ _ _ P) as [I1 S1].
    destruct (IH _ _ _ _ E) as [I2 S2].
    split; [intros x Hx; apply I2, I1; exact Hx|].
    intros w [<-|Hw]; [|apply S2; exact Hw].
    destruct S1 as [He|G]; [left; apply I2; exact He|].
    right. apply foldM_phase2_marks in E. eapply marks_kept; eauto.
Qed.

(** After a chunk, each of its requests is embedded or has its flag set. *)
Lemma yu_chunk_settles time_window i chunk st vnr_chunks st' vnr_chunks' :
  yu_chunk time_window i chunk st vnr_chunks = Some (st', vnr_chunks') ->
  forall v, In v chunk ->
            In (vnr_id v) (yu_embedded st')
            \/ dict_get (yu_retried st') (obj_id v) = Some true.
Proof.
  unfold yu_chunk.
  destruct (yu_departures _ _ st) as [st1|] eqn:D; [|discriminate].
  destruct (by_revenue_desc chunk) as [sorted_chunk|] eqn:S1; [|discriminate].
  destruct (foldM yu_phase1 _ _) as [[[st2 failed1] mapped]|] eqn:P1;
    [|discriminate].
  destruct (by_revenue_desc mapped) as [mapped_sorted|] eqn:S2;
    [|discriminate].
  destruct (foldM (yu_phase2 _) _ _) as [[st3 failed]|] eqn:P2;
    [|discriminate].
  intros E v I. inversion E; subst st3. clear E.
  apply sorted_desc_by_Permutation in S1, S2.
  pose proof P1 as Q1. apply foldM_phase1_settles in Q1.
  destruct Q1 as [_ Q1].
  pose proof P2 as Q2. apply foldM_phase2_settles in Q2.
  destruct Q2 as [_ Q2].
  destruct (Q1 v) as [Hm|G].
  - eapply Permutation_in; [apply Permutation_sym; exact S1 | exact I].
  - apply Q2. eapply Permutation_in; [apply Permutation_sym; exact S2|].
    exact Hm.
  - right. apply foldM_phase2_marks in P2. eapply marks_kept; eauto.
Qed.

(** What one chunk does to the chunk list: where the failed requests go. *)
Lemma yu_chunk_requeues time_window i chunk st vnr_chunks st' vnr_chunks' :
  nth_error vnr_chunks i = Some chunk ->
  yu_chunk time_window i chunk st vnr_chunks = Some (st', vnr_chunks') ->
  exists sorted_chunk failed,
    Permutation sorted_chunk chunk
    /\ nth_error vnr_chunks' i = Some sorted_chunk
    /\ (forall v, In v failed ->
                  In v chunk
                  /\ dict_get (yu_retried st) (obj_id v) = Some false
                  /\ dict_get (yu_retried st') (obj_id v) = Some true)
    /\ (forall o, occurrences o failed + flag (yu_retried st) o
                  = flag (yu_retried st') o)
    /\ (failed = [] -> vnr_chunks' = list_set vnr_chunks i sorted_chunk)
    /\ (failed <> [] ->
        match nth_error vnr_chunks (S i) with
        | Some next =>
            length vnr_chunks' = length vnr_chunks
            /\ nth_error vnr_chunks' (S i) = Some (next ++ failed)
            /\ forall j, j <> i -> j <> S i ->
                         nth_error vnr_chunks' j = nth_error vnr_chunks j
        | None => vnr_chunks' = list_set vnr_chunks i sorted_chunk ++ [failed]
        end).
Proof.
  intros N C.
  assert (Li : i < length vnr_chunks) by (apply nth_error_Some; congruence).
  destruct (yu_chunk_marks _ _ _ _ _ C)
    as [sorted_chunk [handled [failed [P [I [M ->]]]]]].
  exists sorted_chunk, failed.
  pose proof (length_list_set vnr_chunks i sorted_chunk) as Ls.
  split; [exact P|]. split; [|split; [|split; [|split]]].
  - unfold yu_requeue. destruct failed as [|f failed].
    + apply nth_error_list_set_same. exact Li.
    + destruct (_ <? _)%Z.
      * rewrite nth_error_list_extend_other by lia.
        apply nth_error_list_set_same. exact Li.
      * rewrite nth_error_app1 by lia.
        apply nth_error_list_set_same. exact Li.
  - intros v Iv. destruct (marks_new M v Iv) as [[]|[Ih G]].
    split; [apply I; exact Ih|]. split; [exact G|].
    apply (marks_flagged M); [intros ? []|exact Iv].
  - intros o. pose proof (marks_count o M) as Q.
    unfold occurrences at 2 in Q. simpl in Q. lia.
  - intros ->. reflexivity.
  - intros NE.
    destruct (yu_requeue_cases i (list_set vnr_chunks i sorted_chunk) NE)
      as [Mid Last].
    destruct (nth_error vnr_chunks (S i)) as [next|] eqn:Nn.
    + assert (Ln : S i < length vnr_chunks)
        by (apply nth_error_Some; congruence).
      rewrite Mid by lia. split; [|split].
      * rewrite length_list_extend. exact Ls.
      * apply nth_error_list_extend_same.
        rewrite nth_error_list_set_other by lia. exact Nn.
      * intros j J1 J2. rewrite nth_error_list_extend_other by lia.
        apply nth_error_list_set_other. lia.
    + apply nth_error_None in Nn. apply Last. lia.
Qed.

(** C8.  A request that fails in node mapping (phase 1) or in link mapping
    (phase 2) and has not been retried gets its flag set and joins
    [failed_vnrs]; one that has been retried is left alone.  At the end of
    chunk [i] the failed requests -- exactly the requests of the chunk whose
    flag went from unset to set, each once -- stand at the end of chunk
    [i + 1], behind what it held, or form a new last chunk when chunk [i]
    was the last; every other chunk is as it was.  A request of the chunk
    that is not embedded after it and had not been retried is among them,
    one that had been retried is not.  Over the whole run, which always
    ends, a request object stands in the chunks walked exactly once more
    than at the start if its flag was set during the run, and exactly as
    often otherwise; with chunks made by [create_chunks] from distinct
    requests that is twice for a request that was requeued and once for any
    other, so every request is attempted at most twice. *)
Theorem failed_request_is_retried_once :
  forall (time_window : Z),
    (forall vnr st failed mapped st' failed' mapped',
        yu_phase1 vnr (st, failed, mapped) = Some (st', failed', mapped') ->
        (mapped' = mapped ++ [vnr] /\ failed' = failed
         /\ yu_retried st' = yu_retried st)
        \/ (mapped' = mapped
            /\ on_failure vnr (yu_retried st) failed (yu_retried st') failed'))
    /\ (forall t vnr st failed st' failed',
           yu_phase2 t vnr (st, failed) = Some (st', failed') ->
           (In (vnr_id vnr) (yu_embedded st') /\ failed' = failed
            /\ yu_retried st' = yu_retried st)
           \/ on_failure vnr (yu_retried st) failed (yu_retried st') failed')
    /\ (forall i chunk st vnr_chunks st' vnr_chunks',
           nth_error vnr_chunks i = Some chunk ->
           yu_chunk time_window i chunk st vnr_chunks
           = Some (st', vnr_chunks') ->
           exists sorted_chunk failed,
             Permutation sorted_chunk chunk
             /\ nth_error vnr_chunks' i = Some sorted_chunk
             /\ (forall v, In v failed ->
                           In v chunk
                           /\ dict_get (yu_retried st) (obj_id v) = Some false
                           /\ dict_get (yu_retried st') (obj_id v)
                              = Some true)
             /\ (forall o, occurrences o failed + flag (yu_retried st) o
                           = flag (yu_retried st') o)
             /\ (forall v, In v chunk ->
                           dict_get (yu_retried st) (obj_id v) = Some false ->
                           ~ In (vnr_id v) (yu_embedded st') ->
                           dict_get (yu_retried st') (obj_id v) = Some true
                           /\ occurrences (obj_id v) failed = 1)
             /\ (forall v, dict_get (yu_retried st) (obj_id v) = Some true ->
                           occurrences (obj_id v) failed = 0)
             /\ (failed = [] ->
                 vnr_chunks' = list_set vnr_chunks i sorted_chunk)
             /\ (failed <> [] ->
                 match nth_error vnr_chunks (S i) with
                 | Some next =>
                     length vnr_chunks' = length vnr_chunks
                     /\ nth_error vnr_chunks' (S i) = Some (next ++ failed)
                     /\ forall j, j <> i -> j <> S i ->
                                  nth_error vnr_chunks' j
                                  = nth_error vnr_chunks j
                 | None =>
                     vnr_chunks'
                     = list_set vnr_chunks i sorted_chunk ++ [failed]
                 end))
    /\ (forall substrate vnr_chunks flags,
           yu_loop time_window (yu_fuel vnr_chunks) 0
                   (yu_initial substrate flags) vnr_chunks <> None
           /\ forall results st vnr_chunks',
               yu2008_algorithm substrate vnr_chunks flags time_window
               = Some (results, st, vnr_chunks') ->
               length vnr_chunks' <= S (length vnr_chunks)
               /\ (forall o, occurrences o (concat vnr_chunks') + flag flags o
                             = occurrences o (concat vnr_chunks)
                               + flag (yu_retried st) o)
               /\ forall o, occurrences o (concat vnr_chunks')
                            <= S (occurrences o (concat vnr_chunks)))
    /\ (forall substrate vnr_queue results st vnr_chunks',
           NoDup (map obj_id vnr_queue) ->
           yu2008_algorithm
             substrate
             (fst (create_chunks vnr_queue time_window []))
             (snd (create_chunks vnr_queue time_window []))
             time_window
           = Some (results, st, vnr_chunks') ->
           (forall v, In v vnr_queue ->
                      occurrences (obj_id v) (concat vnr_chunks')
                      = 1 + flag (yu_retried st) (obj_id v))
           /\ forall o, occurrences o (concat vnr_chunks') <= 2).
Proof.
  intros time_window.
  assert (Run : forall substrate vnr_chunks flags results st vnr_chunks',
             yu2008_algorithm substrate vnr_chunks flags time_window
             = Some (results, st, vnr_chunks') ->
             length vnr_chunks' <= S (length vnr_chunks)
             /\ (forall o, occurrences o (concat vnr_chunks') + flag flags o
                           = occurrences o (concat vnr_chunks)
                             + flag (yu_retried st) o)
             /\ forall o, occurrences o (concat vnr_chunks')
                          <= S (occurrences o (concat vnr_chunks))).
  { intros substrate vnr_chunks flags results st vnr_chunks'.
    unfold yu2008_algorithm.
    destruct (yu_loop _ _ _ _ _) as [[[fin chunks1]|]|] eqn:L;
      try discriminate.
    simpl. destruct (mapM _ _) as [rs|]; [|discriminate].
    intros E. inversion E; subst.
    assert (Q : forall o, occurrences o (concat vnr_chunks') + flag flags o
                          = occurrences o (concat vnr_chunks)
                            + flag (yu_retried st) o).
    { intros o. exact (@yu_loop_count _ _ _ _ _ _ _ _ o L). }
    split; [|split; [exact Q|]].
    - edestruct yu_loop_terminates
        with (fuel := yu_fuel vnr_chunks) (i := 0)
             (st := yu_initial substrate flags) (chunks := vnr_chunks)
        as [_ Len]; [unfold yu_fuel; lia|].
      eapply Len. exact L.
    - intros o. specialize (Q o). unfold flag in Q.
      destruct (dict_get (yu_retried st) o) as [[|]|];
        destruct (dict_get flags o) as [[|]|]; lia. }
  split; [intros; eapply yu_phase1_cases; eauto|].
  split; [intros; eapply yu_phase2_cases; eauto|].
  split; [|split].
  - intros i chunk st vnr_chunks st' vnr_chunks' N C.
    destruct (yu_chunk_requeues _ _ _ _ N C)
      as [sorted_chunk [failed [P [Ni [F [Cnt [E0 E1]]]]]]].
    exists sorted_chunk, failed.
    split; [exact P|]. split; [exact Ni|]. split; [exact F|].
    split; [exact Cnt|]. split; [|split; [|split; [exact E0 | exact E1]]].
    + intros v Iv G NE.
      destruct (yu_chunk_settles _ _ _ _ _ C v Iv) as [Emb|T];
        [contradiction|].
      split; [exact T|]. specialize (Cnt (obj_id v)).
      unfold flag in Cnt. rewrite G, T in Cnt. lia.
    + intros v T. specialize (Cnt (obj_id v)). unfold flag in Cnt.
      rewrite T in Cnt.
      destruct (dict_get (yu_retried st') (obj_id v)) as [[|]|]; lia.
  - intros substrate vnr_chunks flags. split; [|apply Run].
    edestruct yu_loop_terminates
      with (fuel := yu_fuel vnr_chunks) (i := 0)
           (st := yu_initial substrate flags) (chunks := vnr_chunks)
      as [T _]; [unfold yu_fuel; lia | exact T].
  - intros substrate vnr_queue results st vnr_chunks' N E.
    apply Run in E. destruct E as [_ [Q B]]. split.
    + intros v Iv. specialize (Q (obj_id v)).
      rewrite create_chunks_occurrences in Q.
      rewrite (occurrences_In_NoDup _ _ Iv N) in Q.
      unfold flag at 1 in Q. unfold create_chunks in Q. cbn [snd] in Q.
      rewrite flags_cleared in Q
        by (apply sorted_asc_In; exact Iv).
      lia.
    + intros o. specialize (B o).
      rewrite create_chunks_occurrences in B.
      pose proof (@occurrences_NoDup vnr_queue o N). lia.
Qed.
End RetryOnce.

(** ** The chunked baseline: node-disjointness of what it reports *)

Section DictKeys.
Context {K V : Type} `{Key K}.

Lemma dict_get_del (d : dict K V) k k' :
  dict_get (dict_del d k) k' = if keyb k k' then None else dict_get d k'.
Proof.
  induction d as [|[k0 v0] d IH]; simpl.
  - destruct (keyb k k'); reflexivity.
  - destruct (keyb k0 k) eqn:E0; simpl.
    + apply keyb_eq in E0. rewrite E0.
      destruct (keyb k k') eqn:E1; exact IH.
    + destruct (keyb k0 k') eqn:E1; [|exact IH].
      apply keyb_eq in E1. apply keyb_neq in E0.
      assert (N : keyb k k' = false) by (apply keyb_neq; congruence).
      rewrite N. reflexivity.
Qed.

Lemma dict_get_notin (d : dict K V) k :
  ~ In k (dict_keys d) -> dict_get d k = None.
Proof.
  induction d as [|[k0 v0] d IH]; simpl; intros N; [reflexivity|].
  destruct (keyb k0 k) eqn:E.
  - apply keyb_eq in E. intuition.
  - apply IH. intuition.
Qed.

Lemma dict_set_keys (d : dict K V) k v x :
  In x (dict_keys (dict_set d k v)) -> x = k \/ In x (dict_keys d).
Proof.
  induction d as [|[k0 v0] d IH]; simpl.
  - intuition.
  - destruct (keyb k0 k); simpl; intuition.
Qed.

Lemma dict_set_keys_NoDup (d : dict K V) k v :
  NoDup (dict_keys d) -> NoDup (dict_keys (dict_set d k v)).
Proof.
  induction d as [|[k0 v0] d IH]; simpl; intros N.
  - repeat constructor. intros [].
  - inversion N as [|? ? N1 N2]; subst.
    destruct (keyb k0 k) eqn:E; simpl.
    + constructor; assumption.
    + constructor; [|auto].
      intros I. apply dict_set_keys in I. destruct I as [->|I]; [|auto].
      rewrite keyb_refl in E. discriminate.
Qed.

Lemma dict_del_keys_NoDup (d : dict K V) k :
  NoDup (dict_keys d) -> NoDup (dict_keys (dict_del d k)).
Proof.
  induction d as [|[k0 v0] d IH]; simpl; intros N; [constructor|].
  inversion N as [|? ? N1 N2]; subst.
  destruct (keyb k0 k); simpl; [auto|].
  constructor; [|auto].
  intros I. apply N1. unfold dict_keys, dict_del in *.
  apply in_map_iff in I. destruct I as [e [E I]].
  apply filter_In in I. apply in_map_iff. exists e. intuition.
Qed.

Lemma dict_pop_get (d d' : dict K V) k k' :
  dict_pop d k = Some d' ->
  dict_get d' k' = if keyb k k' then None else dict_get d k'.
Proof.
  unfold dict_pop. destruct (dict_mem d k); [|discriminate].
  intros E. inversion E. apply dict_get_del.
Qed.

Lemma dict_pop_keys_NoDup (d d' : dict K V) k :
  dict_pop d k = Some d' -> NoDup (dict_keys d) -> NoDup (dict_keys d').
Proof.
  unfold dict_pop. destruct (dict_mem d k); [|discriminate].
  intros E. inversion E. apply dict_del_keys_NoDup.
Qed.
End DictKeys.

Section OwnedEntries.
Context {K V : Type} `{Key K}.

(** Saving the entries of request [id] overwrites its historical entries
    and leaves those of other requests alone. *)
Lemma yu_save_get id (current : dict (nat * K) V) :
  NoDup (dict_keys current) ->
  forall (historical : dict (nat * K) V) id' x,
    dict_get (yu_save id fst current historical) (id', x)
    = if Nat.eqb id' id
      then match dict_get current (id', x) with
           | Some s => Some s
           | None => dict_get historical (id', x)
           end
      else dict_get historical (id', x).
Proof.
  unfold yu_save.
  induction current as [|[[i k] v] current IH]; intros N historical id' x;
    simpl.
  - destruct (Nat.eqb id' id); reflexivity.
  - inversion N as [|? ? N1 N2]; subst. rewrite (IH N2). clear IH.
    destruct (Nat.eqb id' id) eqn:E.
    + apply Nat.eqb_eq in E. subst id'.
      destruct (Nat.eqb i id && keyb k x) eqn:Ek.
      * apply andb_true_iff in Ek. destruct Ek as [Ei Ekx].
        apply Nat.eqb_eq in Ei. apply keyb_eq in Ekx. subst i k.
        rewrite (dict_get_notin _ _ N1). rewrite Nat.eqb_refl.
        rewrite dict_get_set, keyb_refl. reflexivity.
      * destruct (dict_get current (id, x)); [reflexivity|].
        destruct (Nat.eqb i id) eqn:Ei; [|reflexivity].
        rewrite dict_get_set. simpl. rewrite Ei. simpl in Ek.
        rewrite Ek. reflexivity.
    + destruct (Nat.eqb i id) eqn:Ei; [|reflexivity].
      rewrite dict_get_set. simpl.
      apply Nat.eqb_eq in Ei. subst i.
      rewrite Nat.eqb_sym, E. reflexivity.
Qed.

Lemma yu_save_keys_NoDup id (current : dict (nat * K) V) :
  forall (historical : dict (nat * K) V),
    NoDup (dict_keys historical) ->
    NoDup (dict_keys (yu_save id fst current historical)).
Proof.
  unfold yu_save.
  induction current as [|[[i k] v] current IH]; intros historical N; simpl;
    [exact N|].
  apply IH. destruct (Nat.eqb i id); [|exact N].
  apply dict_set_keys_NoDup. exact N.
Qed.

(** Extracting the entries of request [id] reads them off the table. *)
Lemma yu_extract_get id (historical : dict (nat * K) V) :
  NoDup (dict_keys historical) ->
  forall x, dict_get (yu_extract id historical) x = dict_get historical (id, x).
Proof.
  unfold yu_extract.
  assert (G : forall (acc : dict K V),
             NoDup (dict_keys historical) ->
             forall x,
               dict_get
                 (fold_left
                    (fun d e => if Nat.eqb (fst (fst e)) id
                                then dict_set d (snd (fst e)) (snd e) else d)
                    historical acc) x
               = match dict_get historical (id, x) with
                 | Some s => Some s
                 | None => dict_get acc x
                 end).
  { induction historical as [|[[i k] v] historical IH]; intros acc N x; simpl;
      [reflexivity|].
    inversion N as [|? ? N1 N2]; subst. rewrite (IH _ N2). clear IH.
    destruct (Nat.eqb i id && keyb k x) eqn:Ek.
    - apply andb_true_iff in Ek. destruct Ek as [Ei Ekx].
      apply Nat.eqb_eq in Ei. apply keyb_eq in Ekx. subst i k.
      rewrite (dict_get_notin _ _ N1). rewrite Nat.eqb_refl.
      rewrite dict_get_set, keyb_refl. reflexivity.
    - destruct (dict_get historical (id, x)); [reflexivity|].
      destruct (Nat.eqb i id) eqn:Ei; [|reflexivity].
      rewrite dict_get_set. simpl in Ek. rewrite Ek. reflexivity. }
  intros N x. rewrite (G [] N). simpl.
  destruct (dict_get historical (id, x)); reflexivity.
Qed.
End OwnedEntries.

Lemma id_occurrences_app id (l l' : list VNR) :
  id_occurrences id (l ++ l') = id_occurrences id l + id_occurrences id l'.
Proof.
  unfold id_occurrences. rewrite map_app. apply count_occ_app.
Qed.

Lemma id_occurrences_one id (v : VNR) :
  id_occurrences id [v] = if Nat.eqb (vnr_id v) id then 1 else 0.
Proof.
  unfold id_occurrences. simpl.
  destruct (Nat.eq_dec (vnr_id v) id) as [E|N].
  - apply Nat.eqb_eq in E. rewrite E. reflexivity.
  - apply Nat.eqb_neq in N. rewrite N. reflexivity.
Qed.

Lemma id_occurrences_cons id (v : VNR) l :
  id_occurrences id (v :: l) = id_occurrences id [v] + id_occurrences id l.
Proof. apply (id_occurrences_app id [v] l). Qed.

Lemma id_occurrences_In id (w : VNR) l :
  In w l -> vnr_id w = id -> 1 <= id_occurrences id l.
Proof.
  intros I E. unfold id_occurrences.
  apply (proj1 (count_occ_In Nat.eq_dec (map vnr_id l) id)).
  rewrite <- E. apply in_map. exact I.
Qed.

Lemma id_occurrences_Permutation id (l l' : list VNR) :
  Permutation l l' -> id_occurrences id l = id_occurrences id l'.
Proof.
  intros P. unfold id_occurrences.
  apply Permutation_count_occ. apply Permutation_map. exact P.
Qed.

Lemma embedded_flag_In embedded id :
  embedded_flag embedded id = 0 <-> ~ In id embedded.
Proof.
  unfold embedded_flag. destruct (mem id embedded) eqn:M.
  - split; [discriminate|]. intros N. exfalso. apply N. apply mem_In. exact M.
  - split; [|reflexivity]. intros _. apply mem_not_In. exact M.
Qed.

Lemma embedded_flag_le embedded id : embedded_flag embedded id <= 1.
Proof. unfold embedded_flag. destruct (mem id embedded); lia. Qed.

Lemma embedded_flag_add embedded id id' :
  ~ In id embedded ->
  embedded_flag (embedded ++ [id]) id'
  = embedded_flag embedded id' + (if Nat.eqb id id' then 1 else 0).
Proof.
  intros N. unfold embedded_flag, mem. rewrite existsb_app. simpl.
  rewrite orb_false_r.
  destruct (existsb (fun y => Nat.eqb y id') embedded) eqn:M; simpl.
  - apply existsb_exists in M. destruct M as [y [Hy E]].
    apply Nat.eqb_eq in E. subst y.
    destruct (Nat.eqb id id') eqn:E; [|reflexivity].
    apply Nat.eqb_eq in E. subst. contradiction.
  - destruct (Nat.eqb id id'); reflexivity.
Qed.

(** A table that only lost entries is still in order. *)
Lemma nm_ok_shrink embedded holding nm nm' :
  nm_ok embedded holding nm ->
  NoDup (dict_keys nm') ->
  (forall k s, dict_get nm' k = Some s -> dict_get nm k = Some s) ->
  nm_ok embedded holding nm'.
Proof.
  intros [Kn In On] N S. constructor.
  - exact N.
  - intros id x1 x2 s G1 G2. apply (In id x1 x2 s); auto.
  - intros id x s G. apply (On id x s). auto.
Qed.

Lemma yu_release_nodes_spec id vnr v_nodes : forall g nm g' nm',
    yu_release_nodes id vnr v_nodes g nm = Some (g', nm') ->
    NoDup (dict_keys nm) ->
    NoDup (dict_keys nm')
    /\ (forall k s, dict_get nm' k = Some s -> dict_get nm k = Some s)
    /\ (forall x, In x v_nodes -> dict_get nm' (id, x) = None).
Proof.
  induction v_nodes as [|v v_nodes IH]; simpl; intros g nm g' nm' E N.
  - inversion E; subst. repeat split; auto. intros x [].
  - destruct (dict_get nm (id, v)); [|discriminate].
    destruct (get_cpu_req vnr v); [|discriminate].
    destruct (cpu_available_add g n z); [|discriminate].
    destruct (dict_pop nm (id, v)) as [nm1|] eqn:P; [|discriminate].
    destruct (IH _ _ _ _ E (dict_pop_keys_NoDup _ _ P N)) as [N' [S Z]].
    split; [exact N'|]. split.
    + intros k s G. apply S in G. rewrite (dict_pop_get _ _ k P) in G.
      destruct (keyb (id, v) k); [discriminate | exact G].
    + intros x [<-|Hx]; [|auto].
      destruct (dict_get nm' (id, v)) as [s|] eqn:G; [|reflexivity].
      apply S in G. rewrite (dict_pop_get _ _ (id, v) P), keyb_refl in G.
      discriminate.
Qed.

Lemma yu_rollback_nodes_spec id vnr items : forall g nm g' nm',
    yu_rollback_nodes id vnr items g nm = Some (g', nm') ->
    NoDup (dict_keys nm) ->
    NoDup (dict_keys nm')
    /\ (forall k s, dict_get nm' k = Some s -> dict_get nm k = Some s)
    /\ (forall x, In x (dict_keys items) -> dict_get nm' (id, x) = None).
Proof.
  induction items as [|[v s0] items IH]; simpl; intros g nm g' nm' E N.
  - inversion E; subst. repeat split; auto. intros x [].
  - destruct (get_cpu_req vnr v); [|discriminate].
    destruct (cpu_available_add g s0 z); [|discriminate].
    destruct (dict_pop nm (id, v)) as [nm1|] eqn:P; [|discriminate].
    destruct (IH _ _ _ _ E (dict_pop_keys_NoDup _ _ P N)) as [N' [S Z]].
    split; [exact N'|]. split.
    + intros k s G. apply S in G. rewrite (dict_pop_get _ _ k P) in G.
      destruct (keyb (id, v) k); [discriminate | exact G].
    + intros x [<-|Hx]; [|auto].
      destruct (dict_get nm' (id, v)) as [s|] eqn:G; [|reflexivity].
      apply S in G. rewrite (dict_pop_get _ _ (id, v) P), keyb_refl in G.
      discriminate.
Qed.

Lemma yu_pick_fresh substrate vnm cpu_req cands s :
  yu_pick substrate vnm cpu_req cands = Some (Some s) ->
  ~ In s (dict_values vnm).
Proof.
  induction cands as [|c cands IH]; simpl; [discriminate|].
  destruct (mem c (dict_values vnm)) eqn:M; [exact IH|].
  destruct (get_cpu_available substrate c) as [a|]; [|discriminate].
  destruct (a >=? cpu_req)%Z; [|exact IH].
  intros E. inversion E; subst. apply mem_not_In. exact M.
Qed.

Lemma dict_get_keys {K V} `{Key K} (d : dict K V) k v :
  dict_get d k = Some v -> In k (dict_keys d).
Proof.
  intros G. apply dict_get_In in G.
  unfold dict_keys. change k with (fst (k, v)). apply in_map. exact G.
Qed.

Lemma pair_key_same (id : nat) (v x : node) :
  keyb (id, v) (id, x) = Nat.eqb v x.
Proof.
  simpl. rewrite Nat.eqb_refl. reflexivity.
Qed.

(** Phase 1 on one request, started on a table without entries of its own:
    on success the new entries are those of an injective
    [vnr_node_mapping]; on failure the table has lost them again. *)
Lemma yu_map_nodes_spec id vnr cands all_nodes (nm0 : dict (nat * node) node) :
  forall v_nodes g nm vnm g' nm' vnm' ok,
    incl v_nodes all_nodes ->
    NoDup (dict_keys nm) ->
    NoDup (dict_values vnm) ->
    (forall k s, dict_get nm k = Some s ->
                 dict_get nm0 k = Some s
                 \/ exists x, k = (id, x) /\ dict_get vnm x = Some s) ->
    (forall x s, dict_get vnm x = Some s -> In x all_nodes) ->
    yu_map_nodes id vnr cands v_nodes g nm vnm = Some (g', nm', vnm', ok) ->
    NoDup (dict_keys nm')
    /\ (ok = true ->
        NoDup (dict_values vnm')
        /\ (forall k s, dict_get nm' k = Some s ->
                        dict_get nm0 k = Some s
                        \/ exists x, k = (id, x) /\ dict_get vnm' x = Some s)
        /\ (forall x s, dict_get vnm' x = Some s -> In x all_nodes))
    /\ (ok = false ->
        forall k s, dict_get nm' k = Some s -> dict_get nm0 k = Some s).
Proof.
  induction v_nodes as [|v v_nodes IH];
    intros g nm vnm g' nm' vnm' ok I N Nv R A E; simpl in E.
  - inversion E; subst. split; [exact N|]. split; [auto | discriminate].
  - destruct (get_cpu_req vnr v) as [r|]; [|discriminate].
    destruct (yu_pick g vnm r cands) as [[s|]|] eqn:P; try discriminate.
    + destruct (cpu_available_sub g s r) as [g1|]; [|discriminate].
      eapply IH; [ | | | | | exact E].
      * intros x Hx. apply I. right. exact Hx.
      * apply dict_set_keys_NoDup. exact N.
      * apply dict_set_values_NoDup; [exact Nv|].
        eapply yu_pick_fresh. exact P.
      * intros k s' G. rewrite dict_get_set in G.
        destruct (keyb (id, v) k) eqn:Ek.
        -- apply keyb_eq in Ek. subst k. inversion G; subst.
           right. exists v. split; [reflexivity|].
           rewrite dict_get_set, keyb_refl. reflexivity.
        -- destruct (R k s' G) as [G0|[x [-> Gx]]]; [auto|].
           right. exists x. split; [reflexivity|].
           rewrite dict_get_set. rewrite pair_key_same in Ek.
           change (keyb v x) with (Nat.eqb v x). rewrite Ek. exact Gx.
      * intros x s' G. rewrite dict_get_set in G.
        destruct (keyb v x) eqn:Ek.
        -- apply keyb_eq in Ek. subst x. apply I. left. reflexivity.
        -- eapply A. exact G.
    + destruct (yu_rollback_nodes id vnr vnm g nm) as [[g1 nm1]|] eqn:Rb;
        [|discriminate].
      inversion E; subst. simpl in *.
      destruct (yu_rollback_nodes_spec _ _ _ _ _ Rb N) as [N' [S Z]].
      split; [exact N'|]. split; [discriminate|]. intros _ k s G.
      pose proof (S _ _ G) as G'.
      destruct (R k s G') as [G0|[x [-> Gx]]]; [exact G0|].
      rewrite (Z x) in G; [discriminate|].
      eapply dict_get_keys. exact Gx.
Qed.

Section ChunkedDisjointness.
Context `{Networkx}.

Lemma yu_mark_failed_same v st failed st' failed' :
  yu_mark_failed v st failed = Some (st', failed') ->
  yu_node_mapping st' = yu_node_mapping st
  /\ yu_embedded st' = yu_embedded st
  /\ yu_historical_nodes st' = yu_historical_nodes st
  /\ (failed' = failed \/ failed' = failed ++ [v]).
Proof.
  unfold yu_mark_failed.
  destruct (dict_get (yu_retried st) (obj_id v)) as [[|]|]; try discriminate;
    intros E; inversion E; subst; simpl; auto.
Qed.

Lemma yu_phase1_inv v st failed mapped st' failed' mapped' :
  nm_ok (yu_embedded st) mapped (yu_node_mapping st) ->
  ~ In (vnr_id v) (yu_embedded st) ->
  (forall w, In w mapped -> vnr_id w <> vnr_id v) ->
  yu_phase1 v (st, failed, mapped) = Some (st', failed', mapped') ->
  nm_ok (yu_embedded st') mapped' (yu_node_mapping st')
  /\ yu_embedded st' = yu_embedded st
  /\ yu_historical_nodes st' = yu_historical_nodes st
  /\ ((mapped' = mapped ++ [v] /\ failed' = failed)
      \/ (mapped' = mapped /\ (failed' = failed \/ failed' = failed ++ [v]))).
Proof.
  intros OK NE NM. unfold yu_phase1.
  destruct (mapM _ _) as [reqs|]; [|discriminate].
  destruct (list_min reqs) as [m|]; [|discriminate].
  destruct (filterM _ _) as [[|s0 S_nodes]|]; try discriminate.
  - destruct (yu_mark_failed v st failed) as [[st1 f1]|] eqn:M;
      [|discriminate].
    intros E. inversion E; subst.
    destruct (yu_mark_failed_same _ _ _ M) as [En [Ee [Eh F]]].
    rewrite En, Ee, Eh.
    split; [exact OK|]. split; [reflexivity|]. split; [reflexivity|].
    right. split; [reflexivity | exact F].
  - destruct (sorted_desc_by _ _) as [sn|]; [|discriminate].
    destruct (yu_map_nodes _ _ _ _ _ _ _) as [[[[g nm] vnm] ok]|] eqn:Mn;
      [|discriminate].
    assert (Empty : forall x s,
               dict_get (yu_node_mapping st) (vnr_id v, x) <> Some s).
    { intros x s G. destruct (nm_owner OK _ _ G) as [I|[w [Iw [Ew _]]]].
      - contradiction.
      - apply (NM w Iw Ew). }
    destruct (@yu_map_nodes_spec
                (vnr_id v) (vnr_graph v) sn (node_list (vnr_graph v))
                (yu_node_mapping st) (node_list (vnr_graph v))
                (yu_substrate st) (yu_node_mapping st) [] g nm vnm ok)
      as [N [Yes No]];
      [apply incl_refl | apply (nm_keys OK) | constructor | auto
       | discriminate | exact Mn |].
    destruct ok.
    + intros E. inversion E; subst. simpl.
      split; [|split; [reflexivity|split; [reflexivity|left; auto]]].
      destruct (Yes eq_refl) as [Nv [R A]]. constructor.
      * exact N.
      * intros id x1 x2 s G1 G2.
        destruct (R _ _ G1) as [G1'|[y1 [K1 V1]]];
          destruct (R _ _ G2) as [G2'|[y2 [K2 V2]]].
        -- apply (nm_injective OK _ _ _ G1' G2').
        -- inversion K2; subst. exfalso. apply (Empty _ _ G1').
        -- inversion K1; subst. exfalso. apply (Empty _ _ G2').
        -- inversion K1; inversion K2; subst.
           apply (NoDup_values_get _ _ _ Nv V1 V2).
      * intros id x s G.
        destruct (R _ _ G) as [G'|[y [K1 V1]]].
        -- destruct (nm_owner OK _ _ G') as [I|[w [Iw [Ew Nw]]]]; [auto|].
           right. exists w. split; [apply in_app_iff; auto | auto].
        -- inversion K1; subst. right. exists v.
           split; [apply in_app_iff; right; left; reflexivity|].
           split; [reflexivity | eapply A; exact V1].
    + destruct (yu_mark_failed v _ failed) as [[st1 f1]|] eqn:M;
        [|discriminate].
      intros E. inversion E; subst.
      destruct (yu_mark_failed_same _ _ _ M) as [En [Ee [Eh F]]].
      simpl in *. rewrite En, Ee, Eh.
      split; [|split; [reflexivity|split; [reflexivity|right; auto]]].
      eapply nm_ok_shrink; [exact OK | exact N | exact (No eq_refl)].
Qed.

Lemma yu_release_spec v st st' :
  yu_release v st = Some st' ->
  NoDup (dict_keys (yu_node_mapping st)) ->
  NoDup (dict_keys (yu_node_mapping st'))
  /\ (forall k s, dict_get (yu_node_mapping st') k = Some s ->
                  dict_get (yu_node_mapping st) k = Some s)
  /\ (forall x, In x (node_list (vnr_graph v)) ->
                dict_get (yu_node_mapping st') (vnr_id v, x) = None)
  /\ yu_embedded st' = yu_embedded st
  /\ yu_historical_nodes st' = yu_historical_nodes st.
Proof.
  unfold yu_release.
  destruct (yu_release_nodes _ _ _ _ _) as [[g nm]|] eqn:R; [|discriminate].
  destruct (yu_release_links _ _ _ _ _) as [[g' lm]|]; [|discriminate].
  intros E N. inversion E; subst. simpl.
  destruct (yu_release_nodes_spec _ _ _ _ _ R N) as [N' [S Z]].
  auto.
Qed.

Lemma yu_departures_inv t snapshot : forall st st',
    yu_departures t snapshot st = Some st' ->
    nm_ok (yu_embedded st) [] (yu_node_mapping st) ->
    nm_ok (yu_embedded st') [] (yu_node_mapping st')
    /\ yu_embedded st' = yu_embedded st
    /\ yu_historical_nodes st' = yu_historical_nodes st.
Proof.
  induction snapshot as [|[id [vnr d]] rest IH]; simpl; intros st st' E OK.
  - inversion E; subst. auto.
  - destruct (d <=? t)%Z; [|eauto].
    destruct (yu_release vnr st) as [st1|] eqn:R; [|discriminate].
    destruct (yu_release_spec _ _ R (nm_keys OK)) as [N [S [_ [Ee Eh]]]].
    apply IH in E; simpl.
    + destruct E as [OK' [Ee' Eh']]. simpl in *.
      rewrite Ee', Eh', Ee, Eh. rewrite Ee', Ee in OK'. auto.
    + rewrite Ee. eapply nm_ok_shrink; [exact OK | exact N | exact S].
Qed.

Lemma yu_phase2_inv t v l st failed st' failed' :
  nm_ok (yu_embedded st) (v :: l) (yu_node_mapping st) ->
  hist_ok (yu_embedded st) (yu_historical_nodes st) ->
  ~ In (vnr_id v) (yu_embedded st) ->
  yu_phase2 t v (st, failed) = Some (st', failed') ->
  nm_ok (yu_embedded st') l (yu_node_mapping st')
  /\ hist_ok (yu_embedded st') (yu_historical_nodes st')
  /\ ((yu_embedded st' = yu_embedded st ++ [vnr_id v] /\ failed' = failed)
      \/ (yu_embedded st' = yu_embedded st
          /\ (failed' = failed \/ failed' = failed ++ [v]))).
Proof.
  intros OK HOK NE. unfold yu_phase2.
  destruct (yu_map_links _ _ _ _ _ _) as [[[g lm] ok]|]; [|discriminate].
  destruct ok.
  - intros E. inversion E; subst. simpl.
    assert (M : mem (vnr_id v) (yu_embedded st) = false)
      by (apply mem_not_In; exact NE).
    rewrite M.
    split; [|split; [|auto]].
    + constructor.
      * apply (nm_keys OK).
      * apply (nm_injective OK).
      * intros id x s G.
        destruct (nm_owner OK _ _ G) as [I|[w [[<-|Iw] [Ew Nw]]]].
        -- left. apply in_app_iff. auto.
        -- left. apply in_app_iff. right. left. exact Ew.
        -- right. exists w. auto.
    + constructor.
      * apply yu_save_keys_NoDup. apply (hist_keys HOK).
      * intros id x1 x2 s.
        rewrite !yu_save_get by apply (nm_keys OK).
        destruct (Nat.eqb id (vnr_id v)) eqn:Ei.
        -- apply Nat.eqb_eq in Ei. subst id.
           destruct (dict_get (yu_node_mapping st) (vnr_id v, x1)) eqn:G1.
           ++ destruct (dict_get (yu_node_mapping st) (vnr_id v, x2)) eqn:G2.
              ** intros E1 E2. inversion E1; inversion E2; subst.
                 apply (nm_injective OK _ _ _ G1 G2).
              ** intros _ G. apply (hist_owner HOK) in G. contradiction.
           ++ intros G. apply (hist_owner HOK) in G. contradiction.
        -- apply (hist_injective HOK).
      * intros id x s. rewrite yu_save_get by apply (nm_keys OK).
        destruct (Nat.eqb id (vnr_id v)) eqn:Ei.
        -- apply Nat.eqb_eq in Ei. subst id. intros _.
           apply in_app_iff. right. left. reflexivity.
        -- intros G. apply (hist_owner HOK) in G. apply in_app_iff. auto.
  - destruct (yu_release v _) as [st2|] eqn:R; [|discriminate].
    intros M.
    destruct (yu_mark_failed_same _ _ _ M) as [En [Ee [Eh F]]].
    destruct (yu_release_spec _ _ R (nm_keys OK)) as [N [S [Z [Ee2 Eh2]]]].
    simpl in *. rewrite En, Ee, Eh, Ee2, Eh2.
    split; [|split; [exact HOK | auto]].
    constructor.
    + exact N.
    + intros id x1 x2 s G1 G2.
      eapply (nm_injective OK); eauto.
    + intros id x s G.
      destruct (nm_owner OK _ _ (S _ _ G)) as [I|[w [[<-|Iw] [Ew Nw]]]].
      * auto.
      * subst id. rewrite (Z x Nw) in G. discriminate.
      * right. exists w. auto.
Qed.

Lemma nm_ok_Permutation embedded holding holding' nm :
  Permutation holding' holding ->
  nm_ok embedded holding nm -> nm_ok embedded holding' nm.
Proof.
  intros P OK. constructor.
  - apply (nm_keys OK).
  - apply (nm_injective OK).
  - intros id x s G.
    destruct (nm_owner OK _ _ G) as [I|[w [Iw R]]]; [auto|].
    right. exists w. split; [|exact R].
    eapply Permutation_in; [apply Permutation_sym; exact P | exact Iw].
Qed.

(** Node mapping of a whole chunk: the table stays in order, and every
    request of the chunk ends among the mapped or the failed ones, or is
    dropped. *)
Lemma foldM_phase1_inv l : forall st failed mapped st' failed' mapped',
    nm_ok (yu_embedded st) mapped (yu_node_mapping st) ->
    (forall id, id_occurrences id l + id_occurrences id mapped
                + embedded_flag (yu_embedded st) id <= 1) ->
    foldM yu_phase1 l (st, failed, mapped) = Some (st', failed', mapped') ->
    nm_ok (yu_embedded st') mapped' (yu_node_mapping st')
    /\ yu_embedded st' = yu_embedded st
    /\ yu_historical_nodes st' = yu_historical_nodes st
    /\ (forall id, id_occurrences id mapped' + id_occurrences id failed'
                   <= id_occurrences id l + id_occurrences id mapped
                      + id_occurrences id failed).
Proof.
  induction l as [|v l IH]; intros st failed mapped st' failed' mapped' OK B;
    cbn [foldM].
  - intros E. inversion E; subst.
    split; [exact OK|]. split; [reflexivity|]. split; [reflexivity|].
    intros id. lia.
  - destruct (yu_phase1 v (st, failed, mapped)) as [[[st1 f1] m1]|] eqn:P;
      [|discriminate].
    intros E.
    assert (Own : id_occurrences (vnr_id v) [v] = 1).
    { rewrite id_occurrences_one, Nat.eqb_refl. reflexivity. }
    assert (NE : ~ In (vnr_id v) (yu_embedded st)).
    { apply embedded_flag_In. specialize (B (vnr_id v)).
      rewrite (id_occurrences_cons (vnr_id v) v l) in B. lia. }
    assert (NM : forall w, In w mapped -> vnr_id w <> vnr_id v).
    { intros w Iw Ew. specialize (B (vnr_id v)).
      rewrite (id_occurrences_cons (vnr_id v) v l) in B.
      pose proof (@id_occurrences_In _ _ _ Iw Ew). lia. }
    destruct (@yu_phase1_inv _ _ _ _ _ _ _ OK NE NM P) as [OK1 [Ee [Eh C]]].
    apply IH in E.
    + destruct E as [OK' [Ee' [Eh' B']]].
      rewrite Ee', Eh', Ee, Eh. rewrite Ee', Ee in OK'.
      split; [exact OK'|]. split; [reflexivity|]. split; [reflexivity|].
      intros id. specialize (B' id).
      rewrite (id_occurrences_cons id v l).
      destruct C as [[-> ->]|[-> [->| ->]]];
        rewrite ?id_occurrences_app in B'; lia.
    + exact OK1.
    + intros id. specialize (B id). rewrite Ee.
      rewrite (id_occurrences_cons id v l) in B.
      destruct C as [[-> _]|[-> _]]; rewrite ?id_occurrences_app; lia.
Qed.

(** Link mapping of the mapped requests: those embedded are recorded in the
    historical table, the others give their nodes back. *)
Lemma foldM_phase2_inv t l : forall st failed st' failed',
    nm_ok (yu_embedded st) l (yu_node_mapping st) ->
    hist_ok (yu_embedded st) (yu_historical_nodes st) ->
    (forall id, id_occurrences id l + embedded_flag (yu_embedded st) id <= 1) ->
    foldM (yu_phase2 t) l (st, failed) = Some (st', failed') ->
    nm_ok (yu_embedded st') [] (yu_node_mapping st')
    /\ hist_ok (yu_embedded st') (yu_historical_nodes st')
    /\ (forall id, id_occurrences id failed'
                   + embedded_flag (yu_embedded st') id
                   <= id_occurrences id l + id_occurrences id failed
                      + embedded_flag (yu_embedded st) id).
Proof.
  induction l as [|v l IH]; intros st failed st' failed' OK HOK B;
    cbn [foldM].
  - intros E. inversion E; subst.
    split; [exact OK|]. split; [exact HOK|].
    intros id. lia.
  - destruct (yu_phase2 t v (st, failed)) as [[st1 f1]|] eqn:P;
      [|discriminate].
    intros E.
    assert (Own : id_occurrences (vnr_id v) [v] = 1).
    { rewrite id_occurrences_one, Nat.eqb_refl. reflexivity. }
    assert (NE : ~ In (vnr_id v) (yu_embedded st)).
    { apply embedded_flag_In. specialize (B (vnr_id v)).
      rewrite (id_occurrences_cons (vnr_id v) v l) in B. lia. }
    destruct (@yu_phase2_inv _ _ _ _ _ _ _ OK HOK NE P) as [OK1 [HOK1 C]].
    assert (F : forall id,
               id_occurrences id f1 + embedded_flag (yu_embedded st1) id
               <= id_occurrences id [v] + id_occurrences id failed
                  + embedded_flag (yu_embedded st) id
               /\ embedded_flag (yu_embedded st1) id
                  <= id_occurrences id [v]
                     + embedded_flag (yu_embedded st) id).
    { intros id.
      destruct C as [[-> ->]|[-> [->| ->]]];
        rewrite ?id_occurrences_app, ?(@embedded_flag_add _ _ id NE),
          ?id_occurrences_one; lia. }
    apply IH in E.
    + destruct E as [OK' [HOK' B']].
      split; [exact OK'|]. split; [exact HOK'|].
      intros id. specialize (B' id). destruct (F id) as [F1 F2].
      rewrite (id_occurrences_cons id v l). lia.
    + exact OK1.
    + exact HOK1.
    + intros id. specialize (B id). destruct (F id) as [F1 F2].
      rewrite (id_occurrences_cons id v l) in B. lia.
Qed.

Lemma skipn_nth_error {A} (l : list A) i x :
  nth_error l i = Some x -> skipn i l = x :: skipn (S i) l.
Proof.
  revert i. induction l as [|y l IH]; intros [|i] E; simpl in *;
    try discriminate.
  - inversion E. reflexivity.
  - apply IH. exact E.
Qed.

Lemma skipn_list_set {A} (l : list A) i x :
  skipn (S i) (list_set l i x) = skipn (S i) l.
Proof.
  revert i. induction l as [|y l IH]; intros [|i]; simpl; auto.
  apply IH.
Qed.

Lemma id_occurrences_skipn_extend id (chunks : list (list VNR)) xs :
  forall j k,
    j <= k -> k < length chunks ->
    id_occurrences id (concat (skipn j (list_extend chunks k xs)))
    = id_occurrences id (concat (skipn j chunks)) + id_occurrences id xs.
Proof.
  induction chunks as [|c chunks IH]; intros j k L1 L2; simpl in *; [lia|].
  destruct k as [|k].
  - assert (j = 0) by lia. subst. simpl. rewrite !id_occurrences_app. lia.
  - destruct j as [|j]; simpl.
    + rewrite !id_occurrences_app.
      pose proof (IH 0 k) as Q. simpl in Q. rewrite Q by lia. lia.
    + apply IH; lia.
Qed.

(** What is still to come after chunk [i] grows by exactly the requeued
    requests. *)
Lemma id_occurrences_skipn_requeue id i failed (chunks : list (list VNR)) :
  i < length chunks ->
  id_occurrences id (concat (skipn (S i) (yu_requeue i failed chunks)))
  = id_occurrences id (concat (skipn (S i) chunks)) + id_occurrences id failed.
Proof.
  intros L. unfold yu_requeue. destruct failed as [|v failed].
  - change (id_occurrences id []) with 0. lia.
  - destruct (Z.of_nat i <? Z.of_nat (length chunks) - 1)%Z eqn:E.
    + apply Z.ltb_lt in E. apply id_occurrences_skipn_extend; lia.
    + apply Z.ltb_ge in E. rewrite skipn_app.
      replace (S i - length chunks) with 0 by lia.
      rewrite concat_app, id_occurrences_app. simpl. rewrite app_nil_r.
      reflexivity.
Qed.

(** One chunk: what is still to come and what is embedded never share an
    identifier, and both tables stay in order. *)
Lemma yu_chunk_inv time_window i chunk st chunks st' chunks' :
  nth_error chunks i = Some chunk ->
  nm_ok (yu_embedded st) [] (yu_node_mapping st) ->
  hist_ok (yu_embedded st) (yu_historical_nodes st) ->
  (forall id, id_occurrences id (concat (skipn i chunks))
              + embedded_flag (yu_embedded st) id <= 1) ->
  yu_chunk time_window i chunk st chunks = Some (st', chunks') ->
  nm_ok (yu_embedded st') [] (yu_node_mapping st')
  /\ hist_ok (yu_embedded st') (yu_historical_nodes st')
  /\ (forall id, id_occurrences id (concat (skipn (S i) chunks'))
                 + embedded_flag (yu_embedded st') id <= 1).
Proof.
  intros N OK HOK B. unfold yu_chunk.
  destruct (yu_departures _ _ st) as [st1|] eqn:D; [|discriminate].
  destruct (by_revenue_desc chunk) as [sorted|] eqn:S1; [|discriminate].
  destruct (foldM yu_phase1 _ _) as [[[st2 failed1] succ]|] eqn:P1;
    [|discriminate].
  destruct (by_revenue_desc succ) as [mapped|] eqn:S2; [|discriminate].
  destruct (foldM (yu_phase2 _) _ _) as [[st3 failed]|] eqn:P2;
    [|discriminate].
  intros E. inversion E; subst. clear E.
  apply sorted_desc_by_Permutation in S1.
  apply sorted_desc_by_Permutation in S2.
  eapply yu_departures_inv in D; [|exact OK].
  destruct D as [OK1 [Ee1 Eh1]].
  assert (Here : forall id,
             id_occurrences id chunk
             + id_occurrences id (concat (skipn (S i) chunks))
             + embedded_flag (yu_embedded st) id <= 1).
  { intros id. specialize (B id).
    rewrite (skipn_nth_error _ _ N) in B. cbn [concat] in B.
    rewrite id_occurrences_app in B. lia. }
  eapply foldM_phase1_inv in P1; [|exact OK1|].
  2:{ intros id. specialize (Here id). rewrite Ee1.
      rewrite (id_occurrences_Permutation id S1).
      change (id_occurrences id []) with 0. lia. }
  destruct P1 as [OK2 [Ee2 [Eh2 B2]]].
  assert (Mapped : forall id,
             id_occurrences id mapped + id_occurrences id failed1
             <= id_occurrences id chunk).
  { intros id. specialize (B2 id).
    rewrite (id_occurrences_Permutation id S1) in B2.
    rewrite (id_occurrences_Permutation id S2).
    change (id_occurrences id []) with 0 in B2. lia. }
  eapply foldM_phase2_inv in P2.
  - destruct P2 as [OK3 [HOK3 B3]].
    split; [exact OK3|]. split; [exact HOK3|].
    intros id. specialize (B3 id). specialize (Here id).
    specialize (Mapped id).
    rewrite id_occurrences_skipn_requeue.
    + rewrite skipn_list_set. rewrite Ee2, Ee1 in B3. lia.
    + rewrite length_list_set. apply nth_error_Some. congruence.
  - eapply nm_ok_Permutation; [exact S2 | exact OK2].
  - rewrite Ee2, Eh2, Ee1, Eh1. exact HOK.
  - intros id. specialize (Here id). specialize (Mapped id).
    rewrite Ee2, Ee1. lia.
Qed.

(** The whole walk over the chunks keeps the historical table in order. *)
Lemma yu_loop_inv time_window fuel : forall i st chunks st' chunks',
    nm_ok (yu_embedded st) [] (yu_node_mapping st) ->
    hist_ok (yu_embedded st) (yu_historical_nodes st) ->
    (forall id, id_occurrences id (concat (skipn i chunks))
                + embedded_flag (yu_embedded st) id <= 1) ->
    yu_loop time_window fuel i st chunks = Some (Some (st', chunks')) ->
    hist_ok (yu_embedded st') (yu_historical_nodes st').
Proof.
  induction fuel as [|fuel IH]; intros i st chunks st' chunks' OK HOK B;
    simpl;
    destruct (nth_error chunks i) as [chunk|] eqn:N;
    try discriminate;
    try (intros E; inversion E; subst; exact HOK).
  destruct (yu_chunk time_window i chunk st chunks) as [[st1 chunks1]|] eqn:C;
    [|discriminate].
  intros E.
  eapply yu_chunk_inv in C; [|exact N|exact OK|exact HOK|exact B].
  destruct C as [OK1 [HOK1 B1]].
  eapply IH; [exact OK1 | exact HOK1 | exact B1 | exact E].
Qed.

Lemma mapM_In {A B} (f : A -> option B) (l : list A) :
  forall l' y, mapM f l = Some l' -> In y l' ->
               exists x, In x l /\ f x = Some y.
Proof.
  induction l as [|x l IH]; simpl; intros l' y E I.
  - inversion E; subst. contradiction.
  - destruct (f x) as [z|] eqn:F; [|discriminate].
    destruct (mapM f l) as [zs|]; [|discriminate].
    inversion E; subst. destruct I as [<-|I].
    + exists x. auto.
    + destruct (IH _ _ eq_refl I) as [x' [Ix Fx]]. exists x'. auto.
Qed.

(** The chunked baseline: with pairwise distinct request identifiers, every
    node mapping it reports is injective. *)
Lemma yu2008_injective substrate vnr_chunks flags time_window
      results st vnr_chunks' :
  NoDup (map vnr_id (concat vnr_chunks)) ->
  yu2008_algorithm substrate vnr_chunks flags time_window
  = Some (results, st, vnr_chunks') ->
  forall r nm, In r results -> yr_node_mapping r = Some nm -> injective nm.
Proof.
  intros ND. unfold yu2008_algorithm.
  destruct (yu_loop _ _ _ _ _) as [[[st1 chunks1]|]|] eqn:L;
    try discriminate.
  simpl. destruct (mapM _ _) as [rs|] eqn:M; [|discriminate].
  intros E. inversion E; subst. clear E.
  assert (HOK : hist_ok (yu_embedded st) (yu_historical_nodes st)).
  { eapply yu_loop_inv; [| | |exact L].
    - constructor; simpl.
      + constructor.
      + intros id x1 x2 s G. discriminate.
      + intros id x s G. discriminate.
    - constructor; simpl.
      + constructor.
      + intros id x1 x2 s G. discriminate.
      + intros id x s G. discriminate.
    - intros id. simpl.
      pose proof (proj1 (NoDup_count_occ Nat.eq_dec _) ND id) as Q.
      unfold id_occurrences, embedded_flag. simpl. lia. }
  intros r nm I R.
  destruct (@mapM_In _ _ _ _ _ _ M I) as [id [_ Y]].
  unfold yu_result in Y.
  destruct (dict_get _ id) as [arrival|]; [|discriminate].
  destruct (mem id (yu_embedded st)); inversion Y; subst; simpl in R;
    [|discriminate].
  inversion R; subst.
  intros v1 v2 s.
  rewrite !yu_extract_get by apply (hist_keys HOK).
  apply (hist_injective HOK).
Qed.
End ChunkedDisjointness.

(** C4.  Node-disjointness.  Whatever node mapping the greedy strategy, the
    max-match strategy or the breadth-first strategy returns puts no two
    virtual nodes of the request on one substrate node; and so does every
    node mapping reported by the chunked baseline, for requests with
    pairwise distinct identifiers. *)
Theorem node_mappings_are_injective :
  forall (paths : Networkx),
    (forall substrate vnr nm lm,
        simple_greedy_algorithm substrate vnr = Some (Some nm, lm, true) ->
        injective nm)
    /\ (forall substrate vnr nm lm success,
           rw_maxmatch_algorithm substrate vnr = Some (Some nm, lm, success) ->
           injective nm)
    /\ (forall substrate vnr max_hop max_backtrack nm lm,
           rw_bfs_algorithm substrate vnr max_hop max_backtrack
           = Some (Some nm, lm, true) ->
           injective nm)
    /\ (forall substrate vnr_chunks flags time_window results st vnr_chunks',
           NoDup (map vnr_id (concat vnr_chunks)) ->
           yu2008_algorithm substrate vnr_chunks flags time_window
           = Some (results, st, vnr_chunks') ->
           forall r nm,
             In r results -> yr_node_mapping r = Some nm -> injective nm).
Proof.
  intros paths.
  split; [intros; eapply greedy_injective; eauto|].
  split; [intros; eapply maxmatch_injective; eauto|].
  split; [intros; eapply rw_bfs_injective; eauto|].
  intros substrate vnr_chunks flags time_window results st vnr_chunks' N E.
  eapply yu2008_injective; eauto.
Qed.

Lemma node_mappings_are_injective_witness :
  (greedy_reference uneven_pair (vnr_graph (request2 0 1 0 20 10 30))
   = Some (Some [(0, 0); (1, 1)], Some [((0, 1), [0; 1])], true)
   /\ injective [(0, 0); (1, 1)])
  /\ (rw_maxmatch_reference uneven_pair (vnr_graph (request2 0 1 0 20 10 30))
      = Some (Some [(0, 0); (1, 1)], Some [((0, 1), [0; 1])], true)
      /\ injective [(0, 0); (1, 1)])
  /\ (rw_bfs_reference uneven_pair (vnr_graph (request2 0 1 0 20 10 30))
      = Some (Some [(0, 0); (1, 1)], Some [((1, 0), [1; 0])], true)
      /\ injective [(0, 0); (1, 1)])
  /\ (NoDup (map vnr_id (concat [overlapping_queue]))
      /\ exists run,
          @yu2008_algorithm reference_paths narrow_pair_reset [overlapping_queue]
                           [(0, false); (1, false)] 25
          = Some run
          /\ forall r nm,
              In r (fst (fst run)) -> yr_node_mapping r = Some nm ->
              injective nm).
Proof.
  pose proof (node_mappings_are_injective reference_paths) as [G [M [B Y]]].
  split; [split; [vm_compute; reflexivity|]|].
  { apply (G uneven_pair (vnr_graph (request2 0 1 0 20 10 30))
              [(0, 0); (1, 1)] (Some [((0, 1), [0; 1])])).
    vm_compute. reflexivity. }
  split; [split; [vm_compute; reflexivity|]|].
  { apply (M uneven_pair (vnr_graph (request2 0 1 0 20 10 30))
              [(0, 0); (1, 1)] (Some [((0, 1), [0; 1])]) true).
    vm_compute. reflexivity. }
  split; [split; [vm_compute; reflexivity|]|].
  { apply (B uneven_pair (vnr_graph (request2 0 1 0 20 10 30)) 3 3
              [(0, 0); (1, 1)] (Some [((1, 0), [1; 0])])).
    vm_compute. reflexivity. }
  assert (N : NoDup (map vnr_id (concat [overlapping_queue]))).
  { simpl. repeat constructor; simpl; intuition discriminate. }
  split; [exact N|].
  assert (E : exists run,
             @yu2008_algorithm reference_paths narrow_pair_reset [overlapping_queue]
                              [(0, false); (1, false)] 25 = Some run).
  { vm_compute. eexists. reflexivity. }
  destruct E as [[[results st] vnr_chunks'] E].
  exists (results, st, vnr_chunks').
  split; [exact E|].
  exact (Y _ _ _ _ _ _ _ N E).
Defined.

Lemma failed_request_is_retried_once_witness :
  NoDup (map obj_id requeue_queue)
  /\ map (map obj_id) (fst (create_chunks requeue_queue 25 []))
     = [[0; 1]; [2]]
  /\ (exists step,
         nth_error (fst (create_chunks requeue_queue 25 [])) 0
         = Some [request2 0 1 0 100 10 30; request2 1 2 5 20 10 30]
         /\ @yu_chunk reference_paths 25 0
              [request2 0 1 0 100 10 30; request2 1 2 5 20 10 30]
              (yu_initial narrow_pair_reset
                          (snd (create_chunks requeue_queue 25 [])))
              (fst (create_chunks requeue_queue 25 []))
            = Some step
         /\ map (map obj_id) (snd step) = [[0; 1]; [2; 1]]
         /\ exists sorted_chunk failed,
             nth_error (snd step) 0 = Some sorted_chunk
             /\ occurrences 1 failed = 1
             /\ nth_error (snd step) 1
                = Some ([request2 2 3 30 20 10 10] ++ failed))
  /\ (exists run,
         @yu2008_algorithm reference_paths
           narrow_pair_reset
           (fst (create_chunks requeue_queue 25 []))
           (snd (create_chunks requeue_queue 25 []))
           25
         = Some run
         /\ map (map obj_id) (snd run) = [[0; 1]; [1; 2]]
         /\ (forall v, In v requeue_queue ->
                       occurrences (obj_id v) (concat (snd run))
                       = 1 + flag (yu_retried (snd (fst run))) (obj_id v))
         /\ forall o, occurrences o (concat (snd run)) <= 2)
  /\ option_map (fun run => map (map obj_id) (snd run))
                (@yu2008_algorithm reference_paths
                   narrow_pair_reset
                   (fst (create_chunks overlapping_queue 25 []))
                   (snd (create_chunks overlapping_queue 25 []))
                   25)
     = Some [[0; 1]; [1]].
Proof.
  assert (N : NoDup (map obj_id requeue_queue)).
  { simpl. repeat constructor; simpl; intuition discriminate. }
  split; [exact N|].
  split; [vm_compute; reflexivity|].
  pose proof (@failed_request_is_retried_once reference_paths 25)
    as [_ [_ [Chunk [_ Queue]]]].
  split; [|split; [|vm_compute; reflexivity]].
  - assert (N0 : nth_error (fst (create_chunks requeue_queue 25 [])) 0
                 = Some [request2 0 1 0 100 10 30; request2 1 2 5 20 10 30])
      by (vm_compute; reflexivity).
    assert (C : exists step,
               @yu_chunk reference_paths 25 0
                 [request2 0 1 0 100 10 30; request2 1 2 5 20 10 30]
                 (yu_initial narrow_pair_reset
                             (snd (create_chunks requeue_queue 25 [])))
                 (fst (create_chunks requeue_queue 25 []))
               = Some step)
      by (vm_compute; eexists; reflexivity).
    destruct C as [[st1 chunks1] C].
    assert (Ids : option_map
                    (fun step => map (map obj_id) (snd step))
                    (@yu_chunk reference_paths 25 0
                       [request2 0 1 0 100 10 30; request2 1 2 5 20 10 30]
                       (yu_initial narrow_pair_reset
                                   (snd (create_chunks requeue_queue 25 [])))
                       (fst (create_chunks requeue_queue 25 [])))
                  = Some [[0; 1]; [2; 1]]) by (vm_compute; reflexivity).
    rewrite C in Ids. cbn [option_map snd] in Ids.
    assert (Ids' : map (map obj_id) chunks1 = [[0; 1]; [2; 1]])
      by congruence.
    exists (st1, chunks1). split; [exact N0|]. split; [exact C|].
    split; [exact Ids'|].
    destruct (Chunk 0 _ _ _ st1 chunks1 N0 C)
      as [sorted_chunk [failed [_ [Ni [_ [Cnt [_ [_ [_ Next]]]]]]]]].
    exists sorted_chunk, failed. cbn [fst snd].
    split; [exact Ni|].
    assert (F0 : flag (yu_retried
                         (yu_initial narrow_pair_reset
                            (snd (create_chunks requeue_queue 25 [])))) 1
                 = 0) by (vm_compute; reflexivity).
    assert (F1 : option_map
                   (fun step => flag (yu_retried (fst step)) 1)
                   (@yu_chunk reference_paths 25 0
                      [request2 0 1 0 100 10 30; request2 1 2 5 20 10 30]
                      (yu_initial narrow_pair_reset
                                  (snd (create_chunks requeue_queue 25 [])))
                      (fst (create_chunks requeue_queue 25 [])))
                 = Some 1) by (vm_compute; reflexivity).
    rewrite C in F1. cbn [option_map fst] in F1.
    assert (F1' : flag (yu_retried st1) 1 = 1) by congruence.
    specialize (Cnt 1). rewrite F0, F1' in Cnt.
    assert (Occ : occurrences 1 failed = 1) by lia.
    split; [exact Occ|].
    assert (NE : failed <> []).
    { intros Z. rewrite Z in Occ. discriminate Occ. }
    specialize (Next NE).
    assert (N1 : nth_error (fst (create_chunks requeue_queue 25 [])) 1
                 = Some [request2 2 3 30 20 10 10])
      by (vm_compute; reflexivity).
    rewrite N1 in Next. destruct Next as [_ [Nx _]]. exact Nx.
  - assert (E : exists run,
               @yu2008_algorithm reference_paths
                 narrow_pair_reset
                 (fst (create_chunks requeue_queue 25 []))
                 (snd (create_chunks requeue_queue 25 []))
                 25 = Some run).
    { vm_compute. eexists. reflexivity. }
    destruct E as [[[results st] vnr_chunks'] E].
    assert (Ids : option_map
                    (fun run => map (map obj_id) (snd run))
                    (@yu2008_algorithm reference_paths
                       narrow_pair_reset
                       (fst (create_chunks requeue_queue 25 []))
                       (snd (create_chunks requeue_queue 25 []))
                       25)
                  = Some [[0; 1]; [1; 2]]) by (vm_compute; reflexivity).
    rewrite E in Ids. cbn [option_map snd] in Ids.
    assert (Ids' : map (map obj_id) vnr_chunks' = [[0; 1]; [1; 2]])
      by congruence.
    exists (results, st, vnr_chunks').
    split; [exact E|]. split; [exact Ids'|].
    exact (Queue _ _ _ _ _ N E).
Defined.

(* ===================================================================== *)
(** * Part III: further properties of the code                            *)
(* ===================================================================== *)

(** ** The shape of what the per-request strategies return *)

(** X1.  [simple_greedy_algorithm] returns one of two shapes only: both
    mappings with [success = True], or [None, None, False]. *)
Theorem greedy_returns_all_or_nothing :
  forall (paths : Networkx) substrate vnr nm lm success,
    simple_greedy_algorithm substrate vnr = Some (nm, lm, success) ->
    (success = true /\ nm <> None /\ lm <> None)
    \/ (success = false /\ nm = None /\ lm = None).
Proof.
  intros paths substrate vnr nm lm success.
  destruct success.
  - unfold simple_greedy_algorithm.
    destruct (sorted_desc_by _ _) as [sn|]; [|discriminate].
    destruct (greedy_node_mapping _ _ _ _ _) as [[m|]|]; try discriminate.
    destruct (greedy_link_mapping _ _ _ _ _) as [[l|]|]; try discriminate.
    intros E. inversion E; subst. left. repeat split; discriminate.
  - intros E. right. split; [reflexivity|].
    eapply greedy_failure_is_empty. exact E.
Qed.

Lemma greedy_returns_all_or_nothing_witness :
  @simple_greedy_algorithm reference_paths narrow_pair_reset
                           (vnr_graph (request2 0 1 0 20 10 60))
  = Some (None, None, false)
  /\ ((false = true /\ (None : option NodeMapping) <> None
       /\ (None : option LinkMapping) <> None)
      \/ (false = false /\ (None : option NodeMapping) = None
          /\ (None : option LinkMapping) = None)).
Proof.
  assert (E : @simple_greedy_algorithm reference_paths narrow_pair_reset
                                       (vnr_graph (request2 0 1 0 20 10 60))
              = Some (None, None, false)) by (vm_compute; reflexivity).
  split; [exact E|].
  exact (@greedy_returns_all_or_nothing reference_paths _ _ _ _ _ E).
Defined.

(** X2.  [rw_maxmatch_algorithm] always reports [success] exactly when it
    returns a link mapping, and never returns a link mapping without a node
    mapping; a node mapping without a link mapping is what it returns when
    only the links fail. *)
Theorem maxmatch_success_means_links :
  forall (paths : Networkx) substrate vnr nm lm success,
    rw_maxmatch_algorithm substrate vnr = Some (nm, lm, success) ->
    (success = true <-> lm <> None)
    /\ (nm = None -> lm = None /\ success = false).
Proof.
  intros paths substrate vnr nm lm success.
  unfold rw_maxmatch_algorithm.
  destruct (compute_noderank_default substrate) as [sr|];
    [destruct (compute_noderank_default vnr) as [vr|]|].
  - unfold rw_maxmatch_node_mapping.
    destruct (maxmatch_nodes _ _ _ _ _) as [m|]; simpl.
    + unfold rw_maxmatch_link_mapping.
      destruct (maxmatch_links _ _ _ _ _) as [[l|]|]; try discriminate;
        intros E; inversion E; subst; split;
        try (split; congruence); try discriminate.
    + intros E. inversion E; subst. split; [split; congruence | auto].
  - intros E. inversion E; subst. split; [split; congruence | auto].
  - intros E. inversion E; subst. split; [split; congruence | auto].
Qed.

Lemma maxmatch_success_means_links_witness :
  @rw_maxmatch_algorithm reference_paths narrow_pair_reset
                         (vnr_graph (request2 0 1 0 20 10 60))
  = Some (Some [(0, 0); (1, 1)], None, false)
  /\ (false = true <-> (None : option LinkMapping) <> None)
  /\ (Some [(0, 0); (1, 1)] = (None : option NodeMapping) ->
      (None : option LinkMapping) = None /\ false = false).
Proof.
  assert (E : @rw_maxmatch_algorithm reference_paths narrow_pair_reset
                                     (vnr_graph (request2 0 1 0 20 10 60))
              = Some (Some [(0, 0); (1, 1)], None, false))
    by (vm_compute; reflexivity).
  split; [exact E|].
  exact (@maxmatch_success_means_links reference_paths _ _ _ _ _ E).
Defined.

(** X3.  [rw_bfs_algorithm] returns both mappings with [success = True], or
    [None, None, False]: backtracking never leaks a partial mapping. *)
Theorem bfs_returns_all_or_nothing :
  forall (paths : Networkx) substrate vnr max_hop max_backtrack nm lm success,
    rw_bfs_algorithm substrate vnr max_hop max_backtrack
    = Some (nm, lm, success) ->
    (success = true /\ nm <> None /\ lm <> None)
    \/ (success = false /\ nm = None /\ lm = None).
Proof.
  intros paths substrate vnr max_hop max_backtrack nm lm success.
  destruct success.
  - unfold rw_bfs_algorithm.
    destruct (compute_noderank_default substrate);
      [destruct (compute_noderank_default vnr)|]; try discriminate.
    destruct (construct_bfs_tree_order vnr _) as [[order parents]|];
      [|discriminate].
    unfold bfs_embedding_with_backtracking.
    generalize (bfs_fuel order max_backtrack).
    generalize {| bt_node_mapping := []; bt_link_mapping := [];
                  backtrack_count := 0; current_index := 0;
                  tried_candidates := map (fun n => (n, [])) order |}.
    intros st fuel. revert st.
    induction fuel as [|fuel IH]; intros st; simpl;
      destruct (bfs_turn _ _ _ _ _ _ _ st) as [[st'|r]|] eqn:T;
      try discriminate; try (apply IH).
    all: intros E; inversion E; subst r; clear E.
    all: unfold bfs_turn in T.
    all: destruct (nth_error order (current_index st)) as [v|];
      [|inversion T; left; repeat split; discriminate].
    all: destruct (dict_get _ v); [|discriminate].
    all: destruct (dict_get (tried_candidates st) v); [|discriminate].
    all: destruct (match_vnr_node _ _ _ _ _ _ _) as [[[s found]|]|];
      try discriminate.
    all: destruct ((backtrack_count st <? max_backtrack)
                   && (0 <? current_index st)).
    all: try (destruct (nth_error order (current_index st - 1));
              [|discriminate];
              destruct (match dict_get (bt_node_mapping st) _ with
                        | Some _ => _ | None => _ end); discriminate).
    all: inversion T.
  - intros E. right. split; [reflexivity|].
    eapply rw_bfs_failure_is_empty. exact E.
Qed.

Lemma bfs_returns_all_or_nothing_witness :
  @rw_bfs_algorithm reference_paths narrow_pair_reset
                    (vnr_graph (request2 0 1 0 20 10 60)) 3 3
  = Some (None, None, false)
  /\ ((false = true /\ (None : option NodeMapping) <> None
       /\ (None : option LinkMapping) <> None)
      \/ (false = false /\ (None : option NodeMapping) = None
          /\ (None : option LinkMapping) = None)).
Proof.
  assert (E : @rw_bfs_algorithm reference_paths narrow_pair_reset
                                (vnr_graph (request2 0 1 0 20 10 60)) 3 3
              = Some (None, None, false)) by (vm_compute; reflexivity).
  split; [exact E|].
  exact (@bfs_returns_all_or_nothing reference_paths _ _ _ _ _ _ _ E).
Defined.

(** X4.  The [while] loop of [bfs_embedding_with_backtracking] ends, whatever
    the substrate, the request, the candidate lists and the path queries
    answer: every turn places a node or spends one of the [max_backtrack]
    backtracks, so [(max_backtrack + 1) * (len(bfs_order) + 1)] turns
    always suffice. *)
Theorem bfs_backtracking_ends :
  forall (paths : Networkx) substrate vnr bfs_order bfs_parents
         candidate_lists max_hop max_backtrack,
    bfs_loop substrate vnr bfs_order bfs_parents candidate_lists
             max_hop max_backtrack
             (S max_backtrack * S (length bfs_order))
             {| bt_node_mapping := []; bt_link_mapping := [];
                backtrack_count := 0; current_index := 0;
                tried_candidates := map (fun n => (n, [])) bfs_order |}
    <> None
    /\ bfs_embedding_with_backtracking substrate vnr bfs_order bfs_parents
                                       candidate_lists max_hop max_backtrack
       <> None.
Proof.
  intros. assert (T : forall fuel,
                     S max_backtrack * S (length bfs_order) <= fuel ->
                     bfs_loop substrate vnr bfs_order bfs_parents
                              candidate_lists max_hop max_backtrack fuel
                              {| bt_node_mapping := []; bt_link_mapping := [];
                                 backtrack_count := 0; current_index := 0;
                                 tried_candidates :=
                                   map (fun n => (n, [])) bfs_order |}
                     <> None).
  { intros fuel L. apply bfs_loop_terminates.
    unfold bfs_measure. simpl. lia. }
  split; [apply T; lia|].
  unfold bfs_embedding_with_backtracking, bfs_fuel. apply T. lia.
Qed.

(** ** NodeRank *)

Lemma noderank_loop_keys graph p_jump p_forward epsilon iterations :
  forall r,
    dict_keys r = node_list graph ->
    dict_keys (noderank_loop graph p_jump p_forward epsilon iterations r)
    = node_list graph.
Proof.
  induction iterations as [|k IH]; intros r K; simpl; [exact K|].
  destruct (PrimFloat.ltb _ _); [exact K|].
  apply IH. unfold next_rank, dict_keys. rewrite map_map. simpl.
  apply map_id.
Qed.

Lemma dict_get_key_present {K V} `{Key K} (d : dict K V) k :
  In k (dict_keys d) -> dict_get d k <> None.
Proof.
  induction d as [|[k' v] d IH]; simpl; [contradiction|].
  intros [->|I].
  - rewrite keyb_refl. discriminate.
  - destruct (keyb k' k); [discriminate | auto].
Qed.

(** X5.  When [compute_noderank] returns a table, the graph has non-zero
    total weight and the table has exactly one entry per node, in node
    order: the lookups [noderank[n]] of the ranked strategies cannot raise
    [KeyError]. *)
Theorem noderank_ranks_every_node :
  forall graph max_iterations epsilon p_jump p_forward r,
    compute_noderank graph max_iterations epsilon p_jump p_forward = Some r ->
    total_H graph <> 0%Z
    /\ dict_keys r = node_list graph
    /\ forall n, In n (node_list graph) -> dict_get r n <> None.
Proof.
  intros graph max_iterations epsilon p_jump p_forward r.
  unfold compute_noderank.
  destruct (total_H graph =? 0)%Z eqn:Z0; [discriminate|].
  intros E. inversion E; subst. clear E.
  assert (K : dict_keys (noderank_loop graph p_jump p_forward epsilon
                                       max_iterations (initial_rank graph))
              = node_list graph).
  { apply noderank_loop_keys. unfold initial_rank, dict_keys.
    rewrite map_map. simpl. apply map_id. }
  split; [apply Z.eqb_neq; exact Z0|]. split; [exact K|].
  intros n I. apply dict_get_key_present. rewrite K. exact I.
Qed.

Lemma noderank_ranks_every_node_witness :
  exists r,
    compute_noderank_default uneven_pair = Some r
    /\ total_H uneven_pair <> 0%Z
    /\ dict_keys r = node_list uneven_pair
    /\ forall n, In n (node_list uneven_pair) -> dict_get r n <> None.
Proof.
  assert (E : exists r, compute_noderank_default uneven_pair = Some r)
    by (vm_compute; eexists; reflexivity).
  destruct E as [r E]. exists r. split; [exact E|].
  exact (@noderank_ranks_every_node _ _ _ _ _ _ E).
Defined.

(** ** [create_chunks] *)

Lemma nth_error_snoc {A} (l : list A) (x : A) i c :
  nth_error (l ++ [x]) i = Some c ->
  (i < length l /\ nth_error l i = Some c) \/ (i = length l /\ c = x).
Proof.
  intros E. destruct (Nat.lt_ge_cases i (length l)) as [L|L].
  - left. rewrite nth_error_app1 in E by exact L. auto.
  - right. rewrite nth_error_app2 in E by exact L.
    destruct (i - length l) as [|k] eqn:D; simpl in E.
    + inversion E. split; [lia | reflexivity].
    + destruct k; discriminate.
Qed.

Lemma chunk_loop_later_chunks time_window l :
  forall start chunk chunks,
    (forall i c, nth_error chunks (S i) = Some c -> c <> []) ->
    (chunks <> [] -> chunk <> []) ->
    forall i c,
      nth_error (chunk_loop time_window l start chunk chunks) (S i) = Some c ->
      c <> [].
Proof.
  induction l as [|v l IH]; intros start chunk chunks Old Cur;
    cbn [chunk_loop].
  - destruct chunk as [|w chunk]; [exact Old|].
    intros i c E. apply nth_error_snoc in E.
    destruct E as [[_ E]|[_ ->]]; [eapply Old; eauto | discriminate].
  - destruct (arrival_time v <=? start + time_window)%Z.
    + apply IH; [exact Old|]. intros _. destruct chunk; discriminate.
    + apply IH; [|discriminate].
      intros i c E. apply nth_error_snoc in E.
      destruct E as [[_ E]|[L ->]]; [eapply Old; eauto|].
      apply Cur. destruct chunks; [simpl in L; lia | discriminate].
Qed.

Lemma chunk_loop_first_chunk time_window l :
  forall start chunk c chunks,
    hd_error (chunk_loop time_window l start chunk (c :: chunks)) = Some c.
Proof.
  induction l as [|v l IH]; intros start chunk c chunks;
    cbn [chunk_loop].
  - destruct chunk; reflexivity.
  - destruct (arrival_time v <=? start + time_window)%Z; [apply IH|].
    apply (IH _ _ c (chunks ++ [chunk])).
Qed.

Lemma chunk_loop_open_chunk time_window l :
  forall start w chunk,
    hd_error (chunk_loop time_window l start (w :: chunk) []) <> Some [].
Proof.
  induction l as [|v l IH]; intros start w chunk; cbn [chunk_loop].
  - discriminate.
  - destruct (arrival_time v <=? start + time_window)%Z; [apply IH|].
    rewrite (chunk_loop_first_chunk time_window l _ [v] (w :: chunk) []).
    discriminate.
Qed.

(** The slots of the chunks as the loop leaves them: what chunk 0 holds
    arrived by the end of the first window, and what chunk [i > 0] holds
    arrived after [i] windows. *)
Definition early_enough (time_window : Z) (i : nat) (v : VNR) : Prop :=
  (i = 0 -> (arrival_time v <= time_window)%Z)
  /\ (0 < i -> (Z.of_nat i * time_window < arrival_time v)%Z).

Lemma chunk_loop_slots time_window l :
  forall start chunk chunks,
    StronglySorted (fun x y => (arrival_time x <= arrival_time y)%Z) l ->
    start = (Z.of_nat (length chunks) * time_window)%Z ->
    (0 < length chunks -> Forall (fun v => (start < arrival_time v)%Z) l) ->
    Forall (early_enough time_window (length chunks)) chunk ->
    (forall i c v, nth_error chunks i = Some c -> In v c ->
                   early_enough time_window i v) ->
    forall i c v,
      nth_error (chunk_loop time_window l start chunk chunks) i = Some c ->
      In v c -> early_enough time_window i v.
Proof.
  induction l as [|w l IH]; intros start chunk chunks S0 St Later Cur Old;
    cbn [chunk_loop].
  - destruct chunk as [|x chunk]; [exact Old|].
    intros i c v E I. apply nth_error_snoc in E.
    destruct E as [[_ E]|[-> ->]]; [eapply Old; eauto|].
    rewrite Forall_forall in Cur. apply Cur. exact I.
  - apply StronglySorted_inv in S0. destruct S0 as [S0 Fw].
    destruct (arrival_time w <=? start + time_window)%Z eqn:T.
    + apply Z.leb_le in T. apply IH; auto.
      * intros P. specialize (Later P). inversion Later; assumption.
      * apply Forall_app. split; [exact Cur|]. constructor; [|constructor].
        split.
        -- intros Z0. rewrite Z0 in St. simpl in St. lia.
        -- intros P. specialize (Later P). inversion Later; subst. lia.
    + apply Z.leb_gt in T.
      assert (Len : length (chunks ++ [chunk]) = S (length chunks))
        by (rewrite length_app; simpl; lia).
      apply IH; auto.
      * rewrite Len. lia.
      * intros _. eapply Forall_impl; [|exact Fw]. simpl. intros v Hv. lia.
      * rewrite Len. constructor; [|constructor]. split; [lia|].
        intros _. lia.
      * intros i c v E I. apply nth_error_snoc in E.
        destruct E as [[_ E]|[-> ->]]; [eapply Old; eauto|].
        rewrite Forall_forall in Cur. apply Cur. exact I.
Qed.

(** X6.  [create_chunks] cuts the queue, sorted by arrival time (requests
    with equal arrival times in queue order), into consecutive pieces:
    nothing is lost, duplicated or reordered, and every request of the queue
    has its [retried] flag set to [False]. *)
Theorem create_chunks_cuts_sorted_queue :
  forall vnr_queue time_window flags,
    concat (fst (create_chunks vnr_queue time_window flags))
    = sorted_asc Z.ltb arrival_time vnr_queue
    /\ Permutation (concat (fst (create_chunks vnr_queue time_window flags)))
                   vnr_queue
    /\ StronglySorted (fun x y => (arrival_time x <= arrival_time y)%Z)
                      (concat (fst (create_chunks vnr_queue time_window flags)))
    /\ forall v, In v vnr_queue ->
                 dict_get (snd (create_chunks vnr_queue time_window flags))
                          (obj_id v) = Some false.
Proof.
  intros vnr_queue time_window flags.
  assert (C : concat (fst (create_chunks vnr_queue time_window flags))
              = sorted_asc Z.ltb arrival_time vnr_queue).
  { unfold create_chunks. simpl. rewrite concat_chunk_loop. reflexivity. }
  split; [exact C|]. rewrite C.
  split; [apply sorted_asc_Permutation|].
  split; [apply sorted_asc_sorted|].
  intros v I. unfold create_chunks. simpl. apply flags_cleared.
  apply sorted_asc_In. exact I.
Qed.

Lemma create_chunks_cuts_sorted_queue_witness :
  In (request2 1 2 100 20 10 30)
     [request2 1 2 100 20 10 30; request2 0 1 0 20 10 30]
  /\ concat (fst (create_chunks
                    [request2 1 2 100 20 10 30; request2 0 1 0 20 10 30]
                    25 [(1, true)]))
     = [request2 0 1 0 20 10 30; request2 1 2 100 20 10 30]
  /\ dict_get (snd (create_chunks
                      [request2 1 2 100 20 10 30; request2 0 1 0 20 10 30]
                      25 [(1, true)])) 1 = Some false.
Proof.
  assert (I : In (request2 1 2 100 20 10 30)
                 [request2 1 2 100 20 10 30; request2 0 1 0 20 10 30])
    by (left; reflexivity).
  destruct (create_chunks_cuts_sorted_queue
              [request2 1 2 100 20 10 30; request2 0 1 0 20 10 30]
              25 [(1, true)]) as [C [_ [_ F]]].
  split; [exact I|]. split; [rewrite C; reflexivity|].
  exact (F (request2 1 2 100 20 10 30) I).
Defined.

(** X7.  The chunks [create_chunks] makes: none for an empty queue; only
    the first one can be empty, and it is exactly when the earliest request
    arrives after the first window. *)
Theorem create_chunks_only_first_chunk_can_be_empty :
  forall vnr_queue time_window flags,
    fst (create_chunks [] time_window flags) = []
    /\ (forall i c,
           nth_error (fst (create_chunks vnr_queue time_window flags)) (S i)
           = Some c ->
           c <> [])
    /\ (hd_error (fst (create_chunks vnr_queue time_window flags)) = Some []
        <-> exists v rest,
              sorted_asc Z.ltb arrival_time vnr_queue = v :: rest
              /\ (time_window < arrival_time v)%Z).
Proof.
  intros vnr_queue time_window flags. split; [reflexivity|]. split.
  - unfold create_chunks. simpl. apply chunk_loop_later_chunks.
    + intros i c E. destruct i; discriminate.
    + intros N. contradiction.
  - unfold create_chunks. simpl.
    destruct (sorted_asc Z.ltb arrival_time vnr_queue) as [|v rest]; simpl.
    + split; [discriminate|]. intros [v [rest [E _]]]. discriminate.
    + destruct (arrival_time v <=? time_window)%Z eqn:T.
      * apply Z.leb_le in T. split.
        -- intros E. exfalso.
           apply (chunk_loop_open_chunk time_window rest 0 v [] E).
        -- intros [v' [rest' [E L]]]. inversion E; subst. lia.
      * apply Z.leb_gt in T. split.
        -- intros _. exists v, rest. split; [reflexivity | lia].
        -- intros _. apply (chunk_loop_first_chunk time_window rest _ [v] [] []).
Qed.

Lemma create_chunks_only_first_chunk_can_be_empty_witness :
  fst (create_chunks [request2 0 1 30 20 10 30] 25 []) = [[]; [request2 0 1 30 20 10 30]]
  /\ (forall i c,
         nth_error (fst (create_chunks [request2 0 1 30 20 10 30] 25 []))
                   (S i) = Some c ->
         c <> [])
  /\ hd_error (fst (create_chunks [request2 0 1 30 20 10 30] 25 [])) = Some [].
Proof.
  pose proof (create_chunks_only_first_chunk_can_be_empty
                [request2 0 1 30 20 10 30] 25 []) as [_ [Later First]].
  split; [reflexivity|]. split; [exact Later|].
  apply First. exists (request2 0 1 30 20 10 30), [].
  split; [reflexivity | simpl; lia].
Defined.

(** X8.  No request waits a whole window for its first turn: what
    [create_chunks] puts in chunk 0 arrives by the end of the first window,
    and what it puts in chunk [i > 0] arrives after [i * time_window] --
    less than one window before [(i + 1) * time_window], the time at which
    [yu2008_algorithm] processes that chunk. *)
Theorem create_chunks_never_delays_a_window :
  forall vnr_queue time_window flags i c v,
    nth_error (fst (create_chunks vnr_queue time_window flags)) i = Some c ->
    In v c ->
    (i = 0 -> (arrival_time v <= time_window)%Z)
    /\ (0 < i ->
        ((Z.of_nat i + 1) * time_window - arrival_time v < time_window)%Z).
Proof.
  intros vnr_queue time_window flags i c v E I.
  assert (Q : early_enough time_window i v).
  { unfold create_chunks in E. simpl in E.
    eapply (@chunk_loop_slots time_window
              (sorted_asc Z.ltb arrival_time vnr_queue) 0%Z [] []);
      [apply sorted_asc_sorted | reflexivity | simpl; lia | constructor
      | | exact E | exact I].
    intros j c' v' N. destruct j; discriminate. }
  destruct Q as [Q0 Q1]. split; [exact Q0|].
  intros P. specialize (Q1 P). lia.
Qed.

Lemma create_chunks_never_delays_a_window_witness :
  nth_error (fst (create_chunks sparse_queue 25 [])) 1
  = Some [request2 1 2 100 20 10 30]
  /\ In (request2 1 2 100 20 10 30) [request2 1 2 100 20 10 30]
  /\ (1 = 0 -> (arrival_time (request2 1 2 100 20 10 30) <= 25)%Z)
  /\ (0 < 1 ->
      ((Z.of_nat 1 + 1) * 25 - arrival_time (request2 1 2 100 20 10 30)
       < 25)%Z).
Proof.
  assert (E : nth_error (fst (create_chunks sparse_queue 25 [])) 1
              = Some [request2 1 2 100 20 10 30]) by reflexivity.
  assert (I : In (request2 1 2 100 20 10 30) [request2 1 2 100 20 10 30])
    by (left; reflexivity).
  split; [exact E|]. split; [exact I|].
  exact (@create_chunks_never_delays_a_window _ _ _ _ _ _ E I).
Defined.

(** ** What allocation and deallocation do to the substrate *)

Lemma zsum_from (l : list Z) : forall a, fold_left Z.add l a = (a + zsum l)%Z.
Proof.
  unfold zsum. induction l as [|x l IH]; intros a; simpl; [lia|].
  rewrite (IH (a + x)%Z), (IH x). lia.
Qed.

Lemma zsum_cons (x : Z) (l : list Z) : zsum (x :: l) = (x + zsum l)%Z.
Proof. unfold zsum at 1. simpl. apply zsum_from. Qed.

Lemma cpu_demand_cons vnr v s r items n :
  get_cpu_req vnr v = Some r ->
  cpu_demand vnr ((v, s) :: items) n
  = ((if Nat.eqb s n then r else 0) + cpu_demand vnr items n)%Z.
Proof.
  intros R. unfold cpu_demand. simpl map. rewrite zsum_cons. simpl.
  rewrite R. reflexivity.
Qed.

Lemma bw_demand_cons vnr v_edge s_path bw items e :
  get_bandwidth_req vnr v_edge = Some bw ->
  bw_demand vnr ((v_edge, s_path) :: items) e
  = (bw * hops_on e s_path + bw_demand vnr items e)%Z.
Proof.
  intros R. unfold bw_demand. simpl map. rewrite zsum_cons. simpl.
  rewrite R. reflexivity.
Qed.

Lemma option_map_shift (o : option Z) (a b : Z) :
  option_map (fun c => c + b)%Z (option_map (fun c => c + a)%Z o)
  = option_map (fun c => c + (a + b))%Z o.
Proof. destruct o; simpl; [f_equal; lia | reflexivity]. Qed.

Lemma option_map_zero (o : option Z) :
  option_map (fun c => c + 0)%Z o = o.
Proof. destruct o; simpl; [f_equal; lia | reflexivity]. Qed.

Lemma get_cpu_available_sub g n r g' k :
  cpu_available_sub g n r = Some g' ->
  get_cpu_available g' k
  = option_map (fun c => c + (if Nat.eqb n k then - r else 0))%Z
               (get_cpu_available g k)
  /\ forall e, get_bandwidth_available g' e = get_bandwidth_available g e.
Proof.
  unfold cpu_available_sub.
  destruct (get_cpu_available g n); [|discriminate].
  intros E. inversion E; subst. clear E. split; [|reflexivity].
  rewrite get_cpu_available_alter, (Nat.eqb_sym n k).
  destruct (Nat.eqb k n).
  - destruct (get_cpu_available g k); simpl; [f_equal; lia | reflexivity].
  - symmetry. apply option_map_zero.
Qed.

Lemma get_cpu_available_add g n r g' k :
  cpu_available_add g n r = Some g' ->
  get_cpu_available g' k
  = option_map (fun c => c + (if Nat.eqb n k then r else 0))%Z
               (get_cpu_available g k)
  /\ forall e, get_bandwidth_available g' e = get_bandwidth_available g e.
Proof.
  unfold cpu_available_add.
  destruct (get_cpu_available g n); [|discriminate].
  intros E. inversion E; subst. clear E. split; [|reflexivity].
  rewrite get_cpu_available_alter, (Nat.eqb_sym n k).
  destruct (Nat.eqb k n); [reflexivity|].
  symmetry. apply option_map_zero.
Qed.

Lemma get_bandwidth_available_sub g e r g' h :
  bandwidth_available_sub g e r = Some g' ->
  get_bandwidth_available g' h
  = option_map (fun c => c + (if same_edge h e then - r else 0))%Z
               (get_bandwidth_available g h)
  /\ forall n, get_cpu_available g' n = get_cpu_available g n.
Proof.
  unfold bandwidth_available_sub.
  destruct (get_bandwidth_available g e); [|discriminate].
  intros E. inversion E; subst. clear E. split; [|reflexivity].
  rewrite get_bandwidth_available_alter.
  destruct (same_edge h e).
  - destruct (get_bandwidth_available g h); simpl; [f_equal; lia|reflexivity].
  - symmetry. apply option_map_zero.
Qed.

Lemma get_bandwidth_available_add g e r g' h :
  bandwidth_available_add g e r = Some g' ->
  get_bandwidth_available g' h
  = option_map (fun c => c + (if same_edge h e then r else 0))%Z
               (get_bandwidth_available g h)
  /\ forall n, get_cpu_available g' n = get_cpu_available g n.
Proof.
  unfold bandwidth_available_add.
  destruct (get_bandwidth_available g e); [|discriminate].
  intros E. inversion E; subst. clear E. split; [|reflexivity].
  rewrite get_bandwidth_available_alter.
  destruct (same_edge h e); [reflexivity|].
  symmetry. apply option_map_zero.
Qed.

Lemma allocate_cpu_amount vnr items : forall g g',
    allocate_cpu g vnr items = Some g' ->
    (forall n, get_cpu_available g' n
               = option_map (fun c => c + - cpu_demand vnr items n)%Z
                            (get_cpu_available g n))
    /\ forall e, get_bandwidth_available g' e = get_bandwidth_available g e.
Proof.
  induction items as [|[v s] items IH]; intros g g'; simpl.
  - intros E. inversion E; subst. split; [|reflexivity].
    intros n. symmetry. apply option_map_zero.
  - destruct (get_cpu_req vnr v) as [r|] eqn:R; [|discriminate].
    destruct (cpu_available_sub g s r) as [g1|] eqn:D; [|discriminate].
    intros E. destruct (IH _ _ E) as [C B]. split.
    + intros n. rewrite C.
      rewrite (proj1 (get_cpu_available_sub _ _ _ n D)), option_map_shift.
      rewrite (cpu_demand_cons _ _ _ _ n R).
      destruct (get_cpu_available g n); simpl; [|reflexivity].
      first [reflexivity | f_equal; destruct (Nat.eqb s n); lia].
    + intros e. rewrite B.
      apply (proj2 (get_cpu_available_sub _ _ _ 0 D)).
Qed.

Lemma deallocate_cpu_amount vnr items : forall g g',
    deallocate_cpu g vnr items = Some g' ->
    (forall n, get_cpu_available g' n
               = option_map (fun c => c + cpu_demand vnr items n)%Z
                            (get_cpu_available g n))
    /\ forall e, get_bandwidth_available g' e = get_bandwidth_available g e.
Proof.
  induction items as [|[v s] items IH]; intros g g'; simpl.
  - intros E. inversion E; subst. split; [|reflexivity].
    intros n. symmetry. apply option_map_zero.
  - destruct (get_cpu_req vnr v) as [r|] eqn:R; [|discriminate].
    destruct (cpu_available_add g s r) as [g1|] eqn:D; [|discriminate].
    intros E. destruct (IH _ _ E) as [C B]. split.
    + intros n. rewrite C.
      rewrite (proj1 (get_cpu_available_add _ _ _ n D)), option_map_shift.
      rewrite (cpu_demand_cons _ _ _ _ n R).
      destruct (get_cpu_available g n); simpl; [|reflexivity].
      first [reflexivity | f_equal; destruct (Nat.eqb s n); lia].
    + intros e. rewrite B.
      apply (proj2 (get_cpu_available_add _ _ _ 0 D)).
Qed.

Lemma allocate_path_amount bw p : forall g g',
    allocate_path g bw p = Some g' ->
    (forall e, get_bandwidth_available g' e
               = option_map (fun c => c + - (bw * hops_on e p))%Z
                            (get_bandwidth_available g e))
    /\ forall n, get_cpu_available g' n = get_cpu_available g n.
Proof.
  induction p as [|a p IH]; intros g g'.
  - intros E. inversion E; subst. split; [|reflexivity].
    intros e. simpl. replace (- (bw * 0))%Z with 0%Z by lia.
    symmetry. apply option_map_zero.
  - destruct p as [|b p].
    + intros E. inversion E; subst. split; [|reflexivity].
      intros e. simpl. replace (- (bw * 0))%Z with 0%Z by lia.
      symmetry. apply option_map_zero.
    + change (allocate_path g bw (a :: b :: p))
        with (s' <- bandwidth_available_sub g (a, b) bw ;;
              allocate_path s' bw (b :: p)).
      destruct (bandwidth_available_sub g (a, b) bw) as [g1|] eqn:D;
        [|discriminate].
      intros E. destruct (IH _ _ E) as [B C]. split.
      * intros e. rewrite B.
        rewrite (proj1 (get_bandwidth_available_sub _ _ _ e D)),
          option_map_shift.
        change (hops_on e (a :: b :: p))
          with ((if same_edge e (a, b) then 1 else 0) + hops_on e (b :: p))%Z.
        destruct (get_bandwidth_available g e); simpl; [|reflexivity].
        first [reflexivity | f_equal; destruct (same_edge e (a, b)); lia].
      * intros n. rewrite C.
        apply (proj2 (get_bandwidth_available_sub _ _ _ (0, 0) D)).
Qed.

Lemma deallocate_path_amount bw p : forall g g',
    deallocate_path g bw p = Some g' ->
    (forall e, get_bandwidth_available g' e
               = option_map (fun c => c + bw * hops_on e p)%Z
                            (get_bandwidth_available g e))
    /\ forall n, get_cpu_available g' n = get_cpu_available g n.
Proof.
  induction p as [|a p IH]; intros g g'.
  - intros E. inversion E; subst. split; [|reflexivity].
    intros e. simpl. replace (bw * 0)%Z with 0%Z by lia.
    symmetry. apply option_map_zero.
  - destruct p as [|b p].
    + intros E. inversion E; subst. split; [|reflexivity].
      intros e. simpl. replace (bw * 0)%Z with 0%Z by lia.
      symmetry. apply option_map_zero.
    + change (deallocate_path g bw (a :: b :: p))
        with (s' <- bandwidth_available_add g (a, b) bw ;;
              deallocate_path s' bw (b :: p)).
      destruct (bandwidth_available_add g (a, b) bw) as [g1|] eqn:D;
        [|discriminate].
      intros E. destruct (IH _ _ E) as [B C]. split.
      * intros e. rewrite B.
        rewrite (proj1 (get_bandwidth_available_add _ _ _ e D)),
          option_map_shift.
        change (hops_on e (a :: b :: p))
          with ((if same_edge e (a, b) then 1 else 0) + hops_on e (b :: p))%Z.
        destruct (get_bandwidth_available g e); simpl; [|reflexivity].
        first [reflexivity | f_equal; destruct (same_edge e (a, b)); lia].
      * intros n. rewrite C.
        apply (proj2 (get_bandwidth_available_add _ _ _ (0, 0) D)).
Qed.

Lemma allocate_bw_amount vnr items : forall g g',
    allocate_bw g vnr items = Some g' ->
    (forall e, get_bandwidth_available g' e
               = option_map (fun c => c + - bw_demand vnr items e)%Z
                            (get_bandwidth_available g e))
    /\ forall n, get_cpu_available g' n = get_cpu_available g n.
Proof.
  induction items as [|[v p] items IH]; intros g g'; simpl.
  - intros E. inversion E; subst. split; [|reflexivity].
    intros e. symmetry. apply option_map_zero.
  - destruct (get_bandwidth_req vnr v) as [bw|] eqn:R; [|discriminate].
    destruct (allocate_path g bw p) as [g1|] eqn:D; [|discriminate].
    intros E. destruct (IH _ _ E) as [B C].
    destruct (allocate_path_amount _ _ _ D) as [B1 C1]. split.
    + intros e. rewrite B, B1, option_map_shift.
      rewrite (bw_demand_cons _ _ _ _ e R).
      destruct (get_bandwidth_available g e); simpl; [|reflexivity].
      first [reflexivity | f_equal; lia].
    + intros n. rewrite C. apply C1.
Qed.

Lemma deallocate_bw_amount vnr items : forall g g',
    deallocate_bw g vnr items = Some g' ->
    (forall e, get_bandwidth_available g' e
               = option_map (fun c => c + bw_demand vnr items e)%Z
                            (get_bandwidth_available g e))
    /\ forall n, get_cpu_available g' n = get_cpu_available g n.
Proof.
  induction items as [|[v p] items IH]; intros g g'; simpl.
  - intros E. inversion E; subst. split; [|reflexivity].
    intros e. symmetry. apply option_map_zero.
  - destruct (get_bandwidth_req vnr v) as [bw|] eqn:R; [|discriminate].
    destruct (deallocate_path g bw p) as [g1|] eqn:D; [|discriminate].
    intros E. destruct (IH _ _ E) as [B C].
    destruct (deallocate_path_amount _ _ _ D) as [B1 C1]. split.
    + intros e. rewrite B, B1, option_map_shift.
      rewrite (bw_demand_cons _ _ _ _ e R).
      destruct (get_bandwidth_available g e); simpl; [|reflexivity].
      first [reflexivity | f_equal; lia].
    + intros n. rewrite C. apply C1.
Qed.

Lemma allocate_resources_amount g nm lm vnr g' :
  allocate_resources g nm lm vnr = Some g' ->
  (forall n, get_cpu_available g' n
             = option_map (fun c => c + - cpu_demand vnr nm n)%Z
                          (get_cpu_available g n))
  /\ (forall e, get_bandwidth_available g' e
                = option_map (fun b => b + - bw_demand vnr lm e)%Z
                             (get_bandwidth_available g e)).
Proof.
  unfold allocate_resources.
  destruct (allocate_cpu g vnr nm) as [g1|] eqn:A; [|discriminate].
  intros B.
  destruct (allocate_cpu_amount _ _ _ A) as [C1 B1].
  destruct (allocate_bw_amount _ _ _ B) as [B2 C2].
  split.
  - intros n. rewrite C2. apply C1.
  - intros e. rewrite B2, B1. reflexivity.
Qed.

(** X9.  What [allocate_resources] and [deallocate_resources] do, when they
    return: on every substrate node the available CPU goes down (up) by
    exactly the CPU the node mapping places there, on every link the
    available bandwidth by exactly the requirement of each virtual link
    once per hop of its path over that link; a node or link the mappings
    do not touch keeps its value, and an absent attribute stays absent. *)
Theorem allocation_moves_exactly_the_demand :
  forall substrate node_mapping link_mapping vnr g',
    (allocate_resources substrate node_mapping link_mapping vnr = Some g' ->
     (forall n, get_cpu_available g' n
                = option_map (fun c => c - cpu_demand vnr node_mapping n)%Z
                             (get_cpu_available substrate n))
     /\ (forall e, get_bandwidth_available g' e
                   = option_map (fun b => b - bw_demand vnr link_mapping e)%Z
                                (get_bandwidth_available substrate e)))
    /\ (deallocate_resources substrate node_mapping link_mapping vnr = Some g' ->
        (forall n, get_cpu_available g' n
                   = option_map (fun c => c + cpu_demand vnr node_mapping n)%Z
                                (get_cpu_available substrate n))
        /\ (forall e, get_bandwidth_available g' e
                      = option_map
                          (fun b => b + bw_demand vnr link_mapping e)%Z
                          (get_bandwidth_available substrate e))).
Proof.
  intros g nm lm vnr g'. split.
  - intros A. destruct (allocate_resources_amount _ _ _ _ A) as [C B].
    split.
    + intros n. rewrite C. destruct (get_cpu_available g n); reflexivity.
    + intros e. rewrite B.
      destruct (get_bandwidth_available g e); reflexivity.
  - unfold deallocate_resources.
    destruct (deallocate_cpu g vnr nm) as [g1|] eqn:A; [|discriminate].
    intros B.
    destruct (deallocate_cpu_amount _ _ _ A) as [C1 B1].
    destruct (deallocate_bw_amount _ _ _ B) as [B2 C2].
    split.
    + intros n. rewrite C2. apply C1.
    + intros e. rewrite B2, B1. reflexivity.
Qed.

Lemma allocation_moves_exactly_the_demand_witness :
  exists g',
    allocate_resources line3_reset [(0, 0); (1, 2); (2, 1)]
                       [((0, 1), [0; 1; 2]); ((1, 2), [2; 1])]
                       (vnr_graph request3) = Some g'
    /\ bw_demand (vnr_graph request3)
                 [((0, 1), [0; 1; 2]); ((1, 2), [2; 1])] (1, 2) = 60%Z
    /\ get_bandwidth_available g' (1, 2) = Some (-10)%Z.
Proof.
  assert (A : exists g',
             allocate_resources line3_reset [(0, 0); (1, 2); (2, 1)]
                                [((0, 1), [0; 1; 2]); ((1, 2), [2; 1])]
                                (vnr_graph request3) = Some g')
    by (vm_compute; eexists; reflexivity).
  destruct A as [g' A]. exists g'. split; [exact A|].
  split; [reflexivity|].
  rewrite (proj2 (proj1 (@allocation_moves_exactly_the_demand
                           _ _ _ _ _) A) (1, 2)).
  reflexivity.
Defined.

(** ** What a successful greedy embedding guarantees *)

Lemma dict_set_keys_iff {K V} `{Key K} (d : dict K V) k v x :
  In x (dict_keys (dict_set d k v)) <-> x = k \/ In x (dict_keys d).
Proof.
  split; [apply dict_set_keys|].
  induction d as [|[k0 v0] d IH]; simpl.
  - intuition.
  - destruct (keyb k0 k) eqn:E; simpl.
    + apply keyb_eq in E. subst. intuition.
    + intuition.
Qed.

Lemma dict_In_get {K V} `{Key K} (d : dict K V) k v :
  NoDup (dict_keys d) -> In (k, v) d -> dict_get d k = Some v.
Proof.
  induction d as [|[k0 v0] d IH]; simpl; [contradiction|].
  intros N I. inversion N as [|? ? N1 N2]; subst.
  destruct I as [E|I].
  - inversion E; subst. rewrite keyb_refl. reflexivity.
  - destruct (keyb k0 k) eqn:E; [|auto].
    apply keyb_eq in E. subst. exfalso. apply N1.
    apply in_map_iff. exists (k, v). auto.
Qed.

Lemma greedy_pick_spec substrate nm r cands s :
  greedy_pick substrate nm r cands = Some (Some s) ->
  In s cands
  /\ exists c, get_cpu_available substrate s = Some c /\ (r <= c)%Z.
Proof.
  induction cands as [|x cands IH]; simpl; [discriminate|].
  destruct (mem x (dict_values nm)); [intros E; destruct (IH E); auto|].
  destruct (get_cpu_available substrate x) as [c|] eqn:C; [|discriminate].
  destruct (c >=? r)%Z eqn:T.
  - intros E. inversion E; subst. split; [auto|].
    exists c. split; [exact C|]. apply Z.geb_le in T. exact T.
  - intros E. destruct (IH E). auto.
Qed.

Lemma greedy_node_mapping_spec substrate vnr sn v_nodes : forall nm0 nm,
    greedy_node_mapping substrate vnr sn v_nodes nm0 = Some (Some nm) ->
    (NoDup (dict_keys nm0) -> NoDup (dict_keys nm))
    /\ (forall v, In v (dict_keys nm) <-> In v (dict_keys nm0) \/ In v v_nodes)
    /\ (forall v s,
           dict_get nm v = Some s ->
           dict_get nm0 v = Some s
           \/ (In s sn
               /\ exists c r, get_cpu_req vnr v = Some r
                              /\ get_cpu_available substrate s = Some c
                              /\ (r <= c)%Z)).
Proof.
  induction v_nodes as [|x v_nodes IH]; intros nm0 nm; simpl.
  - intros E. inversion E; subst. split; [auto|]. split; [intuition|auto].
  - destruct (get_cpu_req vnr x) as [r|] eqn:R; [|discriminate].
    destruct (greedy_pick substrate nm0 r sn) as [[s|]|] eqn:P;
      try discriminate.
    intros E. destruct (IH _ _ E) as [N [Keys Vals]].
    destruct (greedy_pick_spec _ _ _ _ P) as [Is [c [C L]]].
    split; [|split].
    + intros N0. apply N. apply dict_set_keys_NoDup. exact N0.
    + intros v. rewrite Keys, dict_set_keys_iff. intuition.
    + intros v t G. destruct (Vals _ _ G) as [G0|Q]; [|auto].
      rewrite dict_get_set in G0. destruct (keyb x v) eqn:Kx; [|auto].
      apply keyb_eq in Kx. subst v. inversion G0; subst t.
      right. split; [exact Is|]. exists c, r. auto.
Qed.

Lemma path_can_allocate_spec substrate bw p :
  path_can_allocate substrate bw p = Some true ->
  Forall (fun h => exists c, get_bandwidth_available substrate h = Some c
                             /\ (bw <= c)%Z)
         (path_edges p).
Proof.
  induction p as [|a p IH]; [constructor|].
  destruct p as [|b p]; [constructor|].
  change (path_can_allocate substrate bw (a :: b :: p))
    with (c <- get_bandwidth_available substrate (a, b) ;;
          if (c <? bw)%Z then Some false
          else path_can_allocate substrate bw (b :: p)).
  change (path_edges (a :: b :: p)) with ((a, b) :: path_edges (b :: p)).
  destruct (get_bandwidth_available substrate (a, b)) as [c|] eqn:C;
    [|discriminate].
  destruct (c <? bw)%Z eqn:T; [discriminate|].
  intros E. constructor; [|auto].
  exists c. split; [exact C|]. apply Z.ltb_ge in T. exact T.
Qed.

Lemma greedy_link_mapping_spec `{Networkx} substrate vnr nm v_edges :
  forall lm0 lm,
    greedy_link_mapping substrate vnr nm v_edges lm0 = Some (Some lm) ->
    (forall e, In e (dict_keys lm) <-> In e (dict_keys lm0) \/ In e v_edges)
    /\ (forall e p,
           dict_get lm e = Some p ->
           dict_get lm0 e = Some p
           \/ exists s d bw,
               dict_get nm (fst e) = Some s /\ dict_get nm (snd e) = Some d
               /\ shortest_path substrate s d = Some p
               /\ get_bandwidth_req vnr e = Some bw
               /\ path_can_allocate substrate bw p = Some true).
Proof.
  induction v_edges as [|x v_edges IH]; intros lm0 lm; simpl.
  - intros E. inversion E; subst. split; [intuition | auto].
  - destruct (dict_get nm (fst x)) as [s|] eqn:S1; [|discriminate].
    destruct (dict_get nm (snd x)) as [d|] eqn:S2; [|discriminate].
    destruct (get_bandwidth_req vnr x) as [bw|] eqn:R; [|discriminate].
    destruct (shortest_path substrate s d) as [path|] eqn:P;
      [|discriminate].
    destruct (path_can_allocate substrate bw path) as [[|]|] eqn:C;
      try discriminate.
    intros E. destruct (IH _ _ E) as [Keys Vals]. split.
    + intros e. rewrite Keys, dict_set_keys_iff. intuition.
    + intros e p G. destruct (Vals _ _ G) as [G0|Q]; [|auto].
      rewrite dict_get_set in G0. destruct (keyb x e) eqn:Kx; [|auto].
      apply keyb_eq in Kx. subst e. inversion G0; subst p.
      right. exists s, d, bw. auto.
Qed.

(** X10.  A successful greedy embedding maps every virtual node and every
    virtual link, and nothing else; each virtual node sits on a substrate
    node whose available CPU covers its requirement, and each virtual link
    on the path [nx.shortest_path] returned between the images of its ends,
    every hop of which has -- taken alone -- the bandwidth the link
    requires. *)
Theorem greedy_embedding_is_complete_and_feasible :
  forall (paths : Networkx) substrate vnr nm lm,
    simple_greedy_algorithm substrate vnr = Some (Some nm, Some lm, true) ->
    (forall v, In v (dict_keys nm) <-> In v (node_list vnr))
    /\ (forall v s,
           dict_get nm v = Some s ->
           In s (node_list substrate)
           /\ exists c r, get_cpu_req vnr v = Some r
                          /\ get_cpu_available substrate s = Some c
                          /\ (r <= c)%Z)
    /\ (forall e, In e (dict_keys lm) <-> In e (edge_list vnr))
    /\ (forall e p,
           dict_get lm e = Some p ->
           exists s d bw,
             dict_get nm (fst e) = Some s /\ dict_get nm (snd e) = Some d
             /\ shortest_path substrate s d = Some p
             /\ get_bandwidth_req vnr e = Some bw
             /\ Forall (fun h =>
                          exists c, get_bandwidth_available substrate h = Some c
                                    /\ (bw <= c)%Z)
                       (path_edges p)).
Proof.
  intros paths substrate vnr nm lm. unfold simple_greedy_algorithm.
  destruct (sorted_desc_by _ _) as [sn|] eqn:Sn; [|discriminate].
  destruct (greedy_node_mapping _ _ _ _ _) as [[m|]|] eqn:G;
    try discriminate.
  destruct (greedy_link_mapping _ _ _ _ _) as [[l|]|] eqn:L;
    try discriminate.
  intros E. inversion E; subst. clear E.
  destruct (greedy_node_mapping_spec _ _ _ _ _ G) as [_ [Keys Vals]].
  destruct (greedy_link_mapping_spec _ _ _ _ _ L) as [LKeys LVals].
  apply sorted_desc_by_Permutation in Sn.
  split; [|split; [|split]].
  - intros v. rewrite Keys. simpl. intuition.
  - intros v s Gv. destruct (Vals _ _ Gv) as [G0|[Is Q]]; [discriminate|].
    split; [|exact Q]. eapply Permutation_in; [exact Sn | exact Is].
  - intros e. rewrite LKeys. simpl. intuition.
  - intros e p Ge. destruct (LVals _ _ Ge) as [G0|Q]; [discriminate|].
    destruct Q as [s [d [bw [S1 [S2 [P [R C]]]]]]].
    exists s, d, bw. repeat (split; [assumption|]).
    apply path_can_allocate_spec. exact C.
Qed.

Lemma greedy_embedding_is_complete_and_feasible_witness :
  @simple_greedy_algorithm reference_paths line3_reset (vnr_graph request3)
  = Some (Some [(0, 0); (1, 2); (2, 1)],
          Some [((0, 1), [0; 1; 2]); ((1, 2), [2; 1])], true)
  /\ (forall v, In v (dict_keys [(0, 0); (1, 2); (2, 1)])
                <-> In v (node_list (vnr_graph request3)))
  /\ (forall e p,
         dict_get [((0, 1), [0; 1; 2]); ((1, 2), [2; 1])] e = Some p ->
         exists s d bw,
           dict_get [(0, 0); (1, 2); (2, 1)] (fst e) = Some s
           /\ dict_get [(0, 0); (1, 2); (2, 1)] (snd e) = Some d
           /\ @shortest_path reference_paths line3_reset s d = Some p
           /\ get_bandwidth_req (vnr_graph request3) e = Some bw
           /\ Forall (fun h =>
                        exists c,
                          get_bandwidth_available line3_reset h = Some c
                          /\ (bw <= c)%Z)
                     (path_edges p)).
Proof.
  assert (E : @simple_greedy_algorithm reference_paths line3_reset
                                       (vnr_graph request3)
              = Some (Some [(0, 0); (1, 2); (2, 1)],
                      Some [((0, 1), [0; 1; 2]); ((1, 2), [2; 1])], true))
    by (vm_compute; reflexivity).
  split; [exact E|].
  destruct (@greedy_embedding_is_complete_and_feasible
              reference_paths _ _ _ _ E) as [K [_ [_ L]]].
  split; [exact K | exact L].
Defined.

Lemma cpu_demand_absent vnr nm n :
  ~ In n (dict_values nm) -> cpu_demand vnr nm n = 0%Z.
Proof.
  unfold cpu_demand. intros N. apply zsum_zero. apply Forall_map.
  apply Forall_forall. intros [v s] I. simpl.
  destruct (Nat.eqb s n) eqn:E; [|reflexivity].
  apply Nat.eqb_eq in E. subst. exfalso. apply N.
  apply in_map_iff. exists (v, n). auto.
Qed.

Lemma cpu_demand_unique vnr (nm : NodeMapping) v n r :
  NoDup (dict_values nm) -> In (v, n) nm -> get_cpu_req vnr v = Some r ->
  cpu_demand vnr nm n = r.
Proof.
  induction nm as [|[v0 s0] nm IH]; simpl; [contradiction|].
  intros N I R. inversion N as [|? ? N1 N2]; subst.
  destruct I as [E|I].
  - inversion E; subst. rewrite (cpu_demand_cons _ _ _ _ _ R).
    rewrite Nat.eqb_refl, (@cpu_demand_absent vnr nm n N1). lia.
  - unfold cpu_demand in *. simpl map. rewrite zsum_cons. simpl.
    destruct (Nat.eqb s0 n) eqn:E.
    + apply Nat.eqb_eq in E. subst. exfalso. apply N1.
      apply in_map_iff. exists (v, n). auto.
    + rewrite (IH N2 I R). lia.
Qed.

(** X11.  The greedy strategy never overdraws a node: when the simulator
    allocates a successful greedy embedding, every substrate node either
    keeps its available CPU or loses exactly the requirement of the one
    virtual node placed on it, and no available CPU that was non-negative
    becomes negative.  (Links have no such guarantee.) *)
Theorem greedy_allocation_keeps_cpu_nonnegative :
  forall (paths : Networkx) substrate vnr nm lm g',
    simple_greedy_algorithm substrate vnr = Some (Some nm, Some lm, true) ->
    allocate_resources substrate nm lm vnr = Some g' ->
    forall n c,
      get_cpu_available substrate n = Some c ->
      exists c',
        get_cpu_available g' n = Some c'
        /\ (c' = c
            \/ exists v r, dict_get nm v = Some n
                           /\ get_cpu_req vnr v = Some r /\ c' = (c - r)%Z)
        /\ ((0 <= c)%Z -> (0 <= c')%Z).
Proof.
  intros paths substrate vnr nm lm g' S A n c C.
  destruct (allocate_resources_amount _ _ _ _ A) as [Cpu _].
  specialize (Cpu n). rewrite C in Cpu. simpl in Cpu.
  assert (Nv : NoDup (dict_values nm) /\ NoDup (dict_keys nm)
               /\ forall v s, dict_get nm v = Some s ->
                   exists c r, get_cpu_req vnr v = Some r
                               /\ get_cpu_available substrate s = Some c
                               /\ (r <= c)%Z).
  { revert S. unfold simple_greedy_algorithm.
    destruct (sorted_desc_by _ _) as [sn|]; [|discriminate].
    destruct (greedy_node_mapping _ _ _ _ _) as [[m|]|] eqn:G;
      try discriminate.
    destruct (greedy_link_mapping _ _ _ _ _) as [[l|]|]; try discriminate.
    intros E. inversion E; subst. clear E.
    destruct (greedy_node_mapping_spec _ _ _ _ _ G) as [N [_ Vals]].
    split; [eapply greedy_node_mapping_NoDup; [|exact G]; constructor|].
    split; [apply N; constructor|].
    intros v s Gv. destruct (Vals _ _ Gv) as [G0|[_ Q]];
      [discriminate | exact Q]. }
  destruct Nv as [Nv [Nk Vals]].
  destruct (in_dec Nat.eq_dec n (dict_values nm)) as [I|I].
  - apply in_map_iff in I. destruct I as [[v s] [Es I]]. simpl in Es.
    subst s. pose proof (@dict_In_get _ _ _ _ _ _ Nk I) as Gv.
    destruct (Vals _ _ Gv) as [c0 [r [R [C0 L]]]].
    rewrite C in C0. inversion C0; subst c0.
    rewrite (@cpu_demand_unique vnr nm v n r Nv I R) in Cpu.
    exists (c - r)%Z. split; [rewrite Cpu; f_equal; lia|].
    split; [right; exists v, r; auto | intros; lia].
  - rewrite (@cpu_demand_absent vnr nm n I) in Cpu.
    exists c. split; [rewrite Cpu; f_equal; lia|]. auto.
Qed.

Lemma greedy_allocation_keeps_cpu_nonnegative_witness :
  exists g',
    @simple_greedy_algorithm reference_paths line3_reset (vnr_graph request3)
    = Some (Some [(0, 0); (1, 2); (2, 1)],
            Some [((0, 1), [0; 1; 2]); ((1, 2), [2; 1])], true)
    /\ allocate_resources line3_reset [(0, 0); (1, 2); (2, 1)]
                          [((0, 1), [0; 1; 2]); ((1, 2), [2; 1])]
                          (vnr_graph request3) = Some g'
    /\ get_cpu_available line3_reset 1 = Some 50%Z
    /\ exists c', get_cpu_available g' 1 = Some c' /\ (0 <= c')%Z.
Proof.
  assert (S : @simple_greedy_algorithm reference_paths line3_reset
                                       (vnr_graph request3)
              = Some (Some [(0, 0); (1, 2); (2, 1)],
                      Some [((0, 1), [0; 1; 2]); ((1, 2), [2; 1])], true))
    by (vm_compute; reflexivity).
  assert (A : exists g',
             allocate_resources line3_reset [(0, 0); (1, 2); (2, 1)]
                                [((0, 1), [0; 1; 2]); ((1, 2), [2; 1])]
                                (vnr_graph request3) = Some g')
    by (vm_compute; eexists; reflexivity).
  destruct A as [g' A]. exists g'.
  split; [exact S|]. split; [exact A|]. split; [reflexivity|].
  destruct (@greedy_allocation_keeps_cpu_nonnegative
              reference_paths _ _ _ _ _ S A 1 50%Z eq_refl)
    as [c' [G [_ P]]].
  exists c'. split; [exact G | apply P; lia].
Defined.

(** ** What a max-match embedding guarantees *)

Lemma maxmatch_pick_spec substrate nm r cands s :
  maxmatch_pick substrate nm r cands = Some s ->
  In s cands /\ (r <= cpu_available_or0 substrate s)%Z.
Proof.
  induction cands as [|x cands IH]; simpl; [discriminate|].
  destruct (mem x (dict_values nm)); [intros E; destruct (IH E); auto|].
  destruct (cpu_available_or0 substrate x >=? r)%Z eqn:T.
  - intros E. inversion E; subst. split; [auto|].
    apply Z.geb_le in T. exact T.
  - intros E. destruct (IH E). auto.
Qed.

Lemma maxmatch_nodes_spec substrate vnr sn v_nodes : forall nm0 nm,
    maxmatch_nodes substrate vnr sn v_nodes nm0 = Some nm ->
    (forall v, In v (dict_keys nm) <-> In v (dict_keys nm0) \/ In v v_nodes)
    /\ (forall v s,
           dict_get nm v = Some s ->
           dict_get nm0 v = Some s
           \/ (In s sn
               /\ (cpu_req_or0 vnr v <= cpu_available_or0 substrate s)%Z)).
Proof.
  induction v_nodes as [|x v_nodes IH]; intros nm0 nm; simpl.
  - intros E. inversion E; subst. split; [intuition | auto].
  - destruct (maxmatch_pick substrate nm0 (cpu_req_or0 vnr x) sn) as [s|] eqn:P;
      [|discriminate].
    intros E. destruct (IH _ _ E) as [Keys Vals].
    destruct (maxmatch_pick_spec _ _ _ _ P) as [Is L].
    split.
    + intros v. rewrite Keys, dict_set_keys_iff. intuition.
    + intros v t G. destruct (Vals _ _ G) as [G0|Q]; [|auto].
      rewrite dict_get_set in G0. destruct (keyb x v) eqn:Kx; [|auto].
      apply keyb_eq in Kx. subst v. inversion G0; subst t. auto.
Qed.

Lemma path_feasible_spec substrate bw p :
  path_feasible substrate bw p = Some true ->
  Forall (fun h => exists a, edge_attrs substrate h = Some a
                             /\ (bw <= or0 (bandwidth_available a))%Z)
         (path_edges p).
Proof.
  induction p as [|a p IH]; [constructor|].
  destruct p as [|b p]; [constructor|].
  change (path_feasible substrate bw (a :: b :: p))
    with (attrs <- edge_attrs substrate (a, b) ;;
          if (or0 (bandwidth_available attrs) <? bw)%Z then Some false
          else path_feasible substrate bw (b :: p)).
  change (path_edges (a :: b :: p)) with ((a, b) :: path_edges (b :: p)).
  destruct (edge_attrs substrate (a, b)) as [attrs|] eqn:C; [|discriminate].
  destruct (or0 (bandwidth_available attrs) <? bw)%Z eqn:T; [discriminate|].
  intros E. constructor; [|auto].
  exists attrs. split; [exact C|]. apply Z.ltb_ge in T. exact T.
Qed.

Lemma maxmatch_try_spec `{Networkx} substrate bw s d ks p :
  maxmatch_try substrate bw s d ks = Some (Some p) ->
  exists k, In k ks /\ 0 < k
            /\ nth_error (shortest_simple_paths substrate s d) (k - 1) = Some p
            /\ path_feasible substrate bw p = Some true.
Proof.
  induction ks as [|k ks IH]; simpl; [discriminate|].
  destruct (length (firstn k (shortest_simple_paths substrate s d)) <? k)
           eqn:Len; [discriminate|].
  destruct (nth_error (firstn k (shortest_simple_paths substrate s d)) (k - 1))
    as [path|] eqn:N; [|discriminate].
  destruct (path_feasible substrate bw path) as [[|]|] eqn:F;
    try discriminate.
  - intros E. inversion E; subst. exists k.
    assert (P : 0 < k).
    { destruct k; [|lia]. simpl in N. discriminate. }
    split; [auto|]. split; [exact P|]. split; [|exact F].
    rewrite nth_error_firstn in N.
    destruct (k - 1 <? k) eqn:Q; [exact N | discriminate].
  - intros E. destruct (IH E) as [k' [I Q]]. exists k'. auto.
Qed.

Lemma maxmatch_links_spec `{Networkx} substrate vnr nm v_edges :
  forall lm0 lm,
    maxmatch_links substrate vnr nm v_edges lm0 = Some (Some lm) ->
    (forall e, In e (dict_keys lm) <-> In e (dict_keys lm0) \/ In e v_edges)
    /\ (forall e p,
           dict_get lm e = Some p ->
           dict_get lm0 e = Some p
           \/ exists s d bw k,
               dict_get nm (fst e) = Some s /\ dict_get nm (snd e) = Some d
               /\ bandwidth_req_or0 vnr e = Some bw
               /\ k < 3
               /\ nth_error (shortest_simple_paths substrate s d) k = Some p
               /\ path_feasible substrate bw p = Some true).
Proof.
  induction v_edges as [|x v_edges IH]; intros lm0 lm;
    cbn [maxmatch_links].
  - intros E. inversion E; subst. split; [intros e; simpl; intuition | auto].
  - destruct (dict_get nm (fst x)) as [s|] eqn:S1; [|discriminate].
    destruct (dict_get nm (snd x)) as [d|] eqn:S2; [|discriminate].
    destruct (bandwidth_req_or0 vnr x) as [bw|] eqn:R; [|discriminate].
    destruct (maxmatch_try substrate bw s d [1; 2; 3]) as [[path|]|] eqn:T;
      try discriminate.
    intros E. destruct (IH _ _ E) as [Keys Vals]. split.
    + intros e. rewrite Keys, dict_set_keys_iff. simpl. intuition.
    + intros e p G. destruct (Vals _ _ G) as [G0|Q]; [|auto].
      rewrite dict_get_set in G0. destruct (keyb x e) eqn:Kx; [|auto].
      apply keyb_eq in Kx. subst e. inversion G0; subst p.
      destruct (maxmatch_try_spec _ _ _ _ _ T) as [k [Ik [Pk [Nk F]]]].
      right. exists s, d, bw, (k - 1). repeat (split; [assumption|]).
      split; [|auto]. simpl in Ik. lia.
Qed.

(** X12.  A successful max-match embedding maps every virtual node and
    every virtual link, and nothing else; each virtual node sits on a
    substrate node whose available CPU covers its requirement, and each
    virtual link on one of the three shortest simple paths between the
    images of its ends, every hop of which has -- taken alone -- the
    bandwidth the link requires (absent attributes counting as 0). *)
Theorem maxmatch_embedding_is_complete_and_feasible :
  forall (paths : Networkx) substrate vnr nm lm,
    rw_maxmatch_algorithm substrate vnr = Some (Some nm, Some lm, true) ->
    (forall v, In v (dict_keys nm) <-> In v (node_list vnr))
    /\ (forall v s,
           dict_get nm v = Some s ->
           In s (node_list substrate)
           /\ (cpu_req_or0 vnr v <= cpu_available_or0 substrate s)%Z)
    /\ (forall e, In e (dict_keys lm) <-> In e (edge_list vnr))
    /\ (forall e p,
           dict_get lm e = Some p ->
           exists s d bw k,
             dict_get nm (fst e) = Some s /\ dict_get nm (snd e) = Some d
             /\ bandwidth_req_or0 vnr e = Some bw
             /\ k < 3
             /\ nth_error (shortest_simple_paths substrate s d) k = Some p
             /\ Forall (fun h =>
                          exists a, edge_attrs substrate h = Some a
                                    /\ (bw <= or0 (bandwidth_available a))%Z)
                       (path_edges p)).
Proof.
  intros paths substrate vnr nm lm. unfold rw_maxmatch_algorithm.
  destruct (compute_noderank_default substrate) as [sr|]; [|discriminate].
  destruct (compute_noderank_default vnr) as [vr|]; [|discriminate].
  unfold rw_maxmatch_node_mapping.
  destruct (maxmatch_nodes _ _ _ _ _) as [m|] eqn:G; simpl; [|discriminate].
  unfold rw_maxmatch_link_mapping.
  destruct (maxmatch_links _ _ _ _ _) as [[l|]|] eqn:L; try discriminate.
  intros E. inversion E; subst. clear E.
  destruct (maxmatch_nodes_spec _ _ _ _ _ G) as [Keys Vals].
  destruct (maxmatch_links_spec _ _ _ _ _ L) as [LKeys LVals].
  split; [|split; [|split]].
  - intros v. rewrite Keys. simpl. unfold by_rank_desc.
    split.
    + intros [[]|I]. eapply Permutation_in; [|exact I].
      apply sorted_desc_Permutation.
    + intros I. right. eapply Permutation_in; [|exact I].
      apply Permutation_sym. apply sorted_desc_Permutation.
  - intros v s Gv. destruct (Vals _ _ Gv) as [G0|[Is Q]]; [discriminate|].
    split; [|exact Q]. eapply Permutation_in; [|exact Is].
    apply sorted_desc_Permutation.
  - intros e. rewrite LKeys. simpl. intuition.
  - intros e p Ge. destruct (LVals _ _ Ge) as [G0|Q]; [discriminate|].
    destruct Q as [s [d [bw [k [S1 [S2 [R [Lk [Nk F]]]]]]]]].
    exists s, d, bw, k. repeat (split; [assumption|]).
    apply path_feasible_spec. exact F.
Qed.

Lemma maxmatch_embedding_is_complete_and_feasible_witness :
  @rw_maxmatch_algorithm reference_paths uneven_pair
                         (vnr_graph (request2 0 1 0 20 10 30))
  = Some (Some [(0, 0); (1, 1)], Some [((0, 1), [0; 1])], true)
  /\ (forall v, In v (dict_keys [(0, 0); (1, 1)])
                <-> In v (node_list (vnr_graph (request2 0 1 0 20 10 30))))
  /\ (forall v s,
         dict_get [(0, 0); (1, 1)] v = Some s ->
         In s (node_list uneven_pair)
         /\ (cpu_req_or0 (vnr_graph (request2 0 1 0 20 10 30)) v
             <= cpu_available_or0 uneven_pair s)%Z).
Proof.
  assert (E : @rw_maxmatch_algorithm reference_paths uneven_pair
                                     (vnr_graph (request2 0 1 0 20 10 30))
              = Some (Some [(0, 0); (1, 1)], Some [((0, 1), [0; 1])], true))
    by (vm_compute; reflexivity).
  split; [exact E|].
  destruct (@maxmatch_embedding_is_complete_and_feasible
              reference_paths _ _ _ _ E) as [K [V _]].
  split; [exact K | exact V].
Defined.

(** ** The event loop: it ends, with one result per request *)

Lemma arrivals_of_app l1 l2 :
  arrivals_of (l1 ++ l2) = arrivals_of l1 ++ arrivals_of l2.
Proof. unfold arrivals_of. apply flat_map_app. Qed.

Lemma insert_asc_map {A B} (f : A -> B) (kb : B -> Z) (x : A) (l : list A) :
  insert_asc Z.ltb kb (f x) (map f l)
  = map f (insert_asc Z.ltb (fun a => kb (f a)) x l).
Proof.
  induction l as [|y l IH]; simpl; [reflexivity|].
  destruct (Z.ltb (kb (f y)) (kb (f x))); simpl; [rewrite IH|]; reflexivity.
Qed.

Lemma sorted_asc_map {A B} (f : A -> B) (kb : B -> Z) (l : list A) :
  sorted_asc Z.ltb kb (map f l)
  = map f (sorted_asc Z.ltb (fun a => kb (f a)) l).
Proof.
  induction l as [|x l IH]; simpl; [reflexivity|].
  rewrite IH. apply insert_asc_map.
Qed.

Lemma arrivals_of_arrivals (l : list VNR) :
  arrivals_of (map (fun v => ARRIVAL (arrival_time v) v) l) = l.
Proof.
  induction l as [|v l IH]; simpl; [reflexivity|]. rewrite IH. reflexivity.
Qed.

Lemma sort_events_arrivals_of (vnr_queue : list VNR) :
  arrivals_of (sort_events (map (fun v => ARRIVAL (arrival_time v) v)
                                vnr_queue))
  = sorted_asc Z.ltb arrival_time vnr_queue.
Proof.
  unfold sort_events. rewrite sorted_asc_map. simpl.
  apply arrivals_of_arrivals.
Qed.

Lemma firstn_nth_error {A} (l : list A) i x :
  nth_error l i = Some x -> firstn (S i) l = firstn i l ++ [x].
Proof.
  revert i. induction l as [|y l IH]; intros [|i] E; simpl in *;
    try discriminate.
  - inversion E. reflexivity.
  - f_equal. apply IH. exact E.
Qed.

Lemma arrivals_of_arrival t v l :
  arrivals_of (ARRIVAL t v :: l) = v :: arrivals_of l.
Proof. reflexivity. Qed.

Lemma arrivals_of_departure t id l :
  arrivals_of (DEPARTURE t id :: l) = arrivals_of l.
Proof. reflexivity. Qed.

Section EventLoop.
Variable algorithm_func : Graph -> Graph -> option Embedding.

Lemma on_arrival_effect t vnr st st' :
  on_arrival algorithm_func t vnr st = Some st' ->
  position st' = position st
  /\ (exists r, results st' = results st ++ [r]
                /\ res_vnr_id r = vnr_id vnr /\ res_arrival_time r = t)
  /\ (events st' = events st
      \/ events st'
         = sort_events (events st
                        ++ [DEPARTURE (t + lifetime vnr) (vnr_id vnr)])).
Proof.
  unfold on_arrival.
  destruct (algorithm_func _ _) as [[[nm lm] success]|]; [|discriminate].
  destruct success.
  - destruct nm as [nm|]; [|discriminate].
    destruct lm as [lm|]; [|discriminate].
    destruct (allocate_resources _ _ _ _); [|discriminate].
    intros E. inversion E. simpl. split; [reflexivity|].
    split; [eexists; split; [reflexivity|]; simpl; auto | auto].
  - intros E. inversion E. simpl. split; [reflexivity|].
    split; [eexists; split; [reflexivity|]; simpl; auto | auto].
Qed.

Lemma on_departure_effect id st st' :
  on_departure id st = Some st' ->
  position st' = position st /\ events st' = events st
  /\ results st' = results st.
Proof.
  unfold on_departure.
  destruct (dict_get _ _) as [[[nm lm] vnr]|].
  - destruct (deallocate_resources _ _ _ _); [|discriminate].
    intros E. inversion E. auto.
  - intros E. inversion E. auto.
Qed.

(** What the loop keeps true when no lifetime is negative: the list is in
    time order, its arrivals are those of the queue, and there is one
    result for each arrival the iterator has passed. *)
Definition loop_inv (arrivals : list VNR) (st : SimState) : Prop :=
  StronglySorted (fun x y => (event_time x <= event_time y)%Z) (events st)
  /\ (forall t v, In (ARRIVAL t v) (events st) ->
                  t = arrival_time v /\ (0 <= lifetime v)%Z)
  /\ arrivals_of (events st) = arrivals
  /\ map (fun r => (res_vnr_id r, res_arrival_time r)) (results st)
     = map (fun v => (vnr_id v, arrival_time v))
           (arrivals_of (firstn (position st) (events st))).

Lemma sim_turn_progress arrivals st e st' :
  sim_turn algorithm_func st = Processed e st' ->
  loop_inv arrivals st ->
  loop_inv arrivals st' /\ sim_measure st' < sim_measure st.
Proof.
  unfold sim_turn, loop_inv, sim_measure. intros T [Srt [A [Arr R]]].
  destruct (nth_error (events st) (position st)) as [e0|] eqn:N;
    [|discriminate].
  pose proof (skipn_nth_error _ _ N) as Sk.
  pose proof (firstn_nth_error _ _ N) as Fi.
  destruct e0 as [t vnr|t id].
  - destruct (on_arrival _ _ _ _) as [st1|] eqn:E; [|discriminate].
    inversion T; subst e st1. clear T.
    apply on_arrival_effect in E. simpl in E.
    destruct E as [Ep [[r [Er [Ei Et]]] Ee]].
    destruct (A t vnr (nth_error_In _ _ N)) as [Ta Life].
    rewrite Ep, Er, map_app. cbn [map]. rewrite Ei, Et.
    destruct Ee as [->| ->].
    + split.
      * split; [exact Srt|]. split; [exact A|]. split; [exact Arr|].
        rewrite Fi, arrivals_of_app, map_app, R. simpl. rewrite Ta.
        reflexivity.
      * rewrite Sk, arrivals_of_arrival. cbn [length]. lia.
    + destruct (sorted_asc_append event_time
                  (DEPARTURE (t + lifetime vnr) (vnr_id vnr)) Srt)
        as [l1 [l2 [El [Es [F1 F2]]]]].
      unfold sort_events. rewrite Es.
      assert (L : S (position st) <= length l1).
      { destruct (Nat.lt_ge_cases (position st) (length l1)) as [L|L];
          [lia|]. exfalso.
        rewrite El, nth_error_app2 in N by exact L.
        apply nth_error_In in N. rewrite Forall_forall in F2.
        specialize (F2 _ N). simpl in F2. lia. }
      assert (F : firstn (S (position st))
                         (l1 ++ DEPARTURE (t + lifetime vnr) (vnr_id vnr) :: l2)
                  = firstn (S (position st)) (events st)).
      { rewrite El, !firstn_app.
        replace (S (position st) - length l1) with 0 by lia.
        reflexivity. }
      assert (K : skipn (S (position st))
                        (l1 ++ DEPARTURE (t + lifetime vnr) (vnr_id vnr) :: l2)
                  = skipn (S (position st)) l1
                    ++ DEPARTURE (t + lifetime vnr) (vnr_id vnr) :: l2
                  /\ skipn (S (position st)) (events st)
                     = skipn (S (position st)) l1 ++ l2).
      { rewrite El, !skipn_app.
        replace (S (position st) - length l1) with 0 by lia. auto. }
      destruct K as [K1 K2]. split.
      * split.
        { rewrite El in Srt. apply StronglySorted_app in Srt.
          destruct Srt as [S1 [S2 C]]. apply StronglySorted_app.
          split; [exact S1|]. split.
          - constructor; [exact S2|].
            eapply Forall_impl; [|exact F2]. simpl. intros; lia.
          - intros x y Hx [<-|Hy]; [|auto].
            rewrite Forall_forall in F1. apply F1. exact Hx. }
        split.
        { intros t0 v0 I. apply (A t0 v0). rewrite El.
          apply in_app_iff. apply in_app_iff in I.
          destruct I as [I|[I|I]]; [auto | discriminate | auto]. }
        split.
        { rewrite <- Arr, El, !arrivals_of_app. reflexivity. }
        rewrite F, Fi, arrivals_of_app, map_app, R. simpl. rewrite Ta.
        reflexivity.
      * rewrite K1, Sk, K2, arrivals_of_arrival, !arrivals_of_app,
          arrivals_of_departure.
        cbn [length]. rewrite !length_app. cbn [length]. lia.
  - destruct (on_departure _ _) as [st1|] eqn:E; [|discriminate].
    inversion T; subst e st1. clear T.
    apply on_departure_effect in E. simpl in E.
    destruct E as [Ep [Ee Er]]. rewrite Ep, Ee, Er. split.
    + split; [exact Srt|]. split; [exact A|]. split; [exact Arr|].
      rewrite Fi, arrivals_of_app. simpl. rewrite app_nil_r. exact R.
    + rewrite Sk, arrivals_of_departure. cbn [length]. lia.
Qed.

Lemma sim_loop_enough arrivals : forall fuel fuel' st,
    loop_inv arrivals st ->
    sim_measure st <= fuel -> sim_measure st <= fuel' ->
    sim_loop algorithm_func fuel st = sim_loop algorithm_func fuel' st.
Proof.
  induction fuel as [|fuel IH]; intros fuel' st I M M'.
  - destruct fuel'; [reflexivity|]. simpl.
    destruct (sim_turn algorithm_func st) as [| |e st'] eqn:T; try reflexivity.
    destruct (sim_turn_progress T I). lia.
  - simpl. destruct (sim_turn algorithm_func st) as [| |e st'] eqn:T.
    + destruct fuel'; simpl; rewrite T; reflexivity.
    + destruct fuel'; simpl; rewrite T; reflexivity.
    + destruct (sim_turn_progress T I) as [I' D].
      destruct fuel' as [|fuel']; [lia|]. simpl. rewrite T.
      apply IH; [exact I'| lia | lia].
Qed.

Lemma sim_loop_results arrivals : forall fuel st rs,
    loop_inv arrivals st ->
    sim_loop algorithm_func fuel st = Some rs ->
    map (fun r => (res_vnr_id r, res_arrival_time r)) rs
    = map (fun v => (vnr_id v, arrival_time v)) arrivals.
Proof.
  induction fuel as [|fuel IH]; intros st rs I; simpl;
    destruct (sim_turn algorithm_func st) as [| |e st'] eqn:T;
    try discriminate.
  - intros E. inversion E; subst. clear E.
    destruct I as [_ [_ [Arr R]]]. rewrite R, <- Arr.
    unfold sim_turn in T.
    destruct (nth_error (events st) (position st)) as [e|] eqn:N.
    + destruct e; [destruct (on_arrival _ _ _ _) | destruct (on_departure _ _)];
        discriminate.
    + apply nth_error_None in N. rewrite firstn_all2 by exact N.
      reflexivity.
  - intros E. inversion E; subst. clear E.
    destruct I as [_ [_ [Arr R]]]. rewrite R, <- Arr.
    unfold sim_turn in T.
    destruct (nth_error (events st) (position st)) as [e|] eqn:N.
    + destruct e; [destruct (on_arrival _ _ _ _) | destruct (on_departure _ _)];
        discriminate.
    + apply nth_error_None in N. rewrite firstn_all2 by exact N.
      reflexivity.
  - apply IH. destruct (sim_turn_progress T I). assumption.
Qed.

Lemma sim_init_inv substrate vnr_queue st0 :
  (forall v, In v vnr_queue -> (0 <= lifetime v)%Z) ->
  sim_init substrate vnr_queue = Some st0 ->
  loop_inv (sorted_asc Z.ltb arrival_time vnr_queue) st0
  /\ sim_measure st0 = 2 * length vnr_queue.
Proof.
  intros Life. unfold sim_init.
  destruct (reset_available substrate); [|discriminate].
  intros E. inversion E; subst. clear E.
  unfold loop_inv, sim_measure. simpl.
  split; [split; [|split; [|split]]|].
  - apply sorted_asc_sorted.
  - intros t v I. apply sorted_asc_In in I. apply in_map_iff in I.
    destruct I as [w [Ew Iw]]. inversion Ew; subst. auto.
  - apply sort_events_arrivals_of.
  - reflexivity.
  - rewrite sort_events_arrivals_of.
    rewrite (Permutation_length (sorted_asc_Permutation _ _ _)).
    unfold sort_events.
    rewrite (Permutation_length (sorted_asc_Permutation _ _ _)).
    rewrite length_map. lia.
Qed.

Lemma snd_sim_run_processed n st e st' :
  sim_turn algorithm_func st = Processed e st' ->
  snd (sim_run algorithm_func (S n) st) = snd (sim_run algorithm_func n st').
Proof.
  intros T. cbn [sim_run]. rewrite T.
  destruct (sim_run algorithm_func n st') as [tr fin]. reflexivity.
Qed.

Lemma snd_sim_run_stopped n st :
  (forall e st', sim_turn algorithm_func st <> Processed e st') ->
  snd (sim_run algorithm_func n st) = st.
Proof.
  intros T. destruct n as [|n]; [reflexivity|]. cbn [sim_run].
  destruct (sim_turn algorithm_func st) as [| |e st'] eqn:E;
    try reflexivity.
  exfalso. exact (T e st' eq_refl).
Qed.

(** The iterator is exhausted, or an exception escapes, before the measure
    is used up. *)
Lemma sim_run_ends arrivals : forall m st,
    loop_inv arrivals st -> sim_measure st <= m ->
    exists n,
      n <= m
      /\ (sim_turn algorithm_func (snd (sim_run algorithm_func n st))
          = Exhausted
          \/ sim_turn algorithm_func (snd (sim_run algorithm_func n st))
             = Raised).
Proof.
  induction m as [|m IH]; intros st I M;
    destruct (sim_turn algorithm_func st) as [| |e st'] eqn:T;
    try (exists 0; split; [lia|]; cbn [sim_run snd]; rewrite T; auto; fail).
  - destruct (sim_turn_progress T I). lia.
  - destruct (sim_turn_progress T I) as [I' D].
    destruct (IH st' I') as [n [Ln E]]; [lia|].
    exists (S n). split; [lia|].
    rewrite (@snd_sim_run_processed n _ _ _ T). exact E.
Qed.

Lemma sim_loop_exhausted n : forall st fuel,
    sim_turn algorithm_func (snd (sim_run algorithm_func n st)) = Exhausted ->
    n <= fuel ->
    sim_loop algorithm_func fuel st
    = Some (results (snd (sim_run algorithm_func n st))).
Proof.
  induction n as [|n IH]; intros st fuel E L.
  - cbn [sim_run snd] in *. destruct fuel; simpl; rewrite E; reflexivity.
  - destruct (sim_turn algorithm_func st) as [| |e st'] eqn:T.
    + rewrite snd_sim_run_stopped by (rewrite T; discriminate).
      destruct fuel; simpl; rewrite T; reflexivity.
    + rewrite snd_sim_run_stopped in E by (rewrite T; discriminate).
      congruence.
    + rewrite (@snd_sim_run_processed n _ _ _ T) in *.
      destruct fuel as [|fuel]; [lia|]. simpl. rewrite T.
      apply IH; [exact E | lia].
Qed.

Lemma sim_loop_raised n : forall st fuel,
    sim_turn algorithm_func (snd (sim_run algorithm_func n st)) = Raised ->
    sim_loop algorithm_func fuel st = None.
Proof.
  induction n as [|n IH]; intros st fuel E.
  - cbn [sim_run snd] in *. destruct fuel; simpl; rewrite E; reflexivity.
  - destruct (sim_turn algorithm_func st) as [| |e st'] eqn:T.
    + rewrite snd_sim_run_stopped in E by (rewrite T; discriminate).
      congruence.
    + destruct fuel; simpl; rewrite T; reflexivity.
    + rewrite (@snd_sim_run_processed n _ _ _ T) in *.
      destruct fuel as [|fuel]; simpl; rewrite T; [reflexivity|].
      apply IH. exact E.
Qed.

(** X13.  With no negative lifetime in the queue, the event loop of
    [vne_simulation] ends after at most two events per request: by then the
    iterator is exhausted and the function returns the results gathered, or
    an exception has escaped.  (So the function never goes on for lack of
    an end: more turns change nothing.)  When it returns it returns exactly
    one result per request, in order of arrival time (requests arriving
    together in queue order), each carrying the identifier and the arrival
    time of its request. *)
Theorem simulation_ends_with_one_result_per_request :
  forall substrate vnr_queue,
    (forall v, In v vnr_queue -> (0 <= lifetime v)%Z) ->
    (forall st0,
        sim_init substrate vnr_queue = Some st0 ->
        exists n,
          n <= 2 * length vnr_queue
          /\ ((sim_turn algorithm_func (snd (sim_run algorithm_func n st0))
               = Exhausted
               /\ forall fuel,
                   2 * length vnr_queue <= fuel ->
                   vne_simulation algorithm_func fuel substrate vnr_queue
                   = Some (results (snd (sim_run algorithm_func n st0))))
              \/ (sim_turn algorithm_func (snd (sim_run algorithm_func n st0))
                  = Raised
                  /\ forall fuel,
                      vne_simulation algorithm_func fuel substrate vnr_queue
                      = None)))
    /\ (forall fuel,
        2 * length vnr_queue <= fuel ->
        vne_simulation algorithm_func fuel substrate vnr_queue
        = vne_simulation algorithm_func (2 * length vnr_queue)
                         substrate vnr_queue)
    /\ (forall fuel rs,
           vne_simulation algorithm_func fuel substrate vnr_queue = Some rs ->
           length rs = length vnr_queue
           /\ map res_vnr_id rs
              = map vnr_id (sorted_asc Z.ltb arrival_time vnr_queue)
           /\ map res_arrival_time rs
              = map arrival_time (sorted_asc Z.ltb arrival_time vnr_queue)).
Proof.
  intros substrate vnr_queue Life. unfold vne_simulation.
  destruct (sim_init substrate vnr_queue) as [st0|] eqn:I0.
  - destruct (sim_init_inv _ _ Life I0) as [I M]. split; [|split].
    + intros st1 E1. inversion E1; subst st1. clear E1.
      destruct (@sim_run_ends _ (2 * length vnr_queue) st0 I) as [n [Ln E]];
        [lia|].
      exists n. split; [exact Ln|]. destruct E as [E|E].
      * left. split; [exact E|]. intros fuel F.
        apply sim_loop_exhausted; [exact E | lia].
      * right. split; [exact E|]. intros fuel.
        eapply sim_loop_raised. exact E.
    + intros fuel F. apply (sim_loop_enough I); lia.
    + intros fuel rs E.
      pose proof (sim_loop_results _ I E) as R.
      assert (R1 : map fst (map (fun r => (res_vnr_id r, res_arrival_time r))
                                rs)
                   = map fst (map (fun v => (vnr_id v, arrival_time v))
                                  (sorted_asc Z.ltb arrival_time vnr_queue)))
        by (rewrite R; reflexivity).
      assert (R2 : map snd (map (fun r => (res_vnr_id r, res_arrival_time r))
                                rs)
                   = map snd (map (fun v => (vnr_id v, arrival_time v))
                                  (sorted_asc Z.ltb arrival_time vnr_queue)))
        by (rewrite R; reflexivity).
      rewrite !map_map in R1, R2. simpl in R1, R2.
      split; [|auto].
      apply (f_equal (@length nat)) in R1. rewrite !length_map in R1.
      rewrite R1. apply Permutation_length. apply sorted_asc_Permutation.
  - split; [intros st0 E; discriminate|].
    split; [reflexivity | discriminate].
Qed.
End EventLoop.

Lemma simulation_ends_with_one_result_per_request_witness :
  (forall v, In v overlapping_queue -> (0 <= lifetime v)%Z)
  /\ exists st0 rs,
      sim_init narrow_pair overlapping_queue = Some st0
      /\ vne_simulation greedy_reference 4 narrow_pair overlapping_queue
         = Some rs
      /\ (exists n,
             n <= 2 * length overlapping_queue
             /\ sim_turn greedy_reference
                         (snd (sim_run greedy_reference n st0)) = Exhausted
             /\ results (snd (sim_run greedy_reference n st0)) = rs)
      /\ vne_simulation greedy_reference 100 narrow_pair overlapping_queue
         = vne_simulation greedy_reference 4 narrow_pair overlapping_queue
      /\ map res_vnr_id rs = [1; 2].
Proof.
  assert (Life : forall v, In v overlapping_queue -> (0 <= lifetime v)%Z).
  { intros v [<-|[<-|[]]]; simpl; lia. }
  split; [exact Life|].
  assert (E0 : exists st0, sim_init narrow_pair overlapping_queue = Some st0)
    by (vm_compute; eexists; reflexivity).
  destruct E0 as [st0 E0].
  assert (E : exists rs,
             vne_simulation greedy_reference 4 narrow_pair overlapping_queue
             = Some rs) by (vm_compute; eexists; reflexivity).
  destruct E as [rs E]. exists st0, rs.
  split; [exact E0|]. split; [exact E|].
  destruct (@simulation_ends_with_one_result_per_request
              greedy_reference narrow_pair overlapping_queue Life)
    as [T [F R]].
  split; [|split].
  - destruct (T st0 E0) as [n [Ln [[X Q]|[_ Q]]]].
    + exists n. split; [exact Ln|]. split; [exact X|].
      specialize (Q 4 (Nat.le_refl 4)). rewrite E in Q.
      inversion Q. reflexivity.
    + rewrite (Q 4) in E. discriminate.
  - apply (F 100). simpl. lia.
  - destruct (R 4 rs E) as [_ [Ids _]]. exact Ids.
Defined.

(** ** The chunked baseline gives back what a failed request took *)

Lemma dict_set_fresh {K V} `{Key K} (d : dict K V) k v :
  ~ In k (dict_keys d) -> dict_set d k v = d ++ [(k, v)].
Proof.
  induction d as [|[k0 v0] d IH]; simpl; intros N; [reflexivity|].
  destruct (keyb k0 k) eqn:E.
  - apply keyb_eq in E. subst. exfalso. apply N. auto.
  - f_equal. apply IH. intros I. apply N. auto.
Qed.

Lemma cpu_ops_snoc vnr items v s r ops :
  cpu_ops vnr items = Some ops -> get_cpu_req vnr v = Some r ->
  cpu_ops vnr (items ++ [(v, s)]) = Some (ops ++ [OpCpu s r]).
Proof.
  unfold cpu_ops. revert ops.
  induction items as [|[v0 s0] items IH]; intros ops; simpl.
  - intros E R. inversion E; subst. rewrite R. reflexivity.
  - destruct (get_cpu_req vnr v0) as [r0|]; [|discriminate].
    destruct (mapM _ items) as [ops0|]; [|discriminate].
    intros E R. inversion E; subst. rewrite (IH _ eq_refl R). reflexivity.
Qed.

Lemma yu_rollback_nodes_run id vnr items : forall g nm g' nm',
    yu_rollback_nodes id vnr items g nm = Some (g', nm') ->
    exists ops, cpu_ops vnr items = Some ops /\ run credit ops g = Some g'.
Proof.
  induction items as [|[v s] items IH]; intros g nm g' nm'; simpl.
  - intros E. inversion E; subst. exists []. auto.
  - unfold cpu_ops. simpl.
    destruct (get_cpu_req vnr v) as [r|]; [|discriminate].
    destruct (cpu_available_add g s r) as [g1|] eqn:C; [|discriminate].
    destruct (dict_pop nm (id, v)) as [nm1|]; [|discriminate].
    intros E. destruct (IH _ _ _ _ E) as [ops [O R]].
    unfold cpu_ops in O. rewrite O. exists (OpCpu s r :: ops).
    split; [reflexivity|]. simpl. rewrite C. exact R.
Qed.

(** Phase 1 on one request: when it fails, the credits of the rollback undo
    the debits made so far, in the same order. *)
Lemma yu_map_nodes_rollback id vnr cands g0 :
  forall v_nodes g nm vnm ops g' nm' vnm',
    NoDup v_nodes ->
    (forall v, In v v_nodes -> ~ In v (dict_keys vnm)) ->
    cpu_ops vnr vnm = Some ops ->
    run debit ops g0 = Some g ->
    yu_map_nodes id vnr cands v_nodes g nm vnm = Some (g', nm', vnm', false) ->
    g' = g0.
Proof.
  induction v_nodes as [|v v_nodes IH];
    intros g nm vnm ops g' nm' vnm' N F O R; simpl.
  - discriminate.
  - inversion N as [|? ? N1 N2]; subst.
    destruct (get_cpu_req vnr v) as [r|] eqn:Rq; [|discriminate].
    destruct (yu_pick g vnm r cands) as [[s|]|]; try discriminate.
    + destruct (cpu_available_sub g s r) as [g1|] eqn:D; [|discriminate].
      assert (Fresh : dict_set vnm v s = vnm ++ [(v, s)]).
      { apply dict_set_fresh. apply F. left. reflexivity. }
      apply (IH g1 _ _ (ops ++ [OpCpu s r])); [exact N2 | | |].
      * intros x Ix Kx. rewrite Fresh in Kx. unfold dict_keys in Kx.
        rewrite map_app in Kx. apply in_app_iff in Kx.
        destruct Kx as [Kx|[<-|[]]].
        -- apply (F x); [right; exact Ix | exact Kx].
        -- apply N1. exact Ix.
      * rewrite Fresh. apply cpu_ops_snoc; assumption.
      * rewrite run_app, R. simpl. rewrite D. reflexivity.
    + destruct (yu_rollback_nodes id vnr vnm g nm) as [[g1 nm1]|] eqn:Rb;
        [|discriminate].
      intros E. inversion E; subst. simpl.
      destruct (yu_rollback_nodes_run _ _ _ _ _ Rb) as [ops' [O' C]].
      rewrite O in O'. inversion O'; subst ops'.
      pose proof (run_credit_debit _ _ R shift_id) as Back.
      simpl in Back. rewrite Back in C. inversion C. reflexivity.
Qed.

(** X14.  Phase 1 of the chunked baseline leaves no trace of a request whose
    nodes it could not all place: either the request joins the successfully
    mapped ones, or the substrate is exactly as it was before the request
    was tried -- every CPU debit made for it has been credited back. *)
Theorem yu_failed_node_mapping_is_rolled_back :
  forall vnr st failed_vnrs mapped st' failed_vnrs' mapped',
    NoDup (node_list (vnr_graph vnr)) ->
    yu_phase1 vnr (st, failed_vnrs, mapped) = Some (st', failed_vnrs', mapped') ->
    mapped' = mapped ++ [vnr]
    \/ (mapped' = mapped
        /\ yu_substrate st' = yu_substrate st
        /\ yu_link_mapping st' = yu_link_mapping st
        /\ yu_embedded st' = yu_embedded st).
Proof.
  intros vnr st failed mapped st' failed' mapped' N. unfold yu_phase1.
  destruct (mapM _ _) as [reqs|]; [|discriminate].
  destruct (list_min reqs) as [m|]; [|discriminate].
  destruct (filterM _ _) as [[|s0 S_nodes]|]; try discriminate.
  - unfold yu_mark_failed.
    destruct (dict_get (yu_retried st) (obj_id vnr)) as [[|]|];
      try discriminate; intros E; inversion E; subst; right; auto.
  - destruct (sorted_desc_by _ _) as [sn|]; [|discriminate].
    destruct (yu_map_nodes _ _ _ _ _ _ _) as [[[[g nm] vnm] ok]|] eqn:Mn;
      [|discriminate].
    destruct ok.
    + intros E. inversion E; subst. left. reflexivity.
    + assert (G : g = yu_substrate st).
      { eapply (@yu_map_nodes_rollback
                  (vnr_id vnr) (vnr_graph vnr) sn (yu_substrate st)
                  (node_list (vnr_graph vnr)) (yu_substrate st)
                  (yu_node_mapping st) [] []);
          [exact N | intros v _ [] | reflexivity | reflexivity | exact Mn]. }
      unfold yu_mark_failed. simpl.
      destruct (dict_get (yu_retried st) (obj_id vnr)) as [[|]|];
        try discriminate; intros E; inversion E; subst; right; auto.
Qed.

Lemma yu_failed_node_mapping_is_rolled_back_witness :
  NoDup (node_list (vnr_graph request3))
  /\ exists st',
      yu_phase1 request3 (yu_initial narrow_pair_reset [(0, false)], [], [])
      = Some (st', [request3], [])
      /\ yu_substrate st' = narrow_pair_reset.
Proof.
  assert (N : NoDup (node_list (vnr_graph request3))).
  { simpl. repeat constructor; simpl; intuition discriminate. }
  split; [exact N|].
  assert (E : exists st',
             yu_phase1 request3
                       (yu_initial narrow_pair_reset [(0, false)], [], [])
             = Some (st', [request3], []))
    by (vm_compute; eexists; reflexivity).
  destruct E as [st' E]. exists st'. split; [exact E|].
  destruct (@yu_failed_node_mapping_is_rolled_back _ _ _ _ _ _ _ N E)
    as [C|[_ [S _]]]; [discriminate C | exact S].
Defined.

Lemma flat_map_ext_In {A B} (f g : A -> list B) (l : list A) :
  (forall x, In x l -> f x = g x) -> flat_map f l = flat_map g l.
Proof.
  induction l as [|x l IH]; intros E; simpl; [reflexivity|].
  rewrite (E x) by (left; reflexivity). f_equal.
  apply IH. intros y I. apply E. right. exact I.
Qed.

Lemma yu_credit_path_run g vnr v_edge bw p :
  get_bandwidth_req vnr v_edge = Some bw ->
  yu_credit_path g vnr v_edge p
  = run credit (map (fun e => OpBw e bw) (path_edges p)) g.
Proof.
  intros R. revert g. induction p as [|a p IH]; intros g; [reflexivity|].
  destruct p as [|b p]; [reflexivity|].
  change (yu_credit_path g vnr v_edge (a :: b :: p))
    with (bw0 <- get_bandwidth_req vnr v_edge ;;
          g' <- bandwidth_available_add g (a, b) bw0 ;;
          yu_credit_path g' vnr v_edge (b :: p)).
  change (path_edges (a :: b :: p)) with ((a, b) :: path_edges (b :: p)).
  rewrite R. simpl map. simpl run.
  destruct (bandwidth_available_add g (a, b) bw); [apply IH | reflexivity].
Qed.

Lemma pair_key_other (id : nat) (e e' : node * node) :
  e <> e' -> keyb (id, e) (id, e') = false.
Proof.
  intros N. apply keyb_neq. intros E. inversion E. contradiction.
Qed.

(** The paths a link table holds for the virtual links of request [id], in
    the order of the links. *)
Lemma yu_release_links_run id vnr v_edges : forall g lm g' lm',
    NoDup v_edges ->
    (forall e, In e v_edges -> dict_get lm (id, e) <> None ->
               get_bandwidth_req vnr e <> None) ->
    yu_release_links id vnr v_edges g lm = Some (g', lm') ->
    exists ops,
      bw_ops vnr (flat_map (fun e => match dict_get lm (id, e) with
                                     | Some p => [(e, p)]
                                     | None => []
                                     end) v_edges) = Some ops
      /\ run credit ops g = Some g'.
Proof.
  induction v_edges as [|e v_edges IH]; intros g lm g' lm' N Rq;
    cbn [yu_release_links flat_map].
  - intros E. inversion E; subst. exists []. auto.
  - inversion N as [|? ? N1 N2]; subst.
    destruct (dict_get lm (id, e)) as [p|] eqn:G.
    + destruct (dict_pop lm (id, e)) as [lm1|] eqn:P; [|discriminate].
      destruct (get_bandwidth_req vnr e) as [bw|] eqn:R.
      2:{ exfalso. apply (Rq e); [left; reflexivity | congruence | exact R]. }
      rewrite (yu_credit_path_run _ _ _ _ R).
      destruct (run credit (map (fun h => OpBw h bw) (path_edges p)) g)
        as [g1|] eqn:C; [|discriminate].
      intros E.
      assert (Same : forall e', In e' v_edges ->
                       dict_get lm1 (id, e') = dict_get lm (id, e')).
      { intros e' I. rewrite (dict_pop_get _ _ (id, e') P).
        rewrite pair_key_other; [reflexivity|]. intros ->. contradiction. }
      destruct (IH g1 lm1 g' lm' N2) as [ops [O Run]]; [|exact E|].
      * intros e' I D. apply Rq; [right; exact I|].
        rewrite <- (Same e' I). exact D.
      * rewrite (@flat_map_ext_In _ _ _
                   (fun e' => match dict_get lm (id, e') with
                              | Some p0 => [(e', p0)]
                              | None => []
                              end)) in O.
        2:{ intros e' I. rewrite (Same e' I). reflexivity. }
        exists (map (fun h => OpBw h bw) (path_edges p) ++ ops).
        split.
        -- cbn [app bw_ops]. rewrite R, O. reflexivity.
        -- rewrite run_app, C. exact Run.
    + intros E. cbn [app]. apply (IH g lm g' lm' N2); [|exact E].
      intros e' I. apply Rq. right. exact I.
Qed.

Lemma yu_map_links_run `{Networkx} id vnr nm v_edges : forall g lm g1 lm1 ok,
    NoDup v_edges ->
    (forall e, In e v_edges -> dict_get lm (id, e) = None) ->
    yu_map_links id vnr v_edges g nm lm = Some (g1, lm1, ok) ->
    (exists ops,
        bw_ops vnr (flat_map (fun e => match dict_get lm1 (id, e) with
                                       | Some p => [(e, p)]
                                       | None => []
                                       end) v_edges) = Some ops
        /\ run debit ops g = Some g1)
    /\ (forall e, In e v_edges -> dict_get lm1 (id, e) <> None ->
                  get_bandwidth_req vnr e <> None)
    /\ (forall k, (forall e, In e v_edges -> k <> (id, e)) ->
                  dict_get lm1 k = dict_get lm k).
Proof.
  induction v_edges as [|e v_edges IH]; intros g lm g1 lm1 ok N Z;
    cbn [yu_map_links flat_map].
  - intros E. inversion E; subst. split; [exists []; auto|].
    split; [intros e []|reflexivity].
  - inversion N as [|? ? N1 N2]; subst.
    destruct (dict_get nm (id, fst e)) as [s|]; [|discriminate].
    destruct (dict_get nm (id, snd e)) as [d|]; [|discriminate].
    destruct (get_bandwidth_req vnr e) as [bw|] eqn:R; [|discriminate].
    destruct (yu_try_k g bw s d [1; 2; 3]) as [[p|]|]; try discriminate.
    + destruct (allocate_path g bw p) as [g'|] eqn:A; [|discriminate].
      intros E.
      destruct (IH g' (dict_set lm (id, e) p) g1 lm1 ok N2) as [Ops [Rq Oth]];
        [|exact E|].
      * intros e' I. rewrite dict_get_set, pair_key_other.
        -- apply Z. right. exact I.
        -- intros ->. contradiction.
      * assert (Here : dict_get lm1 (id, e) = Some p).
        { rewrite Oth.
          - rewrite dict_get_set, keyb_refl. reflexivity.
          - intros e' I Q. inversion Q. subst. contradiction. }
        destruct Ops as [ops [O Run]]. rewrite Here. split; [|split].
        -- exists (map (fun h => OpBw h bw) (path_edges p) ++ ops).
           split.
           ++ cbn [app bw_ops]. rewrite R, O. reflexivity.
           ++ rewrite run_app, <- allocate_path_run, A. exact Run.
        -- intros e' [<-|I] D; [congruence | auto].
        -- intros k K. rewrite Oth.
           ++ rewrite dict_get_set.
              destruct (keyb (id, e) k) eqn:Q; [|reflexivity].
              apply keyb_eq in Q. exfalso.
              apply (K e); [left; reflexivity | auto].
           ++ intros e' I. apply K. right. exact I.
    + intros E. inversion E; subst. clear E.
      assert (Nil : flat_map (fun e' => match dict_get lm1 (id, e') with
                                        | Some p => [(e', p)]
                                        | None => []
                                        end) v_edges = []).
      { clear IH N1 N2 N. induction v_edges as [|x l IHl]; [reflexivity|].
        cbn [flat_map]. rewrite (Z x) by (right; left; reflexivity).
        apply IHl. intros e' [<-|I]; apply Z; [left | right; right]; auto. }
      rewrite (Z e) by (left; reflexivity). rewrite Nil.
      split; [exists []; auto|]. split; [|reflexivity].
      intros e' I D. exfalso. apply D. apply Z. exact I.
Qed.

Lemma run_bw_keeps_cpu step (Hs : step = debit \/ step = credit) vnr items :
  forall ops g g',
    bw_ops vnr items = Some ops -> run step ops g = Some g' ->
    forall n, get_cpu_available g' n = get_cpu_available g n.
Proof.
  assert (One : forall e bw g g1,
             step g (OpBw e bw) = Some g1 ->
             forall n, get_cpu_available g1 n = get_cpu_available g n).
  { intros e bw g g1 E n. destruct Hs; subst step; simpl in E.
    - apply (proj2 (get_bandwidth_available_sub _ _ _ e E)).
    - apply (proj2 (get_bandwidth_available_add _ _ _ e E)). }
  assert (Many : forall bw es g g',
             run step (map (fun e => OpBw e bw) es) g = Some g' ->
             forall n, get_cpu_available g' n = get_cpu_available g n).
  { intros bw es. induction es as [|e es IH]; intros g g' E n; simpl in E.
    - inversion E. reflexivity.
    - destruct (step g (OpBw e bw)) as [g1|] eqn:S1; [|discriminate].
      rewrite (IH _ _ E n). eapply One. exact S1. }
  induction items as [|[e p] items IH]; intros ops g g'; cbn [bw_ops].
  - intros O E. inversion O; subst. inversion E. reflexivity.
  - destruct (get_bandwidth_req vnr e) as [bw|]; [|discriminate].
    destruct (bw_ops vnr items) as [ops0|]; [|discriminate].
    intros O E n. inversion O; subst. rewrite run_app in E.
    destruct (run step (map _ (path_edges p)) g) as [g1|] eqn:E1;
      [|discriminate].
    rewrite (IH _ _ _ eq_refl E n). eapply Many. exact E1.
Qed.

Lemma yu_release_nodes_shift id vnr v_nodes : forall g nm g' nm',
    NoDup v_nodes ->
    yu_release_nodes id vnr v_nodes g nm = Some (g', nm') ->
    (exists T, shift T /\ g' = T g
               /\ forall x e, get_bandwidth_available (T x) e
                              = get_bandwidth_available x e)
    /\ forall n,
        get_cpu_available g' n
        = option_map
            (fun c => c + cpu_demand vnr
                            (flat_map (fun v => match dict_get nm (id, v) with
                                                | Some s => [(v, s)]
                                                | None => []
                                                end) v_nodes) n)%Z
            (get_cpu_available g n).
Proof.
  induction v_nodes as [|v v_nodes IH]; intros g nm g' nm' N;
    cbn [yu_release_nodes flat_map].
  - intros E. inversion E; subst. split.
    + exists (fun x => x). split; [apply shift_id | auto].
    + intros n. symmetry. apply option_map_zero.
  - inversion N as [|? ? N1 N2]; subst.
    destruct (dict_get nm (id, v)) as [s|]; [|discriminate].
    destruct (get_cpu_req vnr v) as [r|] eqn:R; [|discriminate].
    destruct (cpu_available_add g s r) as [g1|] eqn:C; [|discriminate].
    destruct (dict_pop nm (id, v)) as [nm1|] eqn:P; [|discriminate].
    intros E. destruct (IH _ _ _ _ N2 E) as [[T [HT [ET BT]]] Cpu].
    assert (Same : forall v', In v' v_nodes ->
                     dict_get nm1 (id, v') = dict_get nm (id, v')).
    { intros v' I. rewrite (dict_pop_get _ _ (id, v') P).
      rewrite pair_key_same.
      destruct (Nat.eqb v v') eqn:Q; [|reflexivity].
      apply Nat.eqb_eq in Q. subst. contradiction. }
    split.
    + exists (fun x => T (alter_cpu_available (fun c => c + r)%Z s x)).
      split; [apply (shift_compose HT (shift_alter_cpu s r))|].
      split.
      * rewrite ET. f_equal. unfold cpu_available_add in C.
        destruct (get_cpu_available g s); [|discriminate].
        inversion C. reflexivity.
      * intros x e. rewrite BT. reflexivity.
    + intros n. rewrite Cpu.
      rewrite (@flat_map_ext_In _ _ _
                 (fun v' => match dict_get nm (id, v') with
                            | Some s0 => [(v', s0)]
                            | None => []
                            end))
        by (intros v' I; rewrite (Same v' I); reflexivity).
      rewrite (proj1 (get_cpu_available_add _ _ _ n C)), option_map_shift.
      cbn [app]. rewrite (cpu_demand_cons _ _ _ _ n R).
      destruct (get_cpu_available g n); simpl; [|reflexivity].
      first [reflexivity | f_equal; destruct (Nat.eqb s n); lia].
Qed.

(** X15.  Phase 2 of the chunked baseline gives everything back when a
    link of the request cannot be routed: if the request is not among the
    embedded ones afterwards, every substrate link has the available
    bandwidth it had before phase 2 touched it, and every substrate node has
    got back the CPU of the virtual nodes it hosted for this request.
    (The link table is assumed to hold no stale entry of the request, as is
    the case when identifiers are not reused.) *)
Theorem yu_failed_link_mapping_is_rolled_back :
  forall (paths : Networkx) t vnr st failed_vnrs st' failed_vnrs',
    NoDup (node_list (vnr_graph vnr)) ->
    NoDup (edge_list (vnr_graph vnr)) ->
    (forall e, In e (edge_list (vnr_graph vnr)) ->
               dict_get (yu_link_mapping st) (vnr_id vnr, e) = None) ->
    yu_phase2 t vnr (st, failed_vnrs) = Some (st', failed_vnrs') ->
    ~ In (vnr_id vnr) (yu_embedded st') ->
    (forall e, get_bandwidth_available (yu_substrate st') e
               = get_bandwidth_available (yu_substrate st) e)
    /\ (forall n,
           get_cpu_available (yu_substrate st') n
           = option_map
               (fun c =>
                  c + cpu_demand
                        (vnr_graph vnr)
                        (flat_map
                           (fun v =>
                              match dict_get (yu_node_mapping st)
                                             (vnr_id vnr, v) with
                              | Some s => [(v, s)]
                              | None => []
                              end)
                           (node_list (vnr_graph vnr))) n)%Z
               (get_cpu_available (yu_substrate st) n)).
Proof.
  intros paths t vnr st failed st' failed' Nn Ne Z. unfold yu_phase2.
  destruct (yu_map_links _ _ _ _ _ _) as [[[g lm] ok]|] eqn:Ml;
    [|discriminate].
  destruct ok.
  - intros E. inversion E; subst. simpl. intros Out. exfalso. apply Out.
    destruct (mem (vnr_id vnr) (yu_embedded st)) eqn:M.
    + apply mem_In. exact M.
    + apply in_app_iff. right. left. reflexivity.
  - unfold yu_release. simpl.
    destruct (yu_release_nodes _ _ _ _ _) as [[g2 nm2]|] eqn:Rn;
      [|discriminate].
    destruct (yu_release_links _ _ _ _ _) as [[g3 lm3]|] eqn:Rl;
      [|discriminate].
    simpl. intros M _.
    assert (Sub : yu_substrate st' = g3).
    { revert M. unfold yu_mark_failed. simpl.
      destruct (dict_get (yu_retried st) (obj_id vnr)) as [[|]|];
        try discriminate; intros E; inversion E; reflexivity. }
    rewrite Sub. clear M Sub.
    destruct (@yu_map_links_run paths _ _ _ _ _ _ _ _ _ Ne Z Ml)
      as [[ops [O D]] [Rq _]].
    destruct (@yu_release_nodes_shift _ _ _ _ _ _ _ Nn Rn)
      as [[T [HT [ET BT]]] Cpu].
    simpl in Rl.
    destruct (@yu_release_links_run _ _ _ _ _ _ _ Ne Rq Rl) as [ops' [O' C]].
    rewrite O in O'. inversion O'; subst ops'.
    pose proof (run_credit_debit _ _ D HT) as Back.
    rewrite ET, Back in C. inversion C; subst g3. clear C. split.
    + intros e. apply BT.
    + intros n.
      rewrite (@run_bw_keeps_cpu credit (or_intror eq_refl) _ _ _ _ _
                 O Back n).
      rewrite <- ET, Cpu.
      rewrite (@run_bw_keeps_cpu debit (or_introl eq_refl) _ _ _ _ _ O D n).
      reflexivity.
Qed.

Lemma yu_failed_link_mapping_is_rolled_back_witness :
  exists st' failed_vnrs',
    @yu_phase2 reference_paths 25 (request2 0 1 0 20 10 60)
               (with_resources (yu_initial narrow_pair_reset [(0, false)])
                               narrow_pair_reset
                               [((1, 0), 0); ((1, 1), 1)] [], [])
    = Some (st', failed_vnrs')
    /\ ~ In 1 (yu_embedded st')
    /\ get_bandwidth_available (yu_substrate st') (0, 1) = Some 50%Z
    /\ get_cpu_available (yu_substrate st') 0 = Some 110%Z.
Proof.
  assert (E : exists x,
             @yu_phase2 reference_paths 25 (request2 0 1 0 20 10 60)
                        (with_resources
                           (yu_initial narrow_pair_reset [(0, false)])
                           narrow_pair_reset
                           [((1, 0), 0); ((1, 1), 1)] [], [])
             = Some x) by (vm_compute; eexists; reflexivity).
  assert (P : option_map
                (fun x => yu_embedded (fst x))
                (@yu_phase2 reference_paths 25 (request2 0 1 0 20 10 60)
                            (with_resources
                               (yu_initial narrow_pair_reset [(0, false)])
                               narrow_pair_reset
                               [((1, 0), 0); ((1, 1), 1)] [], []))
              = Some []) by (vm_compute; reflexivity).
  destruct E as [[st' failed'] E]. rewrite E in P. simpl in P.
  assert (Out : ~ In 1 (yu_embedded st')).
  { inversion P as [Q]. rewrite Q. intros []. }
  exists st', failed'. split; [exact E|]. split; [exact Out|].
  assert (Nn : NoDup (node_list (vnr_graph (request2 0 1 0 20 10 60)))).
  { simpl. repeat constructor; simpl; intuition discriminate. }
  assert (Ne : NoDup (edge_list (vnr_graph (request2 0 1 0 20 10 60)))).
  { vm_compute. repeat constructor; simpl; intuition discriminate. }
  assert (Z : forall e,
             In e (edge_list (vnr_graph (request2 0 1 0 20 10 60))) ->
             dict_get (yu_link_mapping
                         (with_resources
                            (yu_initial narrow_pair_reset [(0, false)])
                            narrow_pair_reset
                            [((1, 0), 0); ((1, 1), 1)] []))
                      (vnr_id (request2 0 1 0 20 10 60), e) = None)
    by (intros e _; reflexivity).
  destruct (@yu_failed_link_mapping_is_rolled_back
              reference_paths _ _ _ _ _ _ Nn Ne Z E Out)
    as [B C].
  split; [rewrite B; reflexivity | rewrite C; reflexivity].
Defined.

(** ** What the chunked baseline reports *)

Lemma distinct_In (l : list nat) x : In x (distinct l) <-> In x l.
Proof.
  induction l as [|y l IH]; simpl; [reflexivity|].
  rewrite filter_In, IH, negb_true_iff, Nat.eqb_neq.
  destruct (Nat.eq_dec y x); intuition.
Qed.

Lemma distinct_NoDup (l : list nat) : NoDup (distinct l).
Proof.
  induction l as [|y l IH]; simpl; constructor.
  - rewrite filter_In, negb_true_iff, Nat.eqb_neq. intuition.
  - apply NoDup_filter. exact IH.
Qed.

Lemma mapM_map {A B} (f : A -> option B) (g : B -> A) (l : list A) :
  (forall x y, f x = Some y -> g y = x) ->
  forall l', mapM f l = Some l' -> map g l' = l.
Proof.
  intros Inv. induction l as [|x l IH]; simpl; intros l' E.
  - inversion E. reflexivity.
  - destruct (f x) as [y|] eqn:F; [|discriminate].
    destruct (mapM f l) as [ys|]; [|discriminate].
    inversion E; subst. simpl. rewrite (Inv _ _ F), (IH _ eq_refl).
    reflexivity.
Qed.

Lemma yu_result_id metadata st id r :
  yu_result metadata st id = Some r -> yr_vnr_id r = id.
Proof.
  unfold yu_result. destruct (dict_get metadata id); [|discriminate].
  destruct (mem id (yu_embedded st)); intros E; inversion E; reflexivity.
Qed.

(** X16.  [yu2008_algorithm] reports every request identifier of the chunks
    it was given exactly once; a result says [success] exactly when the
    request was embedded in some chunk, and then carries a node mapping, a
    link mapping and an embedding time, while a failed one carries [None]
    in all three. *)
Theorem yu_reports_each_request_once :
  forall (paths : Networkx) substrate vnr_chunks flags time_window
         results st vnr_chunks',
    yu2008_algorithm substrate vnr_chunks flags time_window
    = Some (results, st, vnr_chunks') ->
    NoDup (map yr_vnr_id results)
    /\ (forall id, In id (map yr_vnr_id results)
                   <-> In id (map vnr_id (concat vnr_chunks)))
    /\ forall r,
        In r results ->
        (yr_success r = true <-> In (yr_vnr_id r) (yu_embedded st))
        /\ (yr_success r = true ->
            yr_node_mapping r <> None /\ yr_link_mapping r <> None
            /\ yr_embedding_time r <> None)
        /\ (yr_success r = false ->
            yr_node_mapping r = None /\ yr_link_mapping r = None
            /\ yr_embedding_time r = None).
Proof.
  intros paths substrate vnr_chunks flags time_window results st vnr_chunks'.
  unfold yu2008_algorithm.
  destruct (yu_loop _ _ _ _ _) as [[[st1 chunks1]|]|]; try discriminate.
  simpl. destruct (mapM _ _) as [rs|] eqn:M; [|discriminate].
  intros E. inversion E; subst. clear E.
  assert (Ids : map yr_vnr_id results
                = distinct (map vnr_id (concat vnr_chunks))).
  { eapply mapM_map; [|exact M]. intros x y. apply yu_result_id. }
  split; [rewrite Ids; apply distinct_NoDup|].
  split; [intros id; rewrite Ids; apply distinct_In|].
  intros r I. destruct (@mapM_In _ _ _ _ _ _ M I) as [id [_ Y]].
  unfold yu_result in Y.
  destruct (dict_get _ id) as [arrival|]; [|discriminate].
  destruct (mem id (yu_embedded st)) eqn:Em; inversion Y; subst; simpl.
  - split; [split; [intros _; apply mem_In; exact Em | auto]|].
    split; [intros _; repeat split; discriminate | discriminate].
  - split; [split; [discriminate|]|].
    + intros In'. exfalso. apply mem_not_In in Em. apply Em. exact In'.
    + split; [discriminate | auto].
Qed.

Lemma yu_reports_each_request_once_witness :
  exists run,
    @yu2008_algorithm reference_paths narrow_pair_reset [overlapping_queue]
                      [(0, false); (1, false)] 25 = Some run
    /\ NoDup (map yr_vnr_id (fst (fst run)))
    /\ forall id, In id (map yr_vnr_id (fst (fst run)))
                  <-> In id (map vnr_id (concat [overlapping_queue])).
Proof.
  assert (E : exists run,
             @yu2008_algorithm reference_paths narrow_pair_reset
                               [overlapping_queue]
                               [(0, false); (1, false)] 25 = Some run)
    by (vm_compute; eexists; reflexivity).
  destruct E as [[[results st] vnr_chunks'] E].
  exists (results, st, vnr_chunks'). split; [exact E|].
  destruct (@yu_reports_each_request_once reference_paths _ _ _ _ _ _ _ E)
    as [N [I _]].
  split; [exact N | exact I].
Defined.

(** ** Revenue and cost of an embedding *)

Lemma zsum_app (a b : list Z) : zsum (a ++ b) = (zsum a + zsum b)%Z.
Proof.
  induction a as [|x a IH]; simpl.
  - change (zsum []) with 0%Z. lia.
  - rewrite !zsum_cons, IH. lia.
Qed.







(** ** The chunked baseline never overdraws the substrate *)

Lemma same_edge_sym (a b : node * node) : same_edge a b = same_edge b a.
Proof.
  unfold same_edge. destruct a as [a1 a2], b as [b1 b2]. simpl.
  rewrite (Nat.eqb_sym a1 b1), (Nat.eqb_sym a2 b2),
    (Nat.eqb_sym a1 b2), (Nat.eqb_sym a2 b1).
  f_equal. apply andb_comm.
Qed.

Lemma same_edge_ends e a b :
  same_edge e (a, b) = true ->
  (a = fst e \/ a = snd e) /\ (b = fst e \/ b = snd e).
Proof.
  unfold same_edge. simpl.
  rewrite orb_true_iff, !andb_true_iff, !Nat.eqb_eq. intuition.
Qed.

Lemma find_ext_eq {A} (f g : A -> bool) (l : list A) :
  (forall x, f x = g x) -> find f l = find g l.
Proof.
  intros E. induction l as [|x l IH]; simpl; [reflexivity|].
  rewrite (E x), IH. reflexivity.
Qed.

Lemma get_bandwidth_available_same g e h :
  same_edge e h = true ->
  get_bandwidth_available g e = get_bandwidth_available g h.
Proof.
  intros S. unfold get_bandwidth_available, edge_attrs.
  rewrite (find_ext_eq (fun x => same_edge (fst x) e)
                       (fun x => same_edge (fst x) h)); [reflexivity|].
  intros x. rewrite (same_edge_sym (fst x) e), (same_edge_sym (fst x) h).
  apply same_edge_trans. exact S.
Qed.

Lemma hops_on_nonneg e p : (0 <= hops_on e p)%Z.
Proof.
  induction p as [|a p IH]; [simpl; lia|].
  destruct p as [|b p]; [simpl; lia|].
  change (hops_on e (a :: b :: p))
    with ((if same_edge e (a, b) then 1 else 0) + hops_on e (b :: p))%Z.
  destruct (same_edge e (a, b)); lia.
Qed.

Lemma hops_on_zero e x p :
  x = fst e \/ x = snd e -> ~ In x p -> hops_on e p = 0%Z.
Proof.
  intros X. induction p as [|a p IH]; intros N; [reflexivity|].
  destruct p as [|b p]; [reflexivity|].
  change (hops_on e (a :: b :: p))
    with ((if same_edge e (a, b) then 1 else 0) + hops_on e (b :: p))%Z.
  rewrite IH by (intros I; apply N; right; exact I).
  destruct (same_edge e (a, b)) eqn:S; [|reflexivity].
  exfalso. apply N. unfold same_edge in S. simpl in S.
  rewrite orb_true_iff, !andb_true_iff, !Nat.eqb_eq in S.
  destruct e as [e1 e2]. simpl in *.
  destruct X as [->| ->]; destruct S as [[-> ->]|[-> ->]]; simpl; auto.
Qed.

Lemma hops_on_simple e p : NoDup p -> (hops_on e p <= 1)%Z.
Proof.
  induction p as [|a p IH]; intros N; [simpl; lia|].
  destruct p as [|b p]; [simpl; lia|].
  change (hops_on e (a :: b :: p))
    with ((if same_edge e (a, b) then 1 else 0) + hops_on e (b :: p))%Z.
  inversion N as [|? ? N1 N2]; subst.
  destruct (same_edge e (a, b)) eqn:S; [|specialize (IH N2); lia].
  destruct (@same_edge_ends _ _ _ S) as [A _].
  rewrite (@hops_on_zero e a (b :: p) A N1). lia.
Qed.

Lemma hops_on_hit e p :
  (0 < hops_on e p)%Z ->
  exists h, In h (path_edges p) /\ same_edge e h = true.
Proof.
  induction p as [|a p IH]; [simpl; lia|].
  destruct p as [|b p]; [simpl; lia|].
  change (hops_on e (a :: b :: p))
    with ((if same_edge e (a, b) then 1 else 0) + hops_on e (b :: p))%Z.
  change (path_edges (a :: b :: p)) with ((a, b) :: path_edges (b :: p)).
  destruct (same_edge e (a, b)) eqn:S.
  - intros _. exists (a, b). split; [left; reflexivity | exact S].
  - intros P. destruct IH as [h [I Sh]]; [lia|].
    exists h. split; [right; exact I | exact Sh].
Qed.

Lemma credit_cpu_never_negative g s r g' :
  cpu_available_add g s r = Some g' -> (0 <= r)%Z ->
  never_negative g -> never_negative g'.
Proof.
  intros C R [Cpu Bw]. split.
  - intros n c G.
    rewrite (proj1 (get_cpu_available_add _ _ _ n C)) in G.
    destruct (get_cpu_available g n) as [c0|] eqn:G0; [|discriminate].
    simpl in G. inversion G; subst. specialize (Cpu _ _ G0).
    destruct (Nat.eqb s n); lia.
  - intros e b G.
    rewrite (proj2 (get_cpu_available_add _ _ _ 0 C)) in G. eauto.
Qed.

Lemma debit_cpu_never_negative g s r c g' :
  cpu_available_sub g s r = Some g' ->
  get_cpu_available g s = Some c -> (r <= c)%Z ->
  never_negative g -> never_negative g'.
Proof.
  intros D Gs L [Cpu Bw]. split.
  - intros n c' G.
    rewrite (proj1 (get_cpu_available_sub _ _ _ n D)) in G.
    destruct (get_cpu_available g n) as [c0|] eqn:G0; [|discriminate].
    simpl in G. inversion G; subst. specialize (Cpu _ _ G0).
    destruct (Nat.eqb s n) eqn:E; [|lia].
    apply Nat.eqb_eq in E. subst n. rewrite Gs in G0. inversion G0. lia.
  - intros e b G.
    rewrite (proj2 (get_cpu_available_sub _ _ _ 0 D)) in G. eauto.
Qed.

Lemma deallocate_path_never_negative bw p g g' :
  deallocate_path g bw p = Some g' -> (0 <= bw)%Z ->
  never_negative g -> never_negative g'.
Proof.
  intros D R [Cpu Bw]. destruct (deallocate_path_amount _ _ _ D) as [B C].
  split.
  - intros n c G. rewrite C in G. eauto.
  - intros e b G. rewrite B in G.
    destruct (get_bandwidth_available g e) as [b0|] eqn:G0; [|discriminate].
    simpl in G. inversion G; subst. specialize (Bw _ _ G0).
    pose proof (hops_on_nonneg e p). nia.
Qed.

(** Debiting a simple path every hop of which passed the bandwidth check. *)
Lemma allocate_path_never_negative bw p g g' :
  allocate_path g bw p = Some g' ->
  path_can_allocate g bw p = Some true -> NoDup p ->
  never_negative g -> never_negative g'.
Proof.
  intros A Ok N [Cpu Bw]. destruct (allocate_path_amount _ _ _ A) as [B C].
  split.
  - intros n c G. rewrite C in G. eauto.
  - intros e b G. rewrite B in G.
    destruct (get_bandwidth_available g e) as [b0|] eqn:G0; [|discriminate].
    simpl in G. inversion G; subst. specialize (Bw _ _ G0).
    pose proof (hops_on_nonneg e p) as H0.
    pose proof (@hops_on_simple e p N) as H1.
    assert (Hc : hops_on e p = 0%Z \/ hops_on e p = 1%Z) by lia.
    destruct Hc as [->| Hc]; [lia|]. rewrite Hc.
    destruct (hops_on_hit e p) as [h [I S]]; [lia|].
    pose proof (path_can_allocate_spec _ _ _ Ok) as F.
    rewrite Forall_forall in F. destruct (F _ I) as [c [Gh L]].
    rewrite <- (get_bandwidth_available_same g _ _ S), G0 in Gh.
    inversion Gh; subst. lia.
Qed.

Lemma yu_pick_spec substrate vnm r cands s :
  yu_pick substrate vnm r cands = Some (Some s) ->
  exists c, get_cpu_available substrate s = Some c /\ (r <= c)%Z.
Proof.
  induction cands as [|x cands IH]; simpl; [discriminate|].
  destruct (mem x (dict_values vnm)); [exact IH|].
  destruct (get_cpu_available substrate x) as [c|] eqn:C; [|discriminate].
  destruct (c >=? r)%Z eqn:T; [|exact IH].
  intros E. inversion E; subst. exists c. split; [exact C|].
  apply Z.geb_le in T. exact T.
Qed.

Lemma yu_rollback_nodes_never_negative id vnr items : forall g nm g' nm',
    demands_nonneg vnr ->
    yu_rollback_nodes id vnr items g nm = Some (g', nm') ->
    never_negative g -> never_negative g'.
Proof.
  induction items as [|[v s] items IH]; intros g nm g' nm' D; simpl.
  - intros E. inversion E; subst. auto.
  - destruct (get_cpu_req vnr v) as [r|] eqn:R; [|discriminate].
    destruct (cpu_available_add g s r) as [g1|] eqn:C; [|discriminate].
    destruct (dict_pop nm (id, v)) as [nm1|]; [|discriminate].
    intros E NN. eapply IH; [exact D | exact E|].
    eapply credit_cpu_never_negative; [exact C | | exact NN].
    eapply (proj1 D). exact R.
Qed.

Lemma yu_release_nodes_never_negative id vnr v_nodes : forall g nm g' nm',
    demands_nonneg vnr ->
    yu_release_nodes id vnr v_nodes g nm = Some (g', nm') ->
    never_negative g -> never_negative g'.
Proof.
  induction v_nodes as [|v v_nodes IH]; intros g nm g' nm' D; simpl.
  - intros E. inversion E; subst. auto.
  - destruct (dict_get nm (id, v)) as [s|]; [|discriminate].
    destruct (get_cpu_req vnr v) as [r|] eqn:R; [|discriminate].
    destruct (cpu_available_add g s r) as [g1|] eqn:C; [|discriminate].
    destruct (dict_pop nm (id, v)) as [nm1|]; [|discriminate].
    intros E NN. eapply IH; [exact D | exact E|].
    eapply credit_cpu_never_negative; [exact C | | exact NN].
    eapply (proj1 D). exact R.
Qed.

Lemma yu_credit_path_never_negative g vnr v_edge p g' :
  demands_nonneg vnr ->
  yu_credit_path g vnr v_edge p = Some g' ->
  never_negative g -> never_negative g'.
Proof.
  intros D. destruct p as [|a [|b p]];
    try (intros E; inversion E; subst; auto; fail).
  destruct (get_bandwidth_req vnr v_edge) as [bw|] eqn:R.
  - rewrite (yu_credit_path_run _ _ _ _ R), <- deallocate_path_run.
    intros E. eapply deallocate_path_never_negative; [exact E|].
    eapply (proj2 D). exact R.
  - simpl. rewrite R. discriminate.
Qed.

Lemma yu_release_links_never_negative id vnr v_edges : forall g lm g' lm',
    demands_nonneg vnr ->
    yu_release_links id vnr v_edges g lm = Some (g', lm') ->
    never_negative g -> never_negative g'.
Proof.
  induction v_edges as [|e v_edges IH]; intros g lm g' lm' D;
    cbn [yu_release_links].
  - intros E. inversion E; subst. auto.
  - destruct (dict_get lm (id, e)) as [p|]; [|apply IH; exact D].
    destruct (dict_pop lm (id, e)) as [lm1|]; [|discriminate].
    destruct (yu_credit_path g vnr e p) as [g1|] eqn:C; [|discriminate].
    intros E NN. eapply IH; [exact D | exact E|].
    eapply yu_credit_path_never_negative; eauto.
Qed.

Lemma yu_release_never_negative vnr st st' :
  demands_nonneg (vnr_graph vnr) ->
  yu_release vnr st = Some st' ->
  never_negative (yu_substrate st) -> never_negative (yu_substrate st').
Proof.
  intros D. unfold yu_release.
  destruct (yu_release_nodes _ _ _ _ _) as [[g nm]|] eqn:Rn; [|discriminate].
  destruct (yu_release_links _ _ _ _ _) as [[g' lm]|] eqn:Rl;
    [|discriminate].
  intros E NN. inversion E; subst. simpl in *.
  eapply yu_release_links_never_negative; [exact D | exact Rl|].
  eapply yu_release_nodes_never_negative; eauto.
Qed.

Lemma yu_map_nodes_never_negative id vnr cands v_nodes :
  forall g nm vnm g' nm' vnm' ok,
    demands_nonneg vnr ->
    yu_map_nodes id vnr cands v_nodes g nm vnm = Some (g', nm', vnm', ok) ->
    never_negative g -> never_negative g'.
Proof.
  induction v_nodes as [|v v_nodes IH]; intros g nm vnm g' nm' vnm' ok D;
    simpl.
  - intros E. inversion E; subst. auto.
  - destruct (get_cpu_req vnr v) as [r|]; [|discriminate].
    destruct (yu_pick g vnm r cands) as [[s|]|] eqn:P; try discriminate.
    + destruct (cpu_available_sub g s r) as [g1|] eqn:S; [|discriminate].
      intros E NN. eapply IH; [exact D | exact E|].
      destruct (yu_pick_spec _ _ _ _ P) as [c [C L]].
      eapply debit_cpu_never_negative; eauto.
    + destruct (yu_rollback_nodes id vnr vnm g nm) as [[g1 nm1]|] eqn:Rb;
        [|discriminate].
      intros E NN. inversion E; subst. simpl.
      eapply yu_rollback_nodes_never_negative; eauto.
Qed.

Lemma firstn_incl_list {A} (x : A) : forall n l, In x (firstn n l) -> In x l.
Proof.
  induction n as [|n IH]; intros [|y l]; simpl; try tauto.
  intros [E|I]; [left; exact E | right; apply IH; exact I].
Qed.

Section NeverOverdrawn.
Context `{Networkx}.
Hypothesis simple : simple_paths_only _.

Lemma yu_try_paths_spec g bw paths p :
  yu_try_paths g bw paths = Some (Some p) ->
  In p paths /\ path_can_allocate g bw p = Some true.
Proof.
  induction paths as [|q paths IH]; simpl; [discriminate|].
  destruct (path_can_allocate g bw q) as [[|]|] eqn:C; try discriminate.
  - intros E. inversion E; subst. auto.
  - intros E. destruct (IH E). auto.
Qed.

Lemma yu_try_k_spec g bw s d ks p :
  yu_try_k g bw s d ks = Some (Some p) ->
  NoDup p /\ path_can_allocate g bw p = Some true.
Proof.
  induction ks as [|k ks IH]; cbn [yu_try_k]; [discriminate|].
  destruct (firstn k (shortest_simple_paths g s d)) as [|q qs] eqn:F;
    [discriminate|].
  destruct (yu_try_paths g bw (q :: qs)) as [[found|]|] eqn:T;
    try discriminate; [|exact IH].
  intros E. inversion E; subst.
  destruct (yu_try_paths_spec _ _ _ T) as [I C]. split; [|exact C].
  apply (simple g s d). rewrite <- F in I.
  eapply firstn_incl_list. exact I.
Qed.

Lemma yu_map_links_never_negative id vnr nm v_edges : forall g lm g' lm' ok,
    yu_map_links id vnr v_edges g nm lm = Some (g', lm', ok) ->
    never_negative g -> never_negative g'.
Proof.
  induction v_edges as [|e v_edges IH]; intros g lm g' lm' ok;
    cbn [yu_map_links].
  - intros E. inversion E; subst. auto.
  - destruct (dict_get nm (id, fst e)) as [s|]; [|discriminate].
    destruct (dict_get nm (id, snd e)) as [d|]; [|discriminate].
    destruct (get_bandwidth_req vnr e) as [bw|]; [|discriminate].
    destruct (yu_try_k g bw s d [1; 2; 3]) as [[p|]|] eqn:T;
      try discriminate.
    + destruct (allocate_path g bw p) as [g1|] eqn:A; [|discriminate].
      intros E NN. eapply IH; [exact E|].
      destruct (yu_try_k_spec _ _ _ _ _ T) as [N C].
      eapply allocate_path_never_negative; eauto.
    + intros E. inversion E; subst. auto.
Qed.

Lemma yu_mark_failed_good v st failed st' failed' :
  yu_mark_failed v st failed = Some (st', failed') ->
  demands_nonneg (vnr_graph v) -> all_good failed ->
  yu_substrate st' = yu_substrate st /\ yu_active st' = yu_active st
  /\ all_good failed'.
Proof.
  unfold yu_mark_failed.
  destruct (dict_get (yu_retried st) (obj_id v)) as [[|]|]; try discriminate;
    intros E G F; inversion E; subst; simpl;
    (split; [reflexivity|split; [reflexivity|]]); [exact F|].
  intros w I. apply in_app_iff in I. destruct I as [I|[<-|[]]]; auto.
Qed.

Lemma yu_phase1_never_negative v st failed mapped st' failed' mapped' :
  demands_nonneg (vnr_graph v) ->
  yu_phase1 v (st, failed, mapped) = Some (st', failed', mapped') ->
  never_negative (yu_substrate st) /\ active_good st
  /\ all_good failed /\ all_good mapped ->
  never_negative (yu_substrate st') /\ active_good st'
  /\ all_good failed' /\ all_good mapped'.
Proof.
  intros G. unfold yu_phase1.
  destruct (mapM _ _) as [reqs|]; [|discriminate].
  destruct (list_min reqs) as [m|]; [|discriminate].
  destruct (filterM _ _) as [[|s0 S_nodes]|]; try discriminate.
  - destruct (yu_mark_failed v st failed) as [[st1 f1]|] eqn:M;
      [|discriminate].
    intros E [NN [A [F Mp]]]. inversion E; subst.
    destruct (@yu_mark_failed_good _ _ _ _ _ M G F) as [Es [Ea F']].
    unfold active_good. rewrite Es, Ea. auto.
  - destruct (sorted_desc_by _ _) as [sn|]; [|discriminate].
    destruct (yu_map_nodes _ _ _ _ _ _ _) as [[[[g nm] vnm] ok]|] eqn:Mn;
      [|discriminate].
    intros E [NN [A [F Mp]]].
    assert (NN' : never_negative g)
      by (eapply yu_map_nodes_never_negative; [exact G|exact Mn|exact NN]).
    destruct ok.
    + inversion E; subst. simpl. split; [exact NN'|]. split; [exact A|].
      split; [exact F|].
      intros w I. apply in_app_iff in I. destruct I as [I|[<-|[]]]; auto.
    + destruct (yu_mark_failed v _ failed) as [[st1 f1]|] eqn:M;
        [|discriminate].
      inversion E; subst.
      destruct (@yu_mark_failed_good _ _ _ _ _ M G F) as [Es [Ea F']].
      unfold active_good. rewrite Es, Ea. simpl. auto.
Qed.

Lemma yu_release_active vnr st st' :
  yu_release vnr st = Some st' -> yu_active st' = yu_active st.
Proof.
  unfold yu_release.
  destruct (yu_release_nodes _ _ _ _ _) as [[g2 nm2]|]; [|discriminate].
  destruct (yu_release_links _ _ _ _ _) as [[g3 lm3]|]; [|discriminate].
  intros E. inversion E; subst. reflexivity.
Qed.

Lemma yu_phase2_never_negative t v st failed st' failed' :
  demands_nonneg (vnr_graph v) ->
  yu_phase2 t v (st, failed) = Some (st', failed') ->
  never_negative (yu_substrate st) /\ active_good st /\ all_good failed ->
  never_negative (yu_substrate st') /\ active_good st' /\ all_good failed'.
Proof.
  intros G. unfold yu_phase2.
  destruct (yu_map_links _ _ _ _ _ _) as [[[g lm] ok]|] eqn:Ml;
    [|discriminate].
  intros E [NN [A F]].
  assert (NN' : never_negative g)
    by (eapply yu_map_links_never_negative; [exact Ml|exact NN]).
  destruct ok.
  - inversion E; subst. simpl. split; [exact NN'|]. split; [|exact F].
    intros x I. simpl in I. apply dict_set_In_values in I.
    destruct I as [->|I]; [exact G | apply A; exact I].
  - destruct (yu_release v _) as [st2|] eqn:R; [|discriminate].
    assert (NN2 : never_negative (yu_substrate st2))
      by (eapply yu_release_never_negative; [exact G|exact R|exact NN']).
    destruct (@yu_mark_failed_good _ _ _ _ _ E G F) as [Es [Ea F']].
    unfold active_good. rewrite Es, Ea. split; [exact NN2|].
    split; [|exact F'].
    rewrite (@yu_release_active _ _ _ R). exact A.
Qed.

Lemma foldM_phase1_never_negative l : forall st failed mapped st' failed' mapped',
    all_good l ->
    foldM yu_phase1 l (st, failed, mapped) = Some (st', failed', mapped') ->
    never_negative (yu_substrate st) /\ active_good st
    /\ all_good failed /\ all_good mapped ->
    never_negative (yu_substrate st') /\ active_good st'
    /\ all_good failed' /\ all_good mapped'.
Proof.
  induction l as [|v l IH]; intros st failed mapped st' failed' mapped' G;
    cbn [foldM].
  - intros E. inversion E; subst. auto.
  - destruct (yu_phase1 v (st, failed, mapped)) as [[[st1 f1] m1]|] eqn:P;
      [|discriminate].
    intros E I. eapply IH; [|exact E|].
    + intros w Hw. apply G. right. exact Hw.
    + eapply yu_phase1_never_negative; [|exact P|exact I].
      apply G. left. reflexivity.
Qed.

Lemma foldM_phase2_never_negative t l : forall st failed st' failed',
    all_good l ->
    foldM (yu_phase2 t) l (st, failed) = Some (st', failed') ->
    never_negative (yu_substrate st) /\ active_good st /\ all_good failed ->
    never_negative (yu_substrate st') /\ active_good st' /\ all_good failed'.
Proof.
  induction l as [|v l IH]; intros st failed st' failed' G; cbn [foldM].
  - intros E. inversion E; subst. auto.
  - destruct (yu_phase2 t v (st, failed)) as [[st1 f1]|] eqn:P;
      [|discriminate].
    intros E I. eapply IH; [|exact E|].
    + intros w Hw. apply G. right. exact Hw.
    + eapply yu_phase2_never_negative; [|exact P|exact I].
      apply G. left. reflexivity.
Qed.
End NeverOverdrawn.

Lemma dict_del_In_values {K V} `{Key K} (d : dict K V) k x :
  In x (dict_values (dict_del d k)) -> In x (dict_values d).
Proof.
  unfold dict_values, dict_del. intros I.
  apply in_map_iff in I. destruct I as [e [E I]].
  apply filter_In in I. apply in_map_iff. exists e. tauto.
Qed.

Lemma yu_departures_never_negative t snapshot : forall st st',
    (forall id v d, In (id, (v, d)) snapshot ->
                    demands_nonneg (vnr_graph v)) ->
    yu_departures t snapshot st = Some st' ->
    never_negative (yu_substrate st) /\ active_good st ->
    never_negative (yu_substrate st') /\ active_good st'.
Proof.
  induction snapshot as [|[id [v d]] snapshot IH]; intros st st' G;
    cbn [yu_departures].
  - intros E. inversion E; subst. auto.
  - assert (G' : forall id v d, In (id, (v, d)) snapshot ->
                                demands_nonneg (vnr_graph v))
      by (intros i w dd I; eapply G; right; exact I).
    destruct (d <=? t)%Z; [|apply IH; exact G'].
    destruct (yu_release v st) as [st1|] eqn:R; [|discriminate].
    intros E [NN A]. eapply IH; [exact G' | exact E|].
    split.
    + unfold with_active. simpl.
      eapply yu_release_never_negative; [|exact R|exact NN].
      eapply G. left. reflexivity.
    + intros x I. unfold with_active in I. simpl in I.
      apply dict_del_In_values in I.
      apply A. rewrite <- (@yu_release_active _ _ _ R). exact I.
Qed.

Lemma concat_list_set_In {A} (x : A) (s : list A) (l : list (list A)) : forall i,
    In x (concat (list_set l i s)) -> In x (concat l) \/ In x s.
Proof.
  induction l as [|y l IH]; intros i; [destruct i; simpl; tauto|].
  destruct i as [|i]; cbn [list_set concat]; rewrite !in_app_iff.
  - tauto.
  - intros [I|I]; [tauto|]. destruct (IH i I); tauto.
Qed.

Lemma concat_list_extend_In {A} (x : A) (s : list A) (l : list (list A)) :
  forall i, In x (concat (list_extend l i s)) -> In x (concat l) \/ In x s.
Proof.
  induction l as [|y l IH]; intros i; [destruct i; simpl; tauto|].
  destruct i as [|i]; cbn [list_extend concat]; rewrite !in_app_iff.
  - tauto.
  - intros [I|I]; [tauto|]. destruct (IH i I); tauto.
Qed.

Lemma yu_requeue_good i failed chunks :
  all_good failed -> all_good (concat chunks) ->
  all_good (concat (yu_requeue i failed chunks)).
Proof.
  intros F C. unfold yu_requeue. destruct failed as [|f failed]; [exact C|].
  destruct (_ <? _)%Z.
  - intros x I. apply concat_list_extend_In in I. destruct I; auto.
  - intros x I. rewrite concat_app in I. apply in_app_iff in I.
    destruct I as [I|I]; [auto|]. simpl in I. rewrite app_nil_r in I. auto.
Qed.

Lemma nth_error_concat_In {A} (l : list (list A)) i c x :
  nth_error l i = Some c -> In x c -> In x (concat l).
Proof.
  intros N I. apply in_concat. exists c. split; [|exact I].
  eapply nth_error_In. exact N.
Qed.

Section NeverOverdrawnLoop.
Context `{Networkx}.
Hypothesis simple : simple_paths_only _.

Lemma yu_chunk_never_negative time_window i chunk st chunks st' chunks' :
  nth_error chunks i = Some chunk ->
  yu_chunk time_window i chunk st chunks = Some (st', chunks') ->
  never_negative (yu_substrate st) /\ active_good st
  /\ all_good (concat chunks) ->
  never_negative (yu_substrate st') /\ active_good st'
  /\ all_good (concat chunks').
Proof.
  intros N. unfold yu_chunk.
  destruct (yu_departures _ _ st) as [st1|] eqn:D; [|discriminate].
  destruct (by_revenue_desc chunk) as [sorted_chunk|] eqn:S1; [|discriminate].
  destruct (foldM yu_phase1 _ _) as [[[st2 failed1] mapped]|] eqn:P1;
    [|discriminate].
  destruct (by_revenue_desc mapped) as [mapped_sorted|] eqn:S2;
    [|discriminate].
  destruct (foldM (yu_phase2 _) _ _) as [[st3 failed]|] eqn:P2;
    [|discriminate].
  intros E [NN [A C]]. inversion E; subst.
  apply sorted_desc_by_Permutation in S1, S2.
  assert (Gc : all_good sorted_chunk).
  { intros x I. apply C. eapply nth_error_concat_In; [exact N|].
    eapply Permutation_in; eauto. }
  assert (I1 : never_negative (yu_substrate st1) /\ active_good st1).
  { eapply yu_departures_never_negative; [|exact D|auto].
    intros id v d I. apply (A (v, d)).
    unfold dict_values. change (v, d) with (snd (id, (v, d))).
    apply in_map. exact I. }
  destruct I1 as [NN1 A1].
  assert (I2 : never_negative (yu_substrate st2) /\ active_good st2
               /\ all_good failed1 /\ all_good mapped).
  { eapply foldM_phase1_never_negative; [exact Gc|exact P1|].
    split; [exact NN1|]. split; [exact A1|]. split; intros x []. }
  destruct I2 as [NN2 [A2 [F1 M]]].
  assert (I3 : never_negative (yu_substrate st') /\ active_good st'
               /\ all_good failed).
  { eapply foldM_phase2_never_negative; [exact simple| |exact P2|auto].
    intros x I. apply M. eapply Permutation_in; eauto. }
  destruct I3 as [NN3 [A3 F]].
  split; [exact NN3|]. split; [exact A3|].
  apply yu_requeue_good; [exact F|].
  intros x I. apply concat_list_set_In in I. destruct I; auto.
Qed.

Lemma yu_loop_never_negative time_window fuel : forall i st chunks st' chunks',
    yu_loop time_window fuel i st chunks = Some (Some (st', chunks')) ->
    never_negative (yu_substrate st) /\ active_good st
    /\ all_good (concat chunks) ->
    never_negative (yu_substrate st').
Proof.
  induction fuel as [|fuel IH]; intros i st chunks st' chunks';
    cbn [yu_loop]; destruct (nth_error chunks i) as [chunk|] eqn:N;
    try discriminate;
    try (intros E [NN _]; inversion E; subst; exact NN; fail).
  destruct (yu_chunk time_window i chunk st chunks) as [[st1 chunks1]|] eqn:C;
    [|discriminate].
  intros E I. eapply IH; [exact E|].
  eapply yu_chunk_never_negative; eauto.
Qed.
End NeverOverdrawnLoop.

Lemma simple_paths_from_NoDup g fuel : forall visited cur target p,
    ~ In cur visited ->
    In p (simple_paths_from g fuel visited cur target) ->
    NoDup p /\ (forall x, In x p -> ~ In x visited).
Proof.
  assert (Base : forall (visited : list node) (cur : node) (p : list node),
                   ~ In cur visited -> In p [[cur]] ->
                   NoDup p /\ (forall x, In x p -> ~ In x visited)).
  { intros visited cur p N [<-|[]]. split.
    - constructor; [intros []|constructor].
    - intros x [<-|[]]. exact N. }
  induction fuel as [|fuel IH]; intros visited cur target p N;
    cbn [simple_paths_from]; destruct (Nat.eqb cur target);
    try (apply Base; exact N); [intros []|].
  intros I. apply in_flat_map in I. destruct I as [nb [_ I]].
  destruct (mem nb (cur :: visited)) eqn:M; [destruct I|].
  apply in_map_iff in I. destruct I as [q [<- I]].
  apply mem_not_In in M.
  destruct (IH _ _ _ _ M I) as [Nq Dq]. split.
  - constructor; [|exact Nq]. intros Ic. apply (Dq cur Ic). left. reflexivity.
  - intros x [<-|Ix]; [exact N|].
    intros Iv. apply (Dq x Ix). right. exact Iv.
Qed.

Lemma reference_paths_are_simple : simple_paths_only reference_paths.
Proof.
  intros g s t p I. simpl in I. unfold by_length in I.
  apply (Permutation_in _ (sorted_asc_Permutation _ _ _)) in I.
  unfold all_simple_paths in I.
  destruct (mem s (node_list g) && mem t (node_list g)); [|destruct I].
  eapply simple_paths_from_NoDup; [|exact I]. intros [].
Qed.

(** X18. With path queries that return simple paths only, a substrate no
    capacity of which is negative and requests no requirement of which is
    negative, the chunked baseline leaves no available CPU and no available
    bandwidth of the substrate negative. *)
Theorem yu_never_overdraws `{Networkx} substrate vnr_chunks flags time_window
        results st chunks' :
  simple_paths_only _ ->
  never_negative substrate ->
  (forall v, In v (concat vnr_chunks) -> demands_nonneg (vnr_graph v)) ->
  yu2008_algorithm substrate vnr_chunks flags time_window
  = Some (results, st, chunks') ->
  never_negative (yu_substrate st).
Proof.
  intros simple NN G. unfold yu2008_algorithm.
  destruct (yu_loop _ _ _ _ _) as [[[st1 chunks1]|]|] eqn:L; try discriminate.
  cbn [fst snd]. destruct (mapM _ _) as [rs|]; [|discriminate].
  intros E. inversion E; subst.
  eapply yu_loop_never_negative; [exact simple|exact L|].
  split; [exact NN|]. split; [intros x []|exact G].
Qed.

Lemma request2_demands_nonneg o id arrival life c b :
  (0 <= c)%Z -> (0 <= b)%Z ->
  demands_nonneg (vnr_graph (request2 o id arrival life c b)).
Proof.
  intros C B. split.
  - intros n r E. destruct n as [|[|n]]; cbv in E; inversion E; lia.
  - intros [x y] r. unfold get_bandwidth_req, edge_attrs.
    cbn [request2 vnr_graph edges find fst].
    destruct (same_edge (0, 1) (x, y)); intros E; cbv in E; inversion E; lia.
Qed.

Lemma narrow_pair_reset_never_negative : never_negative narrow_pair_reset.
Proof.
  split.
  - intros n r E. destruct n as [|[|n]]; cbv in E; inversion E; lia.
  - intros [x y] r. unfold get_bandwidth_available, edge_attrs.
    cbn [narrow_pair_reset edges find fst].
    destruct (same_edge (0, 1) (x, y)); intros E; cbv in E; inversion E; lia.
Qed.

Lemma yu_never_overdraws_witness :
  simple_paths_only reference_paths
  /\ never_negative narrow_pair_reset
  /\ (forall v, In v (concat [overlapping_queue]) ->
                demands_nonneg (vnr_graph v))
  /\ exists run,
      @yu2008_algorithm reference_paths narrow_pair_reset [overlapping_queue]
                        [(0, false); (1, false)] 25 = Some run
      /\ never_negative (yu_substrate (snd (fst run))).
Proof.
  assert (G : forall v, In v (concat [overlapping_queue]) ->
                        demands_nonneg (vnr_graph v)).
  { intros v [<-|[<-|[]]]; apply request2_demands_nonneg; lia. }
  assert (E : exists run,
             @yu2008_algorithm reference_paths narrow_pair_reset
                               [overlapping_queue]
                               [(0, false); (1, false)] 25 = Some run)
    by (vm_compute; eexists; reflexivity).
  destruct E as [[[results st] vnr_chunks'] E].
  split; [exact reference_paths_are_simple|].
  split; [exact narrow_pair_reset_never_negative|].
  split; [exact G|].
  exists (results, st, vnr_chunks'). split; [exact E|].
  exact (@yu_never_overdraws reference_paths _ _ _ _ _ _ _
           reference_paths_are_simple narrow_pair_reset_never_negative G E).
Defined.

(** ** What a successful BFS embedding looks like *)

Lemma dict_set_In {K V} `{Key K} (d : dict K V) k v x :
  In x (dict_set d k v) -> x = (k, v) \/ In x d.
Proof.
  induction d as [|[k' v'] d IH]; simpl.
  - intuition.
  - destruct (keyb k' k) eqn:E; simpl.
    + apply keyb_eq in E. subst. intuition.
    + intuition.
Qed.

Lemma dict_update_In {K V} `{Key K} (extra : dict K V) : forall d x,
    In x (dict_update d extra) -> In x d \/ In x extra.
Proof.
  unfold dict_update.
  induction extra as [|[k v] extra IH]; intros d x; simpl; [tauto|].
  intros I. apply IH in I. destruct I as [I|I]; [|tauto].
  apply dict_set_In in I. destruct I as [->|I]; tauto.
Qed.

Lemma dict_get_set_keep {K V} `{Key K} (d : dict K V) k v k' x :
  ~ In k (dict_keys d) -> dict_get d k' = Some x ->
  dict_get (dict_set d k v) k' = Some x.
Proof.
  intros N G. rewrite dict_get_set. destruct (keyb k k') eqn:E; [|exact G].
  apply keyb_eq in E. subst k'. apply dict_get_keys in G. contradiction.
Qed.

Lemma NoDup_append {A} (a b : list A) :
  NoDup a -> NoDup b -> (forall x, In x a -> ~ In x b) -> NoDup (a ++ b).
Proof.
  induction a as [|x a IH]; intros Na Nb D; simpl; [exact Nb|].
  inversion Na as [|? ? Nx Na']; subst. constructor.
  - rewrite in_app_iff. intros [I|I]; [exact (Nx I)|].
    exact (D x (or_introl eq_refl) I).
  - apply IH; [exact Na' | exact Nb|].
    intros y I. apply D. right. exact I.
Qed.

Lemma NoDup_prefix {A} (a b : list A) : NoDup (a ++ b) -> NoDup a.
Proof.
  induction a as [|x a IH]; simpl; intros N; [constructor|].
  inversion N as [|? ? Nx N']; subst. constructor; [|exact (IH N')].
  intros I. apply Nx. apply in_app_iff. left. exact I.
Qed.

Lemma NoDup_last_fresh {A} (a : list A) x : NoDup (a ++ [x]) -> ~ In x a.
Proof.
  induction a as [|y a IH]; simpl; intros N; [tauto|].
  inversion N as [|? ? Ny N']; subst. intros [->|I].
  - apply Ny. apply in_app_iff. right. left. reflexivity.
  - exact (IH N' I).
Qed.

Lemma dict_del_keys_last {V} (d : dict node V) (l : list node) k :
  NoDup (l ++ [k]) -> dict_keys d = l ++ [k] -> dict_keys (dict_del d k) = l.
Proof.
  intros N. pose proof (NoDup_last_fresh _ _ N) as F. clear N.
  revert l F. unfold dict_keys, dict_del.
  induction d as [|[k' v] d IH]; intros l F E; simpl in E.
  - destruct l; discriminate.
  - destruct l as [|y l]; simpl in E.
    + inversion E as [[Ek El]]. subst k'.
      destruct d; [|discriminate]. cbn [filter map fst].
      rewrite keyb_refl. reflexivity.
    + inversion E as [[Ek El]]. subst k'. cbn [filter map fst].
      destruct (keyb y k) eqn:Q.
      * apply keyb_eq in Q. subst. exfalso. apply F. left. reflexivity.
      * cbn [negb map fst]. f_equal. apply IH; [|exact El].
        intros I. apply F. right. exact I.
Qed.

Section BfsFeasible.
Context `{Networkx}.
Variables (substrate vnr : Graph) (bfs_order : list node)
          (bfs_parents : dict node (option node))
          (candidate_lists : dict node (list node))
          (max_hop max_backtrack : nat).

Lemma match_links_spec v s cur nbrs : forall acc lm,
    match_links substrate vnr v s cur nbrs acc = Some (Some lm) ->
    forall e p, In (e, p) lm ->
                In (e, p) acc \/ bfs_new_link substrate vnr v s cur e p.
Proof.
  induction nbrs as [|nb nbrs IH]; intros acc lm; cbn [match_links].
  - intros E. inversion E; subst. auto.
  - destruct (dict_get cur nb) as [s2|] eqn:G; [|apply IH].
    destruct (bandwidth_req_or0 vnr (v, nb)) as [bw|] eqn:B; [|discriminate].
    destruct (shortest_path substrate s s2) as [path|] eqn:P; [|discriminate].
    destruct (path_feasible substrate bw path) as [[|]|] eqn:F;
      try discriminate.
    intros E e p I. destruct (IH _ _ E e p I) as [I'|N]; [|right; exact N].
    apply dict_set_In in I'. destruct I' as [X|I']; [|left; exact I'].
    inversion X; subst. right. exists s2, bw. simpl. auto.
Qed.

Lemma match_at_hop_spec v nm k cands s found :
  match_at_hop substrate vnr v nm bfs_parents k cands
  = Some (Some (s, found)) ->
  In s cands
  /\ (cpu_req_or0 vnr v <= cpu_available_or0 substrate s)%Z
  /\ forall e p, In (e, p) found -> bfs_new_link substrate vnr v s nm e p.
Proof.
  induction cands as [|c cands IH]; simpl; [discriminate|].
  assert (IH' : match_at_hop substrate vnr v nm bfs_parents k cands
                = Some (Some (s, found)) ->
                (c = s \/ In s cands)
                /\ (cpu_req_or0 vnr v <= cpu_available_or0 substrate s)%Z
                /\ forall e p, In (e, p) found ->
                               bfs_new_link substrate vnr v s nm e p)
    by (intros E; destruct (IH E) as [I R]; split; [right; exact I|exact R]).
  destruct (mem c (dict_values nm)) eqn:M; [exact IH'|].
  destruct (cpu_available_or0 substrate c <? cpu_req_or0 vnr v)%Z eqn:C;
    [exact IH'|].
  destruct (check_hop_constraint _ _ _ _ _ _) as [[|]|]; try discriminate;
    [|exact IH'].
  destruct (match_links _ _ _ _ _ _ _) as [[l|]|] eqn:L; try discriminate;
    [|exact IH'].
  intros E. inversion E; subst. split; [left; reflexivity|].
  split; [apply Z.ltb_ge in C; exact C|].
  intros e p I. destruct (match_links_spec _ _ _ _ _ L e p I) as [[]|N].
  exact N.
Qed.

Lemma match_hops_spec v cands nm ks s found :
  match_hops substrate vnr v cands nm bfs_parents ks
  = Some (Some (s, found)) ->
  In s cands
  /\ (cpu_req_or0 vnr v <= cpu_available_or0 substrate s)%Z
  /\ forall e p, In (e, p) found -> bfs_new_link substrate vnr v s nm e p.
Proof.
  induction ks as [|k ks IH]; simpl; [discriminate|].
  destruct (match_at_hop _ _ _ _ _ _ _) as [[[s' f']|]|] eqn:M;
    try discriminate; [|exact IH].
  intros E. inversion E; subst. eapply match_at_hop_spec. exact M.
Qed.

Lemma match_vnr_node_spec v cands nm s found :
  match_vnr_node substrate vnr v cands nm bfs_parents max_hop
  = Some (Some (s, found)) ->
  In s cands
  /\ (cpu_req_or0 vnr v <= cpu_available_or0 substrate s)%Z
  /\ forall e p, In (e, p) found -> bfs_new_link substrate vnr v s nm e p.
Proof.
  unfold match_vnr_node. destruct nm as [|x nm].
  - destruct (find _ cands) as [c|] eqn:F; simpl; [|discriminate].
    intros E. inversion E; subst. apply find_some in F.
    destruct F as [I C]. apply Z.geb_le in C.
    split; [exact I|]. split; [exact C|]. intros e p [].
  - apply match_hops_spec.
Qed.

Hypothesis order_NoDup : NoDup bfs_order.

Lemma bfs_order_next_fresh i v :
  nth_error bfs_order i = Some v -> ~ In v (firstn i bfs_order).
Proof.
  intros N. apply NoDup_last_fresh.
  rewrite <- (firstn_nth_error _ _ N).
  apply (NoDup_prefix _ (skipn (S i) bfs_order)).
  rewrite firstn_skipn. exact order_NoDup.
Qed.

Lemma bfs_turn_keeps_inv st st' :
  bfs_turn substrate vnr bfs_order bfs_parents candidate_lists
           max_hop max_backtrack st = Some (inl st') ->
  bfs_inv substrate vnr bfs_order candidate_lists st ->
  bfs_inv substrate vnr bfs_order candidate_lists st'.
Proof.
  unfold bfs_turn. intros T [Keys [Nodes Links]].
  destruct (nth_error bfs_order (current_index st)) as [v|] eqn:Nth;
    [|discriminate].
  destruct (dict_get candidate_lists v) as [cands|] eqn:Gc; [|discriminate].
  destruct (dict_get (tried_candidates st) v) as [tried|]; [|discriminate].
  destruct (match_vnr_node _ _ _ _ _ _ _) as [[[s found]|]|] eqn:M;
    try discriminate.
  - inversion T; subst. clear T.
    destruct (match_vnr_node_spec _ _ _ M) as [Is [Cpu New]].
    assert (Fresh : ~ In v (dict_keys (bt_node_mapping st))).
    { rewrite Keys. apply bfs_order_next_fresh. exact Nth. }
    unfold bfs_inv. cbn [bt_node_mapping bt_link_mapping current_index].
    split; [|split].
    + rewrite (@dict_set_fresh _ _ _ _ v s Fresh). unfold dict_keys in *.
      rewrite map_app, Keys. simpl.
      symmetry. apply firstn_nth_error. exact Nth.
    + intros v' s' I. apply dict_set_In in I. destruct I as [X|I].
      * inversion X; subst. exists cands. split; [exact Gc|].
        split; [|exact Cpu]. apply filter_In in Is. tauto.
      * apply Nodes. exact I.
    + intros e p I. apply dict_update_In in I. destruct I as [I|I].
      * destruct (Links e p I) as [s1 [s2 [bw [G1 [G2 R]]]]].
        exists s1, s2, bw.
        split; [apply dict_get_set_keep; assumption|].
        split; [apply dict_get_set_keep; assumption|]. exact R.
      * destruct (New e p I) as [s2 [bw [Ev [G2 R]]]].
        exists s, s2, bw.
        split; [rewrite Ev, dict_get_set, keyb_refl; reflexivity|].
        split; [apply dict_get_set_keep; assumption|]. exact R.
  - destruct ((backtrack_count st <? max_backtrack) && (0 <? current_index st))
             eqn:B; [|discriminate].
    apply andb_true_iff in B. destruct B as [_ B]. apply Nat.ltb_lt in B.
    destruct (nth_error bfs_order (current_index st - 1)) as [prev|] eqn:Np;
      [|discriminate].
    assert (Kp : dict_keys (bt_node_mapping st)
                 = firstn (current_index st - 1) bfs_order ++ [prev]).
    { rewrite Keys. rewrite <- (firstn_nth_error _ _ Np).
      f_equal. lia. }
    destruct (dict_get (bt_node_mapping st) prev) as [chosen|] eqn:Gp.
    + destruct (dict_get (fold_left _ _ _) prev) as [old|]; [|discriminate].
      inversion T; subst. clear T.
      unfold bfs_inv. cbn [bt_node_mapping bt_link_mapping current_index snd].
      split; [|split].
      * apply dict_del_keys_last; [|exact Kp].
        rewrite <- (firstn_nth_error _ _ Np).
        apply (NoDup_prefix _ (skipn (S (current_index st - 1)) bfs_order)).
        rewrite firstn_skipn. exact order_NoDup.
      * intros v' s' I. unfold dict_del in I. apply filter_In in I.
        apply Nodes. tauto.
      * intros e p I. apply filter_In in I. destruct I as [I Q].
        cbn [fst snd] in Q.
        apply negb_true_iff, orb_false_iff in Q. destruct Q as [Q1 Q2].
        destruct (Links e p I) as [s1 [s2 [bw [G1 [G2 R]]]]].
        exists s1, s2, bw. rewrite !dict_get_del.
        change (keyb prev (fst e)) with (Nat.eqb prev (fst e)).
        change (keyb prev (snd e)) with (Nat.eqb prev (snd e)).
        rewrite Q1, Q2. auto.
    + exfalso. apply (dict_get_key_present (bt_node_mapping st) prev);
        [|exact Gp].
      rewrite Kp. apply in_app_iff. right. left. reflexivity.
Qed.

Lemma bfs_turn_final st nm lm :
  bfs_turn substrate vnr bfs_order bfs_parents candidate_lists
           max_hop max_backtrack st = Some (inr (Some nm, Some lm, true)) ->
  nm = bt_node_mapping st /\ lm = bt_link_mapping st
  /\ nth_error bfs_order (current_index st) = None.
Proof.
  unfold bfs_turn.
  destruct (nth_error bfs_order (current_index st)) as [v|].
  - destruct (dict_get candidate_lists v); [|discriminate].
    destruct (dict_get (tried_candidates st) v); [|discriminate].
    destruct (match_vnr_node _ _ _ _ _ _ _) as [[[s found]|]|];
      try discriminate.
    destruct ((backtrack_count st <? max_backtrack) && (0 <? current_index st));
      [|discriminate].
    destruct (nth_error bfs_order (current_index st - 1)); [|discriminate].
    destruct (match dict_get (bt_node_mapping st) _ with
              | Some _ => _ | None => _ end); discriminate.
  - intros E. inversion E. auto.
Qed.

Lemma bfs_loop_keeps_inv fuel : forall st nm lm,
    bfs_inv substrate vnr bfs_order candidate_lists st ->
    bfs_loop substrate vnr bfs_order bfs_parents candidate_lists
             max_hop max_backtrack fuel st
    = Some (Some (Some nm, Some lm, true)) ->
    dict_keys nm = bfs_order
    /\ (forall v s, In (v, s) nm ->
          exists cands, dict_get candidate_lists v = Some cands /\ In s cands
                        /\ (cpu_req_or0 vnr v
                            <= cpu_available_or0 substrate s)%Z)
    /\ (forall e p, In (e, p) lm -> bfs_link_ok substrate vnr nm e p).
Proof.
  assert (Fin : forall st nm lm,
             bfs_inv substrate vnr bfs_order candidate_lists st ->
             bfs_turn substrate vnr bfs_order bfs_parents candidate_lists
                      max_hop max_backtrack st
             = Some (inr (Some nm, Some lm, true)) ->
             dict_keys nm = bfs_order
             /\ (forall v s, In (v, s) nm ->
                   exists cands,
                     dict_get candidate_lists v = Some cands /\ In s cands
                     /\ (cpu_req_or0 vnr v
                         <= cpu_available_or0 substrate s)%Z)
             /\ (forall e p, In (e, p) lm ->
                             bfs_link_ok substrate vnr nm e p)).
  { intros st nm lm [Keys [Nodes Links]] T.
    apply bfs_turn_final in T. destruct T as [-> [-> N]].
    split; [|split; assumption].
    rewrite Keys. apply firstn_all2. apply nth_error_None. exact N. }
  induction fuel as [|fuel IH]; intros st nm lm I; cbn [bfs_loop];
    destruct (bfs_turn _ _ _ _ _ _ _ st) as [[st'|r]|] eqn:T;
    try discriminate.
  - intros E. inversion E; subst. eapply Fin; eauto.
  - apply IH. eapply bfs_turn_keeps_inv; eauto.
  - intros E. inversion E; subst. eapply Fin; eauto.
Qed.
End BfsFeasible.

(** The BFS order never lists a node twice. *)
Lemma bfs_scan_fresh parent nbrs :
  forall next visited parents next' visited' parents' (visited0 : list node),
    bfs_scan parent nbrs (next, visited, parents)
    = (next', visited', parents') ->
    NoDup next /\ (forall x, In x next -> ~ In x visited0)
    /\ incl next visited /\ incl visited0 visited ->
    NoDup next' /\ (forall x, In x next' -> ~ In x visited0)
    /\ incl next' visited' /\ incl visited0 visited'.
Proof.
  induction nbrs as [|nb nbrs IH];
    intros next visited parents next' visited' parents' visited0;
    cbn [bfs_scan].
  - intros E. inversion E; subst. auto.
  - destruct (mem nb visited) eqn:M; [apply IH|].
    apply mem_not_In in M.
    intros E [N [F [I1 I0]]]. eapply IH; [exact E|].
    split; [|split; [|split]].
    + apply NoDup_append; [exact N | constructor; [intros []|constructor]|].
      intros x Ix [<-|[]]. apply M. apply I1. exact Ix.
    + intros x Ix. apply in_app_iff in Ix. destruct Ix as [Ix|[<-|[]]].
      * apply F. exact Ix.
      * intros Iv. apply M. apply I0. exact Iv.
    + intros x Ix. apply in_app_iff in Ix. destruct Ix as [Ix|[<-|[]]].
      * right. apply I1. exact Ix.
      * left. reflexivity.
    + intros x Ix. right. apply I0. exact Ix.
Qed.

Lemma bfs_next_level_fresh vnr level :
  forall next visited parents next' visited' parents' (visited0 : list node),
    fold_left (fun st n => bfs_scan n (neighbors vnr n) st) level
              (next, visited, parents)
    = (next', visited', parents') ->
    NoDup next /\ (forall x, In x next -> ~ In x visited0)
    /\ incl next visited /\ incl visited0 visited ->
    NoDup next' /\ (forall x, In x next' -> ~ In x visited0)
    /\ incl next' visited' /\ incl visited0 visited'.
Proof.
  induction level as [|n level IH];
    intros next visited parents next' visited' parents' visited0;
    cbn [fold_left].
  - intros E. inversion E; subst. auto.
  - destruct (bfs_scan n (neighbors vnr n) (next, visited, parents))
      as [[n1 v1] p1] eqn:S.
    intros E I. eapply IH; [exact E|]. eapply bfs_scan_fresh; eauto.
Qed.

Lemma bfs_levels_NoDup vnr r fuel :
  forall current visited order parents order' parents',
    bfs_levels vnr r fuel current visited order parents = (order', parents') ->
    NoDup (order ++ current) -> incl (order ++ current) visited ->
    NoDup order'.
Proof.
  induction fuel as [|fuel IH];
    intros current visited order parents order' parents';
    destruct current as [|c current]; cbn [bfs_levels];
    try (intros E N _; inversion E; subst;
         apply (NoDup_prefix _ _ N); fail).
  set (level := by_rank_desc r (c :: current)).
  assert (P : Permutation level (c :: current))
    by apply sorted_desc_Permutation.
  destruct (bfs_next_level vnr level visited parents) as [[next v'] p']
    eqn:L.
  intros E N I.
  unfold bfs_next_level in L.
  eapply bfs_next_level_fresh with (visited0 := visited) in L;
    [|split; [constructor|]; split; [intros x []|];
      split; [intros x []|apply incl_refl]].
  destruct L as [Nn [Fn [In' Iv]]].
  assert (Il : incl (order ++ level) visited).
  { intros x Ix. apply I. apply in_app_iff in Ix. apply in_app_iff.
    destruct Ix as [Ix|Ix]; [left; exact Ix|].
    right. eapply Permutation_in; eauto. }
  eapply IH; [exact E| |].
  - apply NoDup_append; [|exact Nn|].
    + eapply Permutation_NoDup; [|exact N].
      apply Permutation_app_head. apply Permutation_sym. exact P.
    + intros x Ix Inx. apply (Fn x Inx). apply Il. exact Ix.
  - intros x Ix. apply in_app_iff in Ix. destruct Ix as [Ix|Ix].
    + apply Iv. apply Il. exact Ix.
    + apply In'. exact Ix.
Qed.

Lemma construct_bfs_tree_order_NoDup vnr r order parents :
  construct_bfs_tree_order vnr r = Some (order, parents) -> NoDup order.
Proof.
  unfold construct_bfs_tree_order.
  destruct (node_list vnr) as [|n0 rest]; [discriminate|].
  set (fuel := S (length (nodes vnr) + 2 * length (edges vnr))).
  set (root_node := max_by_rank r n0 rest).
  intros E.
  assert (L : bfs_levels vnr r fuel [root_node] [root_node] []
                         [(root_node, None)] = (order, parents))
    by congruence.
  eapply bfs_levels_NoDup; [exact L| |].
  - cbn [app]. constructor; [intros []|constructor].
  - apply incl_refl.
Qed.

Lemma build_candidate_lists_get substrate vnr r v cands :
  dict_get (build_candidate_lists substrate vnr r) v = Some cands ->
  forall s, In s cands ->
            In s (node_list substrate)
            /\ (cpu_req_or0 vnr v <= cpu_available_or0 substrate s)%Z
            /\ (total_bw_req vnr v <= total_bw_available substrate s)%Z.
Proof.
  unfold build_candidate_lists.
  induction (node_list vnr) as [|x l IH]; cbn [map dict_get];
    [discriminate|].
  destruct (keyb x v) eqn:K; [|exact IH].
  apply keyb_eq in K. subst x. intros E. inversion E; subst. clear E.
  intros s I. unfold by_rank_desc in I.
  apply (Permutation_in _ (sorted_desc_Permutation _ _ _)) in I.
  apply filter_In in I. destruct I as [I C].
  apply andb_true_iff in C. destruct C as [C1 C2].
  apply Z.geb_le in C1, C2. auto.
Qed.

(** X19.  A successful BFS embedding: the virtual nodes mapped are exactly
    the BFS order of the request (no node twice); every virtual node sits
    on a substrate node that has enough available CPU for it and enough
    available bandwidth around it for the bandwidth the virtual node needs
    around it; and every entry of the link mapping is the shortest path
    between the images of its two end points, each hop of which has the
    bandwidth the virtual link asks for. *)
Theorem bfs_embedding_is_feasible :
  forall (paths : Networkx) substrate vnr max_hop max_backtrack nm lm,
    rw_bfs_algorithm substrate vnr max_hop max_backtrack
    = Some (Some nm, Some lm, true) ->
    (exists vnr_noderank bfs_parents,
        compute_noderank_default vnr = Some vnr_noderank
        /\ construct_bfs_tree_order vnr vnr_noderank
           = Some (dict_keys nm, bfs_parents))
    /\ NoDup (dict_keys nm)
    /\ (forall v s,
           dict_get nm v = Some s ->
           In s (node_list substrate)
           /\ (cpu_req_or0 vnr v <= cpu_available_or0 substrate s)%Z
           /\ (total_bw_req vnr v <= total_bw_available substrate s)%Z)
    /\ (forall e p,
           dict_get lm e = Some p ->
           exists s1 s2 bw,
             dict_get nm (fst e) = Some s1
             /\ dict_get nm (snd e) = Some s2
             /\ shortest_path substrate s1 s2 = Some p
             /\ bandwidth_req_or0 vnr e = Some bw
             /\ path_feasible substrate bw p = Some true).
Proof.
  intros paths substrate vnr max_hop max_backtrack nm lm.
  unfold rw_bfs_algorithm.
  destruct (compute_noderank_default substrate) as [sr|]; [|discriminate].
  destruct (compute_noderank_default vnr) as [vr|]; [|discriminate].
  destruct (construct_bfs_tree_order vnr vr) as [[order parents]|] eqn:C;
    [|discriminate].
  pose proof (construct_bfs_tree_order_NoDup _ _ C) as N.
  unfold bfs_embedding_with_backtracking.
  destruct (bfs_loop _ _ _ _ _ _ _ _ _) as [[r|]|] eqn:L; try discriminate.
  intros E. inversion E; subst r. clear E.
  eapply bfs_loop_keeps_inv in L; [|exact N|].
  - destruct L as [Keys [Nodes Links]]. subst order.
    split; [exists vr, parents; auto|]. split; [exact N|]. split.
    + intros v s G. apply dict_get_In in G.
      destruct (Nodes v s G) as [cands [Gc [Is _]]].
      eapply build_candidate_lists_get; eauto.
    + intros e p G. apply dict_get_In in G. exact (Links e p G).
  - unfold bfs_inv. simpl. split; [reflexivity|]. split; intros ? ? [].
Qed.

Lemma bfs_embedding_is_feasible_witness :
  @rw_bfs_algorithm reference_paths uneven_pair
                    (vnr_graph (request2 0 1 0 20 10 30)) 3 3
  = Some (Some [(0, 0); (1, 1)], Some [((1, 0), [1; 0])], true)
  /\ NoDup (dict_keys [(0, 0); (1, 1)])
  /\ (forall v s,
         dict_get [(0, 0); (1, 1)] v = Some s ->
         In s (node_list uneven_pair)
         /\ (cpu_req_or0 (vnr_graph (request2 0 1 0 20 10 30)) v
             <= cpu_available_or0 uneven_pair s)%Z
         /\ (total_bw_req (vnr_graph (request2 0 1 0 20 10 30)) v
             <= total_bw_available uneven_pair s)%Z).
Proof.
  assert (E : @rw_bfs_algorithm reference_paths uneven_pair
                                (vnr_graph (request2 0 1 0 20 10 30)) 3 3
              = Some (Some [(0, 0); (1, 1)], Some [((1, 0), [1; 0])], true))
    by (vm_compute; reflexivity).
  split; [exact E|].
  destruct (@bfs_embedding_is_feasible reference_paths _ _ _ _ _ _ E)
    as [_ [N [V _]]].
  split; [exact N | exact V].
Defined.

(** ** The BFS tree construction ends *)

Lemma neighbors_endpoints g n x : In x (neighbors g n) -> In x (endpoints g).
Proof.
  unfold neighbors, endpoints. rewrite !in_flat_map.
  intros [[[u v] a] [I X]]. exists ((u, v), a). split; [exact I|].
  cbn [fst snd] in *.
  destruct (Nat.eqb u n); [destruct X as [<-|[]]; simpl; auto|].
  destruct (Nat.eqb v n); [destruct X as [<-|[]]; simpl; auto|].
  destruct X.
Qed.

Lemma bfs_scan_next_In parent nbrs :
  forall next visited parents next' visited' parents',
    bfs_scan parent nbrs (next, visited, parents)
    = (next', visited', parents') ->
    forall x, In x next' -> In x next \/ In x nbrs.
Proof.
  induction nbrs as [|nb nbrs IH];
    intros next visited parents next' visited' parents'; cbn [bfs_scan].
  - intros E. inversion E; subst. auto.
  - destruct (mem nb visited).
    + intros E x I. destruct (IH _ _ _ _ _ _ E x I); [auto|].
      right. right. assumption.
    + intros E x I. destruct (IH _ _ _ _ _ _ E x I) as [J|J].
      * apply in_app_iff in J. destruct J as [J|[<-|[]]]; [auto|].
        right. left. reflexivity.
      * right. right. exact J.
Qed.

Lemma bfs_next_level_In vnr level :
  forall next visited parents next' visited' parents',
    fold_left (fun st n => bfs_scan n (neighbors vnr n) st) level
              (next, visited, parents)
    = (next', visited', parents') ->
    forall x, In x next' -> In x next \/ In x (endpoints vnr).
Proof.
  induction level as [|n level IH];
    intros next visited parents next' visited' parents'; cbn [fold_left].
  - intros E. inversion E; subst. auto.
  - destruct (bfs_scan n (neighbors vnr n) (next, visited, parents))
      as [[n1 v1] p1] eqn:S.
    intros E x I. destruct (IH _ _ _ _ _ _ E x I) as [J|J]; [|auto].
    destruct (bfs_scan_next_In _ _ _ _ _ S x J) as [K|K]; [auto|].
    right. eapply neighbors_endpoints. exact K.
Qed.

Lemma filter_unvisited_le (E v v' : list node) :
  incl v v' ->
  length (filter (fun x => negb (mem x v')) E)
  <= length (filter (fun x => negb (mem x v)) E).
Proof.
  intros I. induction E as [|y E IH]; cbn [filter]; [lia|].
  destruct (mem y v') eqn:M'; destruct (mem y v) eqn:M; cbn [negb length];
    try lia.
  apply mem_In in M. apply I in M. apply mem_In in M. congruence.
Qed.

Lemma filter_unvisited_lt (E v v' : list node) x :
  incl v v' -> In x E -> ~ In x v -> In x v' ->
  length (filter (fun x => negb (mem x v')) E)
  < length (filter (fun x => negb (mem x v)) E).
Proof.
  intros I Ix Nv Iv'. induction E as [|y E IH]; [destruct Ix|].
  cbn [filter]. pose proof (filter_unvisited_le E I) as Le.
  destruct Ix as [->|Ix].
  - apply mem_In in Iv'. apply mem_not_In in Nv. rewrite Iv', Nv.
    cbn [negb length]. lia.
  - specialize (IH Ix).
    destruct (mem y v') eqn:M'; destruct (mem y v) eqn:M; cbn [negb length];
      try lia.
    apply mem_In in M. apply I in M. apply mem_In in M. congruence.
Qed.

Lemma bfs_levels_nil vnr r fuel visited order parents :
  bfs_levels vnr r fuel [] visited order parents = (order, parents).
Proof. destruct fuel; reflexivity. Qed.

Lemma bfs_levels_fuel vnr r fuel :
  forall fuel' current visited order parents,
    unvisited vnr visited < fuel -> unvisited vnr visited < fuel' ->
    bfs_levels vnr r fuel current visited order parents
    = bfs_levels vnr r fuel' current visited order parents.
Proof.
  induction fuel as [|f IH]; intros fuel' current visited order parents U U';
    [lia|].
  destruct fuel' as [|f']; [lia|].
  destruct current as [|c current]; [reflexivity|].
  cbn [bfs_levels]. set (level := by_rank_desc r (c :: current)).
  destruct (bfs_next_level vnr level visited parents) as [[next v'] p']
    eqn:L.
  destruct next as [|x next]; [rewrite !bfs_levels_nil; reflexivity|].
  unfold bfs_next_level in L.
  pose proof (bfs_next_level_In _ _ _ _ _ L x (or_introl eq_refl)) as Ex.
  destruct Ex as [[]|Ex].
  eapply bfs_next_level_fresh with (visited0 := visited) in L;
    [|split; [constructor|]; split; [intros y []|];
      split; [intros y []|apply incl_refl]].
  destruct L as [_ [Fn [In' Iv]]].
  assert (D : unvisited vnr v' < unvisited vnr visited).
  { unfold unvisited. apply filter_unvisited_lt with (x := x).
    - exact Iv.
    - exact Ex.
    - apply Fn. left. reflexivity.
    - apply In'. left. reflexivity. }
  apply IH; lia.
Qed.

(** X20.  The [while] loop of [construct_bfs_tree_order] ends: every level
    but the last visits at least one node not visited before, so the loop
    makes at most one turn more than twice the number of virtual links, and
    allowing it more turns does not change the BFS order or the parents it
    returns.  On a request without nodes the function raises. *)
Theorem bfs_tree_construction_ends :
  forall vnr vnr_noderank more,
    match node_list vnr with
    | [] => construct_bfs_tree_order vnr vnr_noderank = None
    | n0 :: rest =>
        let root_node := max_by_rank vnr_noderank n0 rest in
        construct_bfs_tree_order vnr vnr_noderank
        = Some (bfs_levels vnr vnr_noderank
                           (S (2 * length (edges vnr)) + more)
                           [root_node] [root_node] [] [(root_node, None)])
    end.
Proof.
  intros vnr r more. unfold construct_bfs_tree_order.
  destruct (node_list vnr) as [|n0 rest]; [reflexivity|].
  cbv zeta. f_equal.
  assert (B : unvisited vnr [max_by_rank r n0 rest] <= 2 * length (edges vnr)).
  { unfold unvisited. etransitivity; [apply filter_length_le|].
    unfold endpoints. induction (edges vnr) as [|e l IHl]; simpl in *; lia. }
  apply bfs_levels_fuel; lia.
Qed.

(** ** The event loop keeps the books *)

Lemma deallocate_resources_amount g nm lm vnr g' :
  deallocate_resources g nm lm vnr = Some g' ->
  (forall n, get_cpu_available g' n
             = option_map (fun c => c + cpu_demand vnr nm n)%Z
                          (get_cpu_available g n))
  /\ (forall e, get_bandwidth_available g' e
                = option_map (fun b => b + bw_demand vnr lm e)%Z
                             (get_bandwidth_available g e)).
Proof.
  unfold deallocate_resources.
  destruct (deallocate_cpu g vnr nm) as [g1|] eqn:A; [|discriminate].
  intros B.
  destruct (deallocate_cpu_amount _ _ _ A) as [C1 B1].
  destruct (deallocate_bw_amount _ _ _ B) as [B2 C2].
  split.
  - intros n. rewrite C2. apply C1.
  - intros e. rewrite B2, B1. reflexivity.
Qed.

Lemma dict_del_absent {V} (d : dict nat V) id :
  ~ In id (dict_keys d) -> dict_del d id = d.
Proof.
  unfold dict_del, dict_keys.
  induction d as [|[k v] d IH]; cbn [filter map fst]; intros N;
    [reflexivity|].
  destruct (keyb k id) eqn:E.
  - apply keyb_eq in E. subst. exfalso. apply N. left. reflexivity.
  - cbn [negb]. f_equal. apply IH. intros I. apply N. right. exact I.
Qed.

Lemma zsum_dict_del {V} (f : V -> Z) (d : dict nat V) id x :
  NoDup (dict_keys d) -> dict_get d id = Some x ->
  zsum (map (fun e => f (snd e)) (dict_del d id))
  = (zsum (map (fun e => f (snd e)) d) - f x)%Z.
Proof.
  induction d as [|[k v] d IH]; cbn [dict_get dict_keys map fst];
    [discriminate|].
  intros N G. inversion N as [|? ? Nk N']; subst.
  unfold dict_del. cbn [filter fst].
  destruct (keyb k id) eqn:E.
  - apply keyb_eq in E. subst k. inversion G; subst v. cbn [negb].
    fold (dict_del d id). rewrite (dict_del_absent _ _ Nk).
    cbn [map snd]. rewrite zsum_cons. lia.
  - cbn [negb map snd]. fold (dict_del d id).
    rewrite !zsum_cons, (IH N' G). lia.
Qed.

Lemma zsum_dict_snoc {V} (f : V -> Z) (d : dict nat V) id x :
  zsum (map (fun e => f (snd e)) (d ++ [(id, x)]))
  = (zsum (map (fun e => f (snd e)) d) + f x)%Z.
Proof.
  rewrite map_app, zsum_app. cbn [map snd]. rewrite zsum_cons.
  change (zsum []) with 0%Z. lia.
Qed.

Lemma held_cpu_snoc d id (a : NodeMapping * LinkMapping * VNR) n :
  held_cpu (d ++ [(id, a)]) n
  = (held_cpu d n + cpu_demand (vnr_graph (snd a)) (fst (fst a)) n)%Z.
Proof.
  apply (zsum_dict_snoc
           (fun a : NodeMapping * LinkMapping * VNR =>
              cpu_demand (vnr_graph (snd a)) (fst (fst a)) n)).
Qed.

Lemma held_bw_snoc d id (a : NodeMapping * LinkMapping * VNR) e :
  held_bw (d ++ [(id, a)]) e
  = (held_bw d e + bw_demand (vnr_graph (snd a)) (snd (fst a)) e)%Z.
Proof.
  apply (zsum_dict_snoc
           (fun a : NodeMapping * LinkMapping * VNR =>
              bw_demand (vnr_graph (snd a)) (snd (fst a)) e)).
Qed.

Lemma held_cpu_del d id (a : NodeMapping * LinkMapping * VNR) n :
  NoDup (dict_keys d) -> dict_get d id = Some a ->
  held_cpu (dict_del d id) n
  = (held_cpu d n - cpu_demand (vnr_graph (snd a)) (fst (fst a)) n)%Z.
Proof.
  apply (zsum_dict_del
           (fun a : NodeMapping * LinkMapping * VNR =>
              cpu_demand (vnr_graph (snd a)) (fst (fst a)) n)).
Qed.

Lemma held_bw_del d id (a : NodeMapping * LinkMapping * VNR) e :
  NoDup (dict_keys d) -> dict_get d id = Some a ->
  held_bw (dict_del d id) e
  = (held_bw d e - bw_demand (vnr_graph (snd a)) (snd (fst a)) e)%Z.
Proof.
  apply (zsum_dict_del
           (fun a : NodeMapping * LinkMapping * VNR =>
              bw_demand (vnr_graph (snd a)) (snd (fst a)) e)).
Qed.

Section Conservation.
Variable algorithm_func : Graph -> Graph -> option Embedding.

Lemma on_arrival_resources t vnr st st' :
  on_arrival algorithm_func t vnr st = Some st' ->
  (substrate_working st' = substrate_working st
   /\ active_embeddings st' = active_embeddings st)
  \/ exists nm lm,
      allocate_resources (substrate_working st) nm lm (vnr_graph vnr)
      = Some (substrate_working st')
      /\ active_embeddings st'
         = dict_set (active_embeddings st) (vnr_id vnr) (nm, lm, vnr).
Proof.
  unfold on_arrival.
  destruct (algorithm_func _ _) as [[[nm lm] ok]|]; [|discriminate].
  destruct ok.
  - destruct nm as [nm|]; [|discriminate].
    destruct lm as [lm|]; [|discriminate].
    destruct (allocate_resources _ nm lm _) as [g|] eqn:A; [|discriminate].
    intros E. inversion E; subst. simpl. right. exists nm, lm. auto.
  - intros E. inversion E; subst. simpl. left. auto.
Qed.

Lemma on_departure_resources id st st' :
  on_departure id st = Some st' ->
  (dict_get (active_embeddings st) id = None
   /\ substrate_working st' = substrate_working st
   /\ active_embeddings st' = active_embeddings st)
  \/ exists nm lm vnr,
      dict_get (active_embeddings st) id = Some (nm, lm, vnr)
      /\ deallocate_resources (substrate_working st) nm lm (vnr_graph vnr)
         = Some (substrate_working st')
      /\ active_embeddings st' = dict_del (active_embeddings st) id.
Proof.
  unfold on_departure.
  destruct (dict_get (active_embeddings st) id) as [[[nm lm] vnr]|].
  - destruct (deallocate_resources _ nm lm _) as [g|] eqn:D; [|discriminate].
    intros E. inversion E; subst. simpl. right. exists nm, lm, vnr. auto.
  - intros E. inversion E; subst. left. auto.
Qed.

Lemma sim_turn_conserved initial arrivals st e st' :
  NoDup (map vnr_id arrivals) ->
  sim_turn algorithm_func st = Processed e st' ->
  loop_inv arrivals st ->
  conserved initial st /\ active_known st ->
  conserved initial st' /\ active_known st'.
Proof.
  intros Ids T [_ [_ [Arr R]]] [[Cpu Bw] [Nk Known]]. unfold sim_turn in T.
  destruct (nth_error (events st) (position st)) as [e0|] eqn:N;
    [|discriminate].
  destruct e0 as [t vnr|t id].
  - destruct (on_arrival _ _ _ _) as [st1|] eqn:E; [|discriminate].
    inversion T; subst e st1. clear T.
    pose proof (on_arrival_effect _ _ _ _ E) as [_ [[r [Er [Ei _]]] _]].
    cbn [results] in Er.
    assert (Known' : forall id, id = vnr_id vnr
                                \/ In id (dict_keys (active_embeddings st)) ->
                                In id (map res_vnr_id (results st'))).
    { intros id I. rewrite Er, map_app, in_app_iff. destruct I as [->|I].
      - right. left. exact Ei.
      - left. apply Known. exact I. }
    apply on_arrival_resources in E.
    cbn [substrate_working active_embeddings] in E.
    destruct E as [[Es Ea]|[nm [lm [A Ea]]]].
    + unfold conserved, active_known. rewrite Es, Ea.
      split; [split; assumption|]. split; [exact Nk|].
      intros id I. apply Known'. right. exact I.
    + assert (Fresh : ~ In (vnr_id vnr) (dict_keys (active_embeddings st))).
      { intros I. apply Known in I.
        assert (Q : map res_vnr_id (results st)
                    = map vnr_id
                          (arrivals_of (firstn (position st) (events st)))).
        { apply (f_equal (map fst)) in R. rewrite !map_map in R. exact R. }
        rewrite Q in I.
        rewrite <- Arr, <- (firstn_skipn (position st) (events st)) in Ids.
        rewrite (skipn_nth_error _ _ N), arrivals_of_app, map_app in Ids.
        cbn [arrivals_of flat_map app map] in Ids.
        apply NoDup_remove_2 in Ids. apply Ids.
        apply in_app_iff. left. exact I. }
      destruct (allocate_resources_amount _ _ _ _ A) as [C B].
      unfold conserved, active_known. rewrite Ea. split; [split|split].
      * intros n. rewrite C, Cpu, (@dict_set_fresh _ _ _ _ _ (nm, lm, vnr) Fresh).
        rewrite held_cpu_snoc. cbn [fst snd].
        destruct (get_cpu_available initial n); simpl; [|reflexivity].
        f_equal. lia.
      * intros l. rewrite B, Bw, (@dict_set_fresh _ _ _ _ _ (nm, lm, vnr) Fresh).
        rewrite held_bw_snoc. cbn [fst snd].
        destruct (get_bandwidth_available initial l); simpl; [|reflexivity].
        f_equal. lia.
      * apply dict_set_keys_NoDup. exact Nk.
      * intros id I. apply Known'. apply dict_set_keys in I. exact I.
  - destruct (on_departure _ _) as [st1|] eqn:E; [|discriminate].
    inversion T; subst e st1. clear T.
    pose proof (on_departure_effect _ _ E) as [_ [_ Er]].
    cbn [results] in Er.
    apply on_departure_resources in E.
    cbn [substrate_working active_embeddings] in E.
    unfold conserved, active_known. rewrite Er.
    destruct E as [[_ [Es Ea]]|[nm [lm [vnr [G [D Ea]]]]]]; rewrite Ea.
    + rewrite Es. split; [split; assumption|]. split; assumption.
    + destruct (deallocate_resources_amount _ _ _ _ D) as [C B].
      split; [split|split].
      * intros n. rewrite C, Cpu.
        rewrite (@held_cpu_del _ _ _ n Nk G). cbn [fst snd].
        destruct (get_cpu_available initial n); simpl; [|reflexivity].
        f_equal. lia.
      * intros l. rewrite B, Bw.
        rewrite (@held_bw_del _ _ _ l Nk G). cbn [fst snd].
        destruct (get_bandwidth_available initial l); simpl; [|reflexivity].
        f_equal. lia.
      * apply dict_del_keys_NoDup. exact Nk.
      * intros id' I. apply Known. unfold dict_keys, dict_del in *.
        apply in_map_iff in I. destruct I as [x [X I]].
        apply filter_In in I. apply in_map_iff. exists x. tauto.
Qed.

Lemma sim_run_conserved initial arrivals n : forall st,
    NoDup (map vnr_id arrivals) ->
    loop_inv arrivals st ->
    conserved initial st /\ active_known st ->
    conserved initial (snd (sim_run algorithm_func n st)).
Proof.
  induction n as [|n IH]; intros st Ids L [C K]; cbn [sim_run];
    [exact C|].
  destruct (sim_turn algorithm_func st) as [| |e st'] eqn:T;
    try exact C.
  destruct (sim_run algorithm_func n st') as [tr fin] eqn:Rn.
  change fin with (snd (tr, fin)). rewrite <- Rn.
  apply IH; [exact Ids| |].
  - eapply sim_turn_progress; eauto.
  - eapply sim_turn_conserved; eauto.
Qed.

(** X21.  The event loop keeps the books: when the requests of the queue
    have distinct identifiers and no negative lifetime, then in every state
    a run of [vne_simulation] passes through, the available CPU of each
    substrate node is its capacity less the CPU requirements the active
    embeddings place on it, and the available bandwidth of each substrate
    link is its capacity less the bandwidth the paths of the active
    embeddings take on it.  In particular all capacity is back once no
    embedding is active. *)
Theorem simulation_conserves_resources :
  forall substrate vnr_queue st0 st,
    NoDup (map vnr_id vnr_queue) ->
    (forall v, In v vnr_queue -> (0 <= lifetime v)%Z) ->
    sim_init substrate vnr_queue = Some st0 ->
    reachable algorithm_func substrate vnr_queue st ->
    (forall n, get_cpu_available (substrate_working st) n
               = option_map (fun c => c - held_cpu (active_embeddings st) n)%Z
                            (get_cpu_available (substrate_working st0) n))
    /\ (forall e, get_bandwidth_available (substrate_working st) e
                  = option_map
                      (fun b => b - held_bw (active_embeddings st) e)%Z
                      (get_bandwidth_available (substrate_working st0) e)).
Proof.
  intros substrate vnr_queue st0 st Ids Life I0 [st1 [n [I1 Rn]]].
  rewrite I0 in I1. inversion I1; subst st1. clear I1. subst st.
  destruct (sim_init_inv _ _ Life I0) as [L _].
  apply (@sim_run_conserved (substrate_working st0)
           (sorted_asc Z.ltb arrival_time vnr_queue)).
  - eapply Permutation_NoDup; [|exact Ids].
    apply Permutation_map. apply Permutation_sym.
    apply sorted_asc_Permutation.
  - exact L.
  - unfold sim_init in I0.
    destruct (reset_available substrate) as [g|]; [|discriminate].
    inversion I0; subst. unfold conserved, active_known, held_cpu, held_bw.
    cbn [substrate_working active_embeddings results map dict_keys].
    change (zsum []) with 0%Z.
    split; [split|split].
    + intros k. destruct (get_cpu_available g k); simpl; [|reflexivity].
      f_equal. lia.
    + intros e. destruct (get_bandwidth_available g e); simpl; [|reflexivity].
      f_equal. lia.
    + constructor.
    + intros id [].
Qed.
End Conservation.

Lemma simulation_conserves_resources_witness :
  NoDup (map vnr_id overlapping_queue)
  /\ (forall v, In v overlapping_queue -> (0 <= lifetime v)%Z)
  /\ exists st0,
      sim_init narrow_pair overlapping_queue = Some st0
      /\ reachable greedy_reference narrow_pair overlapping_queue
                   (snd (sim_run greedy_reference 2 st0))
      /\ forall e,
          get_bandwidth_available
            (substrate_working (snd (sim_run greedy_reference 2 st0))) e
          = option_map
              (fun b =>
                 b - held_bw (active_embeddings
                                (snd (sim_run greedy_reference 2 st0))) e)%Z
              (get_bandwidth_available (substrate_working st0) e).
Proof.
  assert (Ids : NoDup (map vnr_id overlapping_queue)).
  { simpl. repeat constructor; simpl; intuition discriminate. }
  assert (Life : forall v, In v overlapping_queue -> (0 <= lifetime v)%Z).
  { intros v [<-|[<-|[]]]; simpl; lia. }
  assert (E : exists st0, sim_init narrow_pair overlapping_queue = Some st0)
    by (vm_compute; eexists; reflexivity).
  destruct E as [st0 E].
  split; [exact Ids|]. split; [exact Life|].
  exists st0. split; [exact E|].
  assert (Rch : reachable greedy_reference narrow_pair overlapping_queue
                          (snd (sim_run greedy_reference 2 st0)))
    by (exists st0, 2; split; [exact E | reflexivity]).
  split; [exact Rch|].
  exact (proj2 (@simulation_conserves_resources greedy_reference
                  narrow_pair overlapping_queue st0 _ Ids Life E Rch)).
Defined.
